(** * Pedigree model and windowed variant cache of vase / vape

    A shallow embedding of
    - [vase/vase_runner.py]: [VariantCache], [CachedVariant] and the parts of
      [VaseRunner] that drive the cache ([process_record], [output_cache],
      [finish_up]) and that set up the inheritance filters;
    - [vape/vape_runner.py]: the older [VariantCache] and its driver;
    - [vape/ped_file.py]: [PedFile], [Family], [Individual].

    Python sets of feature names are [gset string]; Python lists are Rocq
    lists; dicts whose insertion order is observable are association lists.
    Exceptions are values of [exn] carried by the left summand of [result]. *)

From Stdlib Require Import ZArith Lia Ascii String.
From stdpp Require Import gmap strings list pretty.

Open Scope Z_scope.
Open Scope string_scope.
Open Scope list_scope.

(** ** Python exceptions *)

(** The exception classes that the modelled code raises.  [PedError] is the
    only class the repository declares ([class PedError(Exception)]); the
    rest are builtins. *)
Inductive exn : Type :=
  | Exception (msg : string)
  | PedError (msg : string)
  | ValueError
  | TypeError
  | IndexError.

(** [type(e).__name__] *)
Definition class_name (e : exn) : string :=
  match e with
  | Exception _ => "Exception"
  | PedError _ => "PedError"
  | ValueError => "ValueError"
  | TypeError => "TypeError"
  | IndexError => "IndexError"
  end.

(** [isinstance(e, PedError)]. *)
Definition is_PedError (e : exn) : bool :=
  match e with PedError _ => true | _ => false end.

(** [type(e) is Exception]: the plain base class, not a subclass. *)
Definition is_plain_Exception (e : exn) : bool :=
  match e with Exception _ => true | _ => false end.

Definition result (A : Type) : Type := exn + A.

Definition ok {A} (a : A) : result A := inr a.
Definition raise {A} (e : exn) : result A := inl e.

Definition bind {A B} (m : result A) (k : A -> result B) : result B :=
  match m with
  | inl e => inl e
  | inr a => k a
  end.

Notation "'try!' x <- m ; k" := (bind m (fun x => k))
  (at level 10, x pattern, m at level 100, k at level 200).

(** ** Variant records (the fields of [parse_vcf.VcfRecord] that are read) *)

(** One entry of [record.CSQ]; the cache reads [x['Feature']] only. *)
Record Csq : Type := { Feature : string }.

Record VcfRecord : Type := {
  CHROM : string;
  POS : Z;
  REF : string;
  ALT : string;
  ALLELES : list string;
  CSQ : list Csq
}.

(** [set([x['Feature'] for x in record.CSQ])] *)
Definition these_feats (record : VcfRecord) : gset string :=
  list_to_set (map Feature (CSQ record)).

(** Truth value of a Python set: non-empty. *)
Definition set_truthy (s : gset string) : bool := bool_decide (s ≠ ∅).

(** [a.isdisjoint(b)] *)
Definition isdisjoint (a b : gset string) : bool := bool_decide (a ## b).

(** [sum(filter_alleles) == len(filter_alleles)] on a list of booleans *)
Definition all_filtered (l : list bool) : bool :=
  bool_decide (length (filter (fun b => b = true) l) = length l).

(** [l[i] = v] for an index that is not negative *)
Definition set_item (l : list bool) (i : nat) (v : bool)
  : result (list bool) :=
  if bool_decide (i < length l)%nat then ok (<[i:=v]> l) else raise IndexError.

(** [range(1, len(record.ALLELES))] *)
Definition allele_indices (r : VcfRecord) : list nat :=
  seq 1 (length (ALLELES r) - 1).

(** ** vase_runner.py: the cache *)

Module Vase.

(** [CachedVariant]: [__slots__ = ['record', 'can_output', 'var_id']].
    A [CachedVariant] defines no [__eq__], so two of them are the same list
    member only when they are the same object: [oid] is the identity of the
    instance, handed out by the allocator when the constructor runs. *)
Record CachedVariant : Type := {
  oid : nat;
  record : VcfRecord;
  can_output : bool;
  var_id : string
}.

(** ["{}:{}-{}/{}".format(record.CHROM, record.POS, record.REF, record.ALT)] *)
Definition format_var_id (r : VcfRecord) : string :=
  CHROM r +:+ ":" +:+ pretty (POS r) +:+ "-" +:+ REF r +:+ "/" +:+ ALT r.

Definition CachedVariant__init__ (o : nat) (r : VcfRecord) (c : bool)
  : CachedVariant :=
  {| oid := o; record := r; can_output := c; var_id := format_var_id r |}.

(** [VariantCache]: [__slots__ = ['cache', 'features', 'output_ready']]. *)
Record VariantCache : Type := {
  cache : list CachedVariant;
  features : gset string;
  output_ready : list CachedVariant
}.

Definition VariantCache__init__ : VariantCache :=
  {| cache := []; features := ∅; output_ready := [] |}.

(** [self.output_ready.extend(self.cache); self.cache = []] *)
Definition add_cache_to_output_ready (self : VariantCache) : VariantCache :=
  {| cache := [];
     features := features self;
     output_ready := output_ready self ++ cache self |}.

(** [check_record]: the record is compared against the active features and
    is not stored. *)
Definition check_record (self : VariantCache) (r : VcfRecord) : VariantCache :=
  let feats := these_feats r in
  if set_truthy (features self) && isdisjoint feats (features self) then
    let self := add_cache_to_output_ready self in
    {| cache := cache self;
       features := ∅;                         (* self.features.clear() *)
       output_ready := output_ready self |}
  else self.

(** [add_record]; [o] is the identity of the [CachedVariant] it creates. *)
Definition add_record (self : VariantCache) (o : nat) (r : VcfRecord)
    (c : bool) : VariantCache :=
  let feats := these_feats r in
  let self :=
    if set_truthy (features self) && isdisjoint feats (features self) then
      let self := add_cache_to_output_ready self in
      {| cache := cache self;
         features := feats;                   (* self.features = these_feats *)
         output_ready := output_ready self |}
    else
      {| cache := cache self;
         features := features self ∪ feats;   (* self.features.update(...) *)
         output_ready := output_ready self |} in
  {| cache := cache self ++ [CachedVariant__init__ o r c];
     features := features self;
     output_ready := output_ready self |}.


(** Everything a cache stores, oldest entry first. *)
Definition held (self : VariantCache) : list CachedVariant :=
  output_ready self ++ cache self.

(** The command-line options that the modelled code reads. *)
Record Args : Type := {
  de_novo : bool;
  biallelic : bool;
  dominant : bool;
  singleton_recessive : list string;
  singleton_dominant : list string;
  min_families : Z
}.

(** *** Collaborators of the runner

    The inheritance checkers ([family_filter.py]), the annotation filters,
    the pedigree loader of the [vase] package and the burden counter are not
    part of the modelled files.  What the runner calls on them is collected
    here; a checker is a state that its methods transform. *)
Class Collaborators : Type := {
  Checker : Type;
  Segregants : Type;
  FamilyFilter : Type;
  PedFileT : Type;
  (** [self.filter_global(record)] *)
  filter_global : VcfRecord -> bool;
  (** [self.filter_alleles_external(record)]: [(verdict, remove_csq)] *)
  filter_alleles_external : VcfRecord -> list bool * option (list bool);
  (** [self.sample_filter.filter(record, i)] *)
  sample_filter_filter : VcfRecord -> nat -> bool;
  (** [self.control_filter.filter(record, i)] *)
  control_filter_filter : VcfRecord -> nat -> bool;
  (** [checker.process_record(record, ignore_alleles, ignore_csq)] *)
  dominant_process_record :
    Checker -> VcfRecord -> list bool -> option (list bool) -> bool * Checker;
  de_novo_process_record :
    Checker -> VcfRecord -> list bool -> option (list bool) -> bool * Checker;
  recessive_process_record :
    Checker -> VcfRecord -> list bool -> option (list bool) -> bool * Checker;
  (** [process_potential_recessives(final=...)] and its two siblings return
      a dict from variant identifier to segregants. *)
  process_potential_recessives :
    Checker -> bool -> gmap string Segregants * Checker;
  process_dominants : Checker -> bool -> gmap string Segregants * Checker;
  process_de_novos : Checker -> bool -> gmap string Segregants * Checker;
  (** [str(record)] *)
  str_record : VcfRecord -> string;
  (** What [_get_family_filter] does once it has decided not to raise:
      [_make_ped_io] when there is no pedigree, [FamilyFilter(...)], and the
      registration of control and singleton samples, which can raise. *)
  build_family_filter :
    option PedFileT -> Args -> result (PedFileT * FamilyFilter);
  (** The constructors [DeNovoFilter(family_filter, ...)] etc. *)
  DeNovoFilter : FamilyFilter -> Args -> Checker;
  RecessiveFilter : FamilyFilter -> Args -> Checker;
  DominantFilter : FamilyFilter -> Args -> Checker;
  (** [checker.affected] *)
  affected : Checker -> list string;
  (** the keys of [checker.get_header_fields()] *)
  get_header_fields : Checker -> list string
}.

Section Runner.
Context `{Collaborators}.

(** The attributes of [VaseRunner] that the modelled methods read or write.
    [sample_filter], [control_filter] and [burden_counter] record whether
    the attribute holds an object ([true]) or [None]; [out] is the text
    written so far; [logged] the warnings.

    Two components are not attributes.  [objects] is the store of the
    [CachedVariant] instances constructed so far, in order of construction;
    the position of an instance is its identity.  [disposed] is the history
    of the loop of [output_cache]: each variant it has visited, with [true]
    when it was written and [false] when it was counted as filtered. *)
Record VaseRunner : Type := {
  args : Args;
  ped : option PedFileT;
  sample_filter : bool;
  burden_counter : bool;
  de_novo_filter : option Checker;
  dominant_filter : option Checker;
  recessive_filter : option Checker;
  family_filter : option FamilyFilter;
  control_filter : bool;
  variant_cache : VariantCache;
  use_cache : bool;
  out : list string;
  var_written : Z;
  var_filtered : Z;
  logged : list string;
  objects : list CachedVariant;
  disposed : list (CachedVariant * bool)
}.

Definition set_variant_cache (self : VaseRunner) (vc : VariantCache) :=
  {| args := args self; ped := ped self; sample_filter := sample_filter self;
     burden_counter := burden_counter self;
     de_novo_filter := de_novo_filter self;
     dominant_filter := dominant_filter self;
     recessive_filter := recessive_filter self;
     family_filter := family_filter self;
     control_filter := control_filter self; variant_cache := vc;
     use_cache := use_cache self; out := out self;
     var_written := var_written self; var_filtered := var_filtered self;
     logged := logged self; objects := objects self;
     disposed := disposed self |}.

Definition set_checkers (self : VaseRunner)
    (dn dom rc : option Checker) :=
  {| args := args self; ped := ped self; sample_filter := sample_filter self;
     burden_counter := burden_counter self; de_novo_filter := dn;
     dominant_filter := dom; recessive_filter := rc;
     family_filter := family_filter self;
     control_filter := control_filter self;
     variant_cache := variant_cache self; use_cache := use_cache self;
     out := out self; var_written := var_written self;
     var_filtered := var_filtered self; logged := logged self;
     objects := objects self; disposed := disposed self |}.

(** [self.out.write(s); self.var_written += 1] *)
Definition write_out (self : VaseRunner) (s : string) :=
  {| args := args self; ped := ped self; sample_filter := sample_filter self;
     burden_counter := burden_counter self;
     de_novo_filter := de_novo_filter self;
     dominant_filter := dominant_filter self;
     recessive_filter := recessive_filter self;
     family_filter := family_filter self;
     control_filter := control_filter self;
     variant_cache := variant_cache self; use_cache := use_cache self;
     out := out self ++ [s]; var_written := var_written self + 1;
     var_filtered := var_filtered self; logged := logged self;
     objects := objects self; disposed := disposed self |}.

(** [self.var_filtered += 1] *)
Definition count_filtered (self : VaseRunner) :=
  {| args := args self; ped := ped self; sample_filter := sample_filter self;
     burden_counter := burden_counter self;
     de_novo_filter := de_novo_filter self;
     dominant_filter := dominant_filter self;
     recessive_filter := recessive_filter self;
     family_filter := family_filter self;
     control_filter := control_filter self;
     variant_cache := variant_cache self; use_cache := use_cache self;
     out := out self; var_written := var_written self;
     var_filtered := var_filtered self + 1; logged := logged self;
     objects := objects self; disposed := disposed self |}.

(** The constructor of [CachedVariant] has run: the instance is in the
    store. *)
Definition store_object (self : VaseRunner) (v : CachedVariant) :=
  {| args := args self; ped := ped self; sample_filter := sample_filter self;
     burden_counter := burden_counter self;
     de_novo_filter := de_novo_filter self;
     dominant_filter := dominant_filter self;
     recessive_filter := recessive_filter self;
     family_filter := family_filter self;
     control_filter := control_filter self;
     variant_cache := variant_cache self; use_cache := use_cache self;
     out := out self; var_written := var_written self;
     var_filtered := var_filtered self; logged := logged self;
     objects := objects self ++ [v]; disposed := disposed self |}.

(** The loop of [output_cache] has dealt with [v]. *)
Definition note_disposed (self : VaseRunner) (v : CachedVariant)
    (written : bool) :=
  {| args := args self; ped := ped self; sample_filter := sample_filter self;
     burden_counter := burden_counter self;
     de_novo_filter := de_novo_filter self;
     dominant_filter := dominant_filter self;
     recessive_filter := recessive_filter self;
     family_filter := family_filter self;
     control_filter := control_filter self;
     variant_cache := variant_cache self; use_cache := use_cache self;
     out := out self; var_written := var_written self;
     var_filtered := var_filtered self; logged := logged self;
     objects := objects self; disposed := disposed self ++ [(v, written)] |}.

(** *** [output_cache] and [finish_up] *)

(** The body of [for var in self.variant_cache.output_ready: ...]. *)
Definition output_var (keep_ids : gset string) (self : VaseRunner)
    (var : CachedVariant) : VaseRunner :=
  if can_output var || bool_decide (var_id var ∈ keep_ids) then
    note_disposed
      (write_out self (str_record (record var) +:+ "
")) var true
  else
    note_disposed (count_filtered self) var false.

(** One of the three blocks
    [if self.X_filter ...: vid_to_seg = ...; keep_ids.update(vid_to_seg.keys());
     if self.burden_counter: burden_vars[...] = vid_to_seg].
    [burden_vars] was bound by [burden_vars = dict] to the class [dict]
    itself, so the item assignment raises [TypeError]. *)
Definition resolve_block (active : bool) (burden : bool)
    (resolve : Checker -> bool -> gmap string Segregants * Checker)
    (final : bool) (checker : option Checker) (keep_ids : gset string)
  : result (gset string * option Checker) :=
  match checker with
  | Some c =>
      if active then
        let '(vid_to_seg, c') := resolve c final in
        let keep_ids := keep_ids ∪ dom vid_to_seg in
        if burden then raise TypeError else ok (keep_ids, Some c')
      else ok (keep_ids, Some c)
  | None => ok (keep_ids, None)
  end.

Definition output_cache (self : VaseRunner) (final : bool)
  : result VaseRunner :=
  let keep_ids : gset string := ∅ in
  let burden := burden_counter self in
  let many := bool_decide (min_families (args self) > 1) in
  try! (keep_ids, rc) <-
    resolve_block true burden process_potential_recessives final
      (recessive_filter self) keep_ids;
  try! (keep_ids, dom) <-
    resolve_block many burden process_dominants final
      (dominant_filter self) keep_ids;
  try! (keep_ids, dn) <-
    resolve_block many burden process_de_novos final
      (de_novo_filter self) keep_ids;
  let self := set_checkers self dn dom rc in
  let self :=
    if final then
      set_variant_cache self (add_cache_to_output_ready (variant_cache self))
    else self in
  let self :=
    foldl (output_var keep_ids) self (output_ready (variant_cache self)) in
  (* [self._burden_from_cache(burden_vars)] tests ['dominant' in dict] *)
  if burden then raise TypeError
  else
    ok (set_variant_cache self
          {| cache := cache (variant_cache self);
             features := features (variant_cache self);
             output_ready := [] |}).

(** [finish_up]; writing the burden counts and closing the report files
    touch no modelled attribute. *)
Definition finish_up (self : VaseRunner) : result VaseRunner :=
  if use_cache self then output_cache self true else ok self.

(** *** [process_record] *)

(** The loop over [self.sample_filter.filter(record, i)]; [None] when the
    loop executes [return] because every allele is filtered. *)
Fixpoint sample_loop (r : VcfRecord) (idx : list nat)
    (filter_alleles : list bool) : result (option (list bool)) :=
  match idx with
  | [] => ok (Some filter_alleles)
  | i :: idx =>
      try! filter_alleles <-
        (if sample_filter_filter r i
         then set_item filter_alleles (i - 1) true
         else ok filter_alleles);
      if all_filtered filter_alleles then ok None
      else sample_loop r idx filter_alleles
  end.

(** The loop over [self.control_filter.filter(record, i)]. *)
Fixpoint control_loop (r : VcfRecord) (idx : list nat)
    (dom_filter_alleles : list bool) : result (list bool) :=
  match idx with
  | [] => ok dom_filter_alleles
  | i :: idx =>
      match dom_filter_alleles !! (i - 1)%nat with
      | None => raise IndexError
      | Some true => control_loop r idx dom_filter_alleles
      | Some false =>
          try! dom_filter_alleles <-
            (if control_filter_filter r i
             then set_item dom_filter_alleles (i - 1) true
             else ok dom_filter_alleles);
          control_loop r idx dom_filter_alleles
      end
  end.

(** [hit = checker.process_record(...)] when the checker is there. *)
Definition run_checker
    (process :
       Checker -> VcfRecord -> list bool -> option (list bool) ->
       bool * Checker)
    (checker : option Checker) (r : VcfRecord) (alleles : list bool)
    (csq : option (list bool)) : bool * option Checker :=
  match checker with
  | Some c => let '(hit, c') := process c r alleles csq in (hit, Some c')
  | None => (false, None)
  end.

(** [self.variant_cache.add_record(record, can_output)] *)
Definition cache_add (self : VaseRunner) (r : VcfRecord) (c : bool)
  : VaseRunner :=
  let o := length (objects self) in
  store_object
    (set_variant_cache self (add_record (variant_cache self) o r c))
    (CachedVariant__init__ o r c).

(** [self.variant_cache.check_record(record)] *)
Definition cache_check (self : VaseRunner) (r : VcfRecord) : VaseRunner :=
  set_variant_cache self (check_record (variant_cache self) r).

(** The [if self.use_cache:] branch of [process_record]. *)
Definition process_cached (self : VaseRunner) (r : VcfRecord)
    (denovo_hit dom_hit recessive_hit : bool) : result VaseRunner :=
  let self :=
    if denovo_hit || dom_hit || recessive_hit then
      let keep_record_anyway :=
        if bool_decide (min_families (args self) < 2)
        then denovo_hit || dom_hit else false in
      cache_add self r keep_record_anyway
    else
      count_filtered (cache_check self r) in
  match output_ready (variant_cache self) with
  | [] => ok self
  | _ :: _ => output_cache self false
  end.

Definition process_record (self : VaseRunner) (r : VcfRecord)
  : result VaseRunner :=
  if filter_global r then ok (count_filtered self)
  else
    let '(filter_alleles, filter_csq) := filter_alleles_external r in
    if all_filtered filter_alleles then ok (count_filtered self)
    else
      try! sampled <-
        (if sample_filter self
         then sample_loop r (allele_indices r) filter_alleles
         else ok (Some filter_alleles));
      match sampled with
      | None => ok (count_filtered self)
      | Some filter_alleles =>
          try! dom_filter_alleles <-
            (if control_filter self
             then control_loop r (allele_indices r) filter_alleles
             else ok filter_alleles);
          let '(dom_hit, dom) :=
            run_checker dominant_process_record (dominant_filter self) r
              dom_filter_alleles filter_csq in
          let '(denovo_hit, dn) :=
            run_checker de_novo_process_record (de_novo_filter self) r
              dom_filter_alleles filter_csq in
          let '(recessive_hit, rc) :=
            run_checker recessive_process_record (recessive_filter self) r
              filter_alleles filter_csq in
          let self := set_checkers self dn dom rc in
          if use_cache self then
            process_cached self r denovo_hit dom_hit recessive_hit
          else if bool_decide (is_Some (de_novo_filter self))
                  || bool_decide (is_Some (dominant_filter self)) then
            if denovo_hit || dom_hit then
              ok (write_out self (str_record r +:+ "
"))
            else ok self
          else if all_filtered filter_alleles then ok (count_filtered self)
          else
            (* [self.burden_counter.count(...)] touches the counter only *)
            ok (write_out self (str_record r +:+ "
"))
      end.

(** [run]: [for record in self.input.parser: self.process_record(record)],
    then [self.finish_up()]. *)
Fixpoint process_records (self : VaseRunner) (rs : list VcfRecord)
  : result VaseRunner :=
  match rs with
  | [] => ok self
  | r :: rs => try! self <- process_record self r; process_records self rs
  end.

Definition run (self : VaseRunner) (rs : list VcfRecord)
  : result VaseRunner :=
  try! self <- process_records self rs; finish_up self.

(** *** Setting up the inheritance filters (from [__init__]) *)

Definition set_filters_setup (self : VaseRunner)
    (p : option PedFileT) (ff : option FamilyFilter) (cf : bool)
    (dn dom rc : option Checker) (uc : bool) (lg : list string) :=
  {| args := args self; ped := p; sample_filter := sample_filter self;
     burden_counter := burden_counter self; de_novo_filter := dn;
     dominant_filter := dom; recessive_filter := rc; family_filter := ff;
     control_filter := cf; variant_cache := variant_cache self;
     use_cache := uc; out := out self; var_written := var_written self;
     var_filtered := var_filtered self; logged := lg;
     objects := objects self; disposed := disposed self |}.

Definition no_ped_msg : string :=
  "Inheritance filtering options require a " +:+
  "PED file specified using --ped or else " +:+
  "samples specified using " +:+
  "--singleton_recessive or " +:+
  "--singleton_dominant arguments".

(** [_get_family_filter]; returns the runner together with the family
    filter it now holds. *)
Definition _get_family_filter (self : VaseRunner)
  : result (VaseRunner * FamilyFilter) :=
  match family_filter self with
  | Some ff => ok (self, ff)
  | None =>
      if bool_decide (ped self = None)
         && bool_decide (singleton_recessive (args self) = [])
         && bool_decide (singleton_dominant (args self) = [])
      then raise (Exception no_ped_msg)
      else
        try! (p, ff) <- build_family_filter (ped self) (args self);
        ok (set_filters_setup self (Some p) (Some ff) (control_filter self)
              (de_novo_filter self) (dominant_filter self)
              (recessive_filter self) (use_cache self) (logged self), ff)
  end.

(** [_get_control_filter] *)
Definition _get_control_filter (self : VaseRunner) : VaseRunner :=
  if control_filter self then self
  else
    set_filters_setup self (ped self) (family_filter self) true
      (de_novo_filter self) (dominant_filter self) (recessive_filter self)
      (use_cache self) (logged self).

Definition dominant_msg : string :=
  "No samples fit a dominant model - can not use dominant " +:+ "filtering".
Definition de_novo_msg : string :=
  "No samples fit a de novo model - can not use de novo " +:+ "filtering".
Definition recessive_msg : string :=
  "No samples fit a recessive model - can not use biallelic" +:+
  " filtering".
Definition continue_msg : string := ". Will continue with other models.".

(** [self.logger.warn(msg)] *)
Definition warn (self : VaseRunner) (msg : string) : VaseRunner :=
  set_filters_setup self (ped self) (family_filter self) (control_filter self)
    (de_novo_filter self) (dominant_filter self) (recessive_filter self)
    (use_cache self) (logged self ++ [msg]).

(** [for f, d in checker.get_header_fields().items(): ...
        if self.args.min_families > 1: self.use_cache = True] *)
Definition use_cache_from_header (self : VaseRunner) (c : Checker) : bool :=
  match get_header_fields c with
  | [] => use_cache self
  | _ :: _ =>
      if bool_decide (min_families (args self) > 1) then true
      else use_cache self
  end.

Definition _get_dominant_filter (self : VaseRunner) : result VaseRunner :=
  try! (self, ff) <- _get_family_filter self;
  let self := _get_control_filter self in
  let c := DominantFilter ff (args self) in
  match affected c with
  | [] =>
      if negb (biallelic (args self)) && negb (de_novo (args self)) then
        raise (Exception ("Error: " +:+ dominant_msg))
      else
        let self := warn self (dominant_msg +:+ continue_msg) in
        ok (set_filters_setup self (ped self) (family_filter self)
              (control_filter self) (de_novo_filter self) None
              (recessive_filter self) (use_cache self) (logged self))
  | _ :: _ =>
      ok (set_filters_setup self (ped self) (family_filter self)
            (control_filter self) (de_novo_filter self) (Some c)
            (recessive_filter self) (use_cache_from_header self c)
            (logged self))
  end.

Definition _get_de_novo_filter (self : VaseRunner) : result VaseRunner :=
  try! (self, ff) <- _get_family_filter self;
  let self := _get_control_filter self in
  let c := DeNovoFilter ff (args self) in
  match affected c with
  | [] =>
      if negb (biallelic (args self)) && negb (dominant (args self)) then
        raise (Exception ("Error: " +:+ de_novo_msg))
      else
        let self := warn self (de_novo_msg +:+ continue_msg) in
        ok (set_filters_setup self (ped self) (family_filter self)
              (control_filter self) None (dominant_filter self)
              (recessive_filter self) (use_cache self) (logged self))
  | _ :: _ =>
      ok (set_filters_setup self (ped self) (family_filter self)
            (control_filter self) (Some c) (dominant_filter self)
            (recessive_filter self) (use_cache_from_header self c)
            (logged self))
  end.

Definition _get_recessive_filter (self : VaseRunner) : result VaseRunner :=
  try! (self, ff) <- _get_family_filter self;
  let c := RecessiveFilter ff (args self) in
  match affected c with
  | [] =>
      if negb (de_novo (args self)) && negb (dominant (args self)) then
        raise (Exception ("Error: " +:+ recessive_msg))
      else
        let self := warn self (recessive_msg +:+ continue_msg) in
        ok (set_filters_setup self (ped self) (family_filter self)
              (control_filter self) (de_novo_filter self)
              (dominant_filter self) None (use_cache self) (logged self))
  | _ :: _ =>
      ok (set_filters_setup self (ped self) (family_filter self)
            (control_filter self) (de_novo_filter self)
            (dominant_filter self) (Some c) true (logged self))
  end.

Definition no_filters_msg : string :=
  "No inheritance filters could be created " +:+
  "with current settings. Please check your " +:+
  "ped/sample inputs or run without --biallelic" +:+
  "/--dominant/--de_novo options.".

Definition _check_got_inherit_filter (self : VaseRunner)
  : result VaseRunner :=
  if de_novo (args self) || biallelic (args self) || dominant (args self) then
    match recessive_filter self, de_novo_filter self, dominant_filter self with
    | None, None, None => raise (Exception no_filters_msg)
    | _, _, _ => ok self
    end
  else ok self.

(** Truth value of a Python list *)
Definition list_truthy {A} (l : list A) : bool :=
  match l with [] => false | _ :: _ => true end.

(** The part of [__init__] from [self.de_novo_filter = None] on; the
    arguments stand for the attributes set before it, and
    [get_report_filehandles], which opens the report files, has
    returned. *)
Definition VaseRunner__init__ (a : Args) (p : option PedFileT)
    (sample burden : bool) : result VaseRunner :=
  let self :=
    {| args := a; ped := p; sample_filter := sample;
       burden_counter := burden;
       de_novo_filter := None; dominant_filter := None;
       recessive_filter := None; family_filter := None;
       control_filter := false;
       variant_cache := VariantCache__init__; use_cache := false;
       out := []; var_written := 0; var_filtered := 0;
       logged := []; objects := []; disposed := [] |} in
  try! self <- (if de_novo a then _get_de_novo_filter self else ok self);
  try! self <-
    (if biallelic a || list_truthy (singleton_recessive a)
     then _get_recessive_filter self else ok self);
  try! self <-
    (if dominant a || list_truthy (singleton_dominant a)
     then _get_dominant_filter self else ok self);
  _check_got_inherit_filter self.

End Runner.

End Vase.

(** ** vape_runner.py: the older cache and its driver *)

Module Vape.

(** [CachedVariant]: [__slots__ = ['record', 'can_output', 'var_id',
    'ignore_alleles', 'ignore_csq']]; [oid] is the identity of the object. *)
Record CachedVariant : Type := {
  oid : nat;
  record : VcfRecord;
  can_output : bool;
  ignore_alleles : list bool;
  ignore_csq : option (list bool);
  var_id : string
}.

Definition CachedVariant__init__ (o : nat) (r : VcfRecord)
    (ia : list bool) (ic : option (list bool)) (c : bool) : CachedVariant :=
  {| oid := o; record := r; can_output := c; ignore_alleles := ia;
     ignore_csq := ic; var_id := Vase.format_var_id r |}.

Record VariantCache : Type := {
  cache : list CachedVariant;
  features : gset string;
  output_ready : list CachedVariant
}.

Definition VariantCache__init__ : VariantCache :=
  {| cache := []; features := ∅; output_ready := [] |}.

(** [add_record]: on a closed window [self.output_ready = self.cache]
    replaces the output-ready list. *)
Definition add_record (self : VariantCache) (o : nat) (r : VcfRecord)
    (ia : list bool) (ic : option (list bool)) (c : bool) : VariantCache :=
  let feats := these_feats r in
  let self :=
    if set_truthy (features self) && isdisjoint feats (features self) then
      {| cache := []; features := feats; output_ready := cache self |}
    else
      {| cache := cache self;
         features := features self ∪ feats;
         output_ready := output_ready self |} in
  {| cache := cache self ++ [CachedVariant__init__ o r ia ic c];
     features := features self;
     output_ready := output_ready self |}.

(** The collaborators of [VapeRunner]. *)
Class Collaborators : Type := {
  Checker : Type;
  DeNovo : Type;
  filter_global : VcfRecord -> bool;
  filter_alleles_external : VcfRecord -> list bool * option (list bool);
  sample_filter_filter : VcfRecord -> nat -> bool;
  (** [f.filter(record, i)] for [f] in [self.de_novo_filters] *)
  de_novo_filter : DeNovo -> VcfRecord -> nat -> bool;
  recessive_process_record :
    Checker -> VcfRecord -> list bool -> option (list bool) -> bool * Checker;
  (** [process_potential_recessives()]: the identifiers that pass *)
  process_potential_recessives : Checker -> list string * Checker;
  str_record : VcfRecord -> string
}.

Section Runner.
Context `{Collaborators}.

(** [objects] and [disposed] are the store of constructed [CachedVariant]
    instances and the history of the output loops, as in the model of
    [VaseRunner]. *)
Record VapeRunner : Type := {
  sample_filter : bool;
  de_novo_filters : option (list DeNovo);
  recessive_filter : option Checker;
  variant_cache : VariantCache;
  out : list string;
  objects : list CachedVariant;
  disposed : list (CachedVariant * bool)
}.

Definition sample_loop :=
  fix go (r : VcfRecord) (idx : list nat) (filter_alleles : list bool)
    : result (option (list bool)) :=
    match idx with
    | [] => ok (Some filter_alleles)
    | i :: idx =>
        try! filter_alleles <-
          (if sample_filter_filter r i
           then set_item filter_alleles (i - 1) true
           else ok filter_alleles);
        if all_filtered filter_alleles then ok None
        else go r idx filter_alleles
    end.

(** [dom_filter]: an allele that is not ignored yet becomes ignored when
    some de novo filter removes it ([remove_alleles[i]]) and none keeps it
    ([keep_alleles[i]]).  The annotation of the record is not modelled. *)
Definition dom_filter_allele (fs : list DeNovo) (r : VcfRecord) (i : nat)
    (ignored : bool) : bool :=
  if ignored then true
  else
    let remove := existsb (fun f => de_novo_filter f r (i + 1)) fs in
    let keep := existsb (fun f => negb (de_novo_filter f r (i + 1))) fs in
    remove && negb keep.

Definition dom_filter (self : VapeRunner) (r : VcfRecord)
    (ignore_alleles : list bool) : result (list bool) :=
  let n := (length (ALLELES r) - 1)%nat in
  match de_novo_filters self with
  | Some (f :: fs) =>
      if bool_decide (n <= length ignore_alleles)%nat then
        ok (imap (fun i b =>
                    if bool_decide (i < n)%nat
                    then dom_filter_allele (f :: fs) r i b else b)
              ignore_alleles)
      else raise IndexError
  | _ => ok ignore_alleles
  end.

Definition write_out (self : VapeRunner) (s : string) : VapeRunner :=
  {| sample_filter := sample_filter self;
     de_novo_filters := de_novo_filters self;
     recessive_filter := recessive_filter self;
     variant_cache := variant_cache self;
     out := out self ++ [s];
     objects := objects self;
     disposed := disposed self |}.

Definition note_disposed (self : VapeRunner) (v : CachedVariant)
    (written : bool) : VapeRunner :=
  {| sample_filter := sample_filter self;
     de_novo_filters := de_novo_filters self;
     recessive_filter := recessive_filter self;
     variant_cache := variant_cache self;
     out := out self;
     objects := objects self;
     disposed := disposed self ++ [(v, written)] |}.

(** The body of [for var in ...: if var.can_output or var.var_id in rec_ids:
    self.out.write(str(var.record) + '\n')]. *)
Definition output_var (rec_ids : list string) (self : VapeRunner)
    (var : CachedVariant) : VapeRunner :=
  if can_output var || bool_decide (var_id var ∈ rec_ids) then
    note_disposed
      (write_out self (str_record (record var) +:+ "
")) var true
  else note_disposed self var false.

Definition set_cache (self : VapeRunner) (rc : option Checker)
    (vc : VariantCache) : VapeRunner :=
  {| sample_filter := sample_filter self;
     de_novo_filters := de_novo_filters self;
     recessive_filter := rc;
     variant_cache := vc;
     out := out self;
     objects := objects self;
     disposed := disposed self |}.

Definition store_object (self : VapeRunner) (v : CachedVariant)
  : VapeRunner :=
  {| sample_filter := sample_filter self;
     de_novo_filters := de_novo_filters self;
     recessive_filter := recessive_filter self;
     variant_cache := variant_cache self;
     out := out self;
     objects := objects self ++ [v];
     disposed := disposed self |}.

Definition clear_output_ready (vc : VariantCache) : VariantCache :=
  {| cache := cache vc; features := features vc; output_ready := [] |}.

(** [self.variant_cache.add_record(record, filter_alleles, filter_csq,
    dom_hit)] *)
Definition cache_add (self : VapeRunner) (r : VcfRecord) (ia : list bool)
    (ic : option (list bool)) (c : bool) : VapeRunner :=
  let o := length (objects self) in
  store_object
    (set_cache self (recessive_filter self)
       (add_record (variant_cache self) o r ia ic c))
    (CachedVariant__init__ o r ia ic c).

(** The [if self.variant_cache.output_ready:] block of [process_record]. *)
Definition flush_ready (self : VapeRunner) (c : Checker) : VapeRunner :=
  match output_ready (variant_cache self) with
  | [] => self
  | ready =>
      let '(rec_ids, c) := process_potential_recessives c in
      let self := foldl (output_var rec_ids) self ready in
      set_cache self (Some c) (clear_output_ready (variant_cache self))
  end.

Definition process_record (self : VapeRunner) (r : VcfRecord)
  : result VapeRunner :=
  if filter_global r then ok self
  else
    let '(filter_alleles, filter_csq) := filter_alleles_external r in
    if all_filtered filter_alleles then ok self
    else
      try! sampled <-
        (if sample_filter self
         then sample_loop r (allele_indices r) filter_alleles
         else ok (Some filter_alleles));
      match sampled with
      | None => ok self
      | Some filter_alleles =>
          (* [dom_filter] updates [filter_alleles] in place and returns it *)
          try! filter_alleles <- dom_filter self r filter_alleles;
          match recessive_filter self with
          | Some c =>
              let dom_hit := false in
              let '(hit, c) :=
                recessive_process_record c r filter_alleles filter_csq in
              let self := set_cache self (Some c) (variant_cache self) in
              let self :=
                if hit || dom_hit
                then cache_add self r filter_alleles filter_csq dom_hit
                else self in
              ok (flush_ready self c)
          | None =>
              if all_filtered filter_alleles then ok self
              else ok (write_out self (str_record r +:+ "
"))
          end
      end.

Definition finish_up (self : VapeRunner) : VapeRunner :=
  match recessive_filter self with
  | Some c =>
      let '(rec_ids, c) := process_potential_recessives c in
      let self :=
        foldl (output_var rec_ids) self
          (output_ready (variant_cache self) ++ cache (variant_cache self)) in
      set_cache self (Some c) (clear_output_ready (variant_cache self))
  | None => self
  end.

Fixpoint process_records (self : VapeRunner) (rs : list VcfRecord)
  : result VapeRunner :=
  match rs with
  | [] => ok self
  | r :: rs => try! self <- process_record self r; process_records self rs
  end.

End Runner.

End Vape.

(** ** ped_file.py *)

Module Ped.

(** *** The Python builtins the parser relies on (on text of code points below 256) *)

(** A character stands for the code point of its number (0 to 255).

    [c.isspace()], the white space of [str.split] and [str.rstrip]: tab,
    line feed, vertical tab, form feed, carriage return, the four separators
    0x1c-0x1f, the blank, and above the ASCII range the next-line character
    0x85 and the no-break space 0xa0. *)
Definition is_space (c : ascii) : bool :=
  let n := nat_of_ascii c in
  ((9 <=? n) && (n <=? 13) || (28 <=? n) && (n <=? 32)
   || (n =? 133) || (n =? 160))%nat.

Fixpoint lstrip (l : list ascii) : list ascii :=
  match l with
  | c :: l' => if is_space c then lstrip l' else l
  | [] => []
  end.

(** [line.rstrip()] *)
Definition rstrip (l : list ascii) : list ascii := rev (lstrip (rev l)).

(** [line.split()]: the maximal runs of characters that are not white
    space; [cur] is the run being read, last character first. *)
Fixpoint split_ws (l : list ascii) (cur : list ascii) : list (list ascii) :=
  match l with
  | [] => match cur with [] => [] | _ :: _ => [rev cur] end
  | c :: l =>
      if is_space c then
        match cur with
        | [] => split_ws l []
        | _ :: _ => rev cur :: split_ws l []
        end
      else split_ws l (c :: cur)
  end.

Definition split (line : string) : list string :=
  map string_of_list_ascii (split_ws (list_ascii_of_string line) []).

Definition digit_of (c : ascii) : option Z :=
  let n := nat_of_ascii c in
  if ((48 <=? n) && (n <=? 57))%nat then Some (Z.of_nat n - 48) else None.

(** The digits of an integer literal as [int] reads them: decimal digits,
    single underscores allowed between two digits. *)
Fixpoint parse_digits (l : list ascii) (acc : Z) (after_digit : bool)
  : option Z :=
  match l with
  | [] => if after_digit then Some acc else None
  | c :: l =>
      match digit_of c with
      | Some d => parse_digits l (10 * acc + d) true
      | None =>
          if bool_decide (c = "_"%char) && after_digit
          then parse_digits l acc false
          else None
      end
  end.

(** The white space [int] skips around a literal is narrower than that of
    [str.strip]: of the characters below 127 only the six of C's [isspace]
    (tab, line feed, vertical tab, form feed, carriage return, blank), so
    the separators 0x1c-0x1f are not skipped; a white space character from
    127 on is read as a blank. *)
Definition is_int_space (c : ascii) : bool :=
  let n := nat_of_ascii c in
  ((9 <=? n) && (n <=? 13) || (n =? 32) || (n =? 133) || (n =? 160))%nat.

Fixpoint int_lstrip (l : list ascii) : list ascii :=
  match l with
  | c :: l' => if is_int_space c then int_lstrip l' else l
  | [] => []
  end.

Definition int_strip (l : list ascii) : list ascii :=
  rev (int_lstrip (rev (int_lstrip l))).

(** [int(s)] for a string: surrounding white space (as [int] skips it), an
    optional sign, then the digits. *)
Definition int_of_string (s : string) : option Z :=
  match int_strip (list_ascii_of_string s) with
  | "+"%char :: l => parse_digits l 0 false
  | "-"%char :: l => Z.opp <$> parse_digits l 0 false
  | l => parse_digits l 0 false
  end.

(** *** Values and the object store *)

(** Identifiers and codes are strings (the columns of a PED file) or
    integers ([vase_runner.py] builds [Individual(s, s, 0, 0, 0, 2)]). *)
Inductive scalar : Type :=
  | SStr (s : string)
  | SInt (z : Z).

#[global] Instance scalar_eq_dec : EqDecision scalar.
Proof. solve_decision. Defined.

Definition loc : Type := nat.

(** What a relationship argument or a list element can be. *)
Inductive pyval : Type :=
  | VNone
  | VStr (s : string)
  | VInt (z : Z)
  | VList (l : loc).

#[global] Instance pyval_eq_dec : EqDecision pyval.
Proof. solve_decision. Defined.

Definition of_scalar (x : scalar) : pyval :=
  match x with SStr s => VStr s | SInt z => VInt z end.

(** [int(x)] *)
Definition py_int (x : scalar) : result Z :=
  match x with
  | SInt z => ok z
  | SStr s =>
      match int_of_string s with
      | Some z => ok z
      | None => raise ValueError
      end
  end.

(** [str(x)], as [format] renders an identifier *)
Definition py_str (x : scalar) : string :=
  match x with SStr s => s | SInt z => pretty z end.

(** An [Individual] object; the three relationship attributes are
    references to list objects. *)
Record Individual : Type := {
  fid : scalar;
  iid : scalar;
  father : scalar;
  mother : scalar;
  sex : Z;
  phenotype : Z;
  siblings : loc;
  half_siblings : loc;
  children : loc
}.

#[global] Instance Individual_inhabited : Inhabited Individual :=
  populate {| fid := SStr ""; iid := SStr ""; father := SStr "";
              mother := SStr ""; sex := 0; phenotype := 0;
              siblings := 0%nat; half_siblings := 0%nat;
              children := 0%nat |}.

(** The store: list objects and [Individual] objects by address. *)
Record heap : Type := {
  lists : gmap loc (list pyval);
  indivs : gmap loc Individual
}.

Definition allocated_locs (h : heap) : gset loc :=
  dom (lists h) ∪ dom (indivs h).

(** The address of the next object. *)
Definition new_loc (h : heap) : loc := fresh (allocated_locs h).

Definition set_list (h : heap) (l : loc) (items : list pyval) : heap :=
  {| lists := <[l := items]> (lists h); indivs := indivs h |}.

Definition set_indiv (h : heap) (l : loc) (i : Individual) : heap :=
  {| lists := lists h; indivs := <[l := i]> (indivs h) |}.

Definition get_list (h : heap) (l : loc) : list pyval := lists h !!! l.
Definition get_indiv (h : heap) (l : loc) : Individual := indivs h !!! l.

(** [[]] or [[x]]: a new list object *)
Definition alloc_list (h : heap) (items : list pyval) : heap * loc :=
  let l := new_loc h in (set_list h l items, l).

(** [lst.append(x)] *)
Definition append (h : heap) (l : loc) (x : pyval) : heap :=
  set_list h l (get_list h l ++ [x]).

(** Truth value of an argument: [None], the empty string, zero and an
    empty list are false. *)
Definition truthy (h : heap) (v : pyval) : bool :=
  match v with
  | VNone => false
  | VStr s => negb (bool_decide (s = ""))
  | VInt z => negb (bool_decide (z = 0))
  | VList l => match get_list h l with [] => false | _ :: _ => true end
  end.

(** *** [class Individual] *)

(** The default values [siblings=[], half_siblings=[], children=[]] are
    three list objects made once, when the [def] is executed. *)
Definition default_siblings : loc := 0%nat.
Definition default_half_siblings : loc := 1%nat.
Definition default_children : loc := 2%nat.

(** The store right after the module is imported. *)
Definition module_heap : heap :=
  {| lists := <[default_children := []]>
                (<[default_half_siblings := []]>
                   (<[default_siblings := []]> ∅));
     indivs := ∅ |}.

(** [if x: lst.append(x)] *)
Definition append_if (h : heap) (l : loc) (arg : pyval) : heap :=
  if truthy h arg then append h l arg else h.

(** [Individual.__init__]: returns the store and the address of the new
    object. *)
Definition Individual__init__ (h : heap)
    (fid_ iid_ father_ mother_ sex_ phenotype_ : scalar)
    (siblings_ half_siblings_ children_ : pyval) : result (heap * loc) :=
  let self := new_loc h in
  let sex_ :=
    match py_int sex_ with
    | inr z => z
    | inl _ => 0     (* except ValueError: self.sex = 0 *)
    end in
  try! phenotype_ <- py_int phenotype_;
  (* the object is allocated before its three lists; the list attributes
     are not set yet and get their value in the last step *)
  let h :=
    set_indiv h self
      {| fid := fid_; iid := iid_; father := father_; mother := mother_;
         sex := sex_; phenotype := phenotype_;
         siblings := 0%nat; half_siblings := 0%nat; children := 0%nat |} in
  let '(h, s) := alloc_list h [] in        (* self.siblings = [] *)
  let '(h, hs) := alloc_list h [] in       (* self.half_siblings = [] *)
  let '(h, ch) := alloc_list h [] in       (* self.children = [] *)
  let h := append_if h s siblings_ in
  let h := append_if h hs half_siblings_ in
  let h := append_if h ch children_ in
  ok (set_indiv h self
        {| fid := fid_; iid := iid_; father := father_; mother := mother_;
           sex := sex_; phenotype := phenotype_;
           siblings := s; half_siblings := hs; children := ch |},
      self).

(** [Individual(fid, iid, father, mother, sex, phenotype)] with the three
    relationship arguments omitted. *)
Definition Individual6 (h : heap)
    (fid_ iid_ father_ mother_ sex_ phenotype_ : scalar)
  : result (heap * loc) :=
  Individual__init__ h fid_ iid_ father_ mother_ sex_ phenotype_
    (VList default_siblings) (VList default_half_siblings)
    (VList default_children).

Definition is_affected (self : Individual) : bool :=
  bool_decide (phenotype self = 2).
Definition is_unaffected (self : Individual) : bool :=
  bool_decide (phenotype self = 1).
Definition is_unknown_phenotype (self : Individual) : bool :=
  bool_decide (phenotype self ≠ 1) && bool_decide (phenotype self ≠ 2).
Definition is_male (self : Individual) : bool :=
  bool_decide (sex self = 1).
Definition is_female (self : Individual) : bool :=
  bool_decide (sex self = 2).
Definition is_unknown_gender (self : Individual) : bool :=
  bool_decide (sex self ≠ 1) && bool_decide (sex self ≠ 2).

(** *** Dicts whose iteration order is observable *)

Definition dict (V : Type) : Type := list (scalar * V).

(** [key in d] *)
Definition dict_mem {V} (d : dict V) (k : scalar) : bool :=
  bool_decide (k ∈ map fst d).

(** [d[key]] for a key that is present *)
Fixpoint dict_get {V} (d : dict V) (k : scalar) : option V :=
  match d with
  | [] => None
  | (k', v) :: d => if bool_decide (k' = k) then Some v else dict_get d k
  end.

(** [d[key] = value]: a present key keeps its place, a new one goes last *)
Fixpoint dict_set {V} (d : dict V) (k : scalar) (v : V) : dict V :=
  match d with
  | [] => [(k, v)]
  | (k', v') :: d =>
      if bool_decide (k' = k) then (k, v) :: d
      else (k', v') :: dict_set d k v
  end.

(** [d.values()] *)
Definition dict_values {V} (d : dict V) : list V := map snd d.

(** *** [class Family] *)

Record Family : Type := {
  f_fid : scalar;
  f_individuals : dict loc;     (* iid -> Individual object *)
  f_parents : dict loc;         (* parent id -> list of children ids *)
  f_founder : option scalar
}.

Definition unknown_parent : scalar := SStr "0".

(** The two tests of the loop of [add_individual], on the member [i] and
    the individual being added. *)
Definition full_sibs (i individual : Individual) : bool :=
  bool_decide (mother i ≠ unknown_parent)
  && bool_decide (mother i = mother individual)
  && bool_decide (father i ≠ unknown_parent)
  && bool_decide (father i = father individual).

Definition half_sibs (i individual : Individual) : bool :=
  bool_decide (mother i ≠ unknown_parent)
  && bool_decide (mother i = mother individual)
  || bool_decide (father i ≠ unknown_parent)
  && bool_decide (father i = father individual).

(** One turn of [for i in self.individuals.values(): ...]; [i] and
    [individual] are addresses. *)
Definition relate (individual : loc) (h : heap) (i : loc) : heap :=
  let x := get_indiv h i in
  let y := get_indiv h individual in
  if full_sibs x y then
    let h := append h (siblings x) (of_scalar (iid y)) in
    append h (siblings y) (of_scalar (iid x))
  else if half_sibs x y then
    let h := append h (half_siblings x) (of_scalar (iid y)) in
    append h (half_siblings y) (of_scalar (iid x))
  else h.

Definition set_children (h : heap) (l : loc) (c : loc) : heap :=
  let x := get_indiv h l in
  set_indiv h l
    {| fid := fid x; iid := iid x; father := father x; mother := mother x;
       sex := sex x; phenotype := phenotype x; siblings := siblings x;
       half_siblings := half_siblings x; children := c |}.

Definition set_fid (h : heap) (l : loc) (f : scalar) : heap :=
  let x := get_indiv h l in
  set_indiv h l
    {| fid := f; iid := iid x; father := father x; mother := mother x;
       sex := sex x; phenotype := phenotype x; siblings := siblings x;
       half_siblings := half_siblings x; children := children x |}.

(** One turn of [for parent in [individual.mother, individual.father]: ...];
    the state is the store and [self.parents]. *)
Definition link_parent (members : dict loc) (individual : loc)
    (st : heap * dict loc) (parent : scalar) : heap * dict loc :=
  let '(h, parents) := st in
  if bool_decide (parent ≠ unknown_parent) then
    let '(h, parents) :=
      match dict_get parents parent with
      | None =>
          let '(h, l) := alloc_list h [of_scalar (iid (get_indiv h individual))] in
          (h, dict_set parents parent l)
      | Some l =>
          (append h l (of_scalar (iid (get_indiv h individual))), parents)
      end in
    match dict_get members parent, dict_get parents parent with
    | Some p, Some l => (set_children h p l, parents)
    | _, _ => (h, parents)
    end
  else (h, parents).

Definition duplicate_in_family_msg (i f : scalar) : string :=
  "Duplicate individual '" +:+ py_str i +:+ "'" +:+
  " added to family '" +:+ py_str f +:+ "'.".

(** [Family.add_individual] *)
Definition add_individual (h : heap) (self : Family) (individual : loc)
  : result (heap * Family) :=
  if dict_mem (f_individuals self) (iid (get_indiv h individual)) then
    raise (PedError (duplicate_in_family_msg (iid (get_indiv h individual))
                       (f_fid self)))
  else
    let h := set_fid h individual (f_fid self) in
    let h := foldl (relate individual) h (dict_values (f_individuals self)) in
    let y := get_indiv h individual in
    let '(h, parents) :=
      foldl (link_parent (f_individuals self) individual)
        (h, f_parents self) [mother y; father y] in
    let h :=
      match dict_get parents (iid y) with
      | Some l => set_children h individual l
      | None => h
      end in
    ok (h, {| f_fid := f_fid self;
              f_individuals := dict_set (f_individuals self) (iid y) individual;
              f_parents := parents;
              f_founder := f_founder self |}).

(** [Family.__init__(fid, individuals)]; [individuals=None] is the empty
    list here. *)
Fixpoint add_individuals (h : heap) (self : Family) (individuals : list loc)
  : result (heap * Family) :=
  match individuals with
  | [] => ok (h, self)
  | i :: individuals =>
      try! (h, self) <- add_individual h self i;
      add_individuals h self individuals
  end.

Definition Family__init__ (h : heap) (fid_ : scalar) (individuals : list loc)
  : result (heap * Family) :=
  add_individuals h
    {| f_fid := fid_; f_individuals := []; f_parents := [];
       f_founder := None |}
    individuals.

(** *** [class PedFile] *)

Record PedFile : Type := {
  filename : string;
  families : dict Family;
  individuals : dict loc
}.

Definition not_enough_fields_msg (fname line : string) : string :=
  "Not enough fields for PED file " +:+ "'" +:+ fname +:+ "'.
" +:+ "Offending line was: " +:+ line.

Definition duplicate_id_msg (i : scalar) (fname : string) : string :=
  "Duplicate individual ID '" +:+ py_str i +:+ "'" +:+
  "in PED file '" +:+ fname +:+ "'. " +:+
  "Please ensure all individual IDs are unique.".

(** [line.startswith('#')] *)
Definition is_comment (line : list ascii) : bool :=
  match line with "#"%char :: _ => true | _ => false end.

(** The body of [for line in fh: ...] in [_parse_ped]. *)
Definition parse_line (h : heap) (self : PedFile) (line : string)
  : result (heap * PedFile) :=
  let line := rstrip (list_ascii_of_string line) in
  if is_comment line then ok (h, self)
  else
    match line with
    | [] => ok (h, self)
    | _ :: _ =>
        let line := string_of_list_ascii line in
        match split line with
        | c0 :: c1 :: c2 :: c3 :: c4 :: c5 :: _ =>
            try! (h, indv) <-
              Individual6 h (SStr c0) (SStr c1) (SStr c2) (SStr c3)
                (SStr c4) (SStr c5);
            let x := get_indiv h indv in
            if dict_mem (individuals self) (iid x) then
              raise (PedError (duplicate_id_msg (iid x) (filename self)))
            else
              let individuals_ := dict_set (individuals self) (iid x) indv in
              try! (h, fam) <-
                match dict_get (families self) (fid x) with
                | Some fam => add_individual h fam indv
                | None => Family__init__ h (fid x) [indv]
                end;
              ok (h, {| filename := filename self;
                        families := dict_set (families self) (fid x) fam;
                        individuals := individuals_ |})
        | _ =>
            raise (Exception (not_enough_fields_msg (filename self) line))
        end
    end.

Fixpoint _parse_ped (h : heap) (self : PedFile) (fh : list string)
  : result (heap * PedFile) :=
  match fh with
  | [] => ok (h, self)
  | line :: fh =>
      try! (h, self) <- parse_line h self line;
      _parse_ped h self fh
  end.

(** [PedFile.__init__]: [fh] are the lines of the file. *)
Definition PedFile__init__ (h : heap) (fname : string) (fh : list string)
  : result (heap * PedFile) :=
  _parse_ped h {| filename := fname; families := []; individuals := [] |} fh.

End Ped.

(** * Vocabulary of the properties *)

(** ** Concrete inputs used to run the model *)

Module Samples.

Definition gene_a_1 : VcfRecord :=
  {| CHROM := "1"; POS := 100; REF := "A"; ALT := "G"; ALLELES := ["A"; "G"];
     CSQ := [ {| Feature := "ENST1" |}; {| Feature := "ENST2" |} ] |}.

Definition gene_a_2 : VcfRecord :=
  {| CHROM := "1"; POS := 250; REF := "T"; ALT := "TA";
     ALLELES := ["T"; "TA"];
     CSQ := [ {| Feature := "ENST2" |}; {| Feature := "ENST3" |} ] |}.

Definition gene_b_1 : VcfRecord :=
  {| CHROM := "1"; POS := 900; REF := "C"; ALT := "T"; ALLELES := ["C"; "T"];
     CSQ := [ {| Feature := "ENST9" |} ] |}.

Definition gene_c_1 : VcfRecord :=
  {| CHROM := "2"; POS := 40; REF := "G"; ALT := "A"; ALLELES := ["G"; "A"];
     CSQ := [ {| Feature := "ENST20" |} ] |}.

(** A cache that holds one record of gene A. *)
Definition vase_open : Vase.VariantCache :=
  Vase.add_record Vase.VariantCache__init__ 0 gene_a_1 false.

Definition vape_open : Vape.VariantCache :=
  Vape.add_record Vape.VariantCache__init__ 0 gene_a_1 [false] None false.

(** A toy set of collaborators.  A checker knows the samples that fit its
    model ([eligible]) and the variant identifiers it confirms when it is
    resolved ([confirms]); every record it sees is a candidate hit.  The
    samples that fit the recessive and the dominant model are the singleton
    samples named for that model; no sample fits the de novo model. *)
Record toy_checker : Type := {
  eligible : list string;
  confirms : list string
}.

Definition toy_resolve (c : toy_checker) (final : bool)
  : gmap string unit * toy_checker :=
  (list_to_map (map (fun k => (k, tt)) (confirms c)), c).

Definition toy_hit (c : toy_checker) (r : VcfRecord) (alleles : list bool)
    (csq : option (list bool)) : bool * toy_checker :=
  (true, c).

#[local] Instance toy : Vase.Collaborators := {|
  Vase.Checker := toy_checker;
  Vase.Segregants := unit;
  Vase.FamilyFilter := unit;
  Vase.PedFileT := unit;
  Vase.filter_global := fun _ => false;
  Vase.filter_alleles_external :=
    fun r => (map (fun _ => false) (tail (ALLELES r)), None);
  Vase.sample_filter_filter := fun _ _ => false;
  Vase.control_filter_filter := fun _ _ => false;
  Vase.dominant_process_record := toy_hit;
  Vase.de_novo_process_record := toy_hit;
  Vase.recessive_process_record := toy_hit;
  Vase.process_potential_recessives := toy_resolve;
  Vase.process_dominants := toy_resolve;
  Vase.process_de_novos := toy_resolve;
  Vase.str_record := Vase.format_var_id;
  Vase.build_family_filter := fun _ _ => ok (tt, tt);
  Vase.DeNovoFilter := fun _ _ => {| eligible := []; confirms := [] |};
  Vase.RecessiveFilter :=
    fun _ a => {| eligible := Vase.singleton_recessive a;
                  confirms := ["1:100-A/G"] |};
  Vase.DominantFilter :=
    fun _ a => {| eligible := Vase.singleton_dominant a; confirms := [] |};
  Vase.affected := eligible;
  Vase.get_header_fields := fun _ => ["VASE_segregant"]
|}.

(** [--singleton_recessive S1] *)
Definition recessive_args : Vase.Args :=
  {| Vase.de_novo := false; Vase.biallelic := false; Vase.dominant := false;
     Vase.singleton_recessive := ["S1"]; Vase.singleton_dominant := [];
     Vase.min_families := 1 |}.

(** [--biallelic --singleton_dominant S1] *)
Definition biallelic_and_singleton_dominant : Vase.Args :=
  {| Vase.de_novo := false; Vase.biallelic := true; Vase.dominant := false;
     Vase.singleton_recessive := []; Vase.singleton_dominant := ["S1"];
     Vase.min_families := 1 |}.

(** [--biallelic --dominant --singleton_dominant S1] *)
Definition biallelic_dominant_and_singleton : Vase.Args :=
  {| Vase.de_novo := false; Vase.biallelic := true; Vase.dominant := true;
     Vase.singleton_recessive := []; Vase.singleton_dominant := ["S1"];
     Vase.min_families := 1 |}.

(** [--de_novo --dominant --singleton_recessive S1] *)
Definition flags_and_singleton_recessive : Vase.Args :=
  {| Vase.de_novo := true; Vase.biallelic := false; Vase.dominant := true;
     Vase.singleton_recessive := ["S1"]; Vase.singleton_dominant := [];
     Vase.min_families := 1 |}.

(** [--de_novo --biallelic] with one sample that fits the recessive model *)
Definition de_novo_and_biallelic : Vase.Args :=
  {| Vase.de_novo := true; Vase.biallelic := true; Vase.dominant := false;
     Vase.singleton_recessive := ["S1"]; Vase.singleton_dominant := [];
     Vase.min_families := 1 |}.

(** [--de_novo] alone *)
Definition de_novo_only : Vase.Args :=
  {| Vase.de_novo := true; Vase.biallelic := false; Vase.dominant := false;
     Vase.singleton_recessive := []; Vase.singleton_dominant := [];
     Vase.min_families := 1 |}.

(** The runner that [__init__] returns for [--singleton_recessive S1]. *)
Definition fresh_runner (burden : bool) : Vase.VaseRunner :=
  {| Vase.args := recessive_args; Vase.ped := Some tt;
     Vase.sample_filter := false; Vase.burden_counter := burden;
     Vase.de_novo_filter := None; Vase.dominant_filter := None;
     Vase.recessive_filter :=
       Some {| eligible := ["S1"]; confirms := ["1:100-A/G"] |};
     Vase.family_filter := Some tt; Vase.control_filter := false;
     Vase.variant_cache := Vase.VariantCache__init__;
     Vase.use_cache := true; Vase.out := []; Vase.var_written := 0;
     Vase.var_filtered := 0; Vase.logged := []; Vase.objects := [];
     Vase.disposed := [] |}.

(** A runner that already holds its family filter, before any model is
    set up. *)
Definition configured (a : Vase.Args) : Vase.VaseRunner :=
  {| Vase.args := a; Vase.ped := Some tt;
     Vase.sample_filter := false; Vase.burden_counter := false;
     Vase.de_novo_filter := None; Vase.dominant_filter := None;
     Vase.recessive_filter := None;
     Vase.family_filter := Some tt; Vase.control_filter := false;
     Vase.variant_cache := Vase.VariantCache__init__;
     Vase.use_cache := false; Vase.out := []; Vase.var_written := 0;
     Vase.var_filtered := 0; Vase.logged := []; Vase.objects := [];
     Vase.disposed := [] |}.

(** The runner after [__init__], then after some records. *)
Definition started (burden : bool) : result Vase.VaseRunner :=
  Vase.VaseRunner__init__ recessive_args None false burden.

Definition after_records (burden : bool) (rs : list VcfRecord)
  : result Vase.VaseRunner :=
  Vase.process_records (fresh_runner burden) rs.

(** What is observed of a run: the text written, and the identifiers of
    the variants in [output_ready] and in [cache]. *)
Definition observe (run : result Vase.VaseRunner)
  : exn + (list string * list string * list string) :=
  match run with
  | inl e => inl e
  | inr self =>
      inr (Vase.out self,
           map Vase.var_id (Vase.output_ready (Vase.variant_cache self)),
           map Vase.var_id (Vase.cache (Vase.variant_cache self)))
  end.

End Samples.

(** ** Flushes and the cache invariant of [VaseRunner] *)

Section FlushVocabulary.
Context {collab : Vase.Collaborators}.
Import Vase.

(** The test of the output loop. *)
Definition passes (keep_ids : gset string) (v : CachedVariant) : bool :=
  can_output v || bool_decide (var_id v ∈ keep_ids).

(** The line [output_cache] writes for a variant. *)
Definition line_of (v : CachedVariant) : string :=
  str_record (record v) +:+ "
".

(** What one resolution block contributes to [keep_ids], and the checker
    it leaves. *)
Definition resolved_ids (active : bool)
    (resolve : Checker -> bool -> gmap string Segregants * Checker)
    (final : bool) (checker : option Checker) : gset string :=
  match checker with
  | Some c => if active then dom (resolve c final).1 else ∅
  | None => ∅
  end.

Definition resolved_checker (active : bool)
    (resolve : Checker -> bool -> gmap string Segregants * Checker)
    (final : bool) (checker : option Checker) : option Checker :=
  match checker with
  | Some c => if active then Some (resolve c final).2 else Some c
  | None => None
  end.

(** The pass-set of a flush: the recessive checker always contributes, the
    dominant and the de novo checker when [min_families > 1]. *)
Definition pass_set (self : VaseRunner) (final : bool) : gset string :=
  let many := bool_decide (min_families (args self) > 1) in
  resolved_ids true process_potential_recessives final (recessive_filter self)
  ∪ resolved_ids many process_dominants final (dominant_filter self)
  ∪ resolved_ids many process_de_novos final (de_novo_filter self).

(** The records a flush decides on. *)
Definition ready_at_flush (self : VaseRunner) (final : bool)
  : list CachedVariant :=
  if final then held (variant_cache self)
  else output_ready (variant_cache self).

(** The invariant of the cache: the stored variants are, in order of
    construction, exactly the constructed instances that the output loop
    has not visited yet; and an instance sits in the store at the position
    that is its identity. *)
Definition cache_invariant (self : VaseRunner) : Prop :=
  objects self = map fst (disposed self) ++ held (variant_cache self)
  ∧ forall (i : nat) (v : CachedVariant),
      objects self !! i = Some v -> oid v = i.

(** The runner states that processing goes through: the state it starts
    from, the states between the calls on the cache, and the states in
    which [process_record] and [finish_up] return. *)
Inductive reachable (self0 : VaseRunner) : VaseRunner -> Prop :=
  | reach_start : reachable self0 self0
  | reach_add self r c :
      reachable self0 self -> reachable self0 (cache_add self r c)
  | reach_check self r :
      reachable self0 self -> reachable self0 (cache_check self r)
  | reach_to_ready self :
      reachable self0 self ->
      reachable self0
        (set_variant_cache self
           (add_cache_to_output_ready (variant_cache self)))
  | reach_flush self final self' :
      reachable self0 self -> output_cache self final = inr self' ->
      reachable self0 self'
  | reach_record self r self' :
      reachable self0 self -> process_record self r = inr self' ->
      reachable self0 self'
  | reach_finish self self' :
      reachable self0 self -> finish_up self = inr self' ->
      reachable self0 self'
  | reach_other self self' :
      reachable self0 self ->
      variant_cache self' = variant_cache self ->
      objects self' = objects self ->
      disposed self' = disposed self ->
      reachable self0 self'.

(** The tests by which [__init__] decides to set up a model. *)
Definition requested_de_novo (a : Args) : bool := de_novo a.
Definition requested_recessive (a : Args) : bool :=
  biallelic a || list_truthy (singleton_recessive a).
Definition requested_dominant (a : Args) : bool :=
  dominant a || list_truthy (singleton_dominant a).

(** While [__init__] is setting up models of which none has eligible
    samples: no filter is held, and the family filter, once built, is the
    one that [build_family_filter] returns for the arguments. *)
Definition setup_state (a : Args) (p : option PedFileT) (self : VaseRunner)
  : Prop :=
  args self = a
  ∧ de_novo_filter self = None
  ∧ dominant_filter self = None
  ∧ recessive_filter self = None
  ∧ (family_filter self = None ∧ ped self = p
     ∨ exists pf ff,
         family_filter self = Some ff
         ∧ build_family_filter p a = inr (pf, ff)).

(** [self] with one of the three filters set to [None] and a warning
    logged. *)
Definition dropped (self : VaseRunner) (dn dom rc : option Checker)
    (msg : string) : VaseRunner :=
  set_filters_setup self (ped self) (family_filter self)
    (control_filter self) dn dom rc (use_cache self)
    (logged self ++ [msg +:+ continue_msg]).

End FlushVocabulary.

(** ** The cache invariant of [VapeRunner] *)

Section VapeVocabulary.
Context {collab : Vape.Collaborators}.
Import Vape.

Definition vape_passes (rec_ids : list string) (v : CachedVariant) : bool :=
  can_output v || bool_decide (var_id v ∈ rec_ids).

Definition vape_line_of (v : CachedVariant) : string :=
  str_record (record v) +:+ "
".

(** Between two calls of [process_record] nothing waits in
    [output_ready], and [cache] holds, in order of construction, the
    instances that no output loop has visited. *)
Definition vape_invariant (self : VapeRunner) : Prop :=
  output_ready (variant_cache self) = []
  ∧ objects self = map fst (disposed self) ++ cache (variant_cache self)
  ∧ forall (i : nat) (v : CachedVariant),
      objects self !! i = Some v -> oid v = i.

End VapeVocabulary.

(** ** Stores and families of [ped_file.py] *)

Section PedVocabulary.
Import Ped.

(** An argument refers to an object of the store. *)
Definition valid (h : heap) (v : pyval) : Prop :=
  match v with
  | VList l => l ∈ dom (lists h)
  | _ => True
  end.

(** The three default lists of [Individual.__init__] are empty. *)
Definition defaults_empty (h : heap) : Prop :=
  lists h !! default_siblings = Some []
  ∧ lists h !! default_half_siblings = Some []
  ∧ lists h !! default_children = Some [].

(** What [self.x = []] and, later, [if x: self.x.append(x)] leave in the new
    list. *)
Definition wrapped (h : heap) (arg : pyval) : list pyval :=
  if truthy h arg then [arg] else [].

(** The columns of a line that [_parse_ped] does not skip: the line
    without its trailing white space is neither a comment nor blank. *)
Definition data_columns (line : string) : option (list string) :=
  let l := rstrip (list_ascii_of_string line) in
  if is_comment l then None
  else match l with
       | [] => None
       | _ :: _ => Some (split (string_of_list_ascii l))
       end.

(** The line as the error message shows it. *)
Definition stripped (line : string) : string :=
  string_of_list_ascii (rstrip (list_ascii_of_string line)).

Definition too_few_columns (line : string) : Prop :=
  exists cols, data_columns line = Some cols ∧ (length cols < 6)%nat.

(** The individual identifier of a line: its second column. *)
Definition line_id (line : string) : option scalar :=
  match data_columns line with
  | Some (_ :: c1 :: _) => Some (SStr c1)
  | _ => None
  end.

Definition line_ids (fh : list string) : list scalar := omap line_id fh.

(** The phenotype code of a line: its sixth column. *)
Definition line_phenotype (line : string) : option string :=
  match data_columns line with
  | Some (_ :: _ :: _ :: _ :: _ :: c5 :: _) => Some c5
  | _ => None
  end.

(** The keys of a dict, in order. *)
Definition keys {V} (d : dict V) : list scalar := map fst d.

(** The members of a family, as addresses, and what their relationship
    attributes hold. *)
Definition members (fam : Family) : list loc :=
  dict_values (f_individuals fam).

Definition sibs (h : heap) (l : loc) : list pyval :=
  get_list h (siblings (get_indiv h l)).

Definition halfs (h : heap) (l : loc) : list pyval :=
  get_list h (half_siblings (get_indiv h l)).

Definition id_of (h : heap) (l : loc) : pyval :=
  of_scalar (iid (get_indiv h l)).

(** The statement of C8 about a family in a store: every member carries
    the identifier of the family, and the two relations are symmetric. *)
Definition family_consistent (h : heap) (fam : Family) : Prop :=
  (forall a, a ∈ members fam -> fid (get_indiv h a) = f_fid fam)
  ∧ (forall a b, a ∈ members fam -> b ∈ members fam ->
       (id_of h a ∈ sibs h b <-> id_of h b ∈ sibs h a))
  ∧ (forall a b, a ∈ members fam -> b ∈ members fam ->
       (id_of h a ∈ halfs h b <-> id_of h b ∈ halfs h a)).

(** The lists that [add_individual] appends to for the members [ls]. *)
Definition relation_locs (h : heap) (ls : list loc) : list loc :=
  flat_map (fun l => [siblings (get_indiv h l);
                      half_siblings (get_indiv h l)]) ls.

Definition default_locs : list loc :=
  [default_siblings; default_half_siblings; default_children].

(** The shape of the store around a family whose members were constructed
    without relationship arguments: the members are distinct objects under
    their own identifiers; their sibling and half-sibling lists are
    distinct list objects, different from the lists of [self.parents] and
    from the default lists; and these lists hold identifiers of members
    only. *)
Record family_shape (h : heap) (fam : Family) : Prop := {
  shape_keys : NoDup (keys (f_individuals fam));
  shape_members :
    forall k l, (k, l) ∈ f_individuals fam ->
                l ∈ dom (indivs h) ∧ iid (get_indiv h l) = k;
  shape_locs : NoDup (relation_locs h (members fam));
  shape_allocated :
    forall t, t ∈ relation_locs h (members fam) -> t ∈ dom (lists h);
  shape_parents :
    forall k t, (k, t) ∈ f_parents fam ->
                t ∈ dom (lists h) ∧ (t ∉ relation_locs h (members fam))
                ∧ (t ∉ default_locs);
  shape_defaults :
    defaults_empty h
    ∧ forall d, d ∈ default_locs -> d ∉ relation_locs h (members fam);
  shape_elements :
    forall l v, l ∈ members fam -> v ∈ sibs h l ∨ v ∈ halfs h l ->
                exists k, k ∈ keys (f_individuals fam) ∧ v = of_scalar k
}.

(** What the loop of [add_individual] appends to the list [t] in the turn
    of the member [x], the individual added being [y]. *)
Definition appended (x y : Individual) (t : loc) : list pyval :=
  if full_sibs x y then
    (if decide (t = siblings x) then [of_scalar (iid y)] else [])
    ++ (if decide (t = siblings y) then [of_scalar (iid x)] else [])
  else if half_sibs x y then
    (if decide (t = half_siblings x) then [of_scalar (iid y)] else [])
    ++ (if decide (t = half_siblings y) then [of_scalar (iid x)] else [])
  else [].

(** Two states of an object that differ in [children] at most. *)
Definition same_person (x x' : Individual) : Prop :=
  fid x' = fid x ∧ iid x' = iid x ∧ father x' = father x
  ∧ mother x' = mother x ∧ siblings x' = siblings x
  ∧ half_siblings x' = half_siblings x.

(** Two states of an object with the same identifier, parents and
    relationship lists. *)
Definition same_links (x x' : Individual) : Prop :=
  iid x' = iid x ∧ father x' = father x ∧ mother x' = mother x
  ∧ siblings x' = siblings x ∧ half_siblings x' = half_siblings x.

(** An individual as the constructor leaves it when the relationship
    arguments are omitted, seen from a family it is not a member of: its
    two relationship lists are empty, different from each other and from
    every list the family appends to. *)
Definition fresh_individual (h : heap) (fam : Family) (n : loc) : Prop :=
  let y := get_indiv h n in
  n ∈ dom (indivs h) ∧ (n ∉ members fam)
  ∧ siblings y ≠ half_siblings y
  ∧ forall t, t = siblings y ∨ t = half_siblings y ->
      t ∈ dom (lists h) ∧ get_list h t = []
      ∧ (t ∉ relation_locs h (members fam)) ∧ (t ∉ default_locs)
      ∧ forall k, (k, t) ∉ f_parents fam.

(** A row of six columns, and a family built from rows: each row is made
    into an [Individual] and added; a call that raises adds nothing. *)
Record row : Type := {
  r_fid : scalar; r_iid : scalar; r_father : scalar;
  r_mother : scalar; r_sex : scalar; r_phenotype : scalar
}.

Definition add_row (st : heap * Family) (r : row) : heap * Family :=
  let '(h, fam) := st in
  match Individual6 h (r_fid r) (r_iid r) (r_father r) (r_mother r)
          (r_sex r) (r_phenotype r) with
  | inl _ => (h, fam)
  | inr (h1, n) =>
      match add_individual h1 fam n with
      | inl _ => (h1, fam)
      | inr st' => st'
      end
  end.

Definition add_rows (st : heap * Family) (rows : list row)
  : heap * Family :=
  foldl add_row st rows.

(** [Family(fid)] *)
Definition new_family (fid_ : scalar) : Family :=
  {| f_fid := fid_; f_individuals := []; f_parents := [];
     f_founder := None |}.

End PedVocabulary.

(** ** Concrete families *)

Module PedSamples.
Import Ped.

(** Two full siblings and a half-sibling of theirs. *)
Definition three_rows : list row :=
  [ {| r_fid := SStr "F1"; r_iid := SStr "C"; r_father := SStr "F";
       r_mother := SStr "M"; r_sex := SStr "1"; r_phenotype := SStr "2" |};
    {| r_fid := SStr "F1"; r_iid := SStr "D"; r_father := SStr "F";
       r_mother := SStr "M"; r_sex := SStr "2"; r_phenotype := SStr "1" |};
    {| r_fid := SStr "F1"; r_iid := SStr "E"; r_father := SStr "F";
       r_mother := SStr "X"; r_sex := SStr "2"; r_phenotype := SStr "0" |} ].

(** [a = Individual("F1", "A", "0", "0", "1", "2", siblings="B")],
    [b = Individual("F1", "B", "0", "0", "1", "2")],
    [Family("F1", [a, b])]. *)
Definition named_sibling : result (heap * Family) :=
  try! (h, a) <-
    Individual__init__ module_heap (SStr "F1") (SStr "A") (SStr "0")
      (SStr "0") (SStr "1") (SStr "2") (VStr "B")
      (VList default_half_siblings) (VList default_children);
  try! (h, b) <-
    Individual6 h (SStr "F1") (SStr "B") (SStr "0") (SStr "0") (SStr "1")
      (SStr "2");
  Family__init__ h (SStr "F1") [a; b].

End PedSamples.

(** * Further parts of the three files

    The code around the places modelled above: the queries of a pedigree,
    the counters of a run, what [__init__] sets up, and the annotation
    filters. *)

(** ** ped_file.py: the queries of [PedFile] and [Family] *)

(** Builtin exceptions that the code modelled from here on raises, beside
    those of [exn]. *)
Inductive pyexn : Type :=
  | Raised (e : exn)
  | AttributeError (attribute : string)
  | NameError (name : string)
  | KeyError (key : string)
  | RuntimeError (msg : string).

Definition outcome (A : Type) : Type := pyexn + A.

Module PedQueries.
Import Ped.

(** [(i for i in self.individuals if self.individuals[i].test())]: the
    identifiers the generator yields when it is consumed in the store
    [h]. *)
Definition yielded (test : Individual -> bool) (h : heap) (d : dict loc)
  : list scalar :=
  List.filter
    (fun i => match dict_get d i with
              | Some l => test (get_indiv h l)
              | None => false
              end)
    (map fst d).

Definition get_affected (h : heap) (self : PedFile) : list scalar :=
  yielded is_affected h (individuals self).
Definition get_unaffected (h : heap) (self : PedFile) : list scalar :=
  yielded is_unaffected h (individuals self).
Definition get_males (h : heap) (self : PedFile) : list scalar :=
  yielded is_male h (individuals self).
Definition get_females (h : heap) (self : PedFile) : list scalar :=
  yielded is_female h (individuals self).

(** What [key in family] can be asked with: a value or an [Individual]
    object. *)
Inductive contains_key : Type :=
  | KeyValue (v : pyval)
  | KeyIndividual (l : loc).

(** [Family.__contains__] *)
Definition Family__contains__ (h : heap) (self : Family)
    (key : contains_key) : bool :=
  match key with
  | KeyValue (VStr s) =>                       (* isinstance(key, str) *)
      dict_mem (f_individuals self) (SStr s)
  | KeyIndividual l =>                         (* isinstance(key, Individual) *)
      dict_mem (f_individuals self) (iid (get_indiv h l))
  | KeyValue _ => false
  end.

(** [Family.set_founder]: the first statement reads [self.iids], an
    attribute that neither [Family] nor [PedFile] defines. *)
Definition set_founder (self : Family) (founder : contains_key)
  : outcome Family :=
  inl (AttributeError "iids").

End PedQueries.

(** ** Counting the records of a run of [VaseRunner] *)

Section CountingVocabulary.
Context {collab : Vase.Collaborators}.
Import Vase.

(** The records the runner has settled, written or filtered, and the ones
    it still holds in the cache. *)
Definition accounted (self : VaseRunner) : Z :=
  var_written self + var_filtered self
  + Z.of_nat (length (held (variant_cache self))).

(** The lines written beyond those that [var_written] counts. *)
Definition uncounted_lines (self : VaseRunner) : Z :=
  Z.of_nat (length (out self)) - var_written self.

(** The modes in which [process_record] deals with every record it does
    not filter: the cache is in use, or no dominant and no de novo filter
    is held. *)
Definition counting_mode (self : VaseRunner) : Prop :=
  use_cache self = true
  ∨ (de_novo_filter self = None ∧ dominant_filter self = None).

(** Two states of a runner with the same settings: the same options, the
    same filters present. *)
Definition same_settings (self self' : VaseRunner) : Prop :=
  args self' = args self
  ∧ use_cache self' = use_cache self
  ∧ burden_counter self' = burden_counter self
  ∧ sample_filter self' = sample_filter self
  ∧ control_filter self' = control_filter self
  ∧ (de_novo_filter self' = None <-> de_novo_filter self = None)
  ∧ (dominant_filter self' = None <-> dominant_filter self = None)
  ∧ (recessive_filter self' = None <-> recessive_filter self = None).

End CountingVocabulary.

(** ** The runner that [__init__] returns *)

Section SetupVocabulary.
Context {collab : Vase.Collaborators}.
Import Vase.

(** A filter that is held was asked for and has samples that fit its
    model. *)
Definition held_for (checker : option Checker) (requested : bool) : Prop :=
  forall c, checker = Some c -> affected c ≠ [] ∧ requested = true.

(** What [__init__] establishes about the filters and the cache. *)
Definition well_set_up (a : Args) (self : VaseRunner) : Prop :=
  args self = a
  ∧ held_for (de_novo_filter self) (requested_de_novo a)
  ∧ held_for (recessive_filter self) (requested_recessive a)
  ∧ held_for (dominant_filter self) (requested_dominant a)
  ∧ (recessive_filter self ≠ None -> use_cache self = true)
  ∧ (use_cache self = true ->
     recessive_filter self ≠ None
     ∨ (min_families a > 1
        ∧ (dominant_filter self ≠ None ∨ de_novo_filter self ≠ None))).

(** What a run changes and setting up does not touch. *)
Definition run_state (self : VaseRunner)
  : VariantCache * list string * Z * Z * list CachedVariant
    * list (CachedVariant * bool) :=
  (variant_cache self, out self, var_written self, var_filtered self,
   objects self, disposed self).

End SetupVocabulary.

(** ** Concrete collaborators of [VapeRunner] *)

Module VapeSamples.

(** A recessive checker that takes every record as a candidate and
    confirms the identifiers it was made with; one de novo filter that
    removes every allele. *)
#[local] Instance toy : Vape.Collaborators := {|
  Vape.Checker := list string;
  Vape.DeNovo := unit;
  Vape.filter_global := fun _ => false;
  Vape.filter_alleles_external :=
    fun r => (map (fun _ => false) (tail (ALLELES r)), None);
  Vape.sample_filter_filter := fun _ _ => false;
  Vape.de_novo_filter := fun _ _ _ => true;
  Vape.recessive_process_record := fun c _ _ _ => (true, c);
  Vape.process_potential_recessives := fun c => (c, c);
  Vape.str_record := Vase.format_var_id
|}.

Definition fresh_runner : Vape.VapeRunner :=
  {| Vape.sample_filter := false; Vape.de_novo_filters := None;
     Vape.recessive_filter := Some ["1:100-A/G"];
     Vape.variant_cache := Vape.VariantCache__init__;
     Vape.out := []; Vape.objects := []; Vape.disposed := [] |}.

(** What is observed of a run: the text written and the identifiers of the
    variants in [output_ready] and in [cache]. *)
Definition observe (run : result Vape.VapeRunner)
  : exn + (list string * list string * list string) :=
  match run with
  | inl e => inl e
  | inr self =>
      inr (Vape.out self,
           map Vape.var_id (Vape.output_ready (Vape.variant_cache self)),
           map Vape.var_id (Vape.cache (Vape.variant_cache self)))
  end.

End VapeSamples.
(** ** Relatives by shared parents *)

Section RelativesVocabulary.
Import Ped.

(** Two individuals have the same known mother and the same known father. *)
Definition share_both_parents (x y : Individual) : Prop :=
  mother x ≠ unknown_parent ∧ mother x = mother y
  ∧ father x ≠ unknown_parent ∧ father x = father y.

(** They have the same known mother or the same known father. *)
Definition share_a_parent (x y : Individual) : Prop :=
  (mother x ≠ unknown_parent ∧ mother x = mother y)
  ∨ (father x ≠ unknown_parent ∧ father x = father y).

(** The relationship lists of the members say who shares parents with
    whom: the identifier of [b] is in the sibling list of [a] exactly when
    [a] and [b] are two members with both parents in common, and in the
    half-sibling list exactly when they are two members with one parent in
    common but not both. *)
Definition family_related (h : heap) (fam : Family) : Prop :=
  forall a b, a ∈ members fam -> b ∈ members fam ->
    (id_of h b ∈ sibs h a
     <-> a ≠ b ∧ share_both_parents (get_indiv h a) (get_indiv h b))
    ∧ (id_of h b ∈ halfs h a
       <-> a ≠ b ∧ ¬ share_both_parents (get_indiv h a) (get_indiv h b)
           ∧ share_a_parent (get_indiv h a) (get_indiv h b)).

End RelativesVocabulary.

Section StoreVocabulary.
Import Ped.

(** The store [h1] has everything the store [h] has, unchanged. *)
Definition extends (h h1 : heap) : Prop :=
  dom (indivs h) ⊆ dom (indivs h1)
  ∧ (forall l, l ∈ dom (indivs h) -> get_indiv h1 l = get_indiv h l)
  ∧ (forall t, t ∈ dom (lists h) -> lists h1 !! t = lists h !! t).

(** The individual at [n] is the one the constructor makes from the row
    [r], with three empty lists that the store [h] did not have. *)
Definition made_from (h h1 : heap) (r : row) (n : loc) : Prop :=
  let y := get_indiv h1 n in
  (n ∉ allocated_locs h)
  ∧ fid y = r_fid r ∧ iid y = r_iid r
  ∧ father y = r_father r ∧ mother y = r_mother r
  ∧ py_int (r_phenotype r) = inr (phenotype y)
  ∧ sex y = match py_int (r_sex r) with inr z => z | inl _ => 0 end
  ∧ NoDup [siblings y; half_siblings y; children y]
  ∧ forall t, t ∈ [siblings y; half_siblings y; children y] ->
      (t ∉ allocated_locs h) ∧ lists h1 !! t = Some [].

End StoreVocabulary.

Section ParsedVocabulary.
Import Ped.

(** The row of a line that [_parse_ped] makes an individual from. *)
Definition line_row (line : string) : option row :=
  match data_columns line with
  | Some (c0 :: c1 :: c2 :: c3 :: c4 :: c5 :: _) =>
      Some {| r_fid := SStr c0; r_iid := SStr c1; r_father := SStr c2;
              r_mother := SStr c3; r_sex := SStr c4;
              r_phenotype := SStr c5 |}
  | _ => None
  end.

Definition line_rows (fh : list string) : list row := omap line_row fh.

(** The code of a column denotes the integer [z]. *)
Definition denotes (code : scalar) (z : Z) : bool :=
  match py_int code with
  | inr z' => bool_decide (z' = z)
  | inl _ => false
  end.

(** Two states of an object with the same identifier, parents and
    codes. *)
Definition same_codes (x x' : Individual) : Prop :=
  iid x' = iid x ∧ father x' = father x ∧ mother x' = mother x
  ∧ sex x' = sex x ∧ phenotype x' = phenotype x.

(** No object is removed, and every object keeps its identifiers, parents
    and codes: [children] apart, the objects are the same. *)
Definition keeps_people (h h' : heap) : Prop :=
  dom (indivs h) ⊆ dom (indivs h')
  ∧ forall l, same_codes (get_indiv h l) (get_indiv h' l)
              ∧ fid (get_indiv h' l) = fid (get_indiv h l).

(** The individual [x] carries what the row [r] says, the family
    identifier apart. *)
Definition carries (x : Individual) (r : row) : Prop :=
  iid x = r_iid r ∧ father x = r_father r ∧ mother x = r_mother r
  ∧ py_int (r_phenotype r) = inr (phenotype x)
  ∧ sex x = match py_int (r_sex r) with inr z => z | inl _ => 0 end.

(** The family a row goes to: the one filed under its family identifier,
    or a new one. *)
Definition family_for (self : PedFile) (r : row) : Family :=
  match dict_get (families self) (r_fid r) with
  | Some fam => fam
  | None => new_family (r_fid r)
  end.

(** The index of individuals lists, in order, one object for each row,
    under the identifier of the row and with its parents and codes. *)
Definition indexed (h : heap) (self : PedFile) (rows : list row) : Prop :=
  NoDup (keys (individuals self))
  ∧ Forall2 (fun (kv : scalar * loc) r =>
               kv.1 = r_iid r ∧ kv.2 ∈ dom (indivs h)
               ∧ carries (get_indiv h kv.2) r)
      (individuals self) rows.

(** The tests of the four queries, on a row. *)
Definition row_affected (r : row) : bool := denotes (r_phenotype r) 2.
Definition row_unaffected (r : row) : bool := denotes (r_phenotype r) 1.
Definition row_male (r : row) : bool := denotes (r_sex r) 1.
Definition row_female (r : row) : bool := denotes (r_sex r) 2.

End ParsedVocabulary.

Section PedigreeVocabulary.
Import Ped.

(** Every individual of the index, as addresses in the order of the
    index. *)
Definition all_members (ped : PedFile) : list loc :=
  map snd (individuals ped).

(** The entries of the index that carry the family identifier [f]. *)
Definition of_family (h : heap) (f : scalar) (d : dict loc) : dict loc :=
  List.filter (fun kv => bool_decide (fid (get_indiv h kv.2) = f)) d.

(** A family sees the same members, with the same links, and the same
    things in their relationship lists, in [h'] as in [h]. *)
Definition undisturbed (h h' : heap) (fam : Family) : Prop :=
  defaults_empty h'
  ∧ dom (indivs h) ⊆ dom (indivs h') ∧ dom (lists h) ⊆ dom (lists h')
  ∧ (forall l, l ∈ members fam ->
       same_links (get_indiv h l) (get_indiv h' l)
       ∧ fid (get_indiv h' l) = fid (get_indiv h l))
  ∧ (forall t, t ∈ relation_locs h (members fam) ->
       forall v, v ∈ get_list h' t <-> v ∈ get_list h t).

(** The invariant of [_parse_ped]: the index of families has one family
    for each family identifier; each family holds exactly the individuals
    of the index that carry its identifier - the same objects -, is
    consistent and has exact relationship lists; and the relationship lists
    of all individuals are different list objects, none of which is a list
    of [self.parents] of a family. *)
Definition organised (h : heap) (ped : PedFile) : Prop :=
  defaults_empty h
  ∧ NoDup (keys (families ped))
  ∧ (forall f fam, (f, fam) ∈ families ped ->
       f_fid fam = f ∧ family_shape h fam ∧ family_consistent h fam
       ∧ family_related h fam
       ∧ f_individuals fam = of_family h f (individuals ped))
  ∧ (forall k l, (k, l) ∈ individuals ped ->
       l ∈ dom (indivs h) ∧ fid (get_indiv h l) ∈ keys (families ped))
  ∧ NoDup (relation_locs h (all_members ped))
  ∧ (forall t, t ∈ relation_locs h (all_members ped) -> t ∈ dom (lists h))
  ∧ (forall f fam k t, (f, fam) ∈ families ped -> (k, t) ∈ f_parents fam ->
       t ∉ relation_locs h (all_members ped)).

(** The index lists, in order, one object for each row, under the
    identifier of the row and with its family identifier. *)
Definition filed (h : heap) (ped : PedFile) (rows : list row) : Prop :=
  Forall2 (fun (kv : scalar * loc) r =>
             kv.1 = r_iid r ∧ fid (get_indiv h kv.2) = r_fid r)
    (individuals ped) rows
  ∧ forall f, f ∈ keys (families ped) -> f ∈ map r_fid rows.

(** The rows of the family [f]. *)
Definition rows_of (f : scalar) (rows : list row) : list row :=
  List.filter (fun r => bool_decide (r_fid r = f)) rows.

End PedigreeVocabulary.
Section ChildrenVocabulary.
Import Ped.

(** What [add_individual] appends to [self.parents[p]] when it adds [x]:
    the identifier of [x], once in the turn of the mother and once in the
    turn of the father. *)
Definition names (x : Individual) (p : scalar) : list pyval :=
  (if bool_decide (mother x = p) then [of_scalar (iid x)] else [])
  ++ (if bool_decide (father x = p) then [of_scalar (iid x)] else []).

(** The identifiers of those of [ls] that name [p] as a parent, in the
    order of [ls]. *)
Definition children_of (h : heap) (ls : list loc) (p : scalar)
  : list pyval :=
  flat_map (fun l => names (get_indiv h l) p) ls.

(** What the attribute [children] of the object at [l] holds. *)
Definition kids (h : heap) (l : loc) : list pyval :=
  get_list h (children (get_indiv h l)).

(** The member [l] still has the list the constructor gave it: an empty
    list that is no list of [self.parents] and no relationship list. *)
Definition own_children (h : heap) (fam : Family) (l : loc) : Prop :=
  let c := children (get_indiv h l) in
  c ∈ dom (lists h) ∧ get_list h c = []
  ∧ (c ∉ map snd (f_parents fam))
  ∧ (c ∉ relation_locs h (members fam)).

(** The invariant of [add_individual] on [self.parents] and on the
    attribute [children]: [self.parents] has one list object for each
    known parent that a member names, holding the identifiers of the
    members that name it; a member whose identifier is a key of
    [self.parents] has that very list as its [children], and any other
    member has its own empty list. *)
Definition family_parented (h : heap) (fam : Family) : Prop :=
  NoDup (keys (f_parents fam)) ∧ NoDup (map snd (f_parents fam))
  ∧ (forall p t, (p, t) ∈ f_parents fam ->
       p ≠ unknown_parent ∧ get_list h t ≠ []
       ∧ get_list h t = children_of h (members fam) p)
  ∧ (forall p, p ≠ unknown_parent ->
       children_of h (members fam) p ≠ [] -> p ∈ keys (f_parents fam))
  ∧ (forall l, l ∈ members fam ->
       match dict_get (f_parents fam) (iid (get_indiv h l)) with
       | Some t => children (get_indiv h l) = t
       | None => own_children h fam l
       end).

(** Between two turns of the loop over the parents of the individual [n]
    that is being added, [h] being the store at the start of
    [add_individual]: the object at [l] still has the empty list it had in
    [h] as its [children], which is none of the lists [rel]. *)
Definition kept (h hx : heap) (px : dict loc) (rel : list loc) (l : loc)
  : Prop :=
  let c := children (get_indiv h l) in
  children (get_indiv hx l) = c ∧ c ∈ dom (lists hx)
  ∧ get_list hx c = [] ∧ (c ∉ map snd px) ∧ (c ∉ rel).

(** The state of the loop over the parents: the list of [p] holds the
    identifiers of the members that name [p], and then [e p], what the
    turns so far have appended for [n]. *)
Definition linked (h : heap) (fam : Family) (n : loc) (hx : heap)
    (px : dict loc) (e : scalar -> list pyval) : Prop :=
  NoDup (keys px) ∧ NoDup (map snd px)
  ∧ (forall p t, (p, t) ∈ px ->
       p ≠ unknown_parent ∧ t ∈ dom (lists hx) ∧ get_list hx t ≠ []
       ∧ get_list hx t = children_of h (members fam) p ++ e p)
  ∧ (forall p, p ≠ unknown_parent ->
       children_of h (members fam) p ++ e p ≠ [] -> p ∈ keys px)
  ∧ (forall l, same_links (get_indiv h l) (get_indiv hx l))
  ∧ (forall l, l ∈ members fam ->
       match dict_get px (iid (get_indiv h l)) with
       | Some t => children (get_indiv hx l) = t
       | None => kept h hx px (relation_locs h (members fam ++ [n])) l
       end)
  ∧ kept h hx px (relation_locs h (members fam ++ [n])) n.

(** A child listed before its parents. *)
Definition child_first : list row :=
  [ {| r_fid := SStr "F1"; r_iid := SStr "C"; r_father := SStr "F";
       r_mother := SStr "M"; r_sex := SStr "1"; r_phenotype := SStr "2" |};
    {| r_fid := SStr "F1"; r_iid := SStr "F"; r_father := SStr "0";
       r_mother := SStr "0"; r_sex := SStr "1"; r_phenotype := SStr "1" |};
    {| r_fid := SStr "F1"; r_iid := SStr "M"; r_father := SStr "0";
       r_mother := SStr "0"; r_sex := SStr "2"; r_phenotype := SStr "1" |};
    {| r_fid := SStr "F1"; r_iid := SStr "D"; r_father := SStr "F";
       r_mother := SStr "M"; r_sex := SStr "2"; r_phenotype := SStr "1" |} ].

End ChildrenVocabulary.
(** ** [check_info_prefix] (the same method in [VaseRunner] and in
    [VapeRunner]) *)

Module Prefixes.

(** The two regular expressions of the method, on ASCII text. *)

Definition newline : ascii := "010"%char.

(** [\d] *)
Definition is_digit (c : ascii) : bool :=
  match Ped.digit_of c with Some _ => true | None => false end.

(** [$] without [re.MULTILINE]: at the end of the string, and just before
    a newline that ends the string. *)
Definition at_end (l : list ascii) : bool :=
  match l with
  | [] => true
  | [c] => bool_decide (c = newline)
  | _ => false
  end.

(** The longest run of digits at the start of a text, and the rest. *)
Fixpoint span_digits (l : list ascii) : list ascii * list ascii :=
  match l with
  | c :: l' =>
      if is_digit c
      then let '(d, r) := span_digits l' in (c :: d, r)
      else ([], l)
  | [] => ([], [])
  end.

(** [\d+$] at the start of a text; the result is the digits.  [\d+] takes
    the longest run; after a shorter one comes a digit, where [$] does not
    match. *)
Definition match_digits_end (l : list ascii) : option (list ascii) :=
  let '(d, r) := span_digits l in
  match d with
  | [] => None
  | _ :: _ => if at_end r then Some d else None
  end.

(** [re.search('_(\d+)$', name)]: the group of the leftmost match. *)
Fixpoint re_search (l : list ascii) : option (list ascii) :=
  match l with
  | [] => None
  | c :: l' =>
      if bool_decide (c = "_"%char) then
        match match_digits_end l' with
        | Some d => Some d
        | None => re_search l'
        end
      else re_search l'
  end.

Fixpoint is_prefix (d l : list ascii) : bool :=
  match d, l with
  | [], _ => true
  | c :: d', c' :: l' => bool_decide (c = c') && is_prefix d' l'
  | _ :: _, [] => false
  end.

(** [re.sub(d + '$', repl, name)] for digits [d]: the text is read from
    the left, and where [d] stands at the end it is replaced.  What follows
    a match is empty or one newline, so there is no second match. *)
Fixpoint re_sub (d repl l : list ascii) : list ascii :=
  match l with
  | [] => []
  | c :: l' =>
      if is_prefix d l && at_end (drop (length d) l)
      then repl ++ drop (length d) l
      else c :: re_sub d repl l'
  end.

(** The name that the method tries after [name]:
    [re.sub(match.group(1) + '$', str(int(match.group(1)) + 1), name)] when
    the name ends in an underscore and digits, [name + '_1'] otherwise. *)
Definition next_name (name : string) : outcome string :=
  let l := list_ascii_of_string name in
  match re_search l with
  | Some d =>
      match Ped.int_of_string (string_of_list_ascii d) with
      | Some i =>
          inr (string_of_list_ascii
                 (re_sub d (list_ascii_of_string (pretty (i + 1))) l))
      | None => inl (Raised ValueError)
      end
  | None => inr (name +:+ "_1")
  end.

Definition too_deep : string := "maximum recursion depth exceeded".

(** [check_info_prefix(self, name)]; the state is [self.info_prefixes].
    [depth] is the number of calls the interpreter still allows: the method
    calls itself for the next name, and Python raises [RecursionError], a
    [RuntimeError], when the calls are nested too deep. *)
Fixpoint check_info_prefix (depth : nat) (info_prefixes : gset string)
    (name : string) : outcome (gset string * string) :=
  match depth with
  | O => inl (RuntimeError too_deep)
  | S depth =>
      if bool_decide (name ∈ info_prefixes) then
        match next_name name with
        | inr name => check_info_prefix depth info_prefixes name
        | inl e => inl e
        end
      else inr ({[name]} ∪ info_prefixes, name)
  end.

(** Calls of the method one after the other, as [get_vcf_filter_classes]
    makes them; the result is the names handed out, in order. *)
Fixpoint check_info_prefixes (depth : nat) (info_prefixes : gset string)
    (names : list string) : outcome (gset string * list string) :=
  match names with
  | [] => inr (info_prefixes, [])
  | name :: names =>
      match check_info_prefix depth info_prefixes name with
      | inl e => inl e
      | inr (info_prefixes, prefix) =>
          match check_info_prefixes depth info_prefixes names with
          | inl e => inl e
          | inr (info_prefixes, prefixes) =>
              inr (info_prefixes, prefix :: prefixes)
          end
      end
  end.

End Prefixes.

Section PrefixVocabulary.
Import Prefixes.

Definition all_digits (d : list ascii) : Prop :=
  Forall (fun c => is_digit c = true) d.

(** The number that the digits [d] denote after the number [acc]. *)
Fixpoint digits_value (d : list ascii) (acc : Z) : Z :=
  match d with
  | [] => acc
  | c :: d => digits_value d (10 * acc + default 0 (Ped.digit_of c))
  end.

(** The number that a name ends in: the value of the digits after the last
    underscore when the name ends in them, [0] otherwise. *)
Definition suffix_number (name : string) : Z :=
  match re_search (list_ascii_of_string name) with
  | Some d =>
      match Ped.int_of_string (string_of_list_ascii d) with
      | Some i => i
      | None => 0
      end
  | None => 0
  end.

(** The [j]-th name the method tries, starting from [name]. *)
Fixpoint candidate (name : string) (j : nat) : string :=
  match j with
  | O => name
  | S j =>
      match next_name name with
      | inr name' => candidate name' j
      | inl _ => name
      end
  end.

(** The names in use whose number is not below that of [name]. *)
Definition not_below (name : string) (info_prefixes : gset string)
  : gset string :=
  filter (fun s => suffix_number name <= suffix_number s) info_prefixes.

(** A name that ends in an underscore and a number. *)
Definition numbered (stem : string) (k : Z) : string :=
  stem +:+ "_" +:+ pretty k.

(** Names in use, for the examples. *)
Definition two_in_use : gset string :=
  {[ "VASE_dbSNP"; "VASE_dbSNP_1" ]}.

End PrefixVocabulary.
(** ** vase_runner.py and vape_runner.py: [filter_alleles_external] and the
    filters on annotations that the input already has *)

Module Filters.

Definition obind {A B} (m : outcome A) (k : A -> outcome B) : outcome B :=
  match m with
  | inl e => inl e
  | inr a => k a
  end.

Notation "'do!' x <- m ; k" := (obind m (fun x => k))
  (at level 10, x pattern, m at level 100, k at level 200).

(** [for x in l: body], the body transforming the state or raising *)
Fixpoint for_each {A S} (l : list A) (body : A -> S -> outcome S) (s : S)
  : outcome S :=
  match l with
  | [] => inr s
  | x :: l => do! s <- body x s; for_each l body s
  end.

(** [l[i]] for an index that is not negative *)
Definition item {A} (l : list A) (i : nat) : outcome A :=
  match l !! i with
  | Some x => inr x
  | None => inl (Raised IndexError)
  end.

(** [l[i] = True] for an index that is not negative *)
Definition assign_true (l : list bool) (i : nat) : outcome (list bool) :=
  if bool_decide (i < length l)%nat then inr (<[i:=true]> l)
  else inl (Raised IndexError).

(** [x[i]] where [x] is [None] or a list *)
Definition subscript {A} (x : option (list A)) (i : nat) : outcome A :=
  match x with
  | Some l => item l i
  | None => inl (Raised TypeError)
  end.

(** What [record.parsed_info_fields(fields=...)] returns: a dict from the
    name of a field to [None] or to a list with, for each alternative
    allele, [None] or a value. *)
Definition info_dict (value : Type) : Type :=
  list (string * option (list (option value))).

(** [d[key]] *)
Fixpoint dict_item {V} (d : list (string * V)) (key : string) : outcome V :=
  match d with
  | [] => inl (KeyError key)
  | (k, v) :: d => if bool_decide (k = key) then inr v else dict_item d key
  end.

(** [key in d] *)
Definition dict_has {V} (d : list (string * V)) (key : string) : bool :=
  bool_decide (key ∈ map fst d).

(** What the two methods call in other modules.  A value of an INFO field
    is compared with a number given on the command line by the operator
    that the code writes; whether the comparison raises is left to the
    value.  No method makes the same call twice for a record, so a
    function of the record stands for what the call returns. *)
Class Externals : Type := {
  value : Type;
  number : Type;
  (** the truth value of a number *)
  nonzero : number -> bool;
  (** [v > x], [v >= x], [v < x], [v <= x] *)
  gt : value -> number -> outcome bool;
  ge : value -> number -> outcome bool;
  lt : value -> number -> outcome bool;
  le : value -> number -> outcome bool;
  CsqFilter : Type;
  CaddFilter : Type;
  VcfFilter : Type;
  RemoveCsq : Type;
  (** [self.csq_filter.filter(record)] *)
  csq_filter_filter : CsqFilter -> VcfRecord -> list bool * RemoveCsq;
  (** [self.cadd_filter.annotate_or_filter(record)] *)
  annotate_or_filter : CaddFilter -> VcfRecord -> list bool;
  (** [f.annotate_and_filter_record(record)]: [(r, k, m)] *)
  annotate_and_filter_record :
    VcfFilter -> VcfRecord -> list bool * list bool * list bool;
  parsed_info_fields : VcfRecord -> list string -> info_dict value
}.

Section Methods.
Context `{Externals}.

(** The options that the methods read; a number that was not given is
    [None]. *)
Record Args : Type := {
  af : option number;
  min_af : option number;
  cadd_phred : option number;
  cadd_raw : option number;
  freq : option number;
  min_freq : option number;
  build : option number;
  max_build : option number;
  clinvar_path : bool;
  filter_known : bool;
  filter_novel : bool
}.

(** [if x:] for an option that is a number or [None] *)
Definition given (x : option number) : bool :=
  match x with
  | Some x => nonzero x
  | None => false
  end.

(** A comparison with an option: with [None] on the right it raises
    [TypeError]. *)
Definition compare (op : value -> number -> outcome bool) (v : value)
    (x : option number) : outcome bool :=
  match x with
  | Some x => op v x
  | None => inl (Raised TypeError)
  end.

(** The attributes of a runner that the methods read. *)
Record Runner : Type := {
  args : Args;
  csq_filter : option CsqFilter;
  cadd_filter : option CaddFilter;
  vcf_filters : list VcfFilter;
  prev_cadd_phred : bool;
  prev_cadd_raw : bool;
  prev_freqs : list string;
  prev_builds : list string;
  prev_clinvar : list string
}.

(** [len(record.ALLELES) - 1], the length of [[False] * (...)] *)
Definition n_alts (r : VcfRecord) : nat := (length (ALLELES r) - 1)%nat.

(** [VaseRunner._set_to_true_if_true] *)
Definition _set_to_true_if_true (alist values : list bool)
  : outcome (list bool) :=
  for_each (seq 0 (length alist))
    (fun i alist =>
       do! v <- item values i;
       inr (if v : bool then <[i:=true]> alist else alist))
    alist.

(** [VaseRunner.filter_on_af] *)
Definition filter_on_af (self : Runner) (r : VcfRecord)
  : outcome (list bool) :=
  let remove := replicate (n_alts r) false in
  do! af_ <- dict_item (parsed_info_fields r ["AF"]) "AF";
  for_each (seq 0 (length remove))
    (fun i remove =>
       do! remove <-
         (if given (af (args self)) then
            do! x <- subscript af_ i;
            match x with
            | Some v =>
                do! c <- compare gt v (af (args self));
                inr (if c : bool then <[i:=true]> remove else remove)
            | None => inr remove
            end
          else inr remove);
       if given (min_af (args self)) then
         do! x <- subscript af_ i;
         match x with
         | None => inr (<[i:=true]> remove)
         | Some v =>
             do! c <- compare lt v (min_af (args self));
             inr (if c : bool then <[i:=true]> remove else remove)
         end
       else inr remove)
    remove.

(** The body shared by [filter_on_existing_cadd_phred] and
    [filter_on_existing_cadd_raw], which differ in the field and the
    option. *)
Definition filter_on_existing_cadd (field : string) (cutoff : option number)
    (r : VcfRecord) : outcome (list bool) :=
  let remove := replicate (n_alts r) false in
  let scores := parsed_info_fields r [field] in
  if dict_has scores field then
    for_each (seq 0 (length remove))
      (fun i remove =>
         do! l <- dict_item scores field;
         do! x <- subscript l i;
         match x with
         | Some v =>
             do! c <- compare lt v cutoff;
             inr (if c : bool then <[i:=true]> remove else remove)
         | None => inr remove
         end)
      remove
  else inr remove.

(** [VaseRunner.filter_on_existing_cadd_phred] *)
Definition filter_on_existing_cadd_phred (self : Runner) (r : VcfRecord)
  : outcome (list bool) :=
  filter_on_existing_cadd "CADD_PHRED_score" (cadd_phred (args self)) r.

(** [VaseRunner.filter_on_existing_cadd_raw] *)
Definition filter_on_existing_cadd_raw (self : Runner) (r : VcfRecord)
  : outcome (list bool) :=
  filter_on_existing_cadd "CADD_raw_score" (cadd_raw (args self)) r.

(** [VaseRunner.filter_on_existing_freq]; the state of the loops is
    [(remove, matched)]. *)
Definition filter_on_existing_freq (self : Runner) (r : VcfRecord)
  : outcome (list bool * list bool) :=
  let remove := replicate (n_alts r) false in
  let matched := replicate (n_alts r) false in
  let parsed := parsed_info_fields r (prev_freqs self) in
  for_each parsed
    (fun '(annot, entry) st =>
       match entry with
       | None => inr st
       | Some l =>
           for_each (seq 0 (length st.1))
             (fun i '(remove, matched) =>
                do! x <- item l i;
                match x with
                | Some v =>
                    let matched := <[i:=true]> matched in
                    do! remove <-
                      (if given (freq (args self)) then
                         do! c <- compare ge v (freq (args self));
                         inr (if c : bool then <[i:=true]> remove
                              else remove)
                       else inr remove);
                    do! remove <-
                      (if given (min_freq (args self)) then
                         do! c <- compare lt v (min_freq (args self));
                         inr (if c : bool then <[i:=true]> remove
                              else remove)
                       else inr remove);
                    inr (remove, matched)
                | None => inr (remove, matched)
                end)
             st
       end)
    (remove, matched).

(** [VaseRunner.filter_on_existing_build]: the test on [max_build] is
    under [if self.args.min_freq:]. *)
Definition filter_on_existing_build (self : Runner) (r : VcfRecord)
  : outcome (list bool * list bool) :=
  let remove := replicate (n_alts r) false in
  let matched := replicate (n_alts r) false in
  let parsed := parsed_info_fields r (prev_builds self) in
  for_each parsed
    (fun '(annot, entry) st =>
       match entry with
       | None => inr st
       | Some l =>
           for_each (seq 0 (length st.1))
             (fun i '(remove, matched) =>
                do! x <- item l i;
                match x with
                | Some v =>
                    let matched := <[i:=true]> matched in
                    do! remove <-
                      (if given (build (args self)) then
                         do! c <- compare le v (build (args self));
                         inr (if c : bool then <[i:=true]> remove
                              else remove)
                       else inr remove);
                    do! remove <-
                      (if given (min_freq (args self)) then
                         do! c <- compare gt v (max_build (args self));
                         inr (if c : bool then <[i:=true]> remove
                              else remove)
                       else inr remove);
                    inr (remove, matched)
                | None => inr (remove, matched)
                end)
             st
       end)
    (remove, matched).

(** [VaseRunner.filter_on_existing_clnsig]: the inner loop is
    [for i in range(len(remove))], and the method has no variable
    [remove], nor has the module; the loop raises [NameError] before its
    first turn.  The state of the outer loop is [(keep, matched)]. *)
Definition filter_on_existing_clnsig (self : Runner) (r : VcfRecord)
  : outcome (list bool * list bool) :=
  let keep := replicate (n_alts r) false in
  let matched := replicate (n_alts r) false in
  let parsed := parsed_info_fields r (prev_clinvar self) in
  for_each parsed
    (fun '(annot, entry) st =>
       match entry with
       | None => inr st
       | Some _ => inl (NameError "remove")
       end)
    (keep, matched).

(** [sum(remove_alleles) == len(remove_alleles)] *)
Definition all_removed (remove_alleles : list bool) : bool :=
  all_filtered remove_alleles.

(** The verdict on the alleles in [VaseRunner.filter_alleles_external]. *)
Definition vase_verdict (self : Runner)
    (remove_alleles keep_alleles matched_alleles : list bool)
  : outcome (list bool) :=
  for_each (seq 0 (length remove_alleles))
    (fun i verdict =>
       do! k <- item keep_alleles i;
       if k : bool then inr (verdict ++ [false])
       else
         do! rm <- item remove_alleles i;
         if rm : bool then inr (verdict ++ [true])
         else
           do! known <-
             (if filter_known (args self) then item matched_alleles i
              else inr false);
           if known : bool then inr (verdict ++ [true])
           else
             do! novel <-
               (if filter_novel (args self)
                then do! m <- item matched_alleles i; inr (negb m)
                else inr false);
             if novel : bool then inr (verdict ++ [true])
             else inr (verdict ++ [false]))
    [].

(** The part of [VaseRunner.filter_alleles_external] after the last
    [return] in the middle: the filters of [self.vcf_filters], the
    annotations that the input has, and the verdict. *)
Definition vase_databases (self : Runner) (r : VcfRecord)
    (remove_alleles keep_alleles matched_alleles : list bool)
  : outcome (list bool) :=
  do! (remove_alleles, keep_alleles, matched_alleles) <-
    for_each (vcf_filters self)
      (fun f '(remove_alleles, keep_alleles, matched_alleles) =>
         let '(r_, k, m) := annotate_and_filter_record f r in
         do! remove_alleles <- _set_to_true_if_true remove_alleles r_;
         do! matched_alleles <- _set_to_true_if_true matched_alleles m;
         do! keep_alleles <- _set_to_true_if_true keep_alleles k;
         inr (remove_alleles, keep_alleles, matched_alleles))
      (remove_alleles, keep_alleles, matched_alleles);
  do! (remove_alleles, matched_alleles) <-
    (match prev_freqs self with
     | [] => inr (remove_alleles, matched_alleles)
     | _ :: _ =>
         do! (r_, m) <- filter_on_existing_freq self r;
         do! remove_alleles <- _set_to_true_if_true remove_alleles r_;
         do! matched_alleles <- _set_to_true_if_true matched_alleles m;
         inr (remove_alleles, matched_alleles)
     end);
  do! (remove_alleles, matched_alleles) <-
    (match prev_builds self with
     | [] => inr (remove_alleles, matched_alleles)
     | _ :: _ =>
         do! (r_, m) <- filter_on_existing_build self r;
         do! remove_alleles <- _set_to_true_if_true remove_alleles r_;
         do! matched_alleles <- _set_to_true_if_true matched_alleles m;
         inr (remove_alleles, matched_alleles)
     end);
  do! (keep_alleles, matched_alleles) <-
    (match prev_clinvar self with
     | [] => inr (keep_alleles, matched_alleles)
     | _ :: _ =>
         do! (k, m) <- filter_on_existing_clnsig self r;
         do! matched_alleles <- _set_to_true_if_true matched_alleles m;
         do! keep_alleles <- _set_to_true_if_true keep_alleles k;
         inr (keep_alleles, matched_alleles)
     end);
  vase_verdict self remove_alleles keep_alleles matched_alleles.

(** [if (not self.args.clinvar_path and sum(remove_alleles) ==
    len(remove_alleles)): return remove_alleles, remove_csq] *)
Definition bail_out (self : Runner) (remove_alleles : list bool) : bool :=
  negb (clinvar_path (args self)) && all_removed remove_alleles.

(** [VaseRunner.filter_alleles_external] *)
Definition vase_filter_alleles_external (self : Runner) (r : VcfRecord)
  : outcome (list bool * option RemoveCsq) :=
  let remove_alleles := replicate (n_alts r) false in
  let keep_alleles := replicate (n_alts r) false in
  let matched_alleles := replicate (n_alts r) false in
  let remove_csq := None in
  (* [for i in range(1, len(record.ALLELES))] *)
  do! remove_alleles <-
    for_each (seq 1 (length (ALLELES r) - 1))
      (fun i remove_alleles =>
         do! a <- item (ALLELES r) i;
         if bool_decide (a = "*") then assign_true remove_alleles (i - 1)
         else inr remove_alleles)
      remove_alleles;
  do! (remove_alleles, bail) <-
    (if given (af (args self)) || given (min_af (args self)) then
       do! r_alts <- filter_on_af self r;
       do! remove_alleles <- _set_to_true_if_true remove_alleles r_alts;
       inr (remove_alleles, bail_out self remove_alleles)
     else inr (remove_alleles, false));
  if bail : bool then inr (remove_alleles, remove_csq)
  else
    do! (remove_alleles, remove_csq, bail) <-
      (match csq_filter self with
       | Some f =>
           let '(r_alts, remove_csq) := csq_filter_filter f r in
           do! remove_alleles <- _set_to_true_if_true remove_alleles r_alts;
           inr (remove_alleles, Some remove_csq,
                bail_out self remove_alleles)
       | None => inr (remove_alleles, remove_csq, false)
       end);
    if bail : bool then inr (remove_alleles, remove_csq)
    else
      do! remove_alleles <-
        (if prev_cadd_phred self && given (cadd_phred (args self)) then
           do! r_alts <- filter_on_existing_cadd_phred self r;
           _set_to_true_if_true remove_alleles r_alts
         else inr remove_alleles);
      do! remove_alleles <-
        (if prev_cadd_raw self && given (cadd_raw (args self)) then
           do! r_alts <- filter_on_existing_cadd_raw self r;
           _set_to_true_if_true remove_alleles r_alts
         else inr remove_alleles);
      do! (remove_alleles, bail) <-
        (match cadd_filter self with
         | Some f =>
             let r_alts := annotate_or_filter f r in
             do! remove_alleles <-
               _set_to_true_if_true remove_alleles r_alts;
             inr (remove_alleles, bail_out self remove_alleles)
         | None => inr (remove_alleles, false)
         end);
      if bail : bool then inr (remove_alleles, remove_csq)
      else
        do! verdict <-
          vase_databases self r remove_alleles keep_alleles matched_alleles;
        inr (verdict, remove_csq).

(** [VapeRunner.filter_alleles_external]; of the options it reads
    [clinvar_path] and [filter_novel], of the attributes [csq_filter] and
    [vcf_filters]. *)
Definition vape_filter_alleles_external (self : Runner) (r : VcfRecord)
  : outcome (list bool * option RemoveCsq) :=
  let remove_alleles := replicate (n_alts r) false in
  let keep_alleles := replicate (n_alts r) false in
  let matched_alleles := replicate (n_alts r) false in
  let remove_csq := None in
  do! (remove_alleles, remove_csq, bail) <-
    (match csq_filter self with
     | Some f =>
         let '(r_alts, remove_csq) := csq_filter_filter f r in
         do! remove_alleles <-
           for_each (seq 0 (length r_alts))
             (fun i remove_alleles =>
                do! v <- item r_alts i;
                if v : bool then assign_true remove_alleles i
                else inr remove_alleles)
             remove_alleles;
         inr (remove_alleles, Some remove_csq, bail_out self remove_alleles)
     | None => inr (remove_alleles, remove_csq, false)
     end);
  if bail : bool then inr (remove_alleles, remove_csq)
  else
    do! (remove_alleles, keep_alleles, matched_alleles) <-
      for_each (vcf_filters self)
        (fun f st =>
           let '(r_, k, m) := annotate_and_filter_record f r in
           for_each (seq 0 (length r_))
             (fun i '(remove_alleles, keep_alleles, matched_alleles) =>
                do! v <- item r_ i;
                do! remove_alleles <-
                  (if v : bool then assign_true remove_alleles i
                   else inr remove_alleles);
                do! v <- item k i;
                do! keep_alleles <-
                  (if v : bool then assign_true keep_alleles i
                   else inr keep_alleles);
                do! v <- item m i;
                do! matched_alleles <-
                  (if v : bool then assign_true matched_alleles i
                   else inr matched_alleles);
                inr (remove_alleles, keep_alleles, matched_alleles))
             st)
        (remove_alleles, keep_alleles, matched_alleles);
    do! verdict <-
      for_each (seq 0 (length remove_alleles))
        (fun i verdict =>
           do! rm <- item remove_alleles i;
           do! removed <-
             (if rm : bool then do! k <- item keep_alleles i; inr (negb k)
              else inr false);
           if removed : bool then inr (verdict ++ [true])
           else
             do! novel <-
               (if filter_novel (args self)
                then do! m <- item matched_alleles i; inr (negb m)
                else inr false);
             if novel : bool then inr (verdict ++ [true])
             else inr (verdict ++ [false]))
        [];
    inr (verdict, remove_csq).

End Methods.

End Filters.

Section FilterVocabulary.
Import Filters.

(** The loops that set flags: a turn leaves the list as it is or sets the
    flag of its index. *)
Definition sets_flags (body : nat -> list bool -> outcome (list bool))
  : Prop :=
  forall i l l', body i l = inr l' -> l' = l ∨ l' = <[i:=true]> l.

(** What the first loop of [VaseRunner.filter_alleles_external] leaves and
    the later steps keep: a flag for each alternative allele, set for an
    allele that is [*]. *)
Definition stars_removed (r : VcfRecord) (remove_alleles : list bool)
  : Prop :=
  length remove_alleles = n_alts r
  ∧ forall i, ALLELES r !! S i = Some "*" ->
              remove_alleles !! i = Some true.

(** The record has a value for one of the fields [fields]. *)
Definition has_value `{Externals} (r : VcfRecord) (fields : list string)
  : bool :=
  negb (forallb (fun kv => bool_decide (kv.2 = None))
          (parsed_info_fields r fields)).

(** The verdict of [VaseRunner.filter_alleles_external] on an allele
    with the flags [rm], [kp] and [mt]. *)
Definition vase_decision `{Externals} (self : Runner) (rm kp mt : bool)
  : bool :=
  if kp then false
  else if rm then true
  else if filter_known (args self) && mt then true
  else if filter_novel (args self) && negb mt then true
  else false.

(** The verdict of [VapeRunner.filter_alleles_external]. *)
Definition vape_decision `{Externals} (self : Runner) (rm kp mt : bool)
  : bool :=
  (rm && negb kp) || (filter_novel (args self) && negb mt).

(** An answer [(r, k, m)] of a filter that [VapeRunner] can take in for
    [n] alleles: [k] and [m] are not shorter than [r], and no flag is set
    at or beyond [n] in the first [len(r)] places. *)
Definition answer_in_range (n : nat)
    (answer : list bool * list bool * list bool) : Prop :=
  let '(r_, k, m) := answer in
  (length r_ <= length k)%nat ∧ (length r_ <= length m)%nat
  ∧ forall i, (i < length r_)%nat ->
      r_ !! i = Some true ∨ k !! i = Some true ∨ m !! i = Some true ->
      (i < n)%nat.

(** What [filter_on_existing_freq] and [filter_on_existing_build] say
    about a record, [result] being [(remove, matched)]: there is a flag
    for each allele; every annotation of [fields] that is not [None] has an
    entry for each allele; an allele is matched when an annotation has a
    value for it, and removed when such a value is a hit. *)
Definition annotations_say `{Externals} (r : VcfRecord)
    (fields : list string) (hit : value -> Prop)
    (result : list bool * list bool) : Prop :=
  let parsed := parsed_info_fields r fields in
  length result.1 = n_alts r ∧ length result.2 = n_alts r
  ∧ (forall annot l, (annot, Some l) ∈ parsed ->
       (n_alts r <= length l)%nat)
  ∧ (forall i, result.2 !! i = Some true <->
       (i < n_alts r)%nat
       ∧ exists annot l v,
           (annot, Some l) ∈ parsed ∧ l !! i = Some (Some v))
  ∧ (forall i, result.1 !! i = Some true <->
       (i < n_alts r)%nat
       ∧ exists annot l v,
           (annot, Some l) ∈ parsed ∧ l !! i = Some (Some v) ∧ hit v).

(** What [filter_on_existing_cadd_phred] and [filter_on_existing_cadd_raw]
    say about a record: there is a flag for each allele; without the
    field no allele is removed; with it, an allele is removed when the
    field has a score for it that is below the cutoff. *)
Definition scores_say `{Externals} (r : VcfRecord) (field : string)
    (cutoff : option number) (remove : list bool) : Prop :=
  let scores := parsed_info_fields r [field] in
  length remove = n_alts r
  ∧ (dict_has scores field = false -> remove = replicate (n_alts r) false)
  ∧ (dict_has scores field = true ->
     exists entry,
       dict_item scores field = inr entry
       ∧ forall i, (i < n_alts r)%nat ->
           exists l x,
             entry = Some l ∧ l !! i = Some x
             ∧ (remove !! i = Some true <->
                exists v, x = Some v ∧ compare lt v cutoff = inr true)).

(** The runner with another [--max_build]. *)
Definition with_max_build `{Externals} (self : Runner) (x : option number)
  : Runner :=
  {| args :=
       {| af := af (args self); min_af := min_af (args self);
          cadd_phred := cadd_phred (args self);
          cadd_raw := cadd_raw (args self);
          freq := freq (args self); min_freq := min_freq (args self);
          build := build (args self); max_build := x;
          clinvar_path := clinvar_path (args self);
          filter_known := filter_known (args self);
          filter_novel := filter_novel (args self) |};
     csq_filter := csq_filter self; cadd_filter := cadd_filter self;
     vcf_filters := vcf_filters self;
     prev_cadd_phred := prev_cadd_phred self;
     prev_cadd_raw := prev_cadd_raw self;
     prev_freqs := prev_freqs self; prev_builds := prev_builds self;
     prev_clinvar := prev_clinvar self |}.

End FilterVocabulary.

(** ** Concrete filters *)

Module FilterSamples.
Import Filters.

(** Numbers are integers; a filter is what it answers; the record has the
    value 150 in every field that is asked for, for every alternative
    allele. *)
#[local] Instance toy : Externals := {|
  value := Z;
  number := Z;
  nonzero := fun x => negb (Z.eqb x 0);
  gt := fun v x => inr (Z.ltb x v);
  ge := fun v x => inr (Z.leb x v);
  lt := fun v x => inr (Z.ltb v x);
  le := fun v x => inr (Z.leb v x);
  CsqFilter := list bool;
  CaddFilter := list bool;
  VcfFilter := list bool * list bool * list bool;
  RemoveCsq := list bool;
  csq_filter_filter := fun f _ => (f, []);
  annotate_or_filter := fun f _ => f;
  annotate_and_filter_record := fun f _ => f;
  parsed_info_fields := fun r fields =>
    map (fun f => (f, Some (map (fun _ => Some 150) (tail (ALLELES r)))))
      fields
|}.

Definition snv_and_star : VcfRecord :=
  {| CHROM := "1"; POS := 100; REF := "A"; ALT := "G,*";
     ALLELES := ["A"; "G"; "*"]; CSQ := [] |}.

Definition no_alternative : VcfRecord :=
  {| CHROM := "1"; POS := 100; REF := "A"; ALT := ".";
     ALLELES := ["A"]; CSQ := [] |}.

Definition no_options : Args :=
  {| af := None; min_af := None; cadd_phred := None; cadd_raw := None;
     freq := None; min_freq := None; build := None; max_build := None;
     clinvar_path := false; filter_known := false; filter_novel := false |}.

(** A runner with a consequence filter that removes both alleles, and with
    a ClinVar field in the input. *)
Definition with_clinvar_field : Runner :=
  {| args := no_options; csq_filter := Some [true; true];
     cadd_filter := None; vcf_filters := [];
     prev_cadd_phred := false; prev_cadd_raw := false;
     prev_freqs := []; prev_builds := [];
     prev_clinvar := ["VASE_dbSNP_CLNSIG"] |}.

(** A runner with [--clinvar_path] and one filter that matches and keeps
    both alleles. *)
Definition with_keeper : Runner :=
  {| args :=
       {| af := None; min_af := None; cadd_phred := None; cadd_raw := None;
          freq := None; min_freq := None; build := None; max_build := None;
          clinvar_path := true; filter_known := true;
          filter_novel := false |};
     csq_filter := None; cadd_filter := None;
     vcf_filters := [([false; false], [true; true], [true; true])];
     prev_cadd_phred := false; prev_cadd_raw := false;
     prev_freqs := []; prev_builds := []; prev_clinvar := [] |}.

(** A runner with [--min_freq 1], a build field in the input and no
    [--max_build]. *)
Definition with_build_field : Runner :=
  {| args :=
       {| af := None; min_af := None; cadd_phred := None; cadd_raw := None;
          freq := None; min_freq := Some 1; build := None;
          max_build := None;
          clinvar_path := false; filter_known := false;
          filter_novel := false |};
     csq_filter := None; cadd_filter := None; vcf_filters := [];
     prev_cadd_phred := false; prev_cadd_raw := false;
     prev_freqs := []; prev_builds := ["VASE_dbSNP_dbSNPBuildID"];
     prev_clinvar := [] |}.

(** A runner with [--freq 100] and a frequency field in the input. *)
Definition with_freq_field : Runner :=
  {| args :=
       {| af := None; min_af := None; cadd_phred := None; cadd_raw := None;
          freq := Some 100; min_freq := None; build := None;
          max_build := None;
          clinvar_path := false; filter_known := false;
          filter_novel := false |};
     csq_filter := None; cadd_filter := None; vcf_filters := [];
     prev_cadd_phred := false; prev_cadd_raw := false;
     prev_freqs := ["VASE_gnomAD_AF"]; prev_builds := [];
     prev_clinvar := [] |}.

(** A runner with [--min_af 200]. *)
Definition with_min_af : Runner :=
  {| args :=
       {| af := None; min_af := Some 200; cadd_phred := None;
          cadd_raw := None; freq := None; min_freq := None; build := None;
          max_build := None;
          clinvar_path := false; filter_known := false;
          filter_novel := false |};
     csq_filter := None; cadd_filter := None; vcf_filters := [];
     prev_cadd_phred := false; prev_cadd_raw := false;
     prev_freqs := []; prev_builds := []; prev_clinvar := [] |}.

End FilterSamples.
(** ** vape_runner.py: the trios for de novo filtering *)

Module VapeSetup.
Import Ped PedQueries Filters.

(** The truth value of an identifier: a string that is not empty, a
    number that is not zero. *)
Definition scalar_truthy (x : scalar) : bool :=
  match x with
  | SStr s => negb (bool_decide (s = ""))
  | SInt z => negb (bool_decide (z = 0))
  end.

(** [x in self.input.header.samples], the names of the samples being
    strings *)
Definition in_samples (samples : list string) (x : scalar) : bool :=
  match x with
  | SStr s => bool_decide (s ∈ samples)
  | SInt _ => false
  end.

(** What [DeNovoFilter(vcf=self.input, child=..., mother=..., father=...,
    gq=self.args.gq)] is made from. *)
Record Trio : Type := {
  child : scalar;
  trio_mother : scalar;
  trio_father : scalar
}.

Definition no_ped_for_de_novo_msg : string :=
  "--de_novo argument requires a PED file but no " +:+
  "PED was specified. Please specify a PED file " +:+
  "with at least one parent-child trio using the " +:+
  "--ped argument.".

Definition no_trios_msg : string :=
  "No parent-child trios identified from PED and VCF" +:+
  " - please check your PED and VCF sample IDs".

(** One turn of [for iid in self.ped.get_affected():]; the state is
    [self.de_novo_filters]. *)
Definition trio_turn (h : heap) (ped : PedFile) (samples : list string)
    (iid_ : scalar) (filters : list Trio) : outcome (list Trio) :=
  if in_samples samples iid_ then
    match dict_get (individuals ped) iid_ with
    | None => inl (KeyError (py_str iid_))
    | Some l =>
        let x := get_indiv h l in
        if scalar_truthy (mother x) && scalar_truthy (father x) then
          if in_samples samples (mother x) && in_samples samples (father x)
          then inr (filters ++ [{| child := iid_; trio_mother := mother x;
                                   trio_father := father x |}])
          else inr filters
        else inr filters
    end
  else inr filters.

(** [VapeRunner._get_de_novo_filters]: the result is
    [self.de_novo_filters]; [num_trios] is its length.  [self.ped] is
    [None] or a [PedFile], which is true as an object without [__bool__]
    and [__len__]. *)
Definition _get_de_novo_filters (h : heap) (ped : option PedFile)
    (samples : list string) : outcome (list Trio) :=
  match ped with
  | None => inl (Raised (Exception no_ped_for_de_novo_msg))
  | Some ped =>
      do! filters <-
        for_each (get_affected h ped) (trio_turn h ped samples) [];
      if bool_decide (length filters = 0%nat)
      then inl (Raised (Exception no_trios_msg))
      else inr filters
  end.

End VapeSetup.

Section TrioVocabulary.
Import Ped VapeSetup.

(** The row of an affected individual that is a sample of the VCF, as are
    its two parents. *)
Definition row_trio (samples : list string) (r : row) : bool :=
  row_affected r && in_samples samples (r_iid r)
  && in_samples samples (r_mother r) && in_samples samples (r_father r).

Definition trio_of_row (r : row) : Trio :=
  {| child := r_iid r; trio_mother := r_mother r;
     trio_father := r_father r |}.

(** A child with its parents, who are affected too, and a child whose
    father is not given. *)
Definition trio_lines : list string :=
  [ "#fid iid father mother sex phenotype";
    "F1 C F M 1 2";
    "F1 F 0 0 1 2";
    "F1 M 0 0 2 2";
    "F2 D 0 N 2 2";
    "F2 N 0 0 2 1" ].

End TrioVocabulary.
(** * Properties *)

(** ** The cache operations *)

Section CacheOperations.

Lemma window_closed_spec (active feats : gset string) :
  set_truthy active && isdisjoint feats active = true
  <-> active ≠ ∅ ∧ feats ## active.
Proof.
  unfold set_truthy, isdisjoint.
  rewrite andb_true_iff, !bool_decide_eq_true. reflexivity.
Qed.

Lemma window_open_spec (active feats : gset string) :
  set_truthy active && isdisjoint feats active = false
  <-> ¬ (active ≠ ∅ ∧ feats ## active).
Proof.
  rewrite <- window_closed_spec. destruct (_ && _); split; congruence.
Qed.

(** C1, [VariantCache.add_record] of both runners.  The entry that
    [add_record] constructs holds the record itself, the [can_output] flag
    it was called with (for the older runner also the two ignore lists) and
    the identifier formatted from the record.  When the features of the
    record are disjoint from a non-empty active set, the cached records go
    to [output_ready], the active set becomes the features of the record
    and that entry is alone in the cache: the record starts the next
    window.  Otherwise the entry is appended to the cache, after the
    entries it held, and the active set becomes its union with the features
    of the record, so it contains the old active set.  In both cases the
    entry of the record is the last of the cache. *)
Theorem add_record_window (o : nat) (r : VcfRecord) (c : bool)
    (vc : Vase.VariantCache)
    (pc : Vape.VariantCache) (ia : list bool) (ic : option (list bool)) :
  let v := Vase.CachedVariant__init__ o r c in
  let vc' := Vase.add_record vc o r c in
  let p := Vape.CachedVariant__init__ o r ia ic c in
  let pc' := Vape.add_record pc o r ia ic c in
  let vid :=
    CHROM r +:+ ":" +:+ pretty (POS r) +:+ "-" +:+ REF r +:+ "/" +:+ ALT r in
  ((Vase.oid v = o ∧ Vase.record v = r ∧ Vase.can_output v = c
    ∧ Vase.var_id v = vid)
   ∧ last (Vase.cache vc') = Some v
   ∧ (Vase.features vc ≠ ∅ ∧ these_feats r ## Vase.features vc ->
      Vase.output_ready vc' = Vase.output_ready vc ++ Vase.cache vc
      ∧ Vase.features vc' = these_feats r
      ∧ Vase.cache vc' = [v])
   ∧ (¬ (Vase.features vc ≠ ∅ ∧ these_feats r ## Vase.features vc) ->
      Vase.cache vc' = Vase.cache vc ++ [v]
      ∧ Vase.output_ready vc' = Vase.output_ready vc
      ∧ Vase.features vc' = Vase.features vc ∪ these_feats r
      ∧ Vase.features vc ⊆ Vase.features vc'))
  ∧
  ((Vape.oid p = o ∧ Vape.record p = r ∧ Vape.can_output p = c
    ∧ Vape.ignore_alleles p = ia ∧ Vape.ignore_csq p = ic
    ∧ Vape.var_id p = vid)
   ∧ last (Vape.cache pc') = Some p
   ∧ (Vape.features pc ≠ ∅ ∧ these_feats r ## Vape.features pc ->
      Vape.output_ready pc' = Vape.cache pc
      ∧ Vape.features pc' = these_feats r
      ∧ Vape.cache pc' = [p])
   ∧ (¬ (Vape.features pc ≠ ∅ ∧ these_feats r ## Vape.features pc) ->
      Vape.cache pc' = Vape.cache pc ++ [p]
      ∧ Vape.output_ready pc' = Vape.output_ready pc
      ∧ Vape.features pc' = Vape.features pc ∪ these_feats r
      ∧ Vape.features pc ⊆ Vape.features pc')).
Proof.
  intros v vc' p pc' vid. subst v p vc' pc' vid.
  unfold Vase.add_record, Vape.add_record.
  split; (split; [by repeat split|]); (split; [apply last_snoc|]); split.
  - intros Hc. apply window_closed_spec in Hc. by rewrite Hc.
  - intros Ho. apply window_open_spec in Ho. rewrite Ho. simpl.
    repeat split. set_solver.
  - intros Hc. apply window_closed_spec in Hc. by rewrite Hc.
  - intros Ho. apply window_open_spec in Ho. rewrite Ho. simpl.
    repeat split. set_solver.
Qed.

(** C5, [VariantCache.check_record].  The record is not stored: what the
    cache holds is what it held, and nothing enters [cache].  When the
    features of the record are disjoint from a non-empty active set, the
    cached records are appended to [output_ready] and [cache] is empty;
    otherwise the cache is unchanged. *)
Theorem check_record_flush (vc : Vase.VariantCache) (r : VcfRecord) :
  let vc' := Vase.check_record vc r in
  Vase.held vc' = Vase.held vc
  ∧ Vase.cache vc' ⊆ Vase.cache vc
  ∧ (Vase.features vc ≠ ∅ ∧ these_feats r ## Vase.features vc ->
       Vase.output_ready vc' = Vase.output_ready vc ++ Vase.cache vc
       ∧ Vase.cache vc' = [])
  ∧ (¬ (Vase.features vc ≠ ∅ ∧ these_feats r ## Vase.features vc) ->
       vc' = vc).
Proof.
  intros vc'. subst vc'. unfold Vase.check_record, Vase.held.
  destruct (set_truthy _ && isdisjoint _ _) eqn:E; simpl.
  - apply window_closed_spec in E.
    rewrite app_nil_r.
    split; [reflexivity |]. split; [apply list_subseteq_nil |].
    split; [done |]. intros Hn. by destruct Hn.
  - apply window_open_spec in E.
    split; [reflexivity |]. split; [done |].
    split; [intros Hc; by destruct E | done].
Qed.

(** The witness of C5: a record of gene B checked against a cache that
    holds a record of gene A. *)
Lemma check_record_flush_witness :
  Vase.cache (Vase.check_record Samples.vase_open Samples.gene_b_1) = []
  ∧ Vase.output_ready (Vase.check_record Samples.vase_open Samples.gene_b_1)
    = Vase.cache Samples.vase_open.
Proof.
  destruct (check_record_flush Samples.vase_open Samples.gene_b_1)
    as (_ & _ & Hclosed & _).
  destruct Hclosed as [Hready Hcache].
  - split; apply (bool_decide_unpack _); vm_compute; exact I.
  - split; [exact Hcache | exact Hready].
Defined.

(** The witness of C1: a record of gene B added to a cache that holds a
    record of gene A.  The record of gene A is ready for output, and the
    cache holds one entry, with the record of gene B and its flag. *)
Lemma add_record_window_witness :
  let vc' := Vase.add_record Samples.vase_open 1 Samples.gene_b_1 true in
  Vase.output_ready vc' = Vase.cache Samples.vase_open
  ∧ Vase.features vc' = these_feats Samples.gene_b_1
  ∧ map Vase.record (Vase.cache vc') = [Samples.gene_b_1]
  ∧ map Vase.can_output (Vase.cache vc') = [true].
Proof.
  destruct (add_record_window 1 Samples.gene_b_1 true Samples.vase_open
              Samples.vape_open [] None) as [(Hv & _ & Hclosed & _) _].
  destruct Hclosed as (Hready & Hfeats & Hcache).
  - split; apply (bool_decide_unpack _); vm_compute; exact I.
  - cbv zeta. rewrite Hcache. cbn [map].
    destruct Hv as (_ & Hr & Hc & _).
    split; [exact Hready|]. split; [exact Hfeats|].
    split; [by rewrite Hr | by rewrite Hc].
Defined.

End CacheOperations.

(** ** Flushing the cache ([output_cache], [finish_up]) *)

Section Flush.
Context {collab : Vase.Collaborators}.
Import Vase.

Lemma output_loop (keep_ids : gset string) (ready : list CachedVariant) :
  forall self : VaseRunner,
  foldl (output_var keep_ids) self ready =
  {| args := args self; ped := ped self;
     sample_filter := sample_filter self;
     burden_counter := burden_counter self;
     de_novo_filter := de_novo_filter self;
     dominant_filter := dominant_filter self;
     recessive_filter := recessive_filter self;
     family_filter := family_filter self;
     control_filter := control_filter self;
     variant_cache := variant_cache self;
     use_cache := use_cache self;
     out := out self ++ map line_of (List.filter (passes keep_ids) ready);
     var_written :=
       var_written self
       + Z.of_nat (length (List.filter (passes keep_ids) ready));
     var_filtered :=
       var_filtered self
       + Z.of_nat
           (length (List.filter (fun v => negb (passes keep_ids v)) ready));
     logged := logged self;
     objects := objects self;
     disposed :=
       disposed self ++ map (fun v => (v, passes keep_ids v)) ready |}.
Proof.
  induction ready as [|v ready IH]; intros self; simpl.
  - rewrite !app_nil_r, !Z.add_0_r. by destruct self.
  - rewrite IH. unfold output_var. fold (passes keep_ids v).
    destruct (passes keep_ids v); simpl; f_equal;
      rewrite <- ?app_assoc; try reflexivity; lia.
Qed.

Lemma resolve_block_ok active resolve final checker keep_ids :
  resolve_block active false resolve final checker keep_ids
  = ok (keep_ids ∪ resolved_ids active resolve final checker,
        resolved_checker active resolve final checker).
Proof.
  unfold resolve_block, resolved_ids, resolved_checker.
  destruct checker as [c|]; [destruct active|].
  - destruct (resolve c final) as [m c']. reflexivity.
  - by rewrite (right_id_L ∅ (∪)).
  - by rewrite (right_id_L ∅ (∪)).
Qed.

(** Without a burden counter [output_cache] returns, and this is the runner
    it returns. *)
Lemma output_cache_returns (self : VaseRunner) (final : bool) :
  burden_counter self = false ->
  let many := bool_decide (min_families (args self) > 1) in
  let ready := ready_at_flush self final in
  let keep_ids := pass_set self final in
  output_cache self final =
  ok {| args := args self; ped := ped self;
        sample_filter := sample_filter self;
        burden_counter := false;
        de_novo_filter :=
          resolved_checker many process_de_novos final (de_novo_filter self);
        dominant_filter :=
          resolved_checker many process_dominants final
            (dominant_filter self);
        recessive_filter :=
          resolved_checker true process_potential_recessives final
            (recessive_filter self);
        family_filter := family_filter self;
        control_filter := control_filter self;
        variant_cache :=
          {| cache := if final then [] else cache (variant_cache self);
             features := features (variant_cache self);
             output_ready := [] |};
        use_cache := use_cache self;
        out := out self ++ map line_of (List.filter (passes keep_ids) ready);
        var_written :=
          var_written self
          + Z.of_nat (length (List.filter (passes keep_ids) ready));
        var_filtered :=
          var_filtered self
          + Z.of_nat
              (length (List.filter (fun v => negb (passes keep_ids v)) ready));
        logged := logged self;
        objects := objects self;
        disposed :=
          disposed self ++ map (fun v => (v, passes keep_ids v)) ready |}.
Proof.
  intros Hb many ready keep_ids. unfold output_cache. rewrite Hb.
  do 3 (rewrite resolve_block_ok; unfold bind, ok; cbn beta iota).
  destruct final; cbn beta iota; rewrite output_loop; simpl.
  all: rewrite (left_id_L ∅ (∪)), Hb; reflexivity.
Qed.

(** With a burden counter [output_cache] raises [TypeError], whatever the
    cache holds. *)
Lemma output_cache_raises (self : VaseRunner) (final : bool) :
  burden_counter self = true ->
  output_cache self final = raise TypeError.
Proof.
  intros Hb. unfold output_cache, resolve_block. rewrite Hb.
  repeat match goal with
         | |- context [match ?c with Some _ => _ | None => _ end] =>
             destruct c
         | |- context [let '(_, _) := ?p in _] => destruct p
         | |- context [if ?b then _ else _] => destruct b
         end; reflexivity.
Qed.

End Flush.

(** ** The cache invariant *)

Section CacheInvariant.
Context {collab : Vase.Collaborators}.
Import Vase.

Lemma held_add_record (vc : VariantCache) o r c :
  held (add_record vc o r c) = held vc ++ [CachedVariant__init__ o r c].
Proof.
  unfold add_record, held.
  destruct (set_truthy _ && isdisjoint _ _); simpl;
    by rewrite <- ?app_assoc, ?app_nil_l.
Qed.

Lemma held_check_record (vc : VariantCache) r :
  held (check_record vc r) = held vc.
Proof.
  unfold check_record, held.
  destruct (set_truthy _ && isdisjoint _ _); simpl; by rewrite ?app_nil_r.
Qed.

Lemma held_add_cache_to_output_ready (vc : VariantCache) :
  held (add_cache_to_output_ready vc) = held vc.
Proof. unfold held. simpl. by rewrite app_nil_r. Qed.

(** The invariant reads the cache, the store and the history only. *)
Lemma invariant_frame (self self' : VaseRunner) :
  variant_cache self' = variant_cache self ->
  objects self' = objects self ->
  disposed self' = disposed self ->
  cache_invariant self -> cache_invariant self'.
Proof.
  unfold cache_invariant. intros -> -> ->. done.
Qed.

Lemma invariant_add (self : VaseRunner) r c :
  cache_invariant self -> cache_invariant (cache_add self r c).
Proof.
  intros [Hobj Hid]. unfold cache_invariant, cache_add. simpl. split.
  - rewrite held_add_record, Hobj. by rewrite <- app_assoc.
  - intros i v Hi. apply lookup_app_Some in Hi as [Hi | [Hlen Hi]].
    + by apply Hid.
    + apply list_lookup_singleton_Some in Hi as [Hz <-]. simpl. lia.
Qed.

Lemma invariant_check (self : VaseRunner) r :
  cache_invariant self -> cache_invariant (cache_check self r).
Proof.
  intros [Hobj Hid]. unfold cache_invariant, cache_check. simpl.
  by rewrite held_check_record.
Qed.

Lemma invariant_to_ready (self : VaseRunner) :
  cache_invariant self ->
  cache_invariant
    (set_variant_cache self (add_cache_to_output_ready (variant_cache self))).
Proof.
  intros [Hobj Hid]. unfold cache_invariant. simpl.
  by rewrite held_add_cache_to_output_ready.
Qed.

Lemma map_fst_decided {A B} (f : A -> B) (l : list A) :
  map fst (map (fun v => (v, f v)) l) = l.
Proof. induction l; simpl; congruence. Qed.

Lemma invariant_flush (self self' : VaseRunner) final :
  output_cache self final = inr self' ->
  cache_invariant self -> cache_invariant self'.
Proof.
  intros Hflush [Hobj Hid].
  destruct (burden_counter self) eqn:Hb.
  - rewrite output_cache_raises in Hflush by done. discriminate.
  - rewrite output_cache_returns in Hflush by done.
    injection Hflush as <-. unfold cache_invariant. simpl. split; [|done].
    rewrite map_app, map_fst_decided, Hobj.
    unfold ready_at_flush, held. simpl.
    destruct final; by rewrite <- ?app_assoc, ?app_nil_r.
Qed.

Lemma invariant_process_cached (self self' : VaseRunner) r dn dom rc :
  process_cached self r dn dom rc = inr self' ->
  cache_invariant self -> cache_invariant self'.
Proof.
  unfold process_cached. intros Hrun Hinv.
  set (mid := if dn || dom || rc then _ else _) in Hrun.
  assert (cache_invariant mid) as Hmid.
  { subst mid. destruct (dn || dom || rc).
    - by apply invariant_add.
    - apply (invariant_frame (cache_check self r)); try done.
      by apply invariant_check. }
  destruct (output_ready (variant_cache mid)).
  - by injection Hrun as <-.
  - by eapply invariant_flush.
Qed.

Lemma invariant_process_record (self self' : VaseRunner) r :
  process_record self r = inr self' ->
  cache_invariant self -> cache_invariant self'.
Proof.
  unfold process_record. intros Hrun Hinv.
  assert (forall s, variant_cache s = variant_cache self ->
                    objects s = objects self -> disposed s = disposed self ->
                    cache_invariant s) as Hsame.
  { intros s ? ? ?. by eapply invariant_frame. }
  repeat match type of Hrun with
         | inr _ = inr _ => injection Hrun as <-
         | inl _ = inr _ => discriminate
         | ok _ = inr _ => injection Hrun as <-
         | raise _ = inr _ => discriminate
         | process_cached _ _ _ _ _ = inr _ =>
             eapply invariant_process_cached in Hrun; [exact Hrun |]
         | bind ?m _ = inr _ =>
             let E := fresh "E" in destruct m eqn:E; simpl in Hrun
         | (let '(_, _) := ?p in _) = inr _ =>
             let E := fresh "E" in destruct p eqn:E
         | (if ?b then _ else _) = inr _ =>
             let E := fresh "E" in destruct b eqn:E
         | match ?o with Some _ => _ | None => _ end = inr _ =>
             let E := fresh "E" in destruct o eqn:E
         end;
    try (apply Hsame; reflexivity).
Qed.

Lemma invariant_finish_up (self self' : VaseRunner) :
  finish_up self = inr self' ->
  cache_invariant self -> cache_invariant self'.
Proof.
  unfold finish_up. destruct (use_cache self).
  - apply invariant_flush.
  - by intros [= <-].
Qed.

Lemma invariant_reachable (self0 self : VaseRunner) :
  reachable self0 self -> cache_invariant self0 -> cache_invariant self.
Proof.
  induction 1; intros Hinv; auto.
  - by apply invariant_add, IHreachable.
  - by apply invariant_check, IHreachable.
  - by apply invariant_to_ready, IHreachable.
  - eapply invariant_flush; eauto.
  - eapply invariant_process_record; eauto.
  - eapply invariant_finish_up; eauto.
  - eapply invariant_frame; eauto.
Qed.

(** An identity occurs once in the store. *)
Lemma invariant_store_NoDup (self : VaseRunner) :
  cache_invariant self -> NoDup (objects self).
Proof.
  intros [_ Hid]. apply NoDup_alt. intros i j v Hi Hj.
  apply Hid in Hi, Hj. congruence.
Qed.

End CacheInvariant.

(** ** What a flush writes *)

Section FlushProperties.
Context {collab : Vase.Collaborators}.
Import Vase.

Lemma passes_spec (keep_ids : gset string) (v : CachedVariant) :
  passes keep_ids v = true <-> can_output v = true ∨ var_id v ∈ keep_ids.
Proof.
  unfold passes. by rewrite orb_true_iff, bool_decide_eq_true.
Qed.

(** The behaviour that C3 describes, for a runner that has no burden
    counter: the flush returns; the lines it writes are those of the
    variants on the output-ready list (at stream end: together with the
    cached ones) whose [can_output] is set or whose identifier is in the
    pass-set, in order; the others are counted as filtered; and
    [output_ready] is empty afterwards. *)
Lemma flush_decides_by_pass_set (self : VaseRunner) (final : bool) :
  burden_counter self = false ->
  let keep_ids := pass_set self final in
  let ready := ready_at_flush self final in
  exists self',
    output_cache self final = inr self'
    ∧ out self' = out self ++ map line_of (List.filter (passes keep_ids) ready)
    ∧ disposed self'
      = disposed self ++ map (fun v => (v, passes keep_ids v)) ready
    ∧ var_written self'
      = var_written self
        + Z.of_nat (length (List.filter (passes keep_ids) ready))
    ∧ var_filtered self'
      = var_filtered self
        + Z.of_nat
            (length (List.filter (fun v => negb (passes keep_ids v)) ready))
    ∧ output_ready (variant_cache self') = [].
Proof.
  intros Hb keep_ids ready. eexists. split.
  - by apply output_cache_returns.
  - simpl. repeat split.
Qed.

(** The behaviour that C4 describes, for a runner that has no burden
    counter and uses the cache: [finish_up] returns, every checker that
    takes part is resolved with [final=True], every variant the cache held
    is decided on by the output loop, and both lists are empty
    afterwards. *)
Lemma finish_up_drains (self : VaseRunner) :
  burden_counter self = false ->
  use_cache self = true ->
  let many := bool_decide (min_families (args self) > 1) in
  exists self',
    finish_up self = inr self'
    ∧ cache (variant_cache self') = []
    ∧ output_ready (variant_cache self') = []
    ∧ map fst (drop (length (disposed self)) (disposed self'))
      = output_ready (variant_cache self) ++ cache (variant_cache self)
    ∧ recessive_filter self'
      = resolved_checker true process_potential_recessives true
          (recessive_filter self)
    ∧ dominant_filter self'
      = resolved_checker many process_dominants true (dominant_filter self)
    ∧ de_novo_filter self'
      = resolved_checker many process_de_novos true (de_novo_filter self).
Proof.
  intros Hb Hc many. unfold finish_up. rewrite Hc. eexists. split.
  - by apply output_cache_returns.
  - simpl. repeat split.
    by rewrite drop_app_length, map_fst_decided.
Qed.

End FlushProperties.

(** The runner of the two examples below is the one [__init__] builds for
    [--singleton_recessive S1], with or without a burden counter. *)
Lemma init_gives_fresh_runner (burden : bool) :
  Samples.started burden = inr (Samples.fresh_runner burden).
Proof. destruct burden; reflexivity. Qed.

(** C3, at an input on which the code departs from it.  The runner has a
    recessive checker and a burden counter.  A record of gene A is cached;
    its identifier is in the pass-set of the next flush.  The next record,
    of gene B, closes the window, and the flush raises [TypeError] at
    [burden_vars['recessive'] = vid_to_seg]: nothing is written.  Without
    the burden counter the same two records write the line of the first. *)
Theorem flush_with_burden_counter :
  Samples.observe (Samples.after_records true [Samples.gene_a_1])
  = inr ([], [], ["1:100-A/G"])
  ∧ match Samples.after_records true [Samples.gene_a_1] with
    | inr self => "1:100-A/G" ∈ pass_set (collab := Samples.toy) self false
    | inl _ => False
    end
  ∧ Samples.observe
      (Samples.after_records true [Samples.gene_a_1; Samples.gene_b_1])
    = inl TypeError
  ∧ Samples.observe
      (Samples.after_records false [Samples.gene_a_1; Samples.gene_b_1])
    = inr (["1:100-A/G
"], [], ["1:900-C/T"]).
Proof.
  split; [vm_compute; reflexivity|].
  split; [|split; vm_compute; reflexivity].
  apply (bool_decide_unpack _). vm_compute. exact I.
Qed.

(** C4, at an input on which the code departs from it.  The runner uses the
    cache and has a burden counter; one record is cached when the stream
    ends.  [finish_up] raises [TypeError] before the cache is moved to
    [output_ready]: the record stays cached and is never written.  Without
    the burden counter [finish_up] writes it and leaves the cache empty. *)
Theorem finish_up_with_burden_counter :
  Vase.use_cache (Samples.fresh_runner true) = true
  ∧ Samples.observe (Samples.after_records true [Samples.gene_a_1])
    = inr ([], [], ["1:100-A/G"])
  ∧ Samples.observe
      (Vase.run (H := Samples.toy) (Samples.fresh_runner true)
         [Samples.gene_a_1])
    = inl TypeError
  ∧ Samples.observe
      (Vase.run (H := Samples.toy) (Samples.fresh_runner false)
         [Samples.gene_a_1])
    = inr (["1:100-A/G
"], [], []).
Proof.
  repeat split; vm_compute; reflexivity.
Qed.

(** ** The older runner *)

Section VapeCache.
Context {collab : Vape.Collaborators}.
Import Vape.

Lemma vape_output_loop (rec_ids : list string) (ready : list CachedVariant) :
  forall self : VapeRunner,
  foldl (output_var rec_ids) self ready =
  {| sample_filter := sample_filter self;
     de_novo_filters := de_novo_filters self;
     recessive_filter := recessive_filter self;
     variant_cache := variant_cache self;
     out :=
       out self
       ++ map vape_line_of (List.filter (vape_passes rec_ids) ready);
     objects := objects self;
     disposed :=
       disposed self ++ map (fun v => (v, vape_passes rec_ids v)) ready |}.
Proof.
  induction ready as [|v ready IH]; intros self; simpl.
  - rewrite !app_nil_r. by destruct self.
  - rewrite IH. unfold output_var. fold (vape_passes rec_ids v).
    destruct (vape_passes rec_ids v); simpl; f_equal;
      by rewrite <- ?app_assoc.
Qed.

(** [finish_up] of the older runner writes, of the variants in
    [output_ready] and in [cache], those whose [can_output] is set or whose
    identifier is among the identifiers the recessive checker returns; it
    empties [output_ready] and leaves [cache] as it is. *)
Lemma vape_finish_up_writes (self : VapeRunner) (c : Checker) :
  recessive_filter self = Some c ->
  let rec_ids := (process_potential_recessives c).1 in
  let ready :=
    output_ready (variant_cache self) ++ cache (variant_cache self) in
  out (finish_up self)
  = out self ++ map vape_line_of (List.filter (vape_passes rec_ids) ready)
  ∧ output_ready (variant_cache (finish_up self)) = []
  ∧ cache (variant_cache (finish_up self)) = cache (variant_cache self).
Proof.
  intros Hc rec_ids ready. unfold finish_up. rewrite Hc.
  subst rec_ids. destruct (process_potential_recessives c) as [ids c'].
  rewrite vape_output_loop. simpl. done.
Qed.

Lemma vape_invariant_flush_ready (self : VapeRunner) (c : Checker) :
  objects self
  = map fst (disposed self)
    ++ output_ready (variant_cache self) ++ cache (variant_cache self) ->
  (forall i v, objects self !! i = Some v -> oid v = i) ->
  vape_invariant (flush_ready self c).
Proof.
  intros Hobj Hid. unfold flush_ready, vape_invariant.
  destruct (output_ready (variant_cache self)) as [|v ready] eqn:E.
  - by rewrite E.
  - destruct (process_potential_recessives c) as [ids c'].
    rewrite vape_output_loop.
    cbn [variant_cache objects disposed output_ready cache set_cache
         clear_output_ready].
    split; [done|]. split; [|done].
    rewrite map_app, map_fst_decided, Hobj. by rewrite <- app_assoc.
Qed.

Lemma vape_invariant_process_record (self self' : VapeRunner) r :
  process_record self r = inr self' ->
  vape_invariant self -> vape_invariant self'.
Proof.
  unfold process_record. intros Hrun Hinv.
  repeat match type of Hrun with
         | inr _ = inr _ => injection Hrun as <-
         | inl _ = inr _ => discriminate
         | ok _ = inr _ => injection Hrun as <-
         | raise _ = inr _ => discriminate
         | bind ?m _ = inr _ =>
             let E := fresh "E" in destruct m eqn:E; simpl in Hrun
         | (let '(_, _) := ?p in _) = inr _ =>
             let E := fresh "E" in destruct p eqn:E
         | (if ?b then _ else _) = inr _ =>
             let E := fresh "E" in destruct b eqn:E
         | match ?o with Some _ => _ | None => _ end = inr _ =>
             let E := fresh "E" in destruct o eqn:E
         end;
    try exact Hinv.
  destruct Hinv as (Hready & Hobj & Hid).
  apply vape_invariant_flush_ready; destruct (b || false);
    unfold cache_add; simpl.
  - unfold add_record. rewrite Hready.
    destruct (set_truthy _ && isdisjoint _ _); simpl;
      rewrite Hobj; by rewrite <- ?app_assoc.
  - by rewrite Hready.
  - intros i v Hi. apply lookup_app_Some in Hi as [Hi | [Hlen Hi]].
    + by apply Hid.
    + apply list_lookup_singleton_Some in Hi as [Hz <-]. simpl. lia.
  - exact Hid.
Qed.

(** The invariant of the older cache over its driver: after any number of
    records, what [cache] holds are the instances added and not yet visited
    by an output loop, and [output_ready] is empty, so that the assignment
    [self.output_ready = self.cache] of [add_record] drops nothing. *)
Lemma vape_invariant_process_records (rs : list VcfRecord) :
  forall self self' : VapeRunner,
  process_records self rs = inr self' ->
  vape_invariant self -> vape_invariant self'.
Proof.
  induction rs as [|r rs IH]; simpl; intros self self' Hrun Hinv.
  - by injection Hrun as <-.
  - destruct (process_record self r) as [e|mid] eqn:E; [discriminate|].
    simpl in Hrun. eapply IH; [exact Hrun|].
    by eapply vape_invariant_process_record.
Qed.

Lemma vape_invariant_NoDup (self : VapeRunner) :
  vape_invariant self -> NoDup (objects self).
Proof.
  intros (_ & _ & Hid). apply NoDup_alt. intros i j v Hi Hj.
  apply Hid in Hi, Hj. congruence.
Qed.

End VapeCache.

(** ** The two lists of the cache *)

Section CachePartition.
Context {collab : Vase.Collaborators} {older : Vape.Collaborators}.
Import Vase.

Lemma reachable_process_records (self0 : VaseRunner) rs :
  forall self self',
  reachable self0 self -> process_records self rs = inr self' ->
  reachable self0 self'.
Proof.
  induction rs as [|r rs IH]; simpl; intros self self' Hreach Hrun.
  - by injection Hrun as <-.
  - destruct (process_record self r) as [e|mid] eqn:E; [discriminate|].
    simpl in Hrun. eapply IH; [|exact Hrun]. by eapply reach_record.
Qed.

(** Lists that split a list without repetition. *)
Lemma partition_facts {A : Type} (objs settled ready cached : list A) :
  objs = settled ++ ready ++ cached -> NoDup objs ->
  (forall v, v ∈ cached -> v ∉ ready)
  ∧ (forall v, v ∈ cached ∨ v ∈ ready <-> v ∈ objs ∧ v ∉ settled).
Proof.
  intros Hpart Hnd. rewrite Hpart in Hnd.
  apply NoDup_app in Hnd as (_ & Hsettled & Hheld).
  apply NoDup_app in Hheld as (_ & Hready & _).
  split.
  - intros v Hc Hr. by apply (Hready v).
  - intros v. rewrite Hpart, !elem_of_app. split.
    + intros Hv. split; [tauto|]. intros Hd.
      apply (Hsettled v Hd). rewrite elem_of_app. tauto.
    + tauto.
Qed.

(** C2, as the code has it.

    [VaseRunner]: take a runner whose cache is new and let processing go on
    in any way: calls of [add_record] and [check_record], flushes, whole
    calls of [process_record] and [finish_up].  In every state reached,
    [cache] and [output_ready] have no member in common, and a
    [CachedVariant] is in one of them exactly when it has been constructed
    (added) and the output loop has not yet written or discarded it; the
    two lists keep the order of addition.

    [VapeRunner], whose cache replaces [output_ready] when a window closes:
    take a runner whose cache is new and let it process any records.
    Between two records [output_ready] is empty and [cache] holds exactly
    the variants added and not yet written or discarded.  Right after the
    [add_record] of the next record, whatever the record, the two lists
    have no member in common and hold together exactly the variants added
    and not yet written or discarded: nothing was dropped.  After
    [finish_up] with a recessive filter every variant added has been
    written or discarded and [output_ready] is empty, but [cache] is as it
    was: it holds variants that are decided on already. *)
Theorem cache_partition (self0 self : VaseRunner)
    (p0 p : Vape.VapeRunner) (rs : list VcfRecord) :
  (variant_cache self0 = VariantCache__init__ ->
   objects self0 = [] ->
   disposed self0 = [] ->
   reachable self0 self ->
   (forall v, v ∈ cache (variant_cache self) ->
              v ∉ output_ready (variant_cache self))
   ∧ (forall v,
        v ∈ cache (variant_cache self)
        ∨ v ∈ output_ready (variant_cache self)
        <-> v ∈ objects self ∧ v ∉ map fst (disposed self))
   ∧ objects self
     = map fst (disposed self)
       ++ output_ready (variant_cache self) ++ cache (variant_cache self))
  ∧
  (Vape.variant_cache p0 = Vape.VariantCache__init__ ->
   Vape.objects p0 = [] ->
   Vape.disposed p0 = [] ->
   Vape.process_records p0 rs = inr p ->
   (Vape.output_ready (Vape.variant_cache p) = []
    ∧ (forall v,
         v ∈ Vape.cache (Vape.variant_cache p)
         <-> v ∈ Vape.objects p ∧ v ∉ map fst (Vape.disposed p))
    ∧ Vape.objects p
      = map fst (Vape.disposed p) ++ Vape.cache (Vape.variant_cache p))
   ∧ (forall rc r ia ic c,
        let q :=
          Vape.cache_add (Vape.set_cache p rc (Vape.variant_cache p))
            r ia ic c in
        (forall v, v ∈ Vape.cache (Vape.variant_cache q) ->
                   v ∉ Vape.output_ready (Vape.variant_cache q))
        ∧ (forall v,
             v ∈ Vape.cache (Vape.variant_cache q)
             ∨ v ∈ Vape.output_ready (Vape.variant_cache q)
             <-> v ∈ Vape.objects q ∧ v ∉ map fst (Vape.disposed q))
        ∧ Vape.objects q
          = map fst (Vape.disposed q)
            ++ Vape.output_ready (Vape.variant_cache q)
            ++ Vape.cache (Vape.variant_cache q))
   ∧ (forall c, Vape.recessive_filter p = Some c ->
        let q := Vape.finish_up p in
        Vape.output_ready (Vape.variant_cache q) = []
        ∧ Vape.cache (Vape.variant_cache q)
          = Vape.cache (Vape.variant_cache p)
        ∧ Vape.objects q = map fst (Vape.disposed q)
        ∧ (forall v, v ∈ Vape.cache (Vape.variant_cache q) ->
                     v ∈ map fst (Vape.disposed q)))).
Proof.
  split.
  - intros Hvc Hobj Hdis Hreach.
    assert (cache_invariant self) as Hinv.
    { apply (invariant_reachable self0); [done|].
      unfold cache_invariant. rewrite Hvc, Hobj, Hdis. split; [done|].
      intros i v Hi. by rewrite lookup_nil in Hi. }
    pose proof (invariant_store_NoDup _ Hinv) as Hnd.
    destruct Hinv as [Hpart _]. unfold held in Hpart.
    destruct (partition_facts _ _ _ _ Hpart Hnd) as [Hdisj Hiff].
    split; [exact Hdisj|]. split; [exact Hiff|exact Hpart].
  - intros Hvc Hobj Hdis Hrun.
    assert (vape_invariant p0) as Hinv0.
    { unfold vape_invariant. rewrite Hvc, Hobj, Hdis. split; [done|].
      split; [done|]. intros i v Hi. by rewrite lookup_nil in Hi. }
    pose proof (vape_invariant_process_records rs p0 p Hrun Hinv0) as Hinv.
    pose proof (vape_invariant_NoDup p Hinv) as Hnd.
    destruct Hinv as (Hready & Hpart & Hid).
    split; [|split].
    + split; [exact Hready|]. split; [|exact Hpart].
      assert (Vape.objects p
              = map fst (Vape.disposed p)
                ++ [] ++ Vape.cache (Vape.variant_cache p)) as Hpart'
        by done.
      destruct (partition_facts _ _ _ _ Hpart' Hnd) as [_ Hiff].
      intros v. rewrite <- Hiff. rewrite elem_of_nil. tauto.
    + intros rc r ia ic c q.
      assert (Vape.objects q
              = map fst (Vape.disposed q)
                ++ Vape.output_ready (Vape.variant_cache q)
                ++ Vape.cache (Vape.variant_cache q)) as Hq.
      { subst q. unfold Vape.cache_add, Vape.add_record. simpl.
        rewrite Hready, Hpart.
        destruct (set_truthy _ && isdisjoint _ _); simpl;
          by rewrite <- ?app_assoc. }
      assert (NoDup (Vape.objects q)) as Hndq.
      { apply NoDup_alt. intros i j v Hi Hj.
        assert (forall k, Vape.objects q !! k = Some v -> Vape.oid v = k)
          as Hidq.
        { intros k Hk. subst q. unfold Vape.cache_add in Hk. simpl in Hk.
          apply lookup_app_Some in Hk as [Hk | [Hlen Hk]].
          - by apply Hid.
          - apply list_lookup_singleton_Some in Hk as [Hz <-]. simpl. lia. }
        apply Hidq in Hi, Hj. congruence. }
      destruct (partition_facts _ _ _ _ Hq Hndq) as [Hdisj Hiff].
      split; [exact Hdisj|]. split; [exact Hiff|exact Hq].
    + intros c Hc q. subst q. unfold Vape.finish_up. rewrite Hc.
      destruct (Vape.process_potential_recessives c) as [rec_ids c'].
      rewrite vape_output_loop. simpl. rewrite Hready. simpl.
      split; [done|]. split; [done|].
      assert (map fst (Vape.disposed p
                       ++ map (fun v => (v, vape_passes rec_ids v))
                            (Vape.cache (Vape.variant_cache p)))
              = Vape.objects p) as Hall.
      { rewrite map_app, Hpart. f_equal.
        rewrite map_map. simpl. by rewrite map_id. }
      rewrite Hall. split; [done|].
      intros v Hv. rewrite Hpart. apply elem_of_app. by right.
Qed.

End CachePartition.

(** The witness of C2.  [VaseRunner]: two records of different genes are
    added.  [VapeRunner]: two records of gene A have been processed and a
    record of gene B is added. *)
Lemma cache_partition_witness :
  let self :=
    Vase.cache_add
      (Vase.cache_add (Samples.fresh_runner false) Samples.gene_a_1 false)
      Samples.gene_b_1 true in
  Vase.objects self
  = map fst (Vase.disposed self)
    ++ Vase.output_ready (Vase.variant_cache self)
    ++ Vase.cache (Vase.variant_cache self)
  ∧ exists p,
      Vape.process_records (H := VapeSamples.toy) VapeSamples.fresh_runner
        [Samples.gene_a_1; Samples.gene_a_2] = inr p
      ∧ Vape.output_ready (Vape.variant_cache p) = []
      ∧ let q :=
          Vape.cache_add (H := VapeSamples.toy) p Samples.gene_b_1 [false]
            None false in
        Vape.objects q
        = map fst (Vape.disposed q)
          ++ Vape.output_ready (Vape.variant_cache q)
          ++ Vape.cache (Vape.variant_cache q).
Proof.
  intros self.
  assert (VapeSamples.observe
            (Vape.process_records (H := VapeSamples.toy)
               VapeSamples.fresh_runner
               [Samples.gene_a_1; Samples.gene_a_2])
          = inr ([], [], ["1:100-A/G"; "1:250-T/TA"])) as Hobs
    by (vm_compute; reflexivity).
  destruct (Vape.process_records (H := VapeSamples.toy)
              VapeSamples.fresh_runner
              [Samples.gene_a_1; Samples.gene_a_2])
    as [e|p] eqn:Hrun; [discriminate|].
  destruct (cache_partition (collab := Samples.toy) (older := VapeSamples.toy)
              (Samples.fresh_runner false) self
              VapeSamples.fresh_runner p
              [Samples.gene_a_1; Samples.gene_a_2]) as [Hvase Hvape].
  split.
  - apply Hvase; [reflexivity | reflexivity | reflexivity |].
    apply reach_add, reach_add, reach_start.
  - exists p. split; [reflexivity|].
    destruct (Hvape eq_refl eq_refl eq_refl Hrun)
      as ((Hready & _) & Hadd & _).
    split; [exact Hready|].
    destruct (Hadd (Vape.recessive_filter p) Samples.gene_b_1 [false] None
                false) as (_ & _ & Hq).
    assert (Vape.set_cache p (Vape.recessive_filter p) (Vape.variant_cache p)
            = p) as Hp by (by destruct p).
    rewrite Hp in Hq. exact Hq.
Defined.

(** C2 as it is stated fails for the cache of [vape_runner.py].  Three
    records of three genes are added to a new cache, and nothing is
    written or discarded in between: when the third closes the window of
    the second, [self.output_ready = self.cache] drops the first, which is
    then in neither list.  And [VapeRunner.finish_up] after one record of
    gene A writes its line and leaves it in [cache], so that a second
    [finish_up] writes the line again. *)
Lemma cache_partition_counterexample :
  let a := Vape.CachedVariant__init__ 0 Samples.gene_a_1 [false] None false in
  let vc :=
    Vape.add_record
      (Vape.add_record
         (Vape.add_record Vape.VariantCache__init__
            0 Samples.gene_a_1 [false] None false)
         1 Samples.gene_b_1 [false] None false)
      2 Samples.gene_c_1 [false] None false in
  ((a ∉ Vape.output_ready vc) ∧ (a ∉ Vape.cache vc)
   ∧ map Vape.var_id (Vape.output_ready vc) = ["1:900-C/T"]
   ∧ map Vape.var_id (Vape.cache vc) = ["2:40-G/A"])
  ∧ match Vape.process_records (H := VapeSamples.toy)
            VapeSamples.fresh_runner [Samples.gene_a_1] with
    | inr p =>
        let q := Vape.finish_up p in
        Vape.out q = ["1:100-A/G
"]
        ∧ Vape.disposed q = [(a, true)]
        ∧ Vape.cache (Vape.variant_cache q) = [a]
        ∧ Vape.out (Vape.finish_up q) = ["1:100-A/G
"; "1:100-A/G
"]
    | inl _ => False
    end.
Proof.
  split.
  - assert (forall (x y : Vape.CachedVariant),
              Vape.oid x ≠ Vape.oid y -> x ∉ [y]) as Hother.
    { intros x y Hne Hin. apply list_elem_of_singleton in Hin.
      by subst. }
    split; [|split; [|split]].
    + apply Hother. simpl. lia.
    + apply Hother. simpl. lia.
    + vm_compute. reflexivity.
    + vm_compute. reflexivity.
  - vm_compute. repeat split.
Qed.

(** ** Models without eligible samples *)

Section ZeroEligible.
Context {collab : Vase.Collaborators}.
Import Vase.

Lemma get_family_filter_args (self self1 : VaseRunner) ff :
  _get_family_filter self = inr (self1, ff) ->
  args self1 = args self ∧ family_filter self1 = Some ff
  ∧ de_novo_filter self1 = de_novo_filter self
  ∧ dominant_filter self1 = dominant_filter self
  ∧ recessive_filter self1 = recessive_filter self.
Proof.
  unfold _get_family_filter. destruct (family_filter self) as [ff'|] eqn:E.
  - intros [= <- <-]. by rewrite E.
  - destruct (_ && _); [discriminate|].
    destruct (build_family_filter _ _) as [e|[pf ff']]; [discriminate|].
    simpl. by intros [= <- <-].
Qed.

(** The three getters on a model without eligible samples: the model is
    dropped with a warning when one of the two other flags is set, and the
    getter raises when neither is. *)
Lemma get_recessive_filter_zero (self self1 : VaseRunner) ff :
  _get_family_filter self = inr (self1, ff) ->
  affected (RecessiveFilter ff (args self)) = [] ->
  _get_recessive_filter self =
  if de_novo (args self) || dominant (args self) then
    ok (dropped self1 (de_novo_filter self1) (dominant_filter self1) None
          recessive_msg)
  else raise (Exception ("Error: " +:+ recessive_msg)).
Proof.
  intros Hff Hzero. unfold _get_recessive_filter. rewrite Hff. simpl.
  destruct (get_family_filter_args _ _ _ Hff) as (-> & _).
  rewrite Hzero. by destruct (de_novo (args self)), (dominant (args self)).
Qed.

Lemma get_de_novo_filter_zero (self self1 : VaseRunner) ff :
  _get_family_filter self = inr (self1, ff) ->
  affected (DeNovoFilter ff (args self)) = [] ->
  _get_de_novo_filter self =
  if biallelic (args self) || dominant (args self) then
    ok (dropped (_get_control_filter self1) None (dominant_filter self1)
          (recessive_filter self1) de_novo_msg)
  else raise (Exception ("Error: " +:+ de_novo_msg)).
Proof.
  intros Hff Hzero. unfold _get_de_novo_filter. rewrite Hff. simpl.
  destruct (get_family_filter_args _ _ _ Hff) as (Ha & _).
  assert (args (_get_control_filter self1) = args self) as ->.
  { unfold _get_control_filter. by destruct (control_filter self1). }
  rewrite Hzero.
  destruct (biallelic (args self)), (dominant (args self)); simpl;
    unfold dropped, _get_control_filter;
    by destruct (control_filter self1).
Qed.

Lemma get_dominant_filter_zero (self self1 : VaseRunner) ff :
  _get_family_filter self = inr (self1, ff) ->
  affected (DominantFilter ff (args self)) = [] ->
  _get_dominant_filter self =
  if biallelic (args self) || de_novo (args self) then
    ok (dropped (_get_control_filter self1) (de_novo_filter self1) None
          (recessive_filter self1) dominant_msg)
  else raise (Exception ("Error: " +:+ dominant_msg)).
Proof.
  intros Hff Hzero. unfold _get_dominant_filter. rewrite Hff. simpl.
  destruct (get_family_filter_args _ _ _ Hff) as (Ha & _).
  assert (args (_get_control_filter self1) = args self) as ->.
  { unfold _get_control_filter. by destruct (control_filter self1). }
  rewrite Hzero.
  destruct (biallelic (args self)), (de_novo (args self)); simpl;
    unfold dropped, _get_control_filter;
    by destruct (control_filter self1).
Qed.

Lemma setup_family_filter a p (self : VaseRunner) :
  setup_state a p self ->
  (exists e, _get_family_filter self = inl e)
  ∨ (exists self1 pf ff,
       _get_family_filter self = inr (self1, ff)
       ∧ build_family_filter p a = inr (pf, ff)
       ∧ setup_state a p self1).
Proof.
  intros (Ha & Hdn & Hdom & Hrc & Hff). unfold _get_family_filter.
  destruct Hff as [[Hnone Hped] | (pf & ff & Hsome & Hbuild)].
  - rewrite Hnone, Hped, Ha.
    destruct (_ && _); [left; by eexists|].
    destruct (build_family_filter p a) as [e|[pf ff]] eqn:E;
      [left; by eexists|].
    right. exists (set_filters_setup self (Some pf) (Some ff)
                     (control_filter self) (de_novo_filter self)
                     (dominant_filter self) (recessive_filter self)
                     (use_cache self) (logged self)), pf, ff.
    split; [done|]. split; [done|].
    unfold setup_state. simpl. repeat split; try done.
    right. by exists pf, ff.
  - rewrite Hsome. right. exists self, pf, ff.
    split; [done|]. split; [done|].
    unfold setup_state. repeat split; try done. right. by exists pf, ff.
Qed.

Lemma setup_control_filter a p (self : VaseRunner) :
  setup_state a p self -> setup_state a p (_get_control_filter self).
Proof.
  unfold _get_control_filter. by destruct (control_filter self).
Qed.

Lemma setup_dropped a p (self : VaseRunner) msg :
  setup_state a p self -> setup_state a p (dropped self None None None msg).
Proof.
  intros (Ha & _ & _ & _ & Hff). unfold setup_state, dropped. simpl.
  by repeat split.
Qed.

Section Zero.
Variables (a : Args) (p : option PedFileT).

Hypothesis no_de_novo :
  forall pf ff, build_family_filter p a = inr (pf, ff) ->
  requested_de_novo a = true -> affected (DeNovoFilter ff a) = [].
Hypothesis no_recessive :
  forall pf ff, build_family_filter p a = inr (pf, ff) ->
  requested_recessive a = true -> affected (RecessiveFilter ff a) = [].
Hypothesis no_dominant :
  forall pf ff, build_family_filter p a = inr (pf, ff) ->
  requested_dominant a = true -> affected (DominantFilter ff a) = [].

Lemma setup_de_novo (self : VaseRunner) :
  setup_state a p self -> requested_de_novo a = true ->
  (exists e, _get_de_novo_filter self = inl e)
  ∨ (biallelic a || dominant a = true
     ∧ exists self', _get_de_novo_filter self = inr self'
                     ∧ setup_state a p self').
Proof.
  intros Hs Hreq.
  destruct (setup_family_filter _ _ _ Hs)
    as [[e He] | (self1 & pf & ff & Hff & Hbuild & Hs1)].
  - left. exists e. unfold _get_de_novo_filter. by rewrite He.
  - pose proof Hs as (Ha & _).
    rewrite (get_de_novo_filter_zero _ _ _ Hff), Ha
      by (rewrite Ha; eauto).
    destruct (biallelic a || dominant a); [right | left; by eexists].
    split; [done|]. eexists. split; [done|].
    destruct Hs1 as (? & ? & Hdom & Hrc & ?). rewrite Hdom, Hrc.
    by apply setup_dropped, setup_control_filter.
Qed.

Lemma setup_recessive (self : VaseRunner) :
  setup_state a p self -> requested_recessive a = true ->
  (exists e, _get_recessive_filter self = inl e)
  ∨ (de_novo a || dominant a = true
     ∧ exists self', _get_recessive_filter self = inr self'
                     ∧ setup_state a p self').
Proof.
  intros Hs Hreq.
  destruct (setup_family_filter _ _ _ Hs)
    as [[e He] | (self1 & pf & ff & Hff & Hbuild & Hs1)].
  - left. exists e. unfold _get_recessive_filter. by rewrite He.
  - pose proof Hs as (Ha & _).
    rewrite (get_recessive_filter_zero _ _ _ Hff), Ha
      by (rewrite Ha; eauto).
    destruct (de_novo a || dominant a); [right | left; by eexists].
    split; [done|]. eexists. split; [done|].
    pose proof Hs1 as (? & Hdn & Hdom & ? & ?). rewrite Hdn, Hdom.
    by apply setup_dropped.
Qed.

Lemma setup_dominant (self : VaseRunner) :
  setup_state a p self -> requested_dominant a = true ->
  (exists e, _get_dominant_filter self = inl e)
  ∨ (biallelic a || de_novo a = true
     ∧ exists self', _get_dominant_filter self = inr self'
                     ∧ setup_state a p self').
Proof.
  intros Hs Hreq.
  destruct (setup_family_filter _ _ _ Hs)
    as [[e He] | (self1 & pf & ff & Hff & Hbuild & Hs1)].
  - left. exists e. unfold _get_dominant_filter. by rewrite He.
  - pose proof Hs as (Ha & _).
    rewrite (get_dominant_filter_zero _ _ _ Hff), Ha
      by (rewrite Ha; eauto).
    destruct (biallelic a || de_novo a); [right | left; by eexists].
    split; [done|]. eexists. split; [done|].
    destruct Hs1 as (? & Hdn & ? & Hrc & ?). rewrite Hdn, Hrc.
    by apply setup_dropped, setup_control_filter.
Qed.

(** When no requested model has eligible samples, [__init__] raises. *)
Lemma init_raises_without_eligible (sample burden : bool) :
  requested_de_novo a || requested_recessive a || requested_dominant a
  = true ->
  exists e, VaseRunner__init__ a p sample burden = inl e.
Proof.
  intros Hreq. unfold VaseRunner__init__.
  set (self0 := {| args := a |}).
  assert (setup_state a p self0) as Hs0.
  { unfold setup_state. simpl. repeat split. by left. }
  clearbody self0.
  (* --de_novo *)
  assert ((exists e,
             (if de_novo a then _get_de_novo_filter self0 else ok self0)
             = inl e)
          ∨ exists self1,
              (if de_novo a then _get_de_novo_filter self0 else ok self0)
              = inr self1 ∧ setup_state a p self1
              ∧ (de_novo a = true -> biallelic a || dominant a = true))
    as [[e ->] | (self1 & -> & Hs1 & Hdn)]; [|by eexists|].
  { pose proof (setup_de_novo self0 Hs0) as Hstep.
    unfold requested_de_novo in Hstep.
    destruct (de_novo a) eqn:E; [|right; by eexists].
    destruct (Hstep eq_refl) as [? | (? & self1 & ? & ?)];
      [by left | right; by eexists]. }
  simpl.
  (* --biallelic or --singleton_recessive *)
  fold (requested_recessive a).
  assert ((exists e,
             (if requested_recessive a then _get_recessive_filter self1
              else ok self1) = inl e)
          ∨ exists self2,
              (if requested_recessive a then _get_recessive_filter self1
               else ok self1) = inr self2 ∧ setup_state a p self2
              ∧ (requested_recessive a = true ->
                 de_novo a || dominant a = true))
    as [[e ->] | (self2 & -> & Hs2 & Hrc)]; [|by eexists|].
  { pose proof (setup_recessive self1 Hs1) as Hstep.
    destruct (requested_recessive a) eqn:E; [|right; by eexists].
    destruct (Hstep eq_refl) as [? | (? & self2 & ? & ?)];
      [by left | right; by eexists]. }
  simpl.
  (* --dominant or --singleton_dominant *)
  fold (requested_dominant a).
  assert ((exists e,
             (if requested_dominant a then _get_dominant_filter self2
              else ok self2) = inl e)
          ∨ exists self3,
              (if requested_dominant a then _get_dominant_filter self2
               else ok self2) = inr self3 ∧ setup_state a p self3
              ∧ (requested_dominant a = true ->
                 biallelic a || de_novo a = true))
    as [[e ->] | (self3 & -> & Hs3 & Hdom)]; [|by eexists|].
  { pose proof (setup_dominant self2 Hs2) as Hstep.
    destruct (requested_dominant a) eqn:E; [|right; by eexists].
    destruct (Hstep eq_refl) as [? | (? & self3 & ? & ?)];
      [by left | right; by eexists]. }
  simpl.
  (* no filter was created *)
  unfold _check_got_inherit_filter.
  destruct Hs3 as (-> & -> & -> & -> & _).
  assert (de_novo a || biallelic a || dominant a = true) as ->;
    [|by eexists].
  unfold requested_de_novo in Hreq.
  destruct (de_novo a), (biallelic a), (dominant a); try done.
  destruct (requested_recessive a); [by apply Hrc|].
  destruct (requested_dominant a); [by apply Hdom | done].
Qed.

End Zero.

End ZeroEligible.

(** C7, at an input on which the code departs from it.  With
    [--biallelic --singleton_dominant S1], [__init__] sets up the recessive
    and the dominant model (the dominant one for the singleton list).  No
    sample fits the recessive model; the sample S1 fits the dominant one.
    The test of [_get_recessive_filter], [not args.de_novo and not
    args.dominant], looks at the two flags and not at the singleton list:
    it finds no other model, and [__init__] raises instead of dropping the
    recessive model with a warning and going on with the dominant one.
    With the same samples and the flag [--dominant] given as well, the
    recessive model is dropped with the warning and [__init__] returns a
    runner that holds the dominant filter. *)
Theorem zero_eligible_beside_singleton :
  let a := Samples.biallelic_and_singleton_dominant in
  let b := Samples.biallelic_dominant_and_singleton in
  (requested_recessive a = true ∧ requested_dominant a = true
   ∧ Vase.affected (Vase.RecessiveFilter (Collaborators := Samples.toy) tt a)
     = []
   ∧ Vase.affected (Vase.DominantFilter (Collaborators := Samples.toy) tt a)
     = ["S1"]
   ∧ Vase.de_novo a || Vase.dominant a = false
   ∧ Vase.VaseRunner__init__ (H := Samples.toy) a None false false
     = inl (Exception ("Error: " +:+ Vase.recessive_msg)))
  ∧ (requested_recessive b = true ∧ requested_dominant b = true
     ∧ Vase.affected
         (Vase.RecessiveFilter (Collaborators := Samples.toy) tt b) = []
     ∧ Vase.affected
         (Vase.DominantFilter (Collaborators := Samples.toy) tt b) = ["S1"]
     ∧ match Vase.VaseRunner__init__ (H := Samples.toy) b None false false
       with
       | inr self =>
           Vase.recessive_filter self = None
           ∧ Vase.dominant_filter self
             = Some (Vase.DominantFilter (Collaborators := Samples.toy) tt b)
           ∧ Vase.logged self = [Vase.recessive_msg +:+ Vase.continue_msg]
       | inl _ => False
       end).
Proof.
  split; repeat split; vm_compute; reflexivity.
Qed.

(** ** Constructing an [Individual] *)

Section IndividualProperties.
Import Ped.

Lemma new_loc_fresh (h : heap) : new_loc h ∉ allocated_locs h.
Proof. unfold new_loc. apply is_fresh. Qed.

Lemma new_loc_not_list (h : heap) : new_loc h ∉ dom (lists h).
Proof.
  intros Hin. apply (new_loc_fresh h). unfold allocated_locs.
  apply elem_of_union. by left.
Qed.

Lemma allocated_set_list h l items :
  allocated_locs (set_list h l items) = {[l]} ∪ allocated_locs h.
Proof.
  unfold allocated_locs, set_list. simpl.
  by rewrite dom_insert_L, (assoc_L (∪)).
Qed.

Lemma allocated_set_indiv h l x :
  allocated_locs (set_indiv h l x) = {[l]} ∪ allocated_locs h.
Proof.
  unfold allocated_locs, set_indiv. simpl. rewrite dom_insert_L.
  apply set_eq. intros k. rewrite !elem_of_union. tauto.
Qed.

Lemma truthy_set_list (h : heap) l items arg :
  valid h arg -> l ∉ dom (lists h) ->
  truthy (set_list h l items) arg = truthy h arg.
Proof.
  destruct arg as [| | |l']; try done. simpl. intros Hv Hl.
  unfold get_list, set_list. simpl.
  rewrite lookup_total_insert_ne; [done|]. intros ->. done.
Qed.

Lemma truthy_set_indiv (h : heap) l x arg :
  truthy (set_indiv h l x) arg = truthy h arg.
Proof. by destruct arg. Qed.

Lemma valid_set_list (h : heap) l items arg :
  valid h arg -> valid (set_list h l items) arg.
Proof.
  destruct arg; try done. simpl. rewrite dom_insert_L.
  intros Hin. apply elem_of_union. by right.
Qed.

Lemma truthy_set_list_other (h : heap) l items arg :
  arg ≠ VList l -> truthy (set_list h l items) arg = truthy h arg.
Proof.
  destruct arg as [| | |l']; try done. simpl. intros Hne.
  unfold get_list, set_list. simpl.
  rewrite lookup_total_insert_ne; [done|]. congruence.
Qed.

Lemma append_if_spec (h : heap) l arg items :
  lists h !! l = Some items ->
  append_if h l arg = set_list h l (items ++ wrapped h arg).
Proof.
  intros Hl. unfold append_if, wrapped, append, get_list.
  rewrite (lookup_total_correct _ _ _ Hl).
  destruct (truthy h arg); [done|].
  rewrite app_nil_r. unfold set_list. rewrite insert_id by done.
  by destruct h.
Qed.

(** The store and the address that [Individual.__init__] returns when the
    phenotype code is an integer. *)
Lemma Individual__init__returns (h : heap)
    (fid_ iid_ father_ mother_ sex_ phenotype_ : scalar)
    (siblings_ half_siblings_ children_ : pyval) (p : Z) :
  py_int phenotype_ = inr p ->
  valid h siblings_ -> valid h half_siblings_ -> valid h children_ ->
  let self := new_loc h in
  let sex_z := match py_int sex_ with inr z => z | inl _ => 0 end in
  let blank :=
    {| fid := fid_; iid := iid_; father := father_; mother := mother_;
       sex := sex_z; phenotype := p; siblings := 0%nat;
       half_siblings := 0%nat; children := 0%nat |} in
  let h0 := set_indiv h self blank in
  let s := new_loc h0 in
  let h1 := set_list h0 s (wrapped h siblings_) in
  let hs := new_loc h1 in
  let h2 := set_list h1 hs (wrapped h half_siblings_) in
  let ch := new_loc h2 in
  let h3 := set_list h2 ch (wrapped h children_) in
  Individual__init__ h fid_ iid_ father_ mother_ sex_ phenotype_
    siblings_ half_siblings_ children_
  = inr (set_indiv h3 self
           {| fid := fid_; iid := iid_; father := father_;
              mother := mother_; sex := sex_z; phenotype := p;
              siblings := s; half_siblings := hs; children := ch |},
         self).
Proof.
  intros Hp Hv1 Hv2 Hv3 self sex_z blank h0 s h1 hs h2 ch h3.
  unfold Individual__init__. rewrite Hp. simpl.
  fold self. fold sex_z. fold blank. fold h0.
  unfold alloc_list. fold s.
  assert (new_loc (set_list h0 s []) = hs) as ->
    by (unfold hs, h1, new_loc; by rewrite !allocated_set_list).
  assert (new_loc (set_list (set_list h0 s []) hs []) = ch) as ->
    by (unfold ch, h2, h1, new_loc; by rewrite !allocated_set_list).
  assert (s ∉ allocated_locs h0) as Hs by apply new_loc_fresh.
  assert (hs ∉ allocated_locs h1) as Hhs by apply new_loc_fresh.
  assert (ch ∉ allocated_locs h2) as Hch by apply new_loc_fresh.
  unfold h2 in Hch. rewrite allocated_set_list in Hch.
  unfold h1 in Hhs, Hch. rewrite allocated_set_list in Hhs, Hch.
  unfold h0 in Hs, Hhs, Hch. rewrite allocated_set_indiv in Hs, Hhs, Hch.
  apply not_elem_of_union in Hs as [_ Hs].
  apply not_elem_of_union in Hhs as [Hhs_s Hhs].
  apply not_elem_of_union in Hhs as [_ Hhs].
  apply not_elem_of_union in Hch as [Hch_hs Hch].
  apply not_elem_of_union in Hch as [Hch_s Hch].
  apply not_elem_of_union in Hch as [_ Hch].
  rewrite not_elem_of_singleton in Hhs_s, Hch_hs, Hch_s.
  assert (forall arg l, valid h arg -> l ∉ allocated_locs h ->
                        arg ≠ VList l) as Hother.
  { intros arg l Hv Hl ->. apply Hl. unfold allocated_locs.
    apply elem_of_union. by left. }
  assert (forall arg h' l items, valid h arg -> l ∉ allocated_locs h ->
            wrapped (set_list h' l items) arg = wrapped h' arg) as Hw.
  { intros arg h' l items Hv Hl. unfold wrapped.
    rewrite truthy_set_list_other; [done|]. by apply Hother. }
  rewrite (append_if_spec _ s siblings_ []); cycle 1.
  { simpl. rewrite !lookup_insert_ne by done. apply lookup_insert_eq. }
  rewrite (append_if_spec _ hs half_siblings_ []); cycle 1.
  { simpl. rewrite !lookup_insert_ne by done. apply lookup_insert_eq. }
  rewrite (append_if_spec _ ch children_ []); cycle 1.
  { simpl. rewrite !lookup_insert_ne by done. apply lookup_insert_eq. }
  rewrite !Hw by done. simpl.
  assert (forall arg, wrapped h0 arg = wrapped h arg) as Hw0
    by (intros arg; unfold wrapped, h0; by rewrite truthy_set_indiv).
  rewrite !Hw0.
  unfold ok. do 2 f_equal. f_equal.
  unfold h3, h2, h1, set_list. simpl. f_equal.
  apply map_eq. intros k.
  destruct (decide (k = ch)) as [->|Hk1];
    [by repeat (rewrite lookup_insert_eq
                || rewrite lookup_insert_ne by done)|].
  destruct (decide (k = hs)) as [->|Hk2];
    [by repeat (rewrite lookup_insert_eq
                || rewrite lookup_insert_ne by done)|].
  destruct (decide (k = s)) as [->|Hk3];
    [by repeat (rewrite lookup_insert_eq
                || rewrite lookup_insert_ne by done)|].
  by rewrite !lookup_insert_ne by done.
Qed.

Lemma get_indiv_set_indiv (h : heap) l x :
  get_indiv (set_indiv h l x) l = x.
Proof. unfold get_indiv, set_indiv. simpl. apply lookup_total_insert_eq. Qed.

Lemma py_int_error (x : scalar) e : py_int x = inl e -> e = ValueError.
Proof.
  destruct x as [s|z]; simpl; [|done].
  destruct (int_of_string s); [done|]. by intros [= <-].
Qed.

(** C9, as the code has it.  The constructor reads both codes with [int]:
    what counts is the integer a code denotes, so ["1"], ["01"] and ["+1"]
    are the same code.  A phenotype code that is not an integer makes the
    constructor raise [ValueError]; otherwise the individual is male when
    the sex code denotes 1, female when it denotes 2 and of unknown sex for
    every other integer and for every sex code that is not an integer; it
    is unaffected when the phenotype code denotes 1, affected when it
    denotes 2 and of unknown phenotype for every other integer, 0 and -9
    among them.  Blanks around the digits are skipped by [int], the
    separator 0x1f is not: ["2"] followed by it is no integer. *)
Theorem sex_and_phenotype_codes (h : heap)
    (fid_ iid_ father_ mother_ sex_ phenotype_ : scalar)
    (siblings_ half_siblings_ children_ : pyval) :
  match py_int phenotype_ with
  | inl _ =>
      Individual__init__ h fid_ iid_ father_ mother_ sex_ phenotype_
        siblings_ half_siblings_ children_ = inl ValueError
  | inr p =>
      exists h' self,
        Individual__init__ h fid_ iid_ father_ mother_ sex_ phenotype_
          siblings_ half_siblings_ children_ = inr (h', self)
        ∧ let x := get_indiv h' self in
          (is_male x = true <-> py_int sex_ = inr 1)
          ∧ (is_female x = true <-> py_int sex_ = inr 2)
          ∧ (is_unknown_gender x = true
             <-> py_int sex_ ≠ inr 1 ∧ py_int sex_ ≠ inr 2)
          ∧ (is_unaffected x = true <-> p = 1)
          ∧ (is_affected x = true <-> p = 2)
          ∧ (is_unknown_phenotype x = true <-> p ≠ 1 ∧ p ≠ 2)
  end
  ∧ py_int (SStr "1") = inr 1 ∧ py_int (SStr "2") = inr 2
  ∧ py_int (SStr "0") = inr 0 ∧ py_int (SStr "-9") = inr (-9)
  ∧ py_int (SStr " 2 ") = inr 2
  ∧ py_int (SStr (String "2"%char (String "031"%char EmptyString)))
    = inl ValueError
  ∧ forall z, py_int (SInt z) = inr z.
Proof.
  split; [|by repeat split].
  unfold Individual__init__.
  destruct (py_int phenotype_) as [e|p] eqn:Hp; simpl.
  - by rewrite (py_int_error _ _ Hp).
  - eexists _, _. split; [reflexivity|].
    rewrite get_indiv_set_indiv.
    unfold is_male, is_female, is_unknown_gender, is_unaffected,
      is_affected, is_unknown_phenotype. simpl.
    rewrite !andb_true_iff, !bool_decide_eq_true.
    destruct (py_int sex_) as [e|z].
    + repeat split; try done; intros; try discriminate; lia.
    + repeat split; try done; try congruence.
      all: intros; try (injection 1; lia); try lia.
      all: try (intros [= ?]; lia).
      all: destruct H as [H1 H2]; intros ->; by (apply H1 || apply H2).
Qed.

(** C9 as it is stated fails on both codes: the sex code ["01"] is not
    ['1'] and gives a male, not an individual of unknown sex; the
    phenotype code ["NA"] gives no individual of unknown phenotype, the
    constructor raises [ValueError]. *)
Lemma sex_and_phenotype_counterexample :
  SStr "01" ≠ SStr "1"
  ∧ match Individual6 module_heap (SStr "F1") (SStr "A") (SStr "0")
            (SStr "0") (SStr "01") (SStr "2") with
    | inr (h, self) =>
        is_male (get_indiv h self) = true
        ∧ is_unknown_gender (get_indiv h self) = false
    | inl _ => False
    end
  ∧ Individual6 module_heap (SStr "F1") (SStr "A") (SStr "0") (SStr "0")
      (SStr "1") (SStr "NA") = inl ValueError.
Proof.
  split; [done|]. split; vm_compute; [split|]; reflexivity.
Qed.

Lemma lists_set_indiv (h : heap) l x : lists (set_indiv h l x) = lists h.
Proof. reflexivity. Qed.

(** C10.  When the phenotype code is an integer and the three relationship
    arguments refer to objects of the store, the constructor returns an
    individual whose three attributes are three different list objects,
    none of which existed before.  An attribute built from an argument
    that is true holds that argument as its only element (a list argument
    is one element, not spliced in); built from an argument that is false,
    or omitted, it is empty.  No list that existed before is changed; in
    particular the default lists stay empty and are not the attributes. *)
Theorem relatives_are_wrapped (h : heap)
    (fid_ iid_ father_ mother_ sex_ phenotype_ : scalar)
    (siblings_ half_siblings_ children_ : pyval) (p : Z) :
  py_int phenotype_ = inr p ->
  valid h siblings_ -> valid h half_siblings_ -> valid h children_ ->
  exists h' self x,
    Individual__init__ h fid_ iid_ father_ mother_ sex_ phenotype_
      siblings_ half_siblings_ children_ = inr (h', self)
    ∧ indivs h' !! self = Some x
    ∧ lists h' !! siblings x
      = Some (if truthy h siblings_ then [siblings_] else [])
    ∧ lists h' !! half_siblings x
      = Some (if truthy h half_siblings_ then [half_siblings_] else [])
    ∧ lists h' !! children x
      = Some (if truthy h children_ then [children_] else [])
    ∧ NoDup [siblings x; half_siblings x; children x]
    ∧ (forall l, l ∈ [siblings x; half_siblings x; children x] ->
                 l ∉ allocated_locs h)
    ∧ (forall l, l ∈ dom (lists h) -> lists h' !! l = lists h !! l)
    ∧ (defaults_empty h -> defaults_empty h').
Proof.
  intros Hp Hv1 Hv2 Hv3.
  pose proof (Individual__init__returns h fid_ iid_ father_ mother_ sex_
                phenotype_ siblings_ half_siblings_ children_ p
                Hp Hv1 Hv2 Hv3) as Hret.
  cbv zeta in Hret.
  set (self := new_loc h) in *.
  set (h0 := set_indiv h self _) in *.
  set (s := new_loc h0) in *.
  set (h1 := set_list h0 s _) in *.
  set (hs := new_loc h1) in *.
  set (h2 := set_list h1 hs _) in *.
  set (ch := new_loc h2) in *.
  set (h3 := set_list h2 ch _) in *.
  assert (s ∉ allocated_locs h0) as Hs by apply new_loc_fresh.
  assert (hs ∉ allocated_locs h1) as Hhs by apply new_loc_fresh.
  assert (ch ∉ allocated_locs h2) as Hch by apply new_loc_fresh.
  unfold h2 in Hch. rewrite allocated_set_list in Hch.
  unfold h1 in Hhs, Hch. rewrite allocated_set_list in Hhs, Hch.
  unfold h0 in Hs, Hhs, Hch. rewrite allocated_set_indiv in Hs, Hhs, Hch.
  apply not_elem_of_union in Hs as [Hs_self Hs].
  apply not_elem_of_union in Hhs as [Hhs_s Hhs].
  apply not_elem_of_union in Hhs as [Hhs_self Hhs].
  apply not_elem_of_union in Hch as [Hch_hs Hch].
  apply not_elem_of_union in Hch as [Hch_s Hch].
  apply not_elem_of_union in Hch as [Hch_self Hch].
  rewrite not_elem_of_singleton in Hs_self, Hhs_s, Hhs_self, Hch_hs, Hch_s,
    Hch_self.
  assert (forall l items,
            lists h3 !! l = Some items ->
            l ≠ s -> l ≠ hs -> l ≠ ch -> lists h !! l = Some items) as Hold.
  { intros l items. unfold h3, h2, h1, h0, set_list, set_indiv. simpl.
    intros Hl ? ? ?. by rewrite !lookup_insert_ne in Hl. }
  assert (forall l, l ∈ dom (lists h) -> lists h3 !! l = lists h !! l)
    as Hkeep.
  { intros l Hl. unfold h3, h2, h1, h0, set_list, set_indiv. simpl.
    assert (l ∈ allocated_locs h)
      by (unfold allocated_locs; apply elem_of_union; by left).
    rewrite !lookup_insert_ne; [done| | |]; by intros ->. }
  eexists _, _, _. split; [exact Hret|].
  split; [apply lookup_insert_eq|]. simpl.
  split; [|split; [|split; [|split; [|split; [|split]]]]].
  - unfold h3, h2, h1, set_list. simpl.
    rewrite !lookup_insert_ne by done. apply lookup_insert_eq.
  - unfold h3, h2, set_list. simpl.
    rewrite lookup_insert_ne by done. apply lookup_insert_eq.
  - unfold h3, set_list. simpl. apply lookup_insert_eq.
  - apply NoDup_cons. split; [|apply NoDup_cons; split;
                                  [|apply NoDup_singleton]].
    + intros Hin. apply elem_of_cons in Hin as [? | Hin]; [congruence|].
      apply list_elem_of_singleton in Hin. congruence.
    + intros Hin. apply list_elem_of_singleton in Hin. congruence.
  - intros l Hl.
    apply elem_of_cons in Hl as [-> | Hl]; [done|].
    apply elem_of_cons in Hl as [-> | Hl]; [done|].
    apply elem_of_cons in Hl as [-> | Hl]; [done|].
    by apply elem_of_nil in Hl.
  - exact Hkeep.
  - intros (Hd1 & Hd2 & Hd3). unfold defaults_empty.
    rewrite !Hkeep; [done| | |]; rewrite elem_of_dom; by eexists.
Qed.

(** The witness of C10: the sibling argument is a list of two identifiers,
    the two other arguments are omitted. *)
Lemma relatives_are_wrapped_witness :
  let h := set_list module_heap 7%nat [VStr "B"; VStr "C"] in
  exists h' self x,
    Individual__init__ h (SStr "F1") (SStr "A") (SStr "0") (SStr "0")
      (SStr "1") (SStr "2") (VList 7%nat) (VList default_half_siblings)
      (VList default_children) = inr (h', self)
    ∧ indivs h' !! self = Some x
    ∧ lists h' !! siblings x = Some [VList 7%nat]
    ∧ lists h' !! half_siblings x = Some []
    ∧ lists h' !! children x = Some [].
Proof.
  intros h.
  destruct (relatives_are_wrapped h (SStr "F1") (SStr "A") (SStr "0")
              (SStr "0") (SStr "1") (SStr "2") (VList 7%nat)
              (VList default_half_siblings) (VList default_children) 2)
    as (h' & self & x & Hret & Hx & Hs & Hhs & Hch & _).
  - reflexivity.
  - unfold valid. apply (bool_decide_unpack _). vm_compute. exact I.
  - unfold valid. apply (bool_decide_unpack _). vm_compute. exact I.
  - unfold valid. apply (bool_decide_unpack _). vm_compute. exact I.
  - exists h', self, x. repeat split; assumption.
Defined.

End IndividualProperties.

(** ** Parsing a pedigree file *)

Section Parsing.
Import Ped.

Lemma dict_mem_spec {V} (d : dict V) k : dict_mem d k = true <-> k ∈ keys d.
Proof. unfold dict_mem. apply bool_decide_eq_true. Qed.

Lemma dict_set_fresh_keys {V} (d : dict V) k v :
  k ∉ keys d -> keys (dict_set d k v) = keys d ++ [k].
Proof.
  unfold keys. induction d as [|[k' v'] d IH]; simpl; [done|].
  intros Hk. apply not_elem_of_cons in Hk as [Hne Hk].
  rewrite bool_decide_eq_false_2 by done. simpl. by rewrite IH.
Qed.

Lemma Individual__init__fields (h h' : heap) self
    (fid_ iid_ father_ mother_ sex_ phenotype_ : scalar)
    (siblings_ half_siblings_ children_ : pyval) :
  Individual__init__ h fid_ iid_ father_ mother_ sex_ phenotype_
    siblings_ half_siblings_ children_ = inr (h', self) ->
  fid (get_indiv h' self) = fid_ ∧ iid (get_indiv h' self) = iid_
  ∧ father (get_indiv h' self) = father_
  ∧ mother (get_indiv h' self) = mother_.
Proof.
  unfold Individual__init__.
  destruct (py_int phenotype_) as [e|p]; [discriminate|]. simpl.
  intros [= <- <-]. by rewrite get_indiv_set_indiv.
Qed.

Lemma parse_line_skipped (h : heap) (self : PedFile) line :
  data_columns line = None -> parse_line h self line = inr (h, self).
Proof.
  unfold data_columns, parse_line.
  destruct (is_comment _); [done|].
  by destruct (rstrip _).
Qed.

Lemma parse_line_data (h : heap) (self : PedFile) line cols :
  data_columns line = Some cols ->
  parse_line h self line =
  match cols with
  | c0 :: c1 :: c2 :: c3 :: c4 :: c5 :: _ =>
      try! (h, indv) <-
        Individual6 h (SStr c0) (SStr c1) (SStr c2) (SStr c3)
          (SStr c4) (SStr c5);
      let x := get_indiv h indv in
      if dict_mem (individuals self) (iid x) then
        raise (PedError (duplicate_id_msg (iid x) (filename self)))
      else
        let individuals_ := dict_set (individuals self) (iid x) indv in
        try! (h, fam) <-
          match dict_get (families self) (fid x) with
          | Some fam => add_individual h fam indv
          | None => Family__init__ h (fid x) [indv]
          end;
        ok (h, {| filename := filename self;
                  families := dict_set (families self) (fid x) fam;
                  individuals := individuals_ |})
  | _ =>
      raise (Exception (not_enough_fields_msg (filename self)
                          (stripped line)))
  end.
Proof.
  unfold data_columns, parse_line, stripped.
  destruct (is_comment _); [done|].
  destruct (rstrip _) as [|c l]; [done|]. by intros [= <-].
Qed.

(** A line with fewer than six columns. *)
Lemma parse_line_too_few (h : heap) (self : PedFile) line :
  too_few_columns line ->
  parse_line h self line
  = inl (Exception (not_enough_fields_msg (filename self) (stripped line))).
Proof.
  intros (cols & Hcols & Hlen). rewrite (parse_line_data _ _ _ _ Hcols).
  do 6 (destruct cols as [|? cols]; [done|]). simpl in Hlen. lia.
Qed.

(** A line whose identifier is already in the index of the file. *)
Lemma parse_line_repeated (h : heap) (self : PedFile) line i :
  ¬ too_few_columns line ->
  line_id line = Some i ->
  i ∈ keys (individuals self) ->
  exists e,
    parse_line h self line = inl e
    ∧ (e = ValueError ∨ e = PedError (duplicate_id_msg i (filename self))).
Proof.
  unfold line_id, too_few_columns. intros Hfew Hid Hin.
  destruct (data_columns line) as [cols|] eqn:Hcols; [|done].
  rewrite (parse_line_data _ _ _ _ Hcols).
  destruct cols as [|c0 [|c1 [|c2 [|c3 [|c4 [|c5 rest]]]]]];
    try (exfalso; apply Hfew; eexists; split; [done|simpl; lia]).
  injection Hid as <-.
  destruct (Individual6 _ _ _ _ _ _ _) as [e|[h1 indv]] eqn:Hnew; simpl.
  - exists e. split; [done|]. left.
    unfold Individual6, Individual__init__ in Hnew.
    destruct (py_int (SStr c5)) as [e'|p] eqn:Hp; simpl in Hnew.
    + injection Hnew as <-. by apply (py_int_error (SStr c5)).
    + done.
  - apply Individual__init__fields in Hnew as (_ & -> & _).
    apply dict_mem_spec in Hin. rewrite Hin. eexists. split; [done|].
    by right.
Qed.

Lemma parse_line_returns (h h' : heap) (self self' : PedFile) line :
  parse_line h self line = inr (h', self') ->
  (¬ too_few_columns line)
  ∧ match line_id line with
    | Some i =>
        (i ∉ keys (individuals self))
        ∧ keys (individuals self') = keys (individuals self) ++ [i]
    | None => keys (individuals self') = keys (individuals self)
    end.
Proof.
  intros Hrun.
  assert (¬ too_few_columns line) as Hfew.
  { intros Hfew. by rewrite parse_line_too_few in Hrun. }
  split; [done|].
  - destruct (line_id line) as [i|] eqn:Hid.
    + destruct (decide (i ∈ keys (individuals self))) as [Hin|Hin].
      { destruct (parse_line_repeated h self line i Hfew Hid Hin)
          as (e & He & _). congruence. }
      split; [done|].
      unfold line_id in Hid.
      destruct (data_columns line) as [cols|] eqn:Hcols; [|done].
      rewrite (parse_line_data _ _ _ _ Hcols) in Hrun.
      destruct cols as [|c0 [|c1 [|c2 [|c3 [|c4 [|c5 rest]]]]]];
        try discriminate.
      injection Hid as <-.
      destruct (Individual6 _ _ _ _ _ _ _) as [e|[h1 indv]] eqn:Hnew;
        [discriminate|]. simpl in Hrun.
      apply Individual__init__fields in Hnew as (Hfid & Hiid & _).
      rewrite Hiid, Hfid in Hrun.
      destruct (dict_mem _ _); [discriminate|].
      destruct (match dict_get _ _ with Some _ => _ | None => _ end)
        as [e|[h2 fam]]; [discriminate|].
      simpl in Hrun. injection Hrun as <- <-. simpl.
      by apply dict_set_fresh_keys.
    + unfold line_id in Hid.
      destruct (data_columns line) as [cols|] eqn:Hcols.
      * exfalso. apply Hfew. exists cols. split; [done|].
        destruct cols as [|c0 [|c1 cols]]; simpl; try lia. done.
      * rewrite parse_line_skipped in Hrun by done.
        by injection Hrun as <- <-.
Qed.

Lemma parse_ped_returns (fh : list string) :
  forall (h h' : heap) (self self' : PedFile),
  _parse_ped h self fh = inr (h', self') ->
  NoDup (keys (individuals self)) ->
  Forall (fun line => ¬ too_few_columns line) fh
  ∧ keys (individuals self') = keys (individuals self) ++ line_ids fh
  ∧ NoDup (keys (individuals self')).
Proof.
  induction fh as [|line fh IH]; simpl; intros h h' self self' Hrun Hnd.
  - injection Hrun as <- <-. by rewrite app_nil_r.
  - destruct (parse_line h self line) as [e|[h1 self1]] eqn:Hline;
      [discriminate|]. simpl in Hrun.
    apply parse_line_returns in Hline as [Hfew Hkeys].
    assert (NoDup (keys (individuals self1))) as Hnd1.
    { destruct (line_id line) as [i|].
      - destruct Hkeys as [Hnew ->]. apply NoDup_app. split; [done|].
        split; [|apply NoDup_singleton].
        intros k Hk Hk'. apply list_elem_of_singleton in Hk'. by subst.
      - by rewrite Hkeys. }
    destruct (IH _ _ _ _ Hrun Hnd1) as (Hall & Hkeys' & Hnd').
    split; [by constructor|]. split; [|done].
    rewrite Hkeys'. unfold line_ids. simpl.
    destruct (line_id line) as [i|].
    + destruct Hkeys as [_ ->]. by rewrite <- app_assoc.
    + by rewrite Hkeys.
Qed.

Lemma add_individual_duplicate (h : heap) (self : Family) (individual : loc) :
  iid (get_indiv h individual) ∈ keys (f_individuals self) ->
  add_individual h self individual
  = inl (PedError (duplicate_in_family_msg (iid (get_indiv h individual))
                     (f_fid self))).
Proof.
  intros Hin. unfold add_individual.
  apply dict_mem_spec in Hin. by rewrite Hin.
Qed.

Lemma add_individuals_raises (individuals_ : list loc) :
  forall (h : heap) (self : Family) e,
  add_individuals h self individuals_ = inl e -> is_PedError e = true.
Proof.
  induction individuals_ as [|i l IH]; simpl; intros h self e Hrun;
    [discriminate|].
  destruct (add_individual h self i) as [e'|[h1 self1]] eqn:Hadd; simpl in Hrun.
  - injection Hrun as <-. unfold add_individual in Hadd.
    destruct (dict_mem _ _); [by injection Hadd as <-|].
    destruct (foldl _ _ _). discriminate.
  - by eapply IH.
Qed.

Lemma phenotype_columns (line : string) (c5 : string) :
  line_phenotype line = Some c5 ->
  exists c0 c1 c2 c3 c4 rest,
    data_columns line = Some (c0 :: c1 :: c2 :: c3 :: c4 :: c5 :: rest).
Proof.
  unfold line_phenotype.
  destruct (data_columns line)
    as [[|c0 [|c1 [|c2 [|c3 [|c4 [|c5' rest]]]]]]|]; try done.
  intros [= <-]. by eexists _, _, _, _, _, _.
Qed.

Lemma too_few_no_phenotype (line : string) :
  too_few_columns line -> line_phenotype line = None.
Proof.
  intros (cols & Hcols & Hlen). unfold line_phenotype. rewrite Hcols.
  do 6 (destruct cols as [|? cols]; [done|]). simpl in Hlen. lia.
Qed.

(** A data line whose phenotype code is no integer. *)
Lemma parse_line_no_integer (h : heap) (self : PedFile) line c5 :
  line_phenotype line = Some c5 -> int_of_string c5 = None ->
  parse_line h self line = inl ValueError.
Proof.
  intros Hph Hint.
  destruct (phenotype_columns _ _ Hph) as (c0 & c1 & c2 & c3 & c4 & rest & Hc).
  rewrite (parse_line_data _ _ _ _ Hc).
  unfold Individual6, Individual__init__. simpl. by rewrite Hint.
Qed.

(** A data line whose phenotype code is an integer and whose identifier is
    in the index of the file. *)
Lemma parse_line_duplicate (h : heap) (self : PedFile) line c5 i :
  line_phenotype line = Some c5 -> int_of_string c5 ≠ None ->
  line_id line = Some i -> i ∈ keys (individuals self) ->
  parse_line h self line
  = inl (PedError (duplicate_id_msg i (filename self))).
Proof.
  intros Hph Hint Hid Hin.
  destruct (phenotype_columns _ _ Hph) as (c0 & c1 & c2 & c3 & c4 & rest & Hc).
  unfold line_id in Hid. rewrite Hc in Hid. injection Hid as <-.
  rewrite (parse_line_data _ _ _ _ Hc).
  destruct (Individual6 _ _ _ _ _ _ _) as [e|[h1 indv]] eqn:Hnew; simpl.
  - exfalso. unfold Individual6, Individual__init__ in Hnew.
    simpl in Hnew. by destruct (int_of_string c5).
  - apply Individual__init__fields in Hnew as (_ & -> & _).
    apply dict_mem_spec in Hin. by rewrite Hin.
Qed.

(** What [parse_line] raises, and when. *)
Lemma parse_line_raises (h : heap) (self : PedFile) line e :
  parse_line h self line = inl e ->
  (too_few_columns line
   ∧ e = Exception (not_enough_fields_msg (filename self) (stripped line)))
  ∨ (exists c5, line_phenotype line = Some c5 ∧ int_of_string c5 = None
                ∧ e = ValueError)
  ∨ (exists c5, line_phenotype line = Some c5 ∧ int_of_string c5 ≠ None
                ∧ is_PedError e = true).
Proof.
  intros Hrun.
  destruct (data_columns line) as [cols|] eqn:Hcols;
    [|by rewrite parse_line_skipped in Hrun].
  destruct (decide (length cols < 6)%nat) as [Hlen|Hlen].
  - left. assert (too_few_columns line) as Hfew by by exists cols.
    split; [done|]. rewrite parse_line_too_few in Hrun by done.
    by injection Hrun as <-.
  - right.
    destruct cols as [|c0 [|c1 [|c2 [|c3 [|c4 [|c5 rest]]]]]];
      try (simpl in Hlen; lia).
    assert (line_phenotype line = Some c5) as Hph
      by (unfold line_phenotype; by rewrite Hcols).
    destruct (int_of_string c5) as [p|] eqn:Hint.
    + right. exists c5. split; [done|]. split; [by rewrite Hint|].
      rewrite (parse_line_data _ _ _ _ Hcols) in Hrun.
      destruct (Individual6 _ _ _ _ _ _ _) as [e'|[h1 indv]] eqn:Hnew;
        simpl in Hrun.
      { unfold Individual6, Individual__init__ in Hnew. simpl in Hnew.
        by rewrite Hint in Hnew. }
      destruct (dict_mem _ _); [by injection Hrun as <-|].
      destruct (dict_get _ _) as [fam|].
      * destruct (add_individual h1 fam indv) as [e'|[h2 fam']] eqn:Hadd;
          simpl in Hrun; [|discriminate].
        injection Hrun as <-.
        apply (add_individuals_raises [indv] h1 fam). simpl.
        by rewrite Hadd.
      * destruct (Family__init__ _ _ _) as [e'|[h2 fam']] eqn:Hfam;
          simpl in Hrun; [|discriminate].
        injection Hrun as <-. by eapply add_individuals_raises.
    + left. exists c5. split; [done|]. split; [done|].
      rewrite (parse_line_no_integer _ _ _ _ Hph Hint) in Hrun.
      by injection Hrun as <-.
Qed.

Lemma parse_line_filename (h h' : heap) (self self' : PedFile) line :
  parse_line h self line = inr (h', self') -> filename self' = filename self.
Proof.
  intros Hrun.
  destruct (data_columns line) as [cols|] eqn:Hcols.
  - rewrite (parse_line_data _ _ _ _ Hcols) in Hrun.
    destruct cols as [|c0 [|c1 [|c2 [|c3 [|c4 [|c5 rest]]]]]];
      try discriminate.
    destruct (Individual6 _ _ _ _ _ _ _) as [e|[h1 indv]];
      [discriminate|]. simpl in Hrun.
    destruct (dict_mem _ _); [discriminate|].
    destruct (match dict_get _ _ with Some _ => _ | None => _ end)
      as [e|[h2 fam]]; [discriminate|].
    simpl in Hrun. by injection Hrun as <- <-.
  - rewrite parse_line_skipped in Hrun by done. by injection Hrun as <- <-.
Qed.

Lemma parse_ped_filename (fh : list string) :
  forall (h h' : heap) (self self' : PedFile),
  _parse_ped h self fh = inr (h', self') -> filename self' = filename self.
Proof.
  induction fh as [|line fh IH]; simpl; intros h h' self self' Hrun.
  - by injection Hrun as <- <-.
  - destruct (parse_line h self line) as [e|[h1 self1]] eqn:Hline;
      [discriminate|]. simpl in Hrun.
    rewrite (IH _ _ _ _ Hrun). by eapply parse_line_filename.
Qed.

(** The lines are read in order: the lines after a line that raises are
    not read. *)
Lemma parse_ped_stops (pre : list string) line post :
  forall (h h1 : heap) (self self1 : PedFile),
  _parse_ped h self pre = inr (h1, self1) ->
  forall e, parse_line h1 self1 line = inl e ->
  _parse_ped h self (pre ++ line :: post) = inl e.
Proof.
  induction pre as [|l pre IH]; simpl; intros h h1 self self1 Hpre e Hline.
  - injection Hpre as <- <-. by rewrite Hline.
  - destruct (parse_line h self l) as [e'|[h2 self2]]; [discriminate|].
    simpl in *. by eapply IH.
Qed.

Lemma parse_ped_raises (fh : list string) :
  forall (h : heap) (self : PedFile) e,
  _parse_ped h self fh = inl e ->
  exists pre line post h1 self1,
    fh = pre ++ line :: post
    ∧ _parse_ped h self pre = inr (h1, self1)
    ∧ parse_line h1 self1 line = inl e.
Proof.
  induction fh as [|l fh IH]; simpl; intros h self e Hrun; [discriminate|].
  destruct (parse_line h self l) as [e'|[h2 self2]] eqn:Hline;
    simpl in Hrun.
  - injection Hrun as <-. by exists [], l, fh, h, self.
  - destruct (IH _ _ _ Hrun) as (pre & line & post & h1 & self1 & -> & Hpre
                                 & He).
    exists (l :: pre), line, post, h1, self1. split; [done|].
    split; [|done]. simpl. by rewrite Hline.
Qed.

(** C6, as the code has it.  [parse_line] is the body of the loop of
    [_parse_ped].

    A line.  On a line that is neither a comment nor blank and has fewer
    than six columns it raises the plain [Exception] with the message
    "Not enough fields ...".  On a line with six columns it raises
    [ValueError] when the phenotype code is no integer, whether the
    identifier is new or not, and the [PedError] with the message
    "Duplicate individual ID ..." when the phenotype code is an integer and
    the identifier is in the index of the file.  It raises nothing but a
    plain [Exception] (on too few columns), a [ValueError] (phenotype code)
    or a [PedError].

    A file.  When the lines before a line are read without error, then
    [PedFile(filename)] raises for that line: the plain [Exception] when
    it has too few columns; when its identifier is that of an earlier line,
    [ValueError] or [PedError] as above.  So [PedFile(filename)] raises
    whenever some line has too few columns or two lines carry the same
    identifier, and what it raises is a plain [Exception], a [PedError] or
    a [ValueError].

    [Family.add_individual] raises the [PedError] with the message
    "Duplicate individual ... added to family ..." when the identifier of
    the individual is a key of [self.individuals]. *)
Theorem pedigree_errors :
  (forall h self line,
     too_few_columns line ->
     parse_line h self line
     = inl (Exception (not_enough_fields_msg (filename self)
                         (stripped line))))
  ∧ (forall line c5,
       line_phenotype line = Some c5 -> ¬ too_few_columns line)
  ∧ (forall h self line c5,
       line_phenotype line = Some c5 -> int_of_string c5 = None ->
       parse_line h self line = inl ValueError)
  ∧ (forall h self line c5 i,
       line_phenotype line = Some c5 -> int_of_string c5 ≠ None ->
       line_id line = Some i -> i ∈ keys (individuals self) ->
       parse_line h self line
       = inl (PedError (duplicate_id_msg i (filename self))))
  ∧ (forall h self line e,
       parse_line h self line = inl e ->
       (too_few_columns line
        ∧ e = Exception (not_enough_fields_msg (filename self)
                           (stripped line)))
       ∨ (exists c5, line_phenotype line = Some c5
                     ∧ int_of_string c5 = None ∧ e = ValueError)
       ∨ (exists c5, line_phenotype line = Some c5
                     ∧ int_of_string c5 ≠ None ∧ is_PedError e = true))
  ∧ (forall h fname pre line post h1 self1,
       PedFile__init__ h fname pre = inr (h1, self1) ->
       (too_few_columns line ->
        PedFile__init__ h fname (pre ++ line :: post)
        = inl (Exception (not_enough_fields_msg fname (stripped line))))
       ∧ (forall c5 i,
            line_phenotype line = Some c5 ->
            line_id line = Some i -> i ∈ line_ids pre ->
            PedFile__init__ h fname (pre ++ line :: post)
            = inl (match int_of_string c5 with
                   | Some _ => PedError (duplicate_id_msg i fname)
                   | None => ValueError
                   end)))
  ∧ (forall h fname fh,
       Exists too_few_columns fh ∨ ¬ NoDup (line_ids fh) ->
       exists e, PedFile__init__ h fname fh = inl e
                 ∧ (is_plain_Exception e = true ∨ is_PedError e = true
                    ∨ e = ValueError))
  ∧ (forall h self individual,
       iid (get_indiv h individual) ∈ keys (f_individuals self) ->
       add_individual h self individual
       = inl (PedError
                (duplicate_in_family_msg (iid (get_indiv h individual))
                   (f_fid self)))).
Proof.
  split; [|split; [|split; [|split; [|split; [|split; [|split]]]]]].
  - intros h self line Hfew. by apply parse_line_too_few.
  - intros line c5 Hph Hfew.
    apply too_few_no_phenotype in Hfew. congruence.
  - intros h self line c5. apply parse_line_no_integer.
  - intros h self line c5 i. apply parse_line_duplicate.
  - intros h self line e. apply parse_line_raises.
  - intros h fname pre line post h1 self1 Hpre. unfold PedFile__init__ in *.
    pose proof (parse_ped_filename _ _ _ _ _ Hpre) as Hname.
    simpl in Hname.
    split.
    + intros Hfew. apply (parse_ped_stops _ _ _ _ _ _ _ Hpre).
      rewrite <- Hname. by apply parse_line_too_few.
    + intros c5 i Hph Hid Hin.
      apply (parse_ped_stops _ _ _ _ _ _ _ Hpre). rewrite <- Hname.
      assert (i ∈ keys (individuals self1)) as Hkey.
      { apply parse_ped_returns in Hpre as (_ & -> & _);
          [done|apply NoDup_nil_2]. }
      destruct (int_of_string c5) as [z|] eqn:Hint.
      * apply (parse_line_duplicate _ _ _ c5); [done|by rewrite Hint|done..].
      * by apply (parse_line_no_integer _ _ _ c5).
  - intros h fname fh Hbad. unfold PedFile__init__.
    destruct (_parse_ped _ _ fh) as [e|[h' self']] eqn:Hrun.
    + exists e. split; [done|].
      destruct (parse_ped_raises _ _ _ _ Hrun)
        as (pre & line & post & h1 & self1 & _ & _ & Hline).
      apply parse_line_raises in Hline
        as [[_ ->] | [(c5 & _ & _ & ->) | (c5 & _ & _ & He)]]; auto.
    + exfalso. apply parse_ped_returns in Hrun as (Hall & Hkeys & Hnd);
        [|apply NoDup_nil_2].
      destruct Hbad as [Hfew | Hdup].
      * apply Exists_exists in Hfew as (line & Hin & Hfew).
        rewrite Forall_forall in Hall. by apply (Hall line).
      * simpl in Hkeys. by rewrite Hkeys in Hnd.
  - intros h self individual Hin. by apply add_individual_duplicate.
Qed.

(** The witness of C6: a line of four columns; a second line for the
    individual C; the individual C added twice to a family. *)
Lemma pedigree_errors_witness :
  PedFile__init__ module_heap "f.ped" ["F1 C F M 1 2"; "F1 D F M"]
  = inl (Exception (not_enough_fields_msg "f.ped" "F1 D F M"))
  ∧ PedFile__init__ module_heap "f.ped"
      ["# family 1"; "F1 C F M 1 2"; ""; "F2 C 0 0 2 1"]
    = inl (PedError (duplicate_id_msg (SStr "C") "f.ped"))
  ∧ exists e,
      (try! (h, c) <- Individual6 module_heap (SStr "F1") (SStr "C")
                        (SStr "F") (SStr "M") (SStr "1") (SStr "2");
       try! (h, fam) <- Family__init__ h (SStr "F1") [c];
       add_individual h fam c) = inl e
      ∧ is_PedError e = true.
Proof.
  destruct pedigree_errors as (_ & _ & _ & _ & _ & Hfile & _ & Hadd).
  split; [|split].
  - destruct (PedFile__init__ module_heap "f.ped" ["F1 C F M 1 2"])
      as [e|[h1 self1]] eqn:Hpre; [vm_compute in Hpre; discriminate|].
    destruct (Hfile module_heap "f.ped" ["F1 C F M 1 2"] "F1 D F M" []
                h1 self1 Hpre) as [Hfew _].
    apply Hfew. eexists. split; [vm_compute; reflexivity | simpl; lia].
  - destruct (PedFile__init__ module_heap "f.ped"
                ["# family 1"; "F1 C F M 1 2"; ""])
      as [e|[h1 self1]] eqn:Hpre; [vm_compute in Hpre; discriminate|].
    destruct (Hfile module_heap "f.ped" ["# family 1"; "F1 C F M 1 2"; ""]
                "F2 C 0 0 2 1" [] h1 self1 Hpre) as [_ Hdup].
    apply (Hdup "1" (SStr "C")); [reflexivity | reflexivity |].
    apply (bool_decide_unpack _). vm_compute. exact I.
  - destruct (Individual6 module_heap (SStr "F1") (SStr "C") (SStr "F")
                (SStr "M") (SStr "1") (SStr "2")) as [e|[h c]] eqn:Hnew;
      [vm_compute in Hnew; discriminate|]. simpl.
    destruct (Family__init__ h (SStr "F1") [c]) as [e|[h1 fam]] eqn:Hfam.
    { injection Hnew as <- <-. vm_compute in Hfam. discriminate. }
    simpl. eexists. split; [apply Hadd|reflexivity].
    injection Hnew as <- <-. vm_compute in Hfam.
    injection Hfam as <- <-. apply (bool_decide_unpack _). vm_compute.
    exact I.
Defined.

(** C6 as it is stated names two classes that [ped_file.py] does not have.
    A line of four columns makes [PedFile] raise the plain [Exception],
    which is no [PedError]; a repeated identifier makes it raise
    [PedError], or [ValueError] when the phenotype code of the line is no
    integer; [add_individual] raises [PedError] for an identifier the
    family has.  None of these is a class of the names in the claim. *)
Lemma pedigree_errors_counterexample :
  match PedFile__init__ module_heap "f.ped" ["F1 C F M 1 2"; "F1 D F M"] with
  | inl e => class_name e = "Exception" ∧ is_PedError e = false
  | inr _ => False
  end
  ∧ match PedFile__init__ module_heap "f.ped"
            ["F1 C F M 1 2"; "F2 C 0 0 2 1"] with
    | inl e => class_name e = "PedError"
    | inr _ => False
    end
  ∧ match PedFile__init__ module_heap "f.ped"
            ["F1 C F M 1 2"; "F2 C 0 0 2 NA"] with
    | inl e => class_name e = "ValueError"
    | inr _ => False
    end
  ∧ match (try! (h, c) <- Individual6 module_heap (SStr "F1") (SStr "C")
                            (SStr "F") (SStr "M") (SStr "1") (SStr "2");
           try! (h, fam) <- Family__init__ h (SStr "F1") [c];
           add_individual h fam c) with
    | inl e => class_name e = "PedError"
    | inr _ => False
    end
  ∧ forall e : exn,
      class_name e ≠ "MalformedPedigreeError"
      ∧ class_name e ≠ "DuplicateIndividualError".
Proof.
  split; [|split; [|split; [|split]]]; try (vm_compute; by repeat split).
  intros e. by destruct e.
Qed.

End Parsing.

(** ** Families *)

Section HeapFacts.
Import Ped.

Lemma get_list_append (h : heap) l v t :
  get_list (append h l v) t
  = get_list h t ++ (if decide (t = l) then [v] else []).
Proof.
  unfold append, get_list, set_list. simpl. destruct (decide (t = l)) as [->|].
  - by rewrite lookup_total_insert_eq.
  - rewrite lookup_total_insert_ne by done. by rewrite app_nil_r.
Qed.

Lemma get_indiv_append (h : heap) l v t :
  get_indiv (append h l v) t = get_indiv h t.
Proof. reflexivity. Qed.

Lemma dom_lists_append (h : heap) l v :
  dom (lists (append h l v)) = {[l]} ∪ dom (lists h).
Proof. unfold append, set_list. simpl. apply dom_insert_L. Qed.

Lemma relate_indivs (n : loc) (h : heap) (i : loc) :
  indivs (relate n h i) = indivs h.
Proof.
  unfold relate. destruct (full_sibs _ _); [done|].
  by destruct (half_sibs _ _).
Qed.

Lemma relate_get_list (n : loc) (h : heap) (i t : loc) :
  get_list (relate n h i) t
  = get_list h t ++ appended (get_indiv h i) (get_indiv h n) t.
Proof.
  unfold relate, appended.
  destruct (full_sibs _ _).
  - rewrite !get_list_append. by rewrite <- app_assoc.
  - destruct (half_sibs _ _).
    + rewrite !get_list_append. by rewrite <- app_assoc.
    + by rewrite app_nil_r.
Qed.

Lemma relate_dom (n : loc) (h : heap) (i : loc) :
  dom (lists h) ⊆ dom (lists (relate n h i)).
Proof.
  unfold relate. destruct (full_sibs _ _).
  - rewrite !dom_lists_append. intros t Ht. rewrite !elem_of_union. tauto.
  - destruct (half_sibs _ _); [|done].
    rewrite !dom_lists_append. intros t Ht. rewrite !elem_of_union. tauto.
Qed.

Lemma relate_loop_indivs (n : loc) (ls : list loc) :
  forall h, indivs (foldl (relate n) h ls) = indivs h.
Proof.
  induction ls as [|i ls IH]; intros h; simpl; [done|].
  by rewrite IH, relate_indivs.
Qed.

Lemma get_indiv_indivs (h h' : heap) l :
  indivs h' = indivs h -> get_indiv h' l = get_indiv h l.
Proof. unfold get_indiv. by intros ->. Qed.

(** The loop of [add_individual] as a whole. *)
Lemma relate_loop_get_list (n : loc) (ls : list loc) :
  forall h t,
  get_list (foldl (relate n) h ls) t
  = get_list h t
    ++ concat (map (fun i => appended (get_indiv h i) (get_indiv h n) t) ls).
Proof.
  induction ls as [|i ls IH]; intros h t; simpl.
  - by rewrite app_nil_r.
  - rewrite IH, relate_get_list, <- app_assoc. do 3 f_equal.
    apply map_ext. intros j.
    by rewrite !(get_indiv_indivs h (relate n h i)) by apply relate_indivs.
Qed.

Lemma relate_loop_dom (n : loc) (ls : list loc) :
  forall h, dom (lists h) ⊆ dom (lists (foldl (relate n) h ls)).
Proof.
  induction ls as [|i ls IH]; intros h; simpl; [done|].
  etrans; [apply (relate_dom n h i) | apply IH].
Qed.

Lemma elem_of_appended (x y : Individual) (t : loc) (v : pyval) :
  v ∈ appended x y t <->
  (full_sibs x y = true
   ∧ (t = siblings x ∧ v = of_scalar (iid y)
      ∨ t = siblings y ∧ v = of_scalar (iid x)))
  ∨ (full_sibs x y = false ∧ half_sibs x y = true
     ∧ (t = half_siblings x ∧ v = of_scalar (iid y)
        ∨ t = half_siblings y ∧ v = of_scalar (iid x))).
Proof.
  unfold appended.
  destruct (full_sibs x y); [|destruct (half_sibs x y)];
    rewrite ?elem_of_app;
    repeat match goal with
           | |- context [decide (?a = ?b)] => destruct (decide (a = b))
           end;
    rewrite ?list_elem_of_singleton, ?elem_of_nil;
    intuition congruence.
Qed.

Lemma elem_of_relate_loop (n : loc) (ls : list loc) (h : heap) t v :
  v ∈ get_list (foldl (relate n) h ls) t <->
  v ∈ get_list h t
  ∨ exists i, i ∈ ls ∧ v ∈ appended (get_indiv h i) (get_indiv h n) t.
Proof.
  rewrite relate_loop_get_list, elem_of_app. apply or_iff_compat_l.
  rewrite list_elem_of_In, in_concat. split.
  - intros (l & Hl & Hv). apply in_map_iff in Hl as (i & <- & Hi).
    exists i. by rewrite !list_elem_of_In.
  - intros (i & Hi & Hv). eexists. split.
    + apply in_map_iff. exists i. split; [done | by apply list_elem_of_In].
    + by apply list_elem_of_In.
Qed.

(** Lists of different members are different objects. *)
Lemma flat_map_NoDup_inj {A B} (f : A -> list B) (ls : list A) i j u :
  NoDup (flat_map f ls) -> i ∈ ls -> j ∈ ls -> u ∈ f i -> u ∈ f j -> i = j.
Proof.
  induction ls as [|x ls IH]; simpl; intros Hnd Hi Hj Hui Huj.
  - by apply elem_of_nil in Hi.
  - apply NoDup_app in Hnd as (_ & Hdisj & Hnd).
    assert (forall k, k ∈ ls -> u ∈ f k -> u ∈ flat_map f ls) as Hin.
    { intros k Hk Hu. apply list_elem_of_In, in_flat_map.
      exists k. by rewrite <- !list_elem_of_In. }
    apply elem_of_cons in Hi as [-> | Hi];
      apply elem_of_cons in Hj as [-> | Hj]; try done.
    + exfalso. apply (Hdisj u Hui). by apply (Hin j).
    + exfalso. apply (Hdisj u Huj). by apply (Hin i).
    + by apply IH.
Qed.

Lemma flat_map_NoDup_each {A B} (f : A -> list B) (ls : list A) i :
  NoDup (flat_map f ls) -> i ∈ ls -> NoDup (f i).
Proof.
  induction ls as [|x ls IH]; simpl; intros Hnd Hi.
  - by apply elem_of_nil in Hi.
  - apply NoDup_app in Hnd as (Hx & _ & Hnd).
    apply elem_of_cons in Hi as [-> | Hi]; [done | by apply IH].
Qed.

Lemma elem_of_relation_locs (h : heap) (ls : list loc) t :
  t ∈ relation_locs h ls <->
  exists l, l ∈ ls ∧ (t = siblings (get_indiv h l)
                      ∨ t = half_siblings (get_indiv h l)).
Proof.
  unfold relation_locs. rewrite list_elem_of_In, in_flat_map. split.
  - intros (l & Hl & Ht). exists l. rewrite list_elem_of_In. split; [done|].
    simpl in Ht. destruct Ht as [<- | [<- | []]]; auto.
  - intros (l & Hl & Ht). exists l. rewrite <- list_elem_of_In.
    split; [done|]. simpl. destruct Ht as [-> | ->]; auto.
Qed.

Lemma relation_locs_ext (h h' : heap) (ls : list loc) :
  (forall l, l ∈ ls -> same_links (get_indiv h l) (get_indiv h' l)) ->
  relation_locs h' ls = relation_locs h ls.
Proof.
  unfold relation_locs. induction ls as [|l ls IH]; simpl; intros Hsame.
  - done.
  - destruct (Hsame l) as (_ & _ & _ & -> & ->); [apply elem_of_cons; auto|].
    f_equal. f_equal. apply IH. intros k Hk. apply Hsame.
    apply elem_of_cons. auto.
Qed.

Lemma same_person_refl (x : Individual) : same_person x x.
Proof. by repeat split. Qed.

Lemma same_person_trans (x y z : Individual) :
  same_person x y -> same_person y z -> same_person x z.
Proof.
  unfold same_person. intros (? & ? & ? & ? & ? & ?) (? & ? & ? & ? & ? & ?).
  repeat split; congruence.
Qed.

Lemma set_children_person (h : heap) (l c t : loc) :
  same_person (get_indiv h t) (get_indiv (set_children h l c) t).
Proof.
  unfold set_children, get_indiv, set_indiv. simpl.
  destruct (decide (t = l)) as [->|].
  - rewrite lookup_total_insert_eq. by repeat split.
  - rewrite lookup_total_insert_ne by done. apply same_person_refl.
Qed.

Lemma set_children_dom (h : heap) (l c : loc) :
  dom (indivs h) ⊆ dom (indivs (set_children h l c)).
Proof.
  unfold set_children, set_indiv. simpl. rewrite dom_insert_L.
  intros t Ht. apply elem_of_union. by right.
Qed.

Lemma get_indiv_set_fid_ne (h : heap) (l t : loc) f :
  t ≠ l -> get_indiv (set_fid h l f) t = get_indiv h t.
Proof.
  intros Hne. unfold set_fid, get_indiv, set_indiv. simpl.
  by rewrite lookup_total_insert_ne.
Qed.

Lemma get_indiv_set_fid (h : heap) (l : loc) f :
  let x := get_indiv h l in
  get_indiv (set_fid h l f) l
  = {| fid := f; iid := iid x; father := father x; mother := mother x;
       sex := sex x; phenotype := phenotype x; siblings := siblings x;
       half_siblings := half_siblings x; children := children x |}.
Proof.
  unfold set_fid, get_indiv, set_indiv. simpl.
  by rewrite lookup_total_insert_eq.
Qed.

Lemma dict_get_Some {V} (d : dict V) k v :
  dict_get d k = Some v -> (k, v) ∈ d.
Proof.
  induction d as [|[k' v'] d IH]; simpl; [done|].
  destruct (bool_decide (k' = k)) eqn:E.
  - apply bool_decide_eq_true in E as ->. intros [= ->]. apply elem_of_cons. auto.
  - intros Hd. apply elem_of_cons. right. by apply IH.
Qed.

Lemma elem_of_dict_set {V} (d : dict V) k v k' v' :
  (k', v') ∈ dict_set d k v -> (k', v') = (k, v) ∨ (k', v') ∈ d.
Proof.
  induction d as [|[k0 v0] d IH]; simpl.
  - intros Hin. apply list_elem_of_singleton in Hin. auto.
  - destruct (bool_decide (k0 = k)).
    + intros Hin. apply elem_of_cons in Hin as [Hin | Hin]; [auto|].
      right. apply elem_of_cons. auto.
    + intros Hin. apply elem_of_cons in Hin as [Hin | Hin].
      * right. apply elem_of_cons. auto.
      * destruct (IH Hin); [auto|]. right. apply elem_of_cons. auto.
Qed.

Lemma dict_set_fresh {V} (d : dict V) k v :
  k ∉ keys d -> dict_set d k v = d ++ [(k, v)].
Proof.
  unfold keys. induction d as [|[k' v'] d IH]; simpl; [done|].
  intros Hk. apply not_elem_of_cons in Hk as [Hne Hk].
  rewrite bool_decide_eq_false_2 by done. by rewrite IH.
Qed.

(** One turn of the loop over the two parents. *)
Lemma link_parent_spec (mem : dict loc) (n : loc) (h h' : heap)
    (parents parents' : dict loc) (parent : scalar) :
  link_parent mem n (h, parents) parent = (h', parents') ->
  (forall k t, (k, t) ∈ parents -> t ∈ dom (lists h)) ->
  dom (lists h) ⊆ dom (lists h')
  ∧ dom (indivs h) ⊆ dom (indivs h')
  ∧ (forall l, same_person (get_indiv h l) (get_indiv h' l))
  ∧ (forall t, t ∈ dom (lists h) -> (forall k, (k, t) ∉ parents) ->
               get_list h' t = get_list h t)
  ∧ (forall k t, (k, t) ∈ parents' ->
                 t ∈ dom (lists h')
                 ∧ ((k, t) ∈ parents ∨ t ∉ dom (lists h))).
Proof.
  unfold link_parent. intros Hrun Hpar.
  destruct (bool_decide (parent ≠ unknown_parent)).
  2:{ injection Hrun as <- <-.
      split; [done|]. split; [done|].
      split; [intros l; apply same_person_refl|]. split; [done|].
      intros k t Hkt. split; [by apply (Hpar k) | by left]. }
  set (v := of_scalar (iid (get_indiv h n))) in *.
  destruct (dict_get parents parent) as [t0|] eqn:Hget.
  - (* the parent has a list: append *)
    set (h1 := append h t0 v) in *.
    assert (t0 ∈ dom (lists h)) as Ht0
      by (eapply Hpar; by apply dict_get_Some).
    assert (h' = match dict_get mem parent with
                 | Some p => set_children h1 p t0
                 | None => h1
                 end ∧ parents' = parents) as [-> ->].
    { rewrite Hget in Hrun. destruct (dict_get mem parent);
        by injection Hrun as <- <-. }
    assert (dom (lists h) ⊆ dom (lists h1)) as Hdom.
    { unfold h1. rewrite dom_lists_append. intros t Ht.
      apply elem_of_union. by right. }
    assert (forall t, (forall k, (k, t) ∉ parents) ->
                      get_list h1 t = get_list h t) as Hkeep.
    { intros t Ht. unfold h1. rewrite get_list_append.
      destruct (decide (t = t0)) as [->|]; [|by rewrite app_nil_r].
      exfalso. apply (Ht parent). by apply dict_get_Some. }
    destruct (dict_get mem parent) as [p|].
    + split; [done|]. split; [apply (set_children_dom h1)|].
      split; [intros l; apply (set_children_person h1)|].
      split; [intros t _ Ht; by apply Hkeep|].
      intros k t Hkt. split; [|by left]. apply Hdom. by apply (Hpar k).
    + split; [done|]. split; [done|].
      split; [intros l; apply same_person_refl|].
      split; [intros t _ Ht; by apply Hkeep|].
      intros k t Hkt. split; [|by left]. apply Hdom. by apply (Hpar k).
  - (* a new list for the parent *)
    set (t0 := new_loc h) in *.
    set (h1 := set_list h t0 [v]) in *.
    assert (t0 ∉ dom (lists h)) as Ht0 by apply new_loc_not_list.
    assert (dom (lists h) ⊆ dom (lists h1)) as Hdom.
    { unfold h1, set_list. simpl. rewrite dom_insert_L. intros t Ht.
      apply elem_of_union. by right. }
    assert (t0 ∈ dom (lists h1)) as Ht0'.
    { unfold h1, set_list. simpl. rewrite dom_insert_L.
      apply elem_of_union. left. by apply elem_of_singleton. }
    assert (forall t, t ∈ dom (lists h) -> get_list h1 t = get_list h t)
      as Hkeep.
    { intros t Ht. unfold h1, get_list, set_list. simpl.
      rewrite lookup_total_insert_ne; [done|]. by intros ->. }
    assert (exists hx,
              (h', parents') = (hx, dict_set parents parent t0)
              ∧ lists hx = lists h1
              ∧ dom (indivs h1) ⊆ dom (indivs hx)
              ∧ forall l, same_person (get_indiv h1 l) (get_indiv hx l))
      as (hx & [= -> ->] & Hl & Hd & Hp).
    { unfold alloc_list in Hrun. fold t0 in Hrun. fold h1 in Hrun.
      destruct (dict_get mem parent) as [p|];
        destruct (dict_get (dict_set parents parent t0) parent) as [t1|];
        injection Hrun as <- <-; eexists; (split; [reflexivity|]).
      - split; [done|]. split; [apply set_children_dom|].
        intros l. apply set_children_person.
      - split; [done|]. split; [done|]. intros l. apply same_person_refl.
      - split; [done|]. split; [done|]. intros l. apply same_person_refl.
      - split; [done|]. split; [done|]. intros l. apply same_person_refl. }
    split; [by rewrite Hl|]. split; [done|]. split; [done|].
    split.
    + intros t Ht _. unfold get_list. rewrite Hl. by apply Hkeep.
    + intros k t Hkt. rewrite Hl.
      apply elem_of_dict_set in Hkt as [[= -> ->] | Hkt].
      * split; [done | by right].
      * split; [|by left]. apply Hdom. by apply (Hpar k).
Qed.

Lemma same_person_links (x x' : Individual) :
  same_person x x' -> same_links x x'.
Proof. unfold same_person, same_links. tauto. Qed.

Lemma same_links_trans (x y z : Individual) :
  same_links x y -> same_links y z -> same_links x z.
Proof.
  unfold same_links. intros (? & ? & ? & ? & ?) (? & ? & ? & ? & ?).
  repeat split; congruence.
Qed.

Lemma appended_ext (x x' y y' : Individual) (t : loc) :
  same_links x x' -> same_links y y' ->
  appended x' y' t = appended x y t.
Proof.
  unfold same_links, appended, full_sibs, half_sibs.
  intros (-> & -> & -> & -> & ->) (-> & -> & -> & -> & ->). done.
Qed.

Lemma set_fid_links (h : heap) (l t : loc) f :
  same_links (get_indiv h t) (get_indiv (set_fid h l f) t).
Proof.
  destruct (decide (t = l)) as [->|].
  - rewrite get_indiv_set_fid. by repeat split.
  - rewrite get_indiv_set_fid_ne by done. by repeat split.
Qed.

(** The loop over the parents as a whole. *)
Lemma link_parents_spec (mem : dict loc) (n : loc) (ps : list scalar) :
  forall (h h' : heap) (parents parents' : dict loc),
  foldl (link_parent mem n) (h, parents) ps = (h', parents') ->
  (forall k t, (k, t) ∈ parents -> t ∈ dom (lists h)) ->
  dom (lists h) ⊆ dom (lists h')
  ∧ dom (indivs h) ⊆ dom (indivs h')
  ∧ (forall l, same_person (get_indiv h l) (get_indiv h' l))
  ∧ (forall t, t ∈ dom (lists h) -> (forall k, (k, t) ∉ parents) ->
               get_list h' t = get_list h t)
  ∧ (forall k t, (k, t) ∈ parents' ->
                 t ∈ dom (lists h')
                 ∧ ((k, t) ∈ parents ∨ t ∉ dom (lists h))).
Proof.
  induction ps as [|q ps IH]; intros h h' parents parents' Hrun Hpar;
    cbn [foldl] in Hrun.
  - injection Hrun as <- <-.
    split; [done|]. split; [done|].
    split; [intros l; apply same_person_refl|]. split; [done|].
    intros k t Hkt. split; [by apply (Hpar k) | by left].
  - destruct (link_parent mem n (h, parents) q) as [h1 parents1] eqn:Hstep.
    destruct (link_parent_spec _ _ _ _ _ _ _ Hstep Hpar)
      as (Hd1 & Hi1 & Hp1 & Hk1 & Hv1).
    destruct (IH _ _ _ _ Hrun) as (Hd2 & Hi2 & Hp2 & Hk2 & Hv2).
    { intros k t Hkt. by apply (Hv1 k). }
    split; [by etrans|]. split; [by etrans|].
    split; [intros l; by eapply same_person_trans|].
    split.
    + intros t Ht Hnot. rewrite Hk2; [by apply Hk1| by apply Hd1 |].
      intros k Hkt. destruct (Hv1 k t Hkt) as [_ [Hold | Hnew]];
        [by apply (Hnot k) | done].
    + intros k t Hkt. destruct (Hv2 k t Hkt) as [Hin [Hold | Hnew]].
      * split; [done|]. destruct (Hv1 k t Hold) as [_ ?]. done.
      * split; [done|]. right. intros Ht. by apply Hnew, Hd1.
Qed.

(** What a call of [add_individual] that returns has done. *)
Lemma add_individual_view (h h' : heap) (fam fam' : Family) (n : loc) :
  (forall k t, (k, t) ∈ f_parents fam -> t ∈ dom (lists h)) ->
  add_individual h fam n = inr (h', fam') ->
  let y := get_indiv h n in
  (iid y ∉ keys (f_individuals fam))
  ∧ f_fid fam' = f_fid fam
  ∧ f_individuals fam' = f_individuals fam ++ [(iid y, n)]
  ∧ (forall l, same_links (get_indiv h l) (get_indiv h' l))
  ∧ (forall l, l ≠ n -> fid (get_indiv h' l) = fid (get_indiv h l))
  ∧ fid (get_indiv h' n) = f_fid fam
  ∧ dom (lists h) ⊆ dom (lists h')
  ∧ dom (indivs h) ⊆ dom (indivs h')
  ∧ (forall t v, t ∈ dom (lists h) -> (forall k, (k, t) ∉ f_parents fam) ->
       (v ∈ get_list h' t <->
        v ∈ get_list h t
        ∨ exists i, i ∈ members fam
                    ∧ v ∈ appended (get_indiv h i) y t))
  ∧ (forall k t, (k, t) ∈ f_parents fam' ->
       t ∈ dom (lists h')
       ∧ ((k, t) ∈ f_parents fam ∨ t ∉ dom (lists h))).
Proof.
  intros Hpar Hrun y. unfold add_individual in Hrun. fold y in Hrun.
  destruct (dict_mem (f_individuals fam) (iid y)) eqn:Hmem; [discriminate|].
  assert (iid y ∉ keys (f_individuals fam)) as Hnew.
  { intros Hin. apply dict_mem_spec in Hin. congruence. }
  set (hA := set_fid h n (f_fid fam)) in *.
  set (hB := foldl (relate n) hA (dict_values (f_individuals fam))) in *.
  assert (indivs hB = indivs hA) as HindB by apply relate_loop_indivs.
  assert (forall l, get_indiv hB l = get_indiv hA l) as HgetB.
  { intros l. by apply get_indiv_indivs. }
  assert (dom (lists h) ⊆ dom (lists hB)) as HdomB.
  { apply (relate_loop_dom n _ hA). }
  destruct (foldl (link_parent (f_individuals fam) n) (hB, f_parents fam) _)
    as [hC parents'] eqn:Hlink.
  destruct (link_parents_spec _ _ _ _ _ _ _ Hlink)
    as (HdomC & HindC & HperC & HkeepC & HparC).
  { intros k t Hkt. apply HdomB. by apply (Hpar k). }
  set (hD := match dict_get parents' (iid (get_indiv hB n)) with
             | Some l => set_children hC n l
             | None => hC
             end) in *.
  assert (lists hD = lists hC) as HlistD.
  { unfold hD. by destruct (dict_get parents' _). }
  assert (forall l, same_person (get_indiv hC l) (get_indiv hD l)) as HperD.
  { intros l. unfold hD. destruct (dict_get parents' _);
      [apply set_children_person | apply same_person_refl]. }
  assert (dom (indivs hC) ⊆ dom (indivs hD)) as HindD.
  { unfold hD. destruct (dict_get parents' _);
      [apply set_children_dom | done]. }
  assert (iid (get_indiv hB n) = iid y) as Hiid.
  { rewrite HgetB. unfold hA. by rewrite get_indiv_set_fid. }
  rewrite Hiid in Hrun. injection Hrun as <- <-. simpl.
  assert (forall l, same_links (get_indiv h l) (get_indiv hD l)) as Hlinks.
  { intros l.
    apply (same_links_trans _ (get_indiv hA l));
      [apply (set_fid_links h n l)|].
    rewrite <- HgetB.
    apply (same_links_trans _ (get_indiv hC l)); apply same_person_links;
      [apply HperC | apply HperD]. }
  split; [done|]. split; [done|].
  split; [by apply dict_set_fresh|].
  split; [done|].
  split.
  { intros l Hl. destruct (HperD l) as (-> & _).
    destruct (HperC l) as (-> & _). rewrite HgetB. unfold hA.
    by rewrite get_indiv_set_fid_ne. }
  split.
  { destruct (HperD n) as (-> & _). destruct (HperC n) as (-> & _).
    rewrite HgetB. unfold hA. by rewrite get_indiv_set_fid. }
  split; [rewrite HlistD; by etrans|].
  split.
  { etrans; [|exact HindD]. etrans; [|exact HindC]. rewrite HindB.
    unfold hA, set_fid, set_indiv. simpl. rewrite dom_insert_L.
    intros l Hl. apply elem_of_union. by right. }
  split.
  - intros t v Ht Hnot.
    assert (get_list hD t = get_list hB t) as ->.
    { unfold get_list. rewrite HlistD. apply HkeepC; [by apply HdomB|done]. }
    unfold hB. rewrite elem_of_relate_loop.
    apply or_iff_compat_l. fold (members fam).
    split; intros (i & Hi & Hv); exists i; (split; [done|]).
    + rewrite <- (appended_ext _ (get_indiv hA i) _ (get_indiv hA n));
        [done | apply set_fid_links | apply set_fid_links].
    + rewrite (appended_ext (get_indiv h i) _ (get_indiv h n));
        [done | apply set_fid_links | apply set_fid_links].
  - intros k t Hkt. destruct (HparC k t Hkt) as [Hin Hor].
    split; [by rewrite HlistD|].
    destruct Hor as [? | Hnot]; [by left|]. right.
    intros Ht. by apply Hnot, HdomB.
Qed.

Lemma relation_locs_app (h : heap) (ls ls' : list loc) :
  relation_locs h (ls ++ ls') = relation_locs h ls ++ relation_locs h ls'.
Proof. unfold relation_locs. apply flat_map_app. Qed.

Lemma of_scalar_inj (k k' : scalar) : of_scalar k = of_scalar k' -> k = k'.
Proof. destruct k, k'; simpl; congruence. Qed.

Lemma dict_unique {V} (d : dict V) k v v' :
  NoDup (keys d) -> (k, v) ∈ d -> (k, v') ∈ d -> v = v'.
Proof.
  unfold keys. induction d as [|[k0 v0] d IH]; simpl; intros Hnd Hv Hv'.
  - by apply elem_of_nil in Hv.
  - apply NoDup_cons in Hnd as [Hk0 Hnd].
    assert (forall u, (k0, u) ∈ d -> False) as Habs.
    { intros u Hu. apply Hk0. apply list_elem_of_fmap. by exists (k0, u). }
    apply elem_of_cons in Hv as [Hv | Hv];
      apply elem_of_cons in Hv' as [Hv' | Hv']; simplify_eq; try done.
    + by destruct (Habs v').
    + by destruct (Habs v).
    + by apply IH.
Qed.

Lemma elem_of_members (fam : Family) (l : loc) :
  l ∈ members fam <-> exists k, (k, l) ∈ f_individuals fam.
Proof.
  unfold members, dict_values. rewrite list_elem_of_fmap. split.
  - intros ([k l'] & -> & Hin). by exists k.
  - intros (k & Hin). by exists (k, l).
Qed.

Lemma empty_by_elements {A} (l : list A) : (forall v, v ∉ l) -> l = [].
Proof.
  destruct l as [|a l]; [done|]. intros Hno. destruct (Hno a).
  apply elem_of_cons. auto.
Qed.

End HeapFacts.

(** *** One call of [add_individual] that returns *)

Section AddStep.
Import Ped.

Variables (h h' : heap) (fam fam' : Family) (n : loc).
Hypothesis Hshape : family_shape h fam.
Hypothesis Hcons : family_consistent h fam.
Hypothesis Hfresh : fresh_individual h fam n.
Hypothesis Hrun : add_individual h fam n = inr (h', fam').

Let y := get_indiv h n.
Let idy := of_scalar (iid y).

Local Lemma step_view :
  (iid y ∉ keys (f_individuals fam))
  ∧ f_fid fam' = f_fid fam
  ∧ f_individuals fam' = f_individuals fam ++ [(iid y, n)]
  ∧ (forall l, same_links (get_indiv h l) (get_indiv h' l))
  ∧ (forall l, l ≠ n -> fid (get_indiv h' l) = fid (get_indiv h l))
  ∧ fid (get_indiv h' n) = f_fid fam
  ∧ dom (lists h) ⊆ dom (lists h')
  ∧ dom (indivs h) ⊆ dom (indivs h')
  ∧ (forall t v, t ∈ dom (lists h) -> (forall k, (k, t) ∉ f_parents fam) ->
       (v ∈ get_list h' t <->
        v ∈ get_list h t
        ∨ exists i, i ∈ members fam
                    ∧ v ∈ appended (get_indiv h i) y t))
  ∧ (forall k t, (k, t) ∈ f_parents fam' ->
       t ∈ dom (lists h')
       ∧ ((k, t) ∈ f_parents fam ∨ t ∉ dom (lists h))).
Proof.
  apply add_individual_view; [|exact Hrun].
  intros k t Hkt. by apply (shape_parents _ _ Hshape k).
Qed.

Local Lemma step_members : members fam' = members fam ++ [n].
Proof.
  destruct step_view as (_ & _ & Hmem & _).
  unfold members, dict_values. rewrite Hmem. by rewrite map_app.
Qed.

Local Lemma step_keys : keys (f_individuals fam') = keys (f_individuals fam) ++ [iid y].
Proof.
  destruct step_view as (_ & _ & Hmem & _).
  unfold keys. rewrite Hmem. by rewrite map_app.
Qed.

Local Lemma step_id (l : loc) : id_of h' l = id_of h l.
Proof.
  destruct step_view as (_ & _ & _ & Hlinks & _).
  unfold id_of. by destruct (Hlinks l) as (-> & _).
Qed.

Local Lemma step_locs :
  relation_locs h' (members fam')
  = relation_locs h (members fam) ++ [siblings y; half_siblings y].
Proof.
  destruct step_view as (_ & _ & _ & Hlinks & _).
  rewrite (relation_locs_ext h h') by (intros; apply Hlinks).
  by rewrite step_members, relation_locs_app.
Qed.

(** The identifier of a member is a key; the new identifier is not. *)
Local Lemma member_key (a : loc) :
  a ∈ members fam -> iid (get_indiv h a) ∈ keys (f_individuals fam).
Proof.
  intros Ha. apply elem_of_members in Ha as (k & Hk).
  destruct (shape_members _ _ Hshape k a Hk) as [_ ->].
  unfold keys. apply list_elem_of_fmap. by exists (k, a).
Qed.

Local Lemma member_not_new (a : loc) : a ∈ members fam -> id_of h a ≠ idy.
Proof.
  intros Ha Heq. apply of_scalar_inj in Heq.
  destruct step_view as (Hnew & _). apply Hnew. rewrite <- Heq.
  by apply member_key.
Qed.

Local Lemma member_id_inj (a b : loc) :
  a ∈ members fam -> b ∈ members fam -> id_of h a = id_of h b -> a = b.
Proof.
  intros Ha Hb Heq. apply of_scalar_inj in Heq.
  apply elem_of_members in Ha as (ka & Hka).
  apply elem_of_members in Hb as (kb & Hkb).
  destruct (shape_members _ _ Hshape ka a Hka) as [_ Hia].
  destruct (shape_members _ _ Hshape kb b Hkb) as [_ Hib].
  assert (ka = kb) as -> by congruence.
  by apply (dict_unique (f_individuals fam) kb); [apply Hshape| |].
Qed.

Local Lemma new_not_listed (a : loc) :
  a ∈ members fam -> (idy ∉ sibs h a) ∧ (idy ∉ halfs h a).
Proof.
  intros Ha.
  assert (forall v, v ∈ sibs h a ∨ v ∈ halfs h a -> v ≠ idy) as Hne.
  { intros v Hv ->.
    destruct (shape_elements _ _ Hshape a idy Ha Hv) as (k & Hk & Heq).
    apply of_scalar_inj in Heq. destruct step_view as (Hnew & _).
    apply Hnew. by rewrite Heq. }
  split; intros Hin; by eapply Hne; [|reflexivity]; auto.
Qed.

(** The lists of a member are not those of another member, nor those of
    the individual added. *)
Local Lemma member_locs (a i : loc) :
  a ∈ members fam -> i ∈ members fam ->
  siblings (get_indiv h a) ≠ half_siblings (get_indiv h i)
  ∧ (siblings (get_indiv h a) = siblings (get_indiv h i) -> i = a)
  ∧ (half_siblings (get_indiv h a) = half_siblings (get_indiv h i) -> i = a)
  ∧ siblings (get_indiv h a) ≠ siblings y
  ∧ siblings (get_indiv h a) ≠ half_siblings y
  ∧ half_siblings (get_indiv h a) ≠ siblings y
  ∧ half_siblings (get_indiv h a) ≠ half_siblings y.
Proof.
  intros Ha Hi.
  pose proof (shape_locs _ _ Hshape) as Hnd. unfold relation_locs in Hnd.
  set (f := fun l => [siblings (get_indiv h l);
                      half_siblings (get_indiv h l)]) in *.
  assert (forall l, siblings (get_indiv h l) ∈ f l) as Hs.
  { intros l. apply elem_of_cons. auto. }
  assert (forall l, half_siblings (get_indiv h l) ∈ f l) as Hh.
  { intros l. apply elem_of_cons. right. apply elem_of_cons. auto. }
  assert (forall l, l ∈ members fam ->
            siblings (get_indiv h l) ≠ half_siblings (get_indiv h l))
    as Hdiff.
  { intros l Hl Heq.
    pose proof (flat_map_NoDup_each f _ l Hnd Hl) as Hl2. unfold f in Hl2.
    apply NoDup_cons in Hl2 as [Hl2 _]. apply Hl2. rewrite Heq.
    apply elem_of_cons. auto. }
  assert (forall t, t = siblings y ∨ t = half_siblings y ->
            forall l, l ∈ members fam ->
            t ≠ siblings (get_indiv h l)
            ∧ t ≠ half_siblings (get_indiv h l)) as Hnew.
  { intros t Ht l Hl.
    destruct Hfresh as (_ & _ & _ & Hf).
    destruct (Hf t Ht) as (_ & _ & Hnot & _).
    split; intros ->; apply Hnot, elem_of_relation_locs; exists l; auto. }
  split; [|split; [|split; [|split; [|split; [|split]]]]].
  - intros Heq.
    assert (a = i) as ->.
    { apply (flat_map_NoDup_inj f (members fam) a i
               (siblings (get_indiv h a))); try done. rewrite Heq. apply Hh. }
    by apply (Hdiff i).
  - intros Heq. symmetry.
    apply (flat_map_NoDup_inj f (members fam) a i
             (siblings (get_indiv h a))); try done. rewrite Heq. apply Hs.
  - intros Heq. symmetry.
    apply (flat_map_NoDup_inj f (members fam) a i
             (half_siblings (get_indiv h a))); try done.
    rewrite Heq. apply Hh.
  - intros Heq. by destruct (Hnew (siblings y) (or_introl eq_refl) a Ha).
  - intros Heq.
    by destruct (Hnew (half_siblings y) (or_intror eq_refl) a Ha).
  - intros Heq. by destruct (Hnew (siblings y) (or_introl eq_refl) a Ha).
  - intros Heq.
    by destruct (Hnew (half_siblings y) (or_intror eq_refl) a Ha).
Qed.

(** What the lists of a member hold after the call. *)
Local Lemma member_list_allocated (a : loc) t :
  a ∈ members fam ->
  t = siblings (get_indiv h a) ∨ t = half_siblings (get_indiv h a) ->
  t ∈ dom (lists h) ∧ forall k, (k, t) ∉ f_parents fam.
Proof.
  intros Ha Ht.
  assert (t ∈ relation_locs h (members fam)) as Hin.
  { apply elem_of_relation_locs. by exists a. }
  split; [by apply (shape_allocated _ _ Hshape)|].
  intros k Hk. by destruct (shape_parents _ _ Hshape k t Hk) as (_ & ? & _).
Qed.

Local Lemma step_sibs_member (a : loc) (v : pyval) :
  a ∈ members fam ->
  v ∈ sibs h' a <->
  v ∈ sibs h a ∨ (full_sibs (get_indiv h a) y = true ∧ v = idy).
Proof.
  intros Ha. destruct step_view as (_ & _ & _ & Hlinks & _ & _ & _ & _ & Hl & _).
  unfold sibs. destruct (Hlinks a) as (_ & _ & _ & -> & _).
  destruct (member_list_allocated a (siblings (get_indiv h a)) Ha)
    as [Hdom Hnp]; [auto|].
  rewrite (Hl _ v Hdom Hnp). apply or_iff_compat_l. split.
  - intros (i & Hi & Hv). apply elem_of_appended in Hv.
    destruct (member_locs a i Ha Hi) as (H1 & H2 & _ & H4 & H5 & _).
    destruct Hv as [(Hf & [[Ht ->] | [Ht _]]) | (_ & _ & [[Ht _] | [Ht _]])];
      try congruence.
    by rewrite (H2 Ht) in Hf.
  - intros [Hf ->]. exists a. split; [done|]. apply elem_of_appended.
    left. split; [done|]. by left.
Qed.

Local Lemma step_halfs_member (a : loc) (v : pyval) :
  a ∈ members fam ->
  v ∈ halfs h' a <->
  v ∈ halfs h a
  ∨ (full_sibs (get_indiv h a) y = false
     ∧ half_sibs (get_indiv h a) y = true ∧ v = idy).
Proof.
  intros Ha. destruct step_view as (_ & _ & _ & Hlinks & _ & _ & _ & _ & Hl & _).
  unfold halfs. destruct (Hlinks a) as (_ & _ & _ & _ & ->).
  destruct (member_list_allocated a (half_siblings (get_indiv h a)) Ha)
    as [Hdom Hnp]; [auto|].
  rewrite (Hl _ v Hdom Hnp). apply or_iff_compat_l. split.
  - intros (i & Hi & Hv). apply elem_of_appended in Hv.
    destruct (member_locs a i Ha Hi) as (_ & _ & H3 & _ & _ & H6 & H7).
    destruct (member_locs i a Hi Ha) as (H1 & _).
    destruct Hv as [(_ & [[Ht _] | [Ht _]]) | (Hf & Hg & [[Ht ->] | [Ht _]])];
      try congruence.
    by rewrite (H3 Ht) in Hf, Hg.
  - intros (Hf & Hg & ->). exists a. split; [done|]. apply elem_of_appended.
    right. split; [done|]. split; [done|]. by left.
Qed.

Local Lemma new_list_allocated t :
  t = siblings y ∨ t = half_siblings y ->
  t ∈ dom (lists h) ∧ get_list h t = [] ∧ forall k, (k, t) ∉ f_parents fam.
Proof.
  intros Ht. destruct Hfresh as (_ & _ & _ & Hf).
  destruct (Hf t Ht) as (? & ? & _ & _ & ?). done.
Qed.

Local Lemma step_sibs_new (v : pyval) :
  v ∈ sibs h' n <->
  exists i, i ∈ members fam
            ∧ full_sibs (get_indiv h i) y = true ∧ v = id_of h i.
Proof.
  destruct step_view as (_ & _ & _ & Hlinks & _ & _ & _ & _ & Hl & _).
  unfold sibs. destruct (Hlinks n) as (_ & _ & _ & -> & _). fold y.
  destruct (new_list_allocated (siblings y)) as (Hdom & Hempty & Hnp); [auto|].
  rewrite (Hl _ v Hdom Hnp), Hempty.
  assert (siblings y ≠ half_siblings y) as Hne by apply Hfresh.
  split.
  - intros [Hv | (i & Hi & Hv)]; [by apply elem_of_nil in Hv|].
    exists i. split; [done|]. apply elem_of_appended in Hv.
    destruct (member_locs i i Hi Hi) as (_ & _ & _ & H4 & _ & H6 & _).
    destruct Hv as [(Hf & [[Ht _] | [_ ->]]) | (_ & _ & [[Ht _] | [Ht _]])];
      try congruence. done.
  - intros (i & Hi & Hf & ->). right. exists i. split; [done|].
    apply elem_of_appended. left. split; [done|]. by right.
Qed.

Local Lemma step_halfs_new (v : pyval) :
  v ∈ halfs h' n <->
  exists i, i ∈ members fam
            ∧ full_sibs (get_indiv h i) y = false
            ∧ half_sibs (get_indiv h i) y = true ∧ v = id_of h i.
Proof.
  destruct step_view as (_ & _ & _ & Hlinks & _ & _ & _ & _ & Hl & _).
  unfold halfs. destruct (Hlinks n) as (_ & _ & _ & _ & ->). fold y.
  destruct (new_list_allocated (half_siblings y)) as (Hdom & Hempty & Hnp);
    [auto|].
  rewrite (Hl _ v Hdom Hnp), Hempty.
  assert (siblings y ≠ half_siblings y) as Hne by apply Hfresh.
  split.
  - intros [Hv | (i & Hi & Hv)]; [by apply elem_of_nil in Hv|].
    exists i. split; [done|]. apply elem_of_appended in Hv.
    destruct (member_locs i i Hi Hi) as (_ & _ & _ & _ & H5 & _ & H7).
    destruct Hv as [(_ & [[Ht _] | [Ht _]]) | (Hf & Hg & [[Ht _] | [_ ->]])];
      try congruence. done.
  - intros (i & Hi & Hf & Hg & ->). right. exists i. split; [done|].
    apply elem_of_appended. right. split; [done|]. split; [done|]. by right.
Qed.

Local Lemma elem_of_members' (l : loc) :
  l ∈ members fam' <-> l ∈ members fam ∨ l = n.
Proof.
  rewrite step_members, elem_of_app, list_elem_of_singleton. tauto.
Qed.

Local Lemma new_not_member : n ∉ members fam.
Proof. apply Hfresh. Qed.

(** The family is consistent after the call. *)
Lemma step_consistent : family_consistent h' fam'.
Proof.
  destruct step_view
    as (Hnew & Hfid & _ & Hlinks & Hfid_old & Hfid_new & _).
  destruct Hcons as (Hf & Hs & Hh).
  split; [|split].
  - intros a Ha. rewrite Hfid.
    apply elem_of_members' in Ha as [Ha | ->]; [|done].
    rewrite Hfid_old; [by apply Hf|]. intros ->. by apply new_not_member.
  - intros a b Ha Hb. rewrite !step_id.
    apply elem_of_members' in Ha as [Ha | ->];
      apply elem_of_members' in Hb as [Hb | ->].
    + rewrite !step_sibs_member by done. fold idy.
      pose proof (member_not_new a Ha). pose proof (member_not_new b Hb).
      specialize (Hs a b Ha Hb). tauto.
    + rewrite step_sibs_new, step_sibs_member by done.
      destruct (new_not_listed a Ha) as [Hno _]. fold y idy. split.
      * intros (i & Hi & Hfull & Heq).
        apply (member_id_inj a i Ha Hi) in Heq as <-. auto.
      * intros [Hin | [Hfull _]]; [done|]. by exists a.
    + rewrite step_sibs_new, step_sibs_member by done.
      destruct (new_not_listed b Hb) as [Hno _]. fold y idy. split.
      * intros [Hin | [Hfull _]]; [done|]. by exists b.
      * intros (i & Hi & Hfull & Heq).
        apply (member_id_inj b i Hb Hi) in Heq as <-. auto.
    + done.
  - intros a b Ha Hb. rewrite !step_id.
    apply elem_of_members' in Ha as [Ha | ->];
      apply elem_of_members' in Hb as [Hb | ->].
    + rewrite !step_halfs_member by done. fold idy.
      pose proof (member_not_new a Ha). pose proof (member_not_new b Hb).
      specialize (Hh a b Ha Hb). tauto.
    + rewrite step_halfs_new, step_halfs_member by done.
      destruct (new_not_listed a Ha) as [_ Hno]. fold y idy. split.
      * intros (i & Hi & Hfull & Hhalf & Heq).
        apply (member_id_inj a i Ha Hi) in Heq as <-. auto.
      * intros [Hin | (Hfull & Hhalf & _)]; [done|]. by exists a.
    + rewrite step_halfs_new, step_halfs_member by done.
      destruct (new_not_listed b Hb) as [_ Hno]. fold y idy. split.
      * intros [Hin | (Hfull & Hhalf & _)]; [done|]. by exists b.
      * intros (i & Hi & Hfull & Hhalf & Heq).
        apply (member_id_inj b i Hb Hi) in Heq as <-. auto.
    + done.
Qed.

Local Lemma default_allocated (d : loc) :
  d ∈ default_locs -> d ∈ dom (lists h) ∧ get_list h d = [].
Proof.
  intros Hd. destruct (shape_defaults _ _ Hshape) as [(H1 & H2 & H3) _].
  unfold default_locs in Hd.
  assert (lists h !! d = Some []) as Hl.
  { apply elem_of_cons in Hd as [-> | Hd]; [done|].
    apply elem_of_cons in Hd as [-> | Hd]; [done|].
    apply list_elem_of_singleton in Hd as ->. done. }
  split; [apply elem_of_dom; by eexists|].
  unfold get_list. by rewrite (lookup_total_correct _ _ _ Hl).
Qed.

Local Lemma default_untouched (d : loc) :
  d ∈ default_locs -> lists h' !! d = Some [].
Proof.
  intros Hd. destruct (default_allocated d Hd) as [Hdom Hempty].
  destruct step_view as (_ & _ & _ & _ & _ & _ & Hsub & _ & Hl & _).
  assert (forall k, (k, d) ∉ f_parents fam) as Hnp.
  { intros k Hk. by destruct (shape_parents _ _ Hshape k d Hk) as (_ & _ & ?). }
  assert (get_list h' d = []) as Hnil.
  { apply empty_by_elements. intros v Hv.
    apply (Hl d v Hdom Hnp) in Hv as [Hv | (i & Hi & Hv)].
    - rewrite Hempty in Hv. by apply elem_of_nil in Hv.
    - destruct (shape_defaults _ _ Hshape) as [_ Hnot].
      destruct Hfresh as (_ & _ & _ & Hf).
      apply elem_of_appended in Hv.
      assert (d ≠ siblings y) as N1
        by (intros ->; by destruct (Hf (siblings y)) as (_ & _ & _ & ? & _);
            auto).
      assert (d ≠ half_siblings y) as N2
        by (intros ->;
            by destruct (Hf (half_siblings y)) as (_ & _ & _ & ? & _); auto).
      assert (d ≠ siblings (get_indiv h i)) as N3.
      { intros ->. apply (Hnot _ Hd), elem_of_relation_locs. exists i. auto. }
      assert (d ≠ half_siblings (get_indiv h i)) as N4.
      { intros ->. apply (Hnot _ Hd), elem_of_relation_locs. exists i. auto. }
      destruct Hv as [(_ & [[? _] | [? _]]) | (_ & _ & [[? _] | [? _]])];
        congruence. }
  assert (d ∈ dom (lists h')) as Hdom' by by apply Hsub.
  apply elem_of_dom in Hdom' as [items Hitems].
  unfold get_list in Hnil.
  rewrite (lookup_total_correct _ _ _ Hitems) in Hnil. by subst.
Qed.

(** The shape of the store is kept by the call. *)
Lemma step_shape : family_shape h' fam'.
Proof.
  pose proof step_view
    as (Hnew & Hfid & Hmem & Hlinks & _ & _ & Hsub & Hsubi & Hl & Hpar).
  pose proof Hfresh as (Hn & Hnm & Hne & Hf).
  assert (forall t, t ∈ relation_locs h' (members fam') <->
                    t ∈ relation_locs h (members fam)
                    ∨ t = siblings y ∨ t = half_siblings y) as Hlocs.
  { intros t. rewrite step_locs, elem_of_app, elem_of_cons,
      list_elem_of_singleton. tauto. }
  constructor.
  - rewrite step_keys. apply NoDup_app. split; [apply Hshape|].
    split; [|apply NoDup_singleton].
    intros k Hk Hk'. apply list_elem_of_singleton in Hk' as ->. done.
  - intros k l Hkl. rewrite Hmem in Hkl.
    destruct (Hlinks l) as (-> & _).
    apply elem_of_app in Hkl as [Hkl | Hkl].
    + destruct (shape_members _ _ Hshape k l Hkl) as [? ?].
      split; [by apply Hsubi | done].
    + apply list_elem_of_singleton in Hkl. injection Hkl as -> ->.
      split; [by apply Hsubi | done].
  - rewrite step_locs. apply NoDup_app. split; [apply Hshape|]. split.
    + intros t Ht Ht'.
      apply elem_of_cons in Ht' as [-> | Ht'];
        [|apply list_elem_of_singleton in Ht' as ->].
      * by destruct (Hf (siblings y)) as (_ & _ & ? & _); auto.
      * by destruct (Hf (half_siblings y)) as (_ & _ & ? & _); auto.
    + apply NoDup_cons. split; [|apply NoDup_singleton].
      intros Hin. by apply list_elem_of_singleton in Hin.
  - intros t Ht. apply Hsub. apply Hlocs in Ht as [Ht | Ht].
    + by apply (shape_allocated _ _ Hshape).
    + by destruct (Hf t Ht) as (? & _).
  - intros k t Hkt. destruct (Hpar k t Hkt) as [Hdom Hor].
    split; [done|]. rewrite Hlocs. destruct Hor as [Hold | Hfresh'].
    + destruct (shape_parents _ _ Hshape k t Hold) as (_ & Hnot & Hnd).
      split; [|done]. intros [Hin | Hin]; [done|].
      destruct (Hf t Hin) as (_ & _ & _ & _ & Hnp). by apply (Hnp k).
    + split.
      * intros [Hin | Hin].
        -- by apply Hfresh', (shape_allocated _ _ Hshape).
        -- by destruct (Hf t Hin) as (? & _).
      * intros Hd. by destruct (default_allocated t Hd) as [? _].
  - split.
    + repeat split; apply default_untouched; unfold default_locs;
        rewrite !elem_of_cons; auto.
    + intros d Hd. rewrite Hlocs.
      destruct (shape_defaults _ _ Hshape) as [_ Hnot].
      intros [Hin | Hin]; [by apply (Hnot d)|].
      by destruct (Hf d Hin) as (_ & _ & _ & ? & _).
  - intros l v Hl' Hv. rewrite step_keys.
    assert (forall i, i ∈ members fam ->
              exists k, k ∈ keys (f_individuals fam) ++ [iid y]
                        ∧ id_of h i = of_scalar k) as Hid.
    { intros i Hi. exists (iid (get_indiv h i)).
      split; [|done]. apply elem_of_app. left. by apply member_key. }
    assert (exists k, k ∈ keys (f_individuals fam) ++ [iid y]
                      ∧ idy = of_scalar k) as Hidy.
    { exists (iid y). split; [|done]. apply elem_of_app. right.
      by apply list_elem_of_singleton. }
    assert (forall a w, a ∈ members fam -> w ∈ sibs h a ∨ w ∈ halfs h a ->
              exists k, k ∈ keys (f_individuals fam) ++ [iid y]
                        ∧ w = of_scalar k) as Hold.
    { intros a w Ha Hw.
      destruct (shape_elements _ _ Hshape a w Ha Hw) as (k & Hk & ->).
      exists k. split; [|done]. apply elem_of_app. by left. }
    apply elem_of_members' in Hl' as [Ha | ->].
    + destruct Hv as [Hv | Hv].
      * apply (step_sibs_member l v Ha) in Hv as [Hv | [_ ->]];
          [apply (Hold l); auto | done].
      * apply (step_halfs_member l v Ha) in Hv as [Hv | (_ & _ & ->)];
          [apply (Hold l); auto | done].
    + destruct Hv as [Hv | Hv].
      * apply step_sibs_new in Hv as (i & Hi & _ & ->). by apply Hid.
      * apply step_halfs_new in Hv as (i & Hi & _ & _ & ->). by apply Hid.
Qed.

End AddStep.

(** *** Building a family from rows *)

Section Rows.
Import Ped.

(** The store after [Individual.__init__], in one piece. *)
Lemma Individual__init__store (h : heap)
    (fid_ iid_ father_ mother_ sex_ phenotype_ : scalar)
    (siblings_ half_siblings_ children_ : pyval) (p : Z) :
  py_int phenotype_ = inr p ->
  valid h siblings_ -> valid h half_siblings_ -> valid h children_ ->
  exists self s hs ch,
    Individual__init__ h fid_ iid_ father_ mother_ sex_ phenotype_
      siblings_ half_siblings_ children_
    = inr ({| lists :=
                <[ch := wrapped h children_]>
                  (<[hs := wrapped h half_siblings_]>
                     (<[s := wrapped h siblings_]> (lists h)));
              indivs :=
                <[self :=
                    {| fid := fid_; iid := iid_; father := father_;
                       mother := mother_;
                       sex := match py_int sex_ with
                              | inr z => z
                              | inl _ => 0
                              end;
                       phenotype := p; siblings := s;
                       half_siblings := hs; children := ch |}]>
                  (indivs h) |}, self)
    ∧ (self ∉ allocated_locs h) ∧ (s ∉ allocated_locs h)
    ∧ (hs ∉ allocated_locs h) ∧ (ch ∉ allocated_locs h)
    ∧ s ≠ hs ∧ s ≠ ch ∧ hs ≠ ch.
Proof.
  intros Hp Hv1 Hv2 Hv3.
  pose proof (Individual__init__returns h fid_ iid_ father_ mother_ sex_
                phenotype_ siblings_ half_siblings_ children_ p
                Hp Hv1 Hv2 Hv3) as Hret.
  cbv zeta in Hret.
  set (self := new_loc h) in *.
  set (h0 := set_indiv h self _) in *.
  set (s := new_loc h0) in *.
  set (h1 := set_list h0 s _) in *.
  set (hs := new_loc h1) in *.
  set (h2 := set_list h1 hs _) in *.
  set (ch := new_loc h2) in *.
  assert (self ∉ allocated_locs h) as Hself by apply new_loc_fresh.
  assert (s ∉ allocated_locs h0) as Hs by apply new_loc_fresh.
  assert (hs ∉ allocated_locs h1) as Hhs by apply new_loc_fresh.
  assert (ch ∉ allocated_locs h2) as Hch by apply new_loc_fresh.
  unfold h2 in Hch. rewrite allocated_set_list in Hch.
  unfold h1 in Hhs, Hch. rewrite allocated_set_list in Hhs, Hch.
  unfold h0 in Hs, Hhs, Hch. rewrite allocated_set_indiv in Hs, Hhs, Hch.
  apply not_elem_of_union in Hs as [_ Hs].
  apply not_elem_of_union in Hhs as [Hhs_s Hhs].
  apply not_elem_of_union in Hhs as [_ Hhs].
  apply not_elem_of_union in Hch as [Hch_hs Hch].
  apply not_elem_of_union in Hch as [Hch_s Hch].
  apply not_elem_of_union in Hch as [_ Hch].
  rewrite not_elem_of_singleton in Hhs_s, Hch_hs, Hch_s.
  exists self, s, hs, ch. split; [|repeat split; try done; congruence].
  rewrite Hret. unfold set_indiv, set_list, h2, h1, h0, set_indiv, set_list.
  simpl. by rewrite insert_insert_eq.
Qed.

(** The store grows: what a family reads is still there. *)
Lemma family_frame (h h1 : heap) (fam : Family) :
  family_shape h fam -> family_consistent h fam ->
  dom (indivs h) ⊆ dom (indivs h1) ->
  (forall l, l ∈ dom (indivs h) -> get_indiv h1 l = get_indiv h l) ->
  (forall t, t ∈ dom (lists h) -> lists h1 !! t = lists h !! t) ->
  family_shape h1 fam ∧ family_consistent h1 fam.
Proof.
  intros Hshape (Hf & Hs & Hh) Hsub Hind Hlist.
  assert (forall l, l ∈ members fam -> get_indiv h1 l = get_indiv h l)
    as Hmem.
  { intros l Hl. apply elem_of_members in Hl as (k & Hk).
    apply Hind. by destruct (shape_members _ _ Hshape k l Hk). }
  assert (relation_locs h1 (members fam) = relation_locs h (members fam))
    as Hlocs.
  { apply relation_locs_ext. intros l Hl. rewrite (Hmem l Hl).
    by repeat split. }
  assert (forall t, t ∈ dom (lists h) ->
            t ∈ dom (lists h1) ∧ get_list h1 t = get_list h t) as Hget.
  { intros t Ht. split.
    - apply elem_of_dom. rewrite (Hlist t Ht). by apply elem_of_dom.
    - unfold get_list. apply elem_of_dom in Ht as Hsome.
      destruct Hsome as [items Hitems].
      rewrite (lookup_total_correct _ _ _ Hitems).
      apply lookup_total_correct. by rewrite (Hlist t Ht). }
  assert (forall l, l ∈ members fam ->
            sibs h1 l = sibs h l ∧ halfs h1 l = halfs h l) as Hviews.
  { intros l Hl. unfold sibs, halfs. rewrite (Hmem l Hl).
    split; apply Hget, (shape_allocated _ _ Hshape), elem_of_relation_locs;
      exists l; auto. }
  assert (forall l, l ∈ members fam -> id_of h1 l = id_of h l) as Hid.
  { intros l Hl. unfold id_of. by rewrite (Hmem l Hl). }
  split.
  - constructor.
    + apply Hshape.
    + intros k l Hkl. destruct (shape_members _ _ Hshape k l Hkl) as [? ?].
      split; [by apply Hsub|]. by rewrite Hind.
    + rewrite Hlocs. apply Hshape.
    + intros t Ht. rewrite Hlocs in Ht.
      by apply Hget, (shape_allocated _ _ Hshape).
    + intros k t Hkt. rewrite Hlocs.
      destruct (shape_parents _ _ Hshape k t Hkt) as (? & ? & ?).
      split; [by apply Hget | done].
    + destruct (shape_defaults _ _ Hshape) as [(H1 & H2 & H3) Hnot].
      split; [|by rewrite Hlocs].
      repeat split; rewrite Hlist; try done; apply elem_of_dom; by eexists.
    + intros l v Hl Hv. destruct (Hviews l Hl) as [Hs' Hh'].
      rewrite Hs', Hh' in Hv. by apply (shape_elements _ _ Hshape l).
  - split; [|split].
    + intros a Ha. rewrite (Hmem a Ha). by apply Hf.
    + intros a b Ha Hb. destruct (Hviews a Ha) as [-> _].
      destruct (Hviews b Hb) as [-> _]. rewrite !Hid by done. by apply Hs.
    + intros a b Ha Hb. destruct (Hviews a Ha) as [_ ->].
      destruct (Hviews b Hb) as [_ ->]. rewrite !Hid by done. by apply Hh.
Qed.

Lemma new_family_shape (h : heap) (fid_ : scalar) :
  defaults_empty h ->
  family_shape h (new_family fid_) ∧ family_consistent h (new_family fid_).
Proof.
  intros Hd. split.
  - constructor; simpl; try done.
    + apply NoDup_nil_2.
    + intros k l Hkl. by apply elem_of_nil in Hkl.
    + apply NoDup_nil_2.
    + intros t Ht. by apply elem_of_nil in Ht.
    + intros k t Hkt. by apply elem_of_nil in Hkt.
    + split; [done|]. intros d _ Hin. by apply elem_of_nil in Hin.
    + intros l v Hl. by apply elem_of_nil in Hl.
  - split; [|split].
    + intros a Ha. by apply elem_of_nil in Ha.
    + intros a b Ha. by apply elem_of_nil in Ha.
    + intros a b Ha. by apply elem_of_nil in Ha.
Qed.

(** One row keeps the shape of the store and the consistency of the
    family, whether the two calls return or raise. *)
Lemma add_row_preserves (h : heap) (fam : Family) (r : row) :
  family_shape h fam -> family_consistent h fam ->
  family_shape (add_row (h, fam) r).1 (add_row (h, fam) r).2
  ∧ family_consistent (add_row (h, fam) r).1 (add_row (h, fam) r).2.
Proof.
  intros Hshape Hcons. unfold add_row, Individual6.
  destruct (py_int (r_phenotype r)) as [e|p] eqn:Hp.
  { unfold Individual__init__. rewrite Hp. simpl. done. }
  destruct (shape_defaults _ _ Hshape) as [(Hd1 & Hd2 & Hd3) Hdnot].
  assert (forall d, lists h !! d = Some [] ->
            valid h (VList d) ∧ wrapped h (VList d) = []) as Hdef.
  { intros d Hl. split; [apply elem_of_dom; by eexists|].
    unfold wrapped, truthy, get_list.
    by rewrite (lookup_total_correct _ _ _ Hl). }
  destruct (Hdef _ Hd1) as [Hv1 Hw1]. destruct (Hdef _ Hd2) as [Hv2 Hw2].
  destruct (Hdef _ Hd3) as [Hv3 Hw3].
  destruct (Individual__init__store h (r_fid r) (r_iid r) (r_father r)
              (r_mother r) (r_sex r) (r_phenotype r)
              (VList default_siblings) (VList default_half_siblings)
              (VList default_children) p Hp Hv1 Hv2 Hv3)
    as (n & s & hs & ch & -> & Hn & Hs & Hhs & Hch & Hne1 & Hne2 & Hne3).
  rewrite Hw1, Hw2, Hw3.
  set (h1 := {| lists := _; indivs := _ |}).
  assert (forall t, t ∈ dom (lists h) -> t ≠ s ∧ t ≠ hs ∧ t ≠ ch) as Hold.
  { intros t Ht.
    assert (t ∈ allocated_locs h)
      by (unfold allocated_locs; apply elem_of_union; by left).
    repeat split; by intros ->. }
  assert (n ∉ dom (indivs h)) as Hn'.
  { intros Hin. apply Hn. unfold allocated_locs. apply elem_of_union.
    by right. }
  assert (family_shape h1 fam ∧ family_consistent h1 fam) as [Hshape1 Hcons1].
  { apply (family_frame h); try done.
    - unfold h1. simpl. rewrite dom_insert_L. intros l Hl.
      apply elem_of_union. by right.
    - intros l Hl. unfold get_indiv, h1. simpl.
      rewrite lookup_total_insert_ne; [done|]. by intros ->.
    - intros t Ht. destruct (Hold t Ht) as (? & ? & ?). unfold h1. simpl.
      by rewrite !lookup_insert_ne. }
  assert (get_indiv h1 n
          = {| fid := r_fid r; iid := r_iid r; father := r_father r;
               mother := r_mother r;
               sex := match py_int (r_sex r) with
                      | inr z => z
                      | inl _ => 0
                      end;
               phenotype := p; siblings := s; half_siblings := hs;
               children := ch |}) as Hy.
  { unfold get_indiv, h1. simpl. apply lookup_total_insert_eq. }
  assert (fresh_individual h1 fam n) as Hfresh.
  { unfold fresh_individual. rewrite Hy. simpl.
    split; [unfold h1; simpl; rewrite dom_insert_L; apply elem_of_union;
            left; by apply elem_of_singleton|].
    split.
    { intros Hin. apply elem_of_members in Hin as (k & Hk).
      by destruct (shape_members _ _ Hshape k n Hk). }
    split; [done|].
    intros t Ht.
    assert (t ∉ dom (lists h)) as Hnew.
    { intros Hin. destruct (Hold t Hin) as (? & ? & ?).
      by destruct Ht. }
    assert (lists h1 !! t = Some []) as Hlook.
    { unfold h1. simpl. destruct Ht as [-> | ->].
      - rewrite !lookup_insert_ne by done. apply lookup_insert_eq.
      - rewrite lookup_insert_ne by done. apply lookup_insert_eq. }
    split; [apply elem_of_dom; by eexists|].
    split; [unfold get_list; by apply lookup_total_correct|].
    split.
    { intros Hin.
      assert (relation_locs h1 (members fam) = relation_locs h (members fam))
        as Heq.
      { apply relation_locs_ext. intros l Hl.
        apply elem_of_members in Hl as (k & Hk).
        destruct (shape_members _ _ Hshape k l Hk) as [Hl _].
        unfold get_indiv, h1. simpl.
        rewrite lookup_total_insert_ne; [by repeat split|]. by intros ->. }
      rewrite Heq in Hin. by apply Hnew, (shape_allocated _ _ Hshape). }
    split.
    { intros Hin. apply Hnew. unfold default_locs in Hin.
      apply elem_of_dom.
      apply elem_of_cons in Hin as [-> | Hin]; [by eexists|].
      apply elem_of_cons in Hin as [-> | Hin]; [by eexists|].
      apply list_elem_of_singleton in Hin as ->. by eexists. }
    intros k Hk. apply Hnew.
    by destruct (shape_parents _ _ Hshape k t Hk) as (? & _). }
  destruct (add_individual h1 fam n) as [e|[h' fam']] eqn:Hadd; simpl.
  - done.
  - split; [by eapply step_shape | by eapply step_consistent].
Qed.

Lemma add_rows_preserve (rows : list row) :
  forall (h : heap) (fam : Family),
  family_shape h fam -> family_consistent h fam ->
  family_shape (add_rows (h, fam) rows).1 (add_rows (h, fam) rows).2
  ∧ family_consistent (add_rows (h, fam) rows).1 (add_rows (h, fam) rows).2.
Proof.
  induction rows as [|r rows IH]; intros h fam Hshape Hcons; [done|].
  unfold add_rows. cbn [foldl]. fold (add_rows (add_row (h, fam) r) rows).
  destruct (add_row_preserves h fam r Hshape Hcons) as [Hshape1 Hcons1].
  destruct (add_row (h, fam) r) as [h1 fam1]. by apply IH.
Qed.

(** C8, as the code has it.  A family that starts without members and to
    which individuals are added that are newly constructed from the six
    columns of a pedigree line (no argument for siblings, half-siblings or
    children, as [PedFile] constructs them) is consistent after any number
    of calls, those that raise included: every member carries the
    identifier of the family, and the identifier of a member [a] is in the
    sibling list (half-sibling list) of a member [b] exactly when the
    identifier of [b] is in that of [a]. *)
Theorem family_of_rows_consistent (h : heap) (fid_ : scalar)
    (rows : list row) :
  defaults_empty h ->
  family_consistent (add_rows (h, new_family fid_) rows).1
    (add_rows (h, new_family fid_) rows).2.
Proof.
  intros Hd. destruct (new_family_shape h fid_ Hd) as [Hshape Hcons].
  by apply add_rows_preserve.
Qed.

(** The witness of C8: two full siblings and a half-sibling. *)
Lemma family_of_rows_consistent_witness :
  members (add_rows (module_heap, new_family (SStr "F1"))
             PedSamples.three_rows).2 = [3; 9; 13]%nat
  ∧ family_consistent
      (add_rows (module_heap, new_family (SStr "F1"))
         PedSamples.three_rows).1
      (add_rows (module_heap, new_family (SStr "F1"))
         PedSamples.three_rows).2.
Proof.
  split; [vm_compute; reflexivity|].
  apply family_of_rows_consistent.
  repeat split; reflexivity.
Defined.

(** C8 as it is stated fails for an individual that was constructed with
    a sibling argument: [a] names ["B"] as sibling, [b] has other parents,
    and after [Family("F1", [a, b])] the identifier of [b] is in the
    sibling list of [a] while that of [a] is not in the list of [b]. *)
Lemma family_counterexample :
  exists (h : heap) (fam : Family),
    PedSamples.named_sibling = inr (h, fam)
    ∧ members fam = [3; 7]%nat
    ∧ id_of h 3%nat = VStr "A" ∧ id_of h 7%nat = VStr "B"
    ∧ sibs h 3%nat = [VStr "B"] ∧ sibs h 7%nat = []
    ∧ ¬ family_consistent h fam.
Proof.
  eexists _, _. split; [vm_compute; reflexivity|].
  split; [vm_compute; reflexivity|].
  split; [vm_compute; reflexivity|]. split; [vm_compute; reflexivity|].
  split; [vm_compute; reflexivity|]. split; [vm_compute; reflexivity|].
  intros (_ & Hs & _).
  specialize (Hs 7%nat 3%nat).
  assert (forall A (x : A) l, x ∈ l -> l = [] -> False) as Hnil.
  { intros A x l Hx ->. by apply elem_of_nil in Hx. }
  apply (Hnil _ (VStr "A") []); [|reflexivity].
  apply Hs.
  - apply (bool_decide_unpack _). vm_compute. exact I.
  - apply (bool_decide_unpack _). vm_compute. exact I.
  - apply (bool_decide_unpack _). vm_compute. exact I.
Qed.

End Rows.

(** * Further properties *)
(** ** Who is listed as sibling and as half-sibling *)

Section Relatives.
Import Ped.

Lemma full_sibs_spec (x y : Individual) :
  full_sibs x y = true <-> share_both_parents x y.
Proof.
  unfold full_sibs, share_both_parents.
  rewrite !andb_true_iff, !bool_decide_eq_true. tauto.
Qed.

Lemma half_sibs_spec (x y : Individual) :
  half_sibs x y = true <-> share_a_parent x y.
Proof.
  unfold half_sibs, share_a_parent.
  rewrite orb_true_iff, !andb_true_iff, !bool_decide_eq_true. tauto.
Qed.

Lemma full_sibs_false (x y : Individual) :
  full_sibs x y = false <-> ¬ share_both_parents x y.
Proof.
  rewrite <- full_sibs_spec. destruct (full_sibs x y); split; congruence.
Qed.

Lemma share_both_parents_sym (x y : Individual) :
  share_both_parents x y <-> share_both_parents y x.
Proof.
  unfold share_both_parents. split; intros (? & ? & ? & ?);
    repeat split; congruence.
Qed.

Lemma share_a_parent_sym (x y : Individual) :
  share_a_parent x y <-> share_a_parent y x.
Proof.
  unfold share_a_parent. split; intros [[? ?]|[? ?]];
    (left; split; congruence) || (right; split; congruence).
Qed.

Lemma share_both_parents_ext (x x' y y' : Individual) :
  same_links x x' -> same_links y y' ->
  share_both_parents x' y' <-> share_both_parents x y.
Proof.
  intros (_ & Hf & Hm & _) (_ & Hf' & Hm' & _).
  unfold share_both_parents. by rewrite Hf, Hm, Hf', Hm'.
Qed.

Lemma share_a_parent_ext (x x' y y' : Individual) :
  same_links x x' -> same_links y y' ->
  share_a_parent x' y' <-> share_a_parent x y.
Proof.
  intros (_ & Hf & Hm & _) (_ & Hf' & Hm' & _).
  unfold share_a_parent. by rewrite Hf, Hm, Hf', Hm'.
Qed.

(** One call of [add_individual] keeps the relationship lists exact. *)
Lemma step_related (h h' : heap) (fam fam' : Family) (n : loc) :
  family_shape h fam -> family_related h fam ->
  fresh_individual h fam n ->
  add_individual h fam n = inr (h', fam') ->
  family_related h' fam'.
Proof.
  intros Hshape Hrel Hfresh Hrun a b Ha Hb.
  pose proof (step_view _ _ _ _ _ Hshape Hrun)
    as (_ & _ & _ & Hlinks & _).
  pose proof (step_id _ _ _ _ _ Hshape Hrun) as Hid.
  pose proof (new_not_member _ _ _ Hfresh) as Hnew.
  apply (elem_of_members' _ _ _ _ _ Hshape Hrun) in Ha, Hb.
  rewrite (share_both_parents_ext _ _ _ _ (Hlinks a) (Hlinks b)).
  rewrite (share_a_parent_ext _ _ _ _ (Hlinks a) (Hlinks b)).
  rewrite Hid.
  destruct Ha as [Ha | ->], Hb as [Hb | ->].
  - (* two members of before *)
    destruct (Hrel a b Ha Hb) as [Hs Hh].
    pose proof (member_not_new _ _ _ _ _ Hshape Hrun b Hb) as Hne.
    rewrite (step_sibs_member _ _ _ _ _ Hshape Hfresh Hrun a _ Ha).
    rewrite (step_halfs_member _ _ _ _ _ Hshape Hfresh Hrun a _ Ha).
    rewrite Hs, Hh. unfold id_of in Hne. split; split; tauto.
  - (* a member of before and the new one *)
    assert (a ≠ n) as Han by (by intros ->).
    pose proof (new_not_listed _ _ _ _ _ Hshape Hrun a Ha)
      as [Hns Hnh].
    rewrite (step_sibs_member _ _ _ _ _ Hshape Hfresh Hrun a _ Ha).
    rewrite (step_halfs_member _ _ _ _ _ Hshape Hfresh Hrun a _ Ha).
    rewrite full_sibs_spec, full_sibs_false, half_sibs_spec.
    unfold id_of in *. split; split; tauto.
  - (* the new one and a member of before *)
    assert (n ≠ b) as Hnb by (by intros <-).
    rewrite (step_sibs_new _ _ _ _ _ Hshape Hfresh Hrun).
    rewrite (step_halfs_new _ _ _ _ _ Hshape Hfresh Hrun).
    rewrite (share_both_parents_sym (get_indiv h n)).
    rewrite (share_a_parent_sym (get_indiv h n)).
    split; split.
    + intros (i & Hi & Hfull & Heq).
      apply (member_id_inj _ _ Hshape) in Heq; [|done..]. subst i.
      split; [done|]. by apply full_sibs_spec.
    + intros [_ Hboth]. exists b. split; [done|].
      split; [by apply full_sibs_spec | done].
    + intros (i & Hi & Hfull & Hhalf & Heq).
      apply (member_id_inj _ _ Hshape) in Heq; [|done..]. subst i.
      split; [done|]. split; [by apply full_sibs_false|].
      by apply half_sibs_spec.
    + intros (_ & Hnot & Hone). exists b. split; [done|].
      split; [by apply full_sibs_false|].
      split; [by apply half_sibs_spec | done].
  - (* the new one twice *)
    rewrite (step_sibs_new _ _ _ _ _ Hshape Hfresh Hrun).
    rewrite (step_halfs_new _ _ _ _ _ Hshape Hfresh Hrun).
    split; split; try tauto.
    + intros (i & Hi & _ & Heq). symmetry in Heq.
      by destruct (member_not_new _ _ _ _ _ Hshape Hrun i Hi).
    + intros (i & Hi & _ & _ & Heq). symmetry in Heq.
      by destruct (member_not_new _ _ _ _ _ Hshape Hrun i Hi).
Qed.

End Relatives.
Section RowSteps.
Import Ped.

(** What a family reads of its members is the same in a store that
    extends the one it was built in. *)
Lemma members_frame (h h1 : heap) (fam : Family) :
  family_shape h fam -> extends h h1 ->
  forall l, l ∈ members fam ->
    get_indiv h1 l = get_indiv h l ∧ sibs h1 l = sibs h l
    ∧ halfs h1 l = halfs h l ∧ id_of h1 l = id_of h l.
Proof.
  intros Hshape (Hsub & Hind & Hlist) l Hl.
  assert (get_indiv h1 l = get_indiv h l) as Hmem.
  { apply elem_of_members in Hl as (k & Hk).
    apply Hind. by destruct (shape_members _ _ Hshape k l Hk). }
  assert (forall t, t ∈ dom (lists h) -> get_list h1 t = get_list h t)
    as Hget.
  { intros t Ht. unfold get_list. apply elem_of_dom in Ht as Hsome.
    destruct Hsome as [items Hitems].
    rewrite (lookup_total_correct _ _ _ Hitems).
    apply lookup_total_correct. by rewrite (Hlist t Ht). }
  unfold sibs, halfs, id_of. rewrite Hmem. repeat split.
  - apply Hget, (shape_allocated _ _ Hshape), elem_of_relation_locs.
    exists l; auto.
  - apply Hget, (shape_allocated _ _ Hshape), elem_of_relation_locs.
    exists l; auto.
Qed.

Lemma related_frame (h h1 : heap) (fam : Family) :
  family_shape h fam -> extends h h1 ->
  family_related h fam -> family_related h1 fam.
Proof.
  intros Hshape Hext Hrel a b Ha Hb.
  destruct (members_frame h h1 fam Hshape Hext a Ha) as (-> & -> & -> & _).
  destruct (members_frame h h1 fam Hshape Hext b Hb) as (-> & _ & _ & ->).
  by apply Hrel.
Qed.

(** The three ways a row can go: the constructor raises and nothing
    changes; the individual is made and [add_individual] raises; the
    individual is made and added. *)
Lemma add_row_cases (h : heap) (fam : Family) (r : row) :
  family_shape h fam -> family_consistent h fam ->
  add_row (h, fam) r = (h, fam)
  ∨ exists h1 n,
      Individual6 h (r_fid r) (r_iid r) (r_father r) (r_mother r)
        (r_sex r) (r_phenotype r) = inr (h1, n)
      ∧ extends h h1 ∧ made_from h h1 r n
      ∧ family_shape h1 fam ∧ family_consistent h1 fam
      ∧ fresh_individual h1 fam n
      ∧ ((exists e, add_individual h1 fam n = inl e)
         ∧ add_row (h, fam) r = (h1, fam)
         ∨ add_individual h1 fam n = inr (add_row (h, fam) r)).
Proof.
  intros Hshape Hcons. unfold add_row, Individual6.
  destruct (py_int (r_phenotype r)) as [e|p] eqn:Hp.
  { left. unfold Individual__init__. rewrite Hp. simpl. done. }
  right.
  destruct (shape_defaults _ _ Hshape) as [(Hd1 & Hd2 & Hd3) Hdnot].
  assert (forall d, lists h !! d = Some [] ->
            valid h (VList d) ∧ wrapped h (VList d) = []) as Hdef.
  { intros d Hl. split; [apply elem_of_dom; by eexists|].
    unfold wrapped, truthy, get_list.
    by rewrite (lookup_total_correct _ _ _ Hl). }
  destruct (Hdef _ Hd1) as [Hv1 Hw1]. destruct (Hdef _ Hd2) as [Hv2 Hw2].
  destruct (Hdef _ Hd3) as [Hv3 Hw3].
  destruct (Individual__init__store h (r_fid r) (r_iid r) (r_father r)
              (r_mother r) (r_sex r) (r_phenotype r)
              (VList default_siblings) (VList default_half_siblings)
              (VList default_children) p Hp Hv1 Hv2 Hv3)
    as (n & s & hs & ch & -> & Hn & Hs & Hhs & Hch & Hne1 & Hne2 & Hne3).
  rewrite Hw1, Hw2, Hw3.
  set (h1 := {| lists := _; indivs := _ |}).
  exists h1, n. split; [reflexivity|].
  assert (forall t, t ∈ dom (lists h) -> t ≠ s ∧ t ≠ hs ∧ t ≠ ch) as Hold.
  { intros t Ht.
    assert (t ∈ allocated_locs h)
      by (unfold allocated_locs; apply elem_of_union; by left).
    repeat split; by intros ->. }
  assert (n ∉ dom (indivs h)) as Hn'.
  { intros Hin. apply Hn. unfold allocated_locs. apply elem_of_union.
    by right. }
  assert (extends h h1) as Hext.
  { split; [|split].
    - unfold h1. simpl. rewrite dom_insert_L. intros l Hl.
      apply elem_of_union. by right.
    - intros l Hl. unfold get_indiv, h1. simpl.
      rewrite lookup_total_insert_ne; [done|]. by intros ->.
    - intros t Ht. destruct (Hold t Ht) as (? & ? & ?). unfold h1. simpl.
      by rewrite !lookup_insert_ne. }
  assert (family_shape h1 fam ∧ family_consistent h1 fam) as [Hshape1 Hcons1].
  { destruct Hext as (? & ? & ?). by apply (family_frame h). }
  assert (get_indiv h1 n
          = {| fid := r_fid r; iid := r_iid r; father := r_father r;
               mother := r_mother r;
               sex := match py_int (r_sex r) with
                      | inr z => z
                      | inl _ => 0
                      end;
               phenotype := p; siblings := s; half_siblings := hs;
               children := ch |}) as Hy.
  { unfold get_indiv, h1. simpl. apply lookup_total_insert_eq. }
  assert (lists h1 !! s = Some [] ∧ lists h1 !! hs = Some []
          ∧ lists h1 !! ch = Some []) as (Hls & Hlhs & Hlch).
  { unfold h1. simpl. repeat split.
    - rewrite !lookup_insert_ne by done. apply lookup_insert_eq.
    - rewrite lookup_insert_ne by done. apply lookup_insert_eq.
    - apply lookup_insert_eq. }
  split; [done|]. split.
  { unfold made_from. rewrite Hy. simpl.
    do 7 (split; [done|]). split.
    - apply NoDup_cons. split; [|apply NoDup_cons; split;
                                    [|apply NoDup_singleton]].
      + intros Hin. apply elem_of_cons in Hin as [? | Hin]; [congruence|].
        apply list_elem_of_singleton in Hin. congruence.
      + intros Hin. apply list_elem_of_singleton in Hin. congruence.
    - intros t Ht.
      apply elem_of_cons in Ht as [-> | Ht]; [done|].
      apply elem_of_cons in Ht as [-> | Ht]; [done|].
      by apply list_elem_of_singleton in Ht as ->. }
  split; [done|]. split; [done|].
  assert (fresh_individual h1 fam n) as Hfresh.
  { unfold fresh_individual. rewrite Hy. simpl.
    split; [unfold h1; simpl; rewrite dom_insert_L; apply elem_of_union;
            left; by apply elem_of_singleton|].
    split.
    { intros Hin. apply elem_of_members in Hin as (k & Hk).
      by destruct (shape_members _ _ Hshape k n Hk). }
    split; [done|].
    intros t Ht.
    assert (t ∉ dom (lists h)) as Hnew.
    { intros Hin. destruct (Hold t Hin) as (? & ? & ?).
      by destruct Ht. }
    assert (lists h1 !! t = Some []) as Hlook by (by destruct Ht as [-> | ->]).
    split; [apply elem_of_dom; by eexists|].
    split; [unfold get_list; by apply lookup_total_correct|].
    split.
    { intros Hin.
      assert (relation_locs h1 (members fam) = relation_locs h (members fam))
        as Heq.
      { apply relation_locs_ext. intros l Hl.
        apply elem_of_members in Hl as (k & Hk).
        destruct (shape_members _ _ Hshape k l Hk) as [Hl _].
        unfold get_indiv, h1. simpl.
        rewrite lookup_total_insert_ne; [by repeat split|]. by intros ->. }
      rewrite Heq in Hin. by apply Hnew, (shape_allocated _ _ Hshape). }
    split.
    { intros Hin. apply Hnew. unfold default_locs in Hin.
      apply elem_of_dom.
      apply elem_of_cons in Hin as [-> | Hin]; [by eexists|].
      apply elem_of_cons in Hin as [-> | Hin]; [by eexists|].
      apply list_elem_of_singleton in Hin as ->. by eexists. }
    intros k Hk. apply Hnew.
    by destruct (shape_parents _ _ Hshape k t Hk) as (? & _). }
  split; [done|].
  destruct (add_individual h1 fam n) as [e|[h' fam']] eqn:Hadd; simpl.
  - left. split; [by exists e | done].
  - by right.
Qed.

(** A property of a family in a store holds after any rows when it
    survives one row: [h0] is the store before the row, [h] the store in
    which the constructor has made the individual [n], and [h'] the store
    in which [add_individual] returns. *)
Lemma add_rows_invariant (P : heap -> Family -> Prop) :
  (forall h h1 fam,
     family_shape h fam -> extends h h1 -> P h fam -> P h1 fam) ->
  (forall h0 h h' fam fam' r n,
     family_shape h0 fam -> P h0 fam -> extends h0 h -> made_from h0 h r n ->
     family_shape h fam -> P h fam -> fresh_individual h fam n ->
     add_individual h fam n = inr (h', fam') -> P h' fam') ->
  forall (rows : list row) (h : heap) (fam : Family),
  family_shape h fam -> family_consistent h fam -> P h fam ->
  family_shape (add_rows (h, fam) rows).1 (add_rows (h, fam) rows).2
  ∧ family_consistent (add_rows (h, fam) rows).1 (add_rows (h, fam) rows).2
  ∧ P (add_rows (h, fam) rows).1 (add_rows (h, fam) rows).2.
Proof.
  intros Hframe Hstep.
  induction rows as [|r rows IH]; intros h fam Hshape Hcons HP; [done|].
  unfold add_rows. cbn [foldl]. fold (add_rows (add_row (h, fam) r) rows).
  destruct (add_row_cases h fam r Hshape Hcons)
    as [-> | (h1 & n & _ & Hext & Hmade & Hshape1 & Hcons1 & Hfresh & Hadd)].
  { by apply IH. }
  pose proof (Hframe h h1 fam Hshape Hext HP) as HP1.
  destruct Hadd as [[_ ->] | Hadd]; [by apply IH|].
  destruct (add_row (h, fam) r) as [h' fam'].
  apply IH.
  - by eapply step_shape.
  - by eapply step_consistent.
  - by eapply (Hstep h h1 h' fam fam' r n).
Qed.

End RowSteps.

(** X1.  In a family that starts without members and is filled from
    pedigree rows, the relationship lists say exactly who shares parents
    with whom: the identifier of a member [b] is in the sibling list of a
    member [a] when and only when [a] and [b] are different members with
    the same known mother and the same known father; it is in the
    half-sibling list of [a] when and only when they are different members
    that share a known parent but not both.  A parent given as ['0'] is
    unknown and relates nobody. *)
Theorem relatives_share_parents (h : Ped.heap) (fid_ : Ped.scalar)
    (rows : list row) :
  defaults_empty h ->
  family_related (add_rows (h, new_family fid_) rows).1
    (add_rows (h, new_family fid_) rows).2.
Proof.
  intros Hd. destruct (new_family_shape h fid_ Hd) as [Hshape Hcons].
  apply (add_rows_invariant family_related); try done.
  - intros h0 h1 fam ? ? ?. by eapply related_frame.
  - intros h0 h1 h' fam fam' r n _ _ _ _ ? ? ? ?. by eapply step_related.
  - intros a b Ha. by apply elem_of_nil in Ha.
Qed.

(** Two full siblings and a half-sibling of theirs: the list of the first
    names the second, and the half-sibling list of the third names both. *)
Lemma relatives_share_parents_witness :
  let st := add_rows (Ped.module_heap, new_family (Ped.SStr "F1"))
              PedSamples.three_rows in
  family_related st.1 st.2
  ∧ sibs st.1 3%nat = [Ped.VStr "D"]
  ∧ halfs st.1 13%nat = [Ped.VStr "C"; Ped.VStr "D"].
Proof.
  split; [|split; vm_compute; reflexivity].
  apply relatives_share_parents. repeat split; reflexivity.
Defined.
(** ** The queries of a pedigree *)

Section Queries.
Import Ped PedQueries.

Lemma indivs_append_if (h : heap) l arg :
  indivs (append_if h l arg) = indivs h.
Proof. unfold append_if. by destruct (truthy h arg). Qed.

(** What the constructor does to the [Individual] objects of the store. *)
Lemma Individual6_indivs (h h1 : heap) (r : row) (n : loc) :
  Individual6 h (r_fid r) (r_iid r) (r_father r) (r_mother r) (r_sex r)
    (r_phenotype r) = inr (h1, n) ->
  n = new_loc h
  ∧ dom (indivs h1) = {[n]} ∪ dom (indivs h)
  ∧ (forall l, l ≠ n -> get_indiv h1 l = get_indiv h l)
  ∧ fid (get_indiv h1 n) = r_fid r
  ∧ carries (get_indiv h1 n) r.
Proof.
  unfold Individual6, Individual__init__.
  destruct (py_int (r_phenotype r)) as [e|p] eqn:Hp; [discriminate|].
  simpl. intros [= <- <-].
  unfold get_indiv, set_indiv. simpl. rewrite !indivs_append_if. simpl.
  split; [done|]. split.
  { rewrite !dom_insert_L. apply set_eq. intros k.
    rewrite !elem_of_union. tauto. }
  split.
  { intros l Hl. by rewrite !lookup_total_insert_ne. }
  rewrite lookup_total_insert_eq. simpl. by repeat split.
Qed.

Lemma same_codes_refl (x : Individual) : same_codes x x.
Proof. by repeat split. Qed.

Lemma same_codes_trans (x y z : Individual) :
  same_codes x y -> same_codes y z -> same_codes x z.
Proof.
  intros (? & ? & ? & ? & ?) (? & ? & ? & ? & ?).
  repeat split; congruence.
Qed.

Lemma keeps_people_refl (h : heap) : keeps_people h h.
Proof. split; [done|]. intros l. split; [apply same_codes_refl | done]. Qed.

Lemma keeps_people_trans (h1 h2 h3 : heap) :
  keeps_people h1 h2 -> keeps_people h2 h3 -> keeps_people h1 h3.
Proof.
  intros [Hd1 H1] [Hd2 H2]. split; [by etrans|]. intros l.
  destruct (H1 l) as [Hc1 Hf1]. destruct (H2 l) as [Hc2 Hf2].
  split; [by eapply same_codes_trans | congruence].
Qed.

Lemma keeps_people_indivs (h h' : heap) :
  indivs h' = indivs h -> keeps_people h h'.
Proof.
  intros Heq. split; [by rewrite Heq|]. intros l.
  rewrite (get_indiv_indivs h h' l Heq).
  split; [apply same_codes_refl | done].
Qed.

Lemma keeps_people_set_children (h : heap) (l c : loc) :
  keeps_people h (set_children h l c).
Proof.
  split.
  { unfold set_children, set_indiv. simpl. rewrite dom_insert_L.
    intros k Hk. apply elem_of_union. by right. }
  intros t. unfold set_children, get_indiv, set_indiv. simpl.
  destruct (decide (t = l)) as [->|Hne].
  - rewrite lookup_total_insert_eq. by repeat split.
  - rewrite lookup_total_insert_ne by done.
    split; [apply same_codes_refl | done].
Qed.

Lemma link_parent_keeps (mem : dict loc) (n : loc) (st : heap * dict loc)
    (parent : scalar) :
  keeps_people st.1 (link_parent mem n st parent).1.
Proof.
  destruct st as [h parents]. unfold link_parent. simpl.
  destruct (bool_decide (parent ≠ unknown_parent));
    [|apply keeps_people_refl].
  destruct (dict_get parents parent) as [t|] eqn:Hget.
  - rewrite Hget.
    destruct (dict_get mem parent) as [p|]; simpl.
    + eapply keeps_people_trans; [|apply keeps_people_set_children].
      by apply keeps_people_indivs.
    + by apply keeps_people_indivs.
  - unfold alloc_list. cbn beta iota zeta.
    destruct (dict_get mem parent) as [p|];
      try match goal with
      | |- context [dict_get (dict_set ?d ?k ?v) ?k'] =>
          destruct (dict_get (dict_set d k v) k') as [t|]
      end;
      simpl; try (by apply keeps_people_indivs).
    eapply keeps_people_trans; [|apply keeps_people_set_children].
    by apply keeps_people_indivs.
Qed.

Lemma link_parents_keep (mem : dict loc) (n : loc) (ps : list scalar) :
  forall st : heap * dict loc,
  keeps_people st.1 (foldl (link_parent mem n) st ps).1.
Proof.
  induction ps as [|p ps IH]; intros st; simpl.
  - apply keeps_people_refl.
  - eapply keeps_people_trans; [apply link_parent_keeps | apply IH].
Qed.

(** [add_individual] changes no identifier, parent or code, removes no
    object, and files the individual under its identifier. *)
Lemma add_individual_codes (h h' : heap) (fam fam' : Family) (n : loc) :
  add_individual h fam n = inr (h', fam') ->
  (forall l, same_codes (get_indiv h l) (get_indiv h' l))
  ∧ dom (indivs h) ⊆ dom (indivs h')
  ∧ (forall l, l ≠ n -> fid (get_indiv h' l) = fid (get_indiv h l))
  ∧ fid (get_indiv h' n) = f_fid fam
  ∧ (iid (get_indiv h n) ∉ keys (f_individuals fam))
  ∧ f_fid fam' = f_fid fam
  ∧ f_founder fam' = f_founder fam
  ∧ f_individuals fam' = f_individuals fam ++ [(iid (get_indiv h n), n)].
Proof.
  unfold add_individual.
  destruct (dict_mem _ _) eqn:Hmem; [discriminate|].
  set (h0 := set_fid h n (f_fid fam)).
  set (h1 := foldl (relate n) h0 _).
  pose proof (relate_loop_indivs n (dict_values (f_individuals fam)) h0)
    as Hrel. fold h1 in Hrel.
  pose proof (link_parents_keep (f_individuals fam) n
                [mother (get_indiv h1 n); father (get_indiv h1 n)]
                (h1, f_parents fam)) as Hlink.
  destruct (foldl _ (h1, f_parents fam) _) as [h2 parents] eqn:Hfold.
  simpl in Hlink.
  assert (keeps_people h0 h2) as [Hdom02 H02].
  { eapply keeps_people_trans; [|exact Hlink].
    by apply keeps_people_indivs. }
  assert (iid (get_indiv h1 n) = iid (get_indiv h n)) as Hiid.
  { rewrite (get_indiv_indivs h0 h1 n Hrel).
    exact (proj1 (set_fid_links h n n (f_fid fam))). }
  assert (iid (get_indiv h n) ∉ keys (f_individuals fam)) as Hnot.
  { intros Hin. apply dict_mem_spec in Hin. congruence. }
  assert (forall l, same_codes (get_indiv h l) (get_indiv h0 l)) as Hc0.
  { intros l. unfold h0, set_fid, get_indiv, set_indiv. simpl.
    destruct (decide (l = n)) as [->|Hne].
    - rewrite lookup_total_insert_eq. by repeat split.
    - rewrite lookup_total_insert_ne by done. apply same_codes_refl. }
  assert (dom (indivs h) ⊆ dom (indivs h0)) as Hdom0.
  { unfold h0, set_fid, set_indiv. simpl. rewrite dom_insert_L.
    intros k Hk. apply elem_of_union. by right. }
  assert (forall l, l ≠ n -> fid (get_indiv h0 l) = fid (get_indiv h l))
    as Hfid0.
  { intros l Hl. unfold h0. by rewrite get_indiv_set_fid_ne. }
  assert (fid (get_indiv h0 n) = f_fid fam) as Hfidn.
  { unfold h0. pose proof (get_indiv_set_fid h n (f_fid fam)) as Hg.
    cbv zeta in Hg. by rewrite Hg. }
  assert (forall h3, keeps_people h2 h3 ->
            (forall l, same_codes (get_indiv h l) (get_indiv h3 l))
            ∧ dom (indivs h) ⊆ dom (indivs h3)
            ∧ (forall l, l ≠ n -> fid (get_indiv h3 l) = fid (get_indiv h l))
            ∧ fid (get_indiv h3 n) = f_fid fam) as Hall.
  { intros h3 [Hdom23 H23]. split; [|split; [|split]].
    - intros l. eapply same_codes_trans; [apply Hc0|].
      eapply same_codes_trans; [apply H02 | apply H23].
    - etrans; [exact Hdom0|]. by etrans.
    - intros l Hl. destruct (H23 l) as [_ ->]. destruct (H02 l) as [_ ->].
      by apply Hfid0.
    - destruct (H23 n) as [_ ->]. by destruct (H02 n) as [_ ->]. }
  destruct (dict_get parents (iid (get_indiv h1 n))) as [t|];
    intros [= <- <-]; simpl; rewrite ?Hiid.
  - destruct (Hall _ (keeps_people_set_children h2 n t))
      as (? & ? & ? & ?).
    do 4 (split; [assumption|]). split; [exact Hnot|].
    do 2 (split; [reflexivity|]). by apply dict_set_fresh.
  - destruct (Hall _ (keeps_people_refl h2)) as (? & ? & ? & ?).
    do 4 (split; [assumption|]). split; [exact Hnot|].
    do 2 (split; [reflexivity|]). by apply dict_set_fresh.
Qed.

(** A line that [_parse_ped] gets past is skipped, or makes an individual
    that is filed in the index and added to its family. *)
Lemma parse_line_cases (h h' : heap) (self self' : PedFile) line :
  parse_line h self line = inr (h', self') ->
  match line_row line with
  | None => h' = h ∧ self' = self
  | Some r =>
      exists h1 n fam',
        Individual6 h (r_fid r) (r_iid r) (r_father r) (r_mother r)
          (r_sex r) (r_phenotype r) = inr (h1, n)
        ∧ (r_iid r ∉ keys (individuals self))
        ∧ add_individual h1 (family_for self r) n = inr (h', fam')
        ∧ self' = {| filename := filename self;
                     families := dict_set (families self) (r_fid r) fam';
                     individuals := individuals self ++ [(r_iid r, n)] |}
  end.
Proof.
  intros Hrun. unfold line_row.
  destruct (data_columns line) as [cols|] eqn:Hcols.
  - rewrite (parse_line_data h self line cols Hcols) in Hrun.
    destruct cols as [|c0 [|c1 [|c2 [|c3 [|c4 [|c5 cols]]]]]];
      try discriminate.
    set (r := {| r_fid := SStr c0; r_iid := SStr c1; r_father := SStr c2;
                 r_mother := SStr c3; r_sex := SStr c4;
                 r_phenotype := SStr c5 |}).
    change (Individual6 h (SStr c0) (SStr c1) (SStr c2) (SStr c3)
              (SStr c4) (SStr c5))
      with (Individual6 h (r_fid r) (r_iid r) (r_father r) (r_mother r)
              (r_sex r) (r_phenotype r)) in Hrun.
    destruct (Individual6 h _ _ _ _ _ _) as [e|[h1 n]] eqn:Hnew;
      [discriminate|].
    simpl in Hrun.
    destruct (Individual6_indivs h h1 r n Hnew)
      as (_ & _ & _ & Hfid & (Hiid & _)).
    rewrite Hiid, Hfid in Hrun.
    destruct (dict_mem _ _) eqn:Hmem; [discriminate|].
    assert (r_iid r ∉ keys (individuals self)) as Hnot.
    { intros Hin. apply dict_mem_spec in Hin. congruence. }
    exists h1, n.
    assert (match dict_get (families self) (r_fid r) with
            | Some fam => add_individual h1 fam n
            | None => Family__init__ h1 (r_fid r) [n]
            end
            = add_individual h1 (family_for self r) n) as Hsame.
    { unfold family_for. destruct (dict_get _ _); [done|].
      unfold Family__init__, add_individuals, new_family.
      by destruct (add_individual _ _ _) as [?|[? ?]]. }
    rewrite Hsame in Hrun.
    destruct (add_individual h1 _ n) as [e|[h2 fam']]; [discriminate|].
    simpl in Hrun. injection Hrun as <- <-.
    exists fam'. split; [done|]. split; [done|]. split; [done|].
    by rewrite (dict_set_fresh (individuals self)).
  - rewrite (parse_line_skipped h self line Hcols) in Hrun.
    by injection Hrun as <- <-.
Qed.

Lemma indexed_parse_line (h h' : heap) (self self' : PedFile) line rows :
  parse_line h self line = inr (h', self') ->
  indexed h self rows ->
  indexed h' self' (rows ++ option_list (line_row line)).
Proof.
  intros Hrun [Hnd Hall].
  apply parse_line_cases in Hrun.
  destruct (line_row line) as [r|]; simpl.
  2: { destruct Hrun as [-> ->]. rewrite app_nil_r. by split. }
  destruct Hrun as (h1 & n & fam' & Hnew & Hnot & Hadd & ->). simpl.
  destruct (Individual6_indivs h h1 r n Hnew)
    as (Hn & Hdom & Hold & _ & Hcarry).
  destruct (add_individual_codes h1 h' _ fam' n Hadd)
    as (Hcodes & Hsub & _).
  assert (forall x x' r0, same_codes x x' -> carries x r0 -> carries x' r0)
    as Hmove.
  { intros x x' r0 (? & ? & ? & ? & ?) (? & ? & ? & ? & ?).
    repeat split; congruence. }
  split.
  - unfold keys. simpl. rewrite map_app. simpl. apply NoDup_app.
    split; [done|]. split; [|apply NoDup_singleton].
    intros k Hk Hin. apply list_elem_of_singleton in Hin as ->. done.
  - apply Forall2_app.
    + eapply Forall2_impl; [exact Hall|].
      intros [k l] r0 (Hk & Hl & Hc). simpl in *.
      assert (l ≠ n) as Hne.
      { intros ->. apply (new_loc_fresh h). unfold allocated_locs.
        rewrite <- Hn. apply elem_of_union. by right. }
      split; [done|]. split.
      * apply Hsub. rewrite Hdom. apply elem_of_union. by right.
      * apply (Hmove _ _ _ (Hcodes l)). by rewrite Hold.
    + constructor; [|constructor].
      simpl. split; [done|]. split.
      * apply Hsub. rewrite Hdom. apply elem_of_union. left.
        by apply elem_of_singleton.
      * by apply (Hmove _ _ _ (Hcodes n)).
Qed.

Lemma indexed_parse_ped (fh : list string) :
  forall (h h' : heap) (self self' : PedFile) rows,
  _parse_ped h self fh = inr (h', self') ->
  indexed h self rows ->
  indexed h' self' (rows ++ line_rows fh).
Proof.
  induction fh as [|line fh IH]; intros h h' self self' rows Hrun Hidx.
  - simpl in Hrun. injection Hrun as <- <-. by rewrite app_nil_r.
  - simpl in Hrun.
    destruct (parse_line h self line) as [e|[h1 self1]] eqn:Hline;
      [discriminate|].
    simpl in Hrun.
    pose proof (indexed_parse_line _ _ _ _ _ _ Hline Hidx) as Hidx1.
    pose proof (IH _ _ _ _ _ Hrun Hidx1) as Hidx2.
    unfold line_rows in *. simpl.
    destruct (line_row line); simpl in *; by rewrite <- app_assoc in Hidx2.
Qed.

(** With distinct keys, the generator tests each listed object once. *)
Lemma yielded_spec (test : Individual -> bool) (h : heap) (d : dict loc) :
  NoDup (keys d) ->
  yielded test h d
  = map fst (List.filter (fun kv => test (get_indiv h kv.2)) d).
Proof.
  unfold yielded, keys.
  assert (forall d0 : dict loc,
            (forall k l, (k, l) ∈ d0 -> dict_get d k = Some l) ->
            List.filter
              (fun i => match dict_get d i with
                        | Some l => test (get_indiv h l)
                        | None => false
                        end) (map fst d0)
            = map fst (List.filter (fun kv => test (get_indiv h kv.2)) d0))
    as Hgen.
  { induction d0 as [|[k l] d0 IH]; intros Hget; [done|]. simpl.
    rewrite (Hget k l) by apply list_elem_of_here.
    rewrite IH by (intros k' l' Hin; apply Hget; by apply list_elem_of_further).
    by destruct (test _). }
  intros Hnd. apply Hgen. clear Hgen.
  induction d as [|[k l] d IH]; intros k' l' Hin.
  - by apply elem_of_nil in Hin.
  - simpl in Hnd. apply NoDup_cons in Hnd as [Hk Hnd]. simpl.
    apply elem_of_cons in Hin as [[= -> ->] | Hin].
    + by rewrite bool_decide_eq_true_2.
    + rewrite bool_decide_eq_false_2; [by apply IH|].
      intros ->. apply Hk. apply list_elem_of_fmap. by exists (k', l').
Qed.

Lemma yielded_indexed (test : Individual -> bool) (rtest : row -> bool)
    (h : heap) (self : PedFile) (rows : list row) :
  (forall x r, carries x r -> test x = rtest r) ->
  indexed h self rows ->
  yielded test h (individuals self) = map r_iid (List.filter rtest rows).
Proof.
  intros Htest [Hnd Hall]. rewrite yielded_spec by done.
  induction Hall as [|[k l] r d rows (Hk & _ & Hc) Hall IH]; [done|].
  simpl in *. apply NoDup_cons in Hnd as [_ Hnd].
  rewrite (Htest _ _ Hc). destruct (rtest r); simpl; rewrite IH by done;
    congruence.
Qed.

End Queries.

(** X2.  The four queries of a pedigree that was parsed from a file yield
    the identifiers of the lines of the file, in the order of the lines:
    [get_affected] those whose phenotype column denotes 2,
    [get_unaffected] those whose phenotype column denotes 1, [get_males]
    those whose sex column denotes 1 and [get_females] those whose sex
    column denotes 2.  Comments and blank lines count for nothing, and no
    later line changes what an earlier line gave. *)
Theorem queries_of_a_parsed_file (h h' : Ped.heap) (fname : string)
    (fh : list string) (ped : Ped.PedFile) :
  Ped.PedFile__init__ h fname fh = inr (h', ped) ->
  PedQueries.get_affected h' ped
  = map r_iid (List.filter row_affected (line_rows fh))
  ∧ PedQueries.get_unaffected h' ped
    = map r_iid (List.filter row_unaffected (line_rows fh))
  ∧ PedQueries.get_males h' ped
    = map r_iid (List.filter row_male (line_rows fh))
  ∧ PedQueries.get_females h' ped
    = map r_iid (List.filter row_female (line_rows fh)).
Proof.
  intros Hrun. unfold Ped.PedFile__init__ in Hrun.
  assert (indexed h' ped ([] ++ line_rows fh)) as Hidx.
  { eapply indexed_parse_ped; [exact Hrun|].
    split; [apply NoDup_nil_2 | constructor]. }
  simpl in Hidx.
  unfold PedQueries.get_affected, PedQueries.get_unaffected,
    PedQueries.get_males, PedQueries.get_females.
  repeat split; apply yielded_indexed; try done.
  - intros x r (_ & _ & _ & Hp & _).
    unfold Ped.is_affected, row_affected, denotes. by rewrite Hp.
  - intros x r (_ & _ & _ & Hp & _).
    unfold Ped.is_unaffected, row_unaffected, denotes. by rewrite Hp.
  - intros x r (_ & _ & _ & _ & Hs).
    unfold Ped.is_male, row_male, denotes. rewrite Hs.
    destruct (Ped.py_int (r_sex r)); [|done].
    by rewrite bool_decide_eq_false_2.
  - intros x r (_ & _ & _ & _ & Hs).
    unfold Ped.is_female, row_female, denotes. rewrite Hs.
    destruct (Ped.py_int (r_sex r)); [|done].
    by rewrite bool_decide_eq_false_2.
Qed.

(** A file with a comment, two affected children and their unaffected
    half-sister. *)
Lemma queries_of_a_parsed_file_witness :
  exists h' ped,
    Ped.PedFile__init__ Ped.module_heap "f.ped"
      ["# family 1"; "F1 C F M 1 2"; "F1 D F M 2 2"; ""; "F1 E F X 2 1"]
    = inr (h', ped)
    ∧ PedQueries.get_affected h' ped = [Ped.SStr "C"; Ped.SStr "D"]
    ∧ PedQueries.get_females h' ped = [Ped.SStr "D"; Ped.SStr "E"].
Proof.
  destruct (Ped.PedFile__init__ Ped.module_heap "f.ped"
              ["# family 1"; "F1 C F M 1 2"; "F1 D F M 2 2"; "";
               "F1 E F X 2 1"]) as [e|[h' ped]] eqn:Hrun;
    [vm_compute in Hrun; discriminate|].
  exists h', ped. split; [reflexivity|].
  destruct (queries_of_a_parsed_file _ _ _ _ _ Hrun)
    as (Ha & _ & _ & Hf).
  split; [rewrite Ha | rewrite Hf]; vm_compute; reflexivity.
Defined.


(** ** Membership in a family and its founder *)

(** X3.  [individual in family] and [identifier in family] after a call of
    [add_individual] that returns: before the call the individual was not
    in the family; after it the individual is, and so is its identifier
    when that is a string; whatever was in the family before still is.
    An identifier that is an integer is never found by [in], although
    [add_individual] files the individual under it. *)
Theorem contains_after_add (h h' : Ped.heap) (fam fam' : Ped.Family)
    (n : Ped.loc) :
  Ped.add_individual h fam n = inr (h', fam') ->
  PedQueries.Family__contains__ h fam (PedQueries.KeyIndividual n) = false
  ∧ PedQueries.Family__contains__ h' fam' (PedQueries.KeyIndividual n)
    = true
  ∧ (forall s, Ped.iid (Ped.get_indiv h n) = Ped.SStr s ->
       PedQueries.Family__contains__ h' fam'
         (PedQueries.KeyValue (Ped.VStr s)) = true)
  ∧ (forall key, PedQueries.Family__contains__ h fam key = true ->
       PedQueries.Family__contains__ h' fam' key = true)
  ∧ (forall z, Ped.iid (Ped.get_indiv h n) = Ped.SInt z ->
       Ped.SInt z ∈ keys (Ped.f_individuals fam')
       ∧ PedQueries.Family__contains__ h' fam'
           (PedQueries.KeyValue (Ped.VInt z)) = false).
Proof.
  intros Hadd.
  destruct (add_individual_codes h h' fam fam' n Hadd)
    as (Hcodes & _ & _ & _ & Hnot & _ & _ & Hmem).
  assert (forall k, k ∈ keys (Ped.f_individuals fam') <->
                    k ∈ keys (Ped.f_individuals fam)
                    ∨ k = Ped.iid (Ped.get_indiv h n)) as Hkeys.
  { intros k. rewrite Hmem. unfold keys. rewrite map_app, elem_of_app.
    simpl. by rewrite list_elem_of_singleton. }
  assert (forall l, Ped.iid (Ped.get_indiv h' l) = Ped.iid (Ped.get_indiv h l))
    as Hiid by (intros l; by destruct (Hcodes l) as [-> _]).
  unfold PedQueries.Family__contains__.
  split; [|split; [|split; [|split]]].
  - apply not_true_is_false. intros Hin. by apply dict_mem_spec in Hin.
  - apply dict_mem_spec, Hkeys. right. apply Hiid.
  - intros s Hs. apply dict_mem_spec, Hkeys. by right.
  - intros [[| s | z | l] | l]; try done.
    + intros Hin. apply dict_mem_spec in Hin. apply dict_mem_spec, Hkeys.
      by left.
    + rewrite Hiid. intros Hin. apply dict_mem_spec in Hin.
      apply dict_mem_spec, Hkeys. by left.
  - intros z Hz. split; [|done]. apply Hkeys. by right.
Qed.

(** The individual C is added to a family that holds D. *)
Lemma contains_after_add_witness :
  exists h h' fam fam' c,
    Ped.add_individual h fam c = inr (h', fam')
    ∧ PedQueries.Family__contains__ h' fam' (PedQueries.KeyIndividual c)
      = true
    ∧ PedQueries.Family__contains__ h' fam'
        (PedQueries.KeyValue (Ped.VStr "D")) = true.
Proof.
  destruct (Ped.Individual6 Ped.module_heap (Ped.SStr "F1") (Ped.SStr "D")
              (Ped.SStr "F") (Ped.SStr "M") (Ped.SStr "2") (Ped.SStr "1"))
    as [e|[h0 d]] eqn:Hd; [vm_compute in Hd; discriminate|].
  destruct (Ped.Family__init__ h0 (Ped.SStr "F1") [d]) as [e|[h1 fam]]
    eqn:Hfam.
  { injection Hd as <- <-. vm_compute in Hfam. discriminate. }
  destruct (Ped.Individual6 h1 (Ped.SStr "F1") (Ped.SStr "C")
              (Ped.SStr "F") (Ped.SStr "M") (Ped.SStr "1") (Ped.SStr "2"))
    as [e|[h c]] eqn:Hc.
  { injection Hd as <- <-. vm_compute in Hfam. injection Hfam as <- <-.
    vm_compute in Hc. discriminate. }
  destruct (Ped.add_individual h fam c) as [e|[h' fam']] eqn:Hadd.
  { injection Hd as <- <-. vm_compute in Hfam. injection Hfam as <- <-.
    vm_compute in Hc. injection Hc as <- <-. vm_compute in Hadd.
    discriminate. }
  exists h, h', fam, fam', c. split; [exact Hadd|].
  destruct (contains_after_add h h' fam fam' c Hadd)
    as (_ & Hin & _ & Hkeep & _).
  split; [exact Hin|]. apply Hkeep.
  injection Hd as <- <-. vm_compute in Hfam. injection Hfam as <- <-.
  vm_compute. reflexivity.
Defined.

(** X4.  The founder of a family is never set.  [set_founder] raises
    [AttributeError] for every family and every argument, a member
    included, because it reads the attribute [iids] that no class of the
    module defines; [Family(fid, individuals)] starts without a founder and
    [add_individual] leaves the founder as it is. *)
Theorem founder_is_never_set :
  (forall self founder,
     PedQueries.set_founder self founder = inl (AttributeError "iids"))
  ∧ (forall h fid_ individuals h' fam,
       Ped.Family__init__ h fid_ individuals = inr (h', fam) ->
       Ped.f_founder fam = None)
  ∧ (forall h fam n h' fam',
       Ped.add_individual h fam n = inr (h', fam') ->
       Ped.f_founder fam' = Ped.f_founder fam).
Proof.
  split; [done|]. split.
  - intros h fid_ individuals h' fam. unfold Ped.Family__init__.
    set (fam0 := {| Ped.f_fid := fid_; Ped.f_individuals := [];
                    Ped.f_parents := []; Ped.f_founder := None |}).
    change None with (Ped.f_founder fam0). generalize fam0. clear fam0.
    revert h. induction individuals as [|i individuals IH];
      intros h fam0 Hrun; simpl in Hrun.
    + by injection Hrun as <- <-.
    + destruct (Ped.add_individual h fam0 i) as [e|[h1 fam1]] eqn:Hadd;
        [discriminate|].
      simpl in Hrun. rewrite (IH h1 fam1 Hrun).
      by destruct (add_individual_codes _ _ _ _ _ Hadd)
        as (_ & _ & _ & _ & _ & _ & -> & _).
  - intros h fam n h' fam' Hadd.
    by destruct (add_individual_codes _ _ _ _ _ Hadd)
      as (_ & _ & _ & _ & _ & _ & -> & _).
Qed.

(** A family made without individuals has no founder, and naming a
    founder raises. *)
Lemma founder_is_never_set_witness :
  exists h fam,
    Ped.Family__init__ Ped.module_heap (Ped.SStr "F1") [] = inr (h, fam)
    ∧ Ped.f_founder fam = None
    ∧ PedQueries.set_founder fam (PedQueries.KeyValue (Ped.VStr "A"))
      = inl (AttributeError "iids").
Proof.
  destruct founder_is_never_set as (Hset & Hinit & _).
  assert (Hrun : Ped.Family__init__ Ped.module_heap (Ped.SStr "F1") []
                 = inr (Ped.module_heap, new_family (Ped.SStr "F1")))
    by reflexivity.
  exists Ped.module_heap, (new_family (Ped.SStr "F1")).
  split; [exact Hrun|]. split; [|apply Hset].
  exact (Hinit _ _ _ _ _ Hrun).
Defined.

(** ** Every record is counted once *)

Section Counting.
Context {collab : Vase.Collaborators}.
Import Vase.

Lemma filter_length_split {A} (p : A -> bool) (l : list A) :
  (length (List.filter p l) + length (List.filter (fun v => negb (p v)) l)
   = length l)%nat.
Proof.
  induction l as [|x l IH]; [done|]. simpl.
  destruct (p x); simpl; lia.
Qed.

Lemma same_settings_refl (self : VaseRunner) : same_settings self self.
Proof. by repeat split. Qed.

Lemma same_settings_trans (s1 s2 s3 : VaseRunner) :
  same_settings s1 s2 -> same_settings s2 s3 -> same_settings s1 s3.
Proof.
  intros (? & ? & ? & ? & ? & ? & ? & ?) (? & ? & ? & ? & ? & ? & ? & ?).
  repeat split; try congruence; tauto.
Qed.

Lemma counting_mode_settings (self self' : VaseRunner) :
  same_settings self self' -> counting_mode self -> counting_mode self'.
Proof.
  intros (_ & Hc & _ & _ & _ & Hdn & Hdom & _) [Hm | [H1 H2]].
  - left. congruence.
  - right. tauto.
Qed.

Lemma resolved_checker_None active resolve final
    (checker : option Checker) :
  resolved_checker active resolve final checker = None <-> checker = None.
Proof.
  unfold resolved_checker. destruct checker; [|done].
  destruct active; split; discriminate.
Qed.

(** A flush settles what it visits and nothing else. *)
Lemma output_cache_accounts (self self' : VaseRunner) (final : bool) :
  output_cache self final = inr self' ->
  same_settings self self'
  ∧ accounted self' = accounted self
  ∧ uncounted_lines self' = uncounted_lines self
  ∧ output_ready (variant_cache self') = []
  ∧ (final = true -> cache (variant_cache self') = []).
Proof.
  intros Hflush.
  destruct (burden_counter self) eqn:Hb.
  { rewrite output_cache_raises in Hflush by done. discriminate. }
  rewrite output_cache_returns in Hflush by done.
  injection Hflush as <-.
  unfold same_settings, accounted, uncounted_lines, held. simpl.
  rewrite !resolved_checker_None.
  split; [by repeat split|].
  set (ready := ready_at_flush self final).
  set (keep := pass_set self final).
  pose proof (filter_length_split (passes keep) ready) as Hlen.
  assert (length ready
          = if final
            then length (output_ready (variant_cache self)
                         ++ cache (variant_cache self))
            else length (output_ready (variant_cache self))) as Hready.
  { unfold ready, ready_at_flush, held. by destruct final. }
  rewrite !length_app, length_map.
  split; [|split; [lia|split; [done|]]].
  - destruct final; rewrite ?length_app in Hready; simpl; lia.
  - by intros ->.
Qed.

Lemma process_cached_accounts (self self' : VaseRunner) r dn dom rc :
  process_cached self r dn dom rc = inr self' ->
  same_settings self self'
  ∧ accounted self' = accounted self + 1
  ∧ uncounted_lines self' = uncounted_lines self.
Proof.
  unfold process_cached. intros Hrun.
  set (mid := if dn || dom || rc then _ else _) in Hrun.
  assert (same_settings self mid ∧ accounted mid = accounted self + 1
          ∧ uncounted_lines mid = uncounted_lines self) as (Hs & Ha & Hu).
  { subst mid. destruct (dn || dom || rc).
    - split; [by repeat split|].
      unfold accounted, uncounted_lines, cache_add. simpl.
      rewrite held_add_record, length_app. simpl. split; lia.
    - split; [by repeat split|].
      unfold accounted, uncounted_lines, cache_check. simpl.
      rewrite held_check_record. split; lia. }
  destruct (output_ready (variant_cache mid)).
  - by injection Hrun as <-.
  - apply output_cache_accounts in Hrun as (Hs' & Ha' & Hu' & _).
    split; [by eapply same_settings_trans|]. split; congruence.
Qed.

Lemma run_checker_None process (checker : option Checker) r alleles csq :
  (run_checker process checker r alleles csq).2 = None <-> checker = None.
Proof.
  unfold run_checker. destruct checker as [c|]; [|done].
  destruct (process c r alleles csq). split; discriminate.
Qed.

(** One record: the settings stay, a line is written exactly when
    [var_written] grows, and the record is settled or cached at most once
    - exactly once in a counting mode. *)
Lemma process_record_accounts (self self' : VaseRunner) r :
  process_record self r = inr self' ->
  same_settings self self'
  ∧ uncounted_lines self' = uncounted_lines self
  ∧ accounted self <= accounted self' <= accounted self + 1
  ∧ (counting_mode self -> accounted self' = accounted self + 1).
Proof.
  unfold process_record. intros Hrun.
  assert (forall s : VaseRunner,
            same_settings self s -> uncounted_lines s = uncounted_lines self ->
            accounted s = accounted self + 1 ->
            same_settings self s
            ∧ uncounted_lines s = uncounted_lines self
            ∧ accounted self <= accounted s <= accounted self + 1
            ∧ (counting_mode self -> accounted s = accounted self + 1))
    as Hone.
  { intros s ? ? ?. split; [done|]. split; [done|]. split; [lia | done]. }
  assert (same_settings self (count_filtered self)
          ∧ uncounted_lines (count_filtered self) = uncounted_lines self
          ∧ accounted (count_filtered self) = accounted self + 1)
    as (Hf1 & Hf2 & Hf3).
  { split; [by repeat split|]. unfold uncounted_lines, accounted. simpl.
    split; lia. }
  destruct (filter_global r); [injection Hrun as <-; by apply Hone|].
  destruct (filter_alleles_external r) as [filter_alleles filter_csq].
  destruct (all_filtered filter_alleles) eqn:Hall;
    [injection Hrun as <-; by apply Hone|].
  destruct (if sample_filter self then _ else _) as [e|[sampled|]];
    simpl in Hrun; [discriminate| |injection Hrun as <-; by apply Hone].
  destruct (if control_filter self then _ else _) as [e|dom_alleles];
    simpl in Hrun; [discriminate|].
  pose proof (run_checker_None dominant_process_record (dominant_filter self)
                r dom_alleles filter_csq) as Hdom.
  pose proof (run_checker_None de_novo_process_record (de_novo_filter self)
                r dom_alleles filter_csq) as Hdn.
  pose proof (run_checker_None recessive_process_record
                (recessive_filter self) r sampled filter_csq) as Hrc.
  destruct (run_checker dominant_process_record _ _ _ _) as [dom_hit dom].
  destruct (run_checker de_novo_process_record _ _ _ _) as [denovo_hit dn].
  destruct (run_checker recessive_process_record _ _ _ _)
    as [recessive_hit rc].
  simpl in Hdom, Hdn, Hrc.
  set (mid := set_checkers self dn dom rc) in Hrun.
  assert (same_settings self mid) as Hmid
    by (unfold same_settings, mid; simpl; intuition).
  assert (uncounted_lines mid = uncounted_lines self
          ∧ accounted mid = accounted self) as [Hum Ham] by done.
  simpl in Hrun. destruct (use_cache self) eqn:Hc.
  { apply process_cached_accounts in Hrun as (Hs & Ha & Hu).
    apply Hone; [by eapply same_settings_trans | congruence | congruence]. }
  destruct (bool_decide (is_Some dn) || bool_decide (is_Some dom)) eqn:Hinh.
  - assert (¬ counting_mode self) as Hnot.
    { intros [Hcache | [H1 H2]]; [congruence|].
      apply Hdn in H1. apply Hdom in H2. subst.
      apply orb_true_iff in Hinh as [Hi | Hi];
        apply bool_decide_eq_true in Hi; by destruct Hi. }
    destruct (denovo_hit || dom_hit); injection Hrun as <-.
    + split; [unfold same_settings, mid; simpl; intuition|].
      unfold uncounted_lines, accounted. simpl.
      rewrite length_app. simpl. repeat split; try lia.
    + split; [done|]. split; [done|]. split; [lia|]. by intros ?.
  - destruct (all_filtered sampled); injection Hrun as <-.
    + apply Hone; [unfold same_settings, mid; simpl; intuition| |];
        unfold uncounted_lines, accounted; simpl; lia.
    + apply Hone; [unfold same_settings, mid; simpl; intuition| |];
        unfold uncounted_lines, accounted; simpl;
        rewrite ?length_app; simpl; lia.
Qed.

Lemma process_records_account (rs : list VcfRecord) :
  forall self self' : VaseRunner,
  process_records self rs = inr self' ->
  same_settings self self'
  ∧ uncounted_lines self' = uncounted_lines self
  ∧ accounted self <= accounted self'
    <= accounted self + Z.of_nat (length rs)
  ∧ (counting_mode self ->
     accounted self' = accounted self + Z.of_nat (length rs)).
Proof.
  induction rs as [|r rs IH]; intros self self' Hrun; simpl in Hrun.
  - injection Hrun as <-. split; [apply same_settings_refl|].
    simpl. repeat split; lia.
  - destruct (process_record self r) as [e|mid] eqn:Hrec; [discriminate|].
    simpl in Hrun.
    apply process_record_accounts in Hrec as (Hs1 & Hu1 & Hle1 & Hc1).
    apply IH in Hrun as (Hs2 & Hu2 & Hle2 & Hc2).
    split; [by eapply same_settings_trans|].
    split; [congruence|].
    cbn [length]. rewrite Nat2Z.inj_succ. split; [lia|].
    intros Hmode. rewrite Hc2 by (by eapply counting_mode_settings).
    rewrite Hc1 by done. lia.
Qed.

End Counting.

(** X5.  A run of [VaseRunner] that returns counts every record once when
    the cache is in use, or when neither a dominant nor a de novo filter
    is held: [var_written + var_filtered] grows by the number of records
    read plus the number of variants the cache held before, and a runner
    that uses the cache holds none at the end.  In the remaining mode,
    without cache and with a dominant or de novo filter, a record without
    a hit is neither written nor counted as filtered, so the two counters
    can only fall short. *)
Theorem every_record_is_counted {collab : Vase.Collaborators}
    (self self' : Vase.VaseRunner) (rs : list VcfRecord) :
  Vase.run self rs = inr self' ->
  let settled (s : Vase.VaseRunner) :=
    Vase.var_written s + Vase.var_filtered s in
  let held_before :=
    Z.of_nat (length (Vase.held (Vase.variant_cache self))) in
  let held_after :=
    Z.of_nat (length (Vase.held (Vase.variant_cache self'))) in
  (counting_mode self ->
   settled self' + held_after
   = settled self + held_before + Z.of_nat (length rs))
  ∧ (Vase.use_cache self = true -> held_after = 0)
  ∧ settled self' + held_after
    <= settled self + held_before + Z.of_nat (length rs).
Proof.
  intros Hrun settled held_before held_after. unfold Vase.run in Hrun.
  destruct (Vase.process_records self rs) as [e|mid] eqn:Hrecs;
    [discriminate|].
  simpl in Hrun.
  apply process_records_account in Hrecs as (Hs & _ & Hle & Hmode).
  assert (accounted self' = accounted mid
          ∧ (Vase.use_cache self = true ->
             Vase.held (Vase.variant_cache self') = [])) as [Hfin Hzero].
  { unfold Vase.finish_up in Hrun.
    destruct Hs as (_ & Hcache & _). rewrite Hcache in Hrun.
    destruct (Vase.use_cache self).
    - apply output_cache_accounts in Hrun as (_ & Ha & _ & Hready & Hcache').
      split; [done|]. intros _. unfold Vase.held.
      by rewrite Hready, Hcache'.
    - injection Hrun as <-. split; [done | discriminate]. }
  subst settled held_before held_after. cbv beta.
  unfold accounted in *.
  split; [|split].
  - intros Hm. rewrite Hfin. by apply Hmode.
  - intros Hc. by rewrite (Hzero Hc).
  - rewrite Hfin. lia.
Qed.

(** Two records are read by the runner of
    [--singleton_recessive S1]. *)
Lemma every_record_is_counted_witness :
  exists self',
    Vase.run (H := Samples.toy) (Samples.fresh_runner false)
      [Samples.gene_a_1; Samples.gene_b_1] = inr self'
    ∧ Vase.var_written self' + Vase.var_filtered self' = 2.
Proof.
  assert (Samples.observe
            (Vase.run (H := Samples.toy) (Samples.fresh_runner false)
               [Samples.gene_a_1; Samples.gene_b_1])
          = inr (["1:100-A/G
"], [], [])) as Hobs by (vm_compute; reflexivity).
  destruct (Vase.run (H := Samples.toy) (Samples.fresh_runner false)
              [Samples.gene_a_1; Samples.gene_b_1]) as [e|self'] eqn:Hrun;
    [discriminate|].
  exists self'. split; [reflexivity|].
  destruct (every_record_is_counted (collab := Samples.toy) _ _ _ Hrun)
    as (Hcount & Hzero & _).
  cbv zeta in Hcount, Hzero.
  rewrite Hzero in Hcount by reflexivity.
  rewrite Z.add_0_r in Hcount. rewrite Hcount; [reflexivity|].
  by left.
Defined.

(** X6.  In every mode, a run of [VaseRunner] that returns has written
    as many lines as [var_written] has grown by: a record is counted as
    written when and only when its line goes to the output. *)
Theorem written_lines_are_counted {collab : Vase.Collaborators}
    (self self' : Vase.VaseRunner) (rs : list VcfRecord) :
  Vase.run self rs = inr self' ->
  Z.of_nat (length (Vase.out self')) - Z.of_nat (length (Vase.out self))
  = Vase.var_written self' - Vase.var_written self.
Proof.
  unfold Vase.run. intros Hrun.
  destruct (Vase.process_records self rs) as [e|mid] eqn:Hrecs;
    [discriminate|].
  simpl in Hrun.
  apply process_records_account in Hrecs as (_ & Hu & _).
  assert (uncounted_lines self' = uncounted_lines mid) as Hfin.
  { unfold Vase.finish_up in Hrun. destruct (Vase.use_cache mid).
    - by apply output_cache_accounts in Hrun as (_ & _ & ? & _).
    - by injection Hrun as <-. }
  unfold uncounted_lines in *. lia.
Qed.

Lemma written_lines_are_counted_witness :
  exists self',
    Vase.run (H := Samples.toy) (Samples.fresh_runner false)
      [Samples.gene_a_1; Samples.gene_b_1] = inr self'
    ∧ Z.of_nat (length (Vase.out self')) = Vase.var_written self'.
Proof.
  assert (Samples.observe
            (Vase.run (H := Samples.toy) (Samples.fresh_runner false)
               [Samples.gene_a_1; Samples.gene_b_1])
          = inr (["1:100-A/G
"], [], [])) as Hobs by (vm_compute; reflexivity).
  destruct (Vase.run (H := Samples.toy) (Samples.fresh_runner false)
              [Samples.gene_a_1; Samples.gene_b_1]) as [e|self'] eqn:Hrun;
    [discriminate|].
  exists self'. split; [reflexivity|].
  pose proof (written_lines_are_counted (collab := Samples.toy) _ _ _ Hrun)
    as Heq.
  simpl in Heq. lia.
Defined.

(** ** What [__init__] establishes *)

Section Setup.
Context {collab : Vase.Collaborators}.
Import Vase.

Lemma get_family_filter_keeps (self self1 : VaseRunner) ff :
  _get_family_filter self = inr (self1, ff) ->
  args self1 = args self
  ∧ de_novo_filter self1 = de_novo_filter self
  ∧ dominant_filter self1 = dominant_filter self
  ∧ recessive_filter self1 = recessive_filter self
  ∧ use_cache self1 = use_cache self.
Proof.
  unfold _get_family_filter.
  destruct (family_filter self); [by intros [= <- <-]|].
  destruct (_ && _); [discriminate|].
  destruct (build_family_filter _ _) as [e|[p ff']]; [discriminate|].
  by intros [= <- <-].
Qed.

Lemma use_cache_from_header_spec (self : VaseRunner) c :
  use_cache_from_header self c = true <->
  use_cache self = true
  ∨ (min_families (args self) > 1 ∧ get_header_fields c ≠ []).
Proof.
  unfold use_cache_from_header. destruct (get_header_fields c) as [|f fs].
  - split; [by left|]. intros [? | [_ ?]]; done.
  - destruct (bool_decide (min_families (args self) > 1)) eqn:E.
    + apply bool_decide_eq_true in E. split; [|done]. intros _. by right.
    + apply bool_decide_eq_false in E. split; [by left|].
      intros [? | [? _]]; done.
Qed.

(** What a getter that returns has done: it holds a filter with eligible
    samples, or it holds none. *)
Lemma get_de_novo_filter_result (self self' : VaseRunner) :
  _get_de_novo_filter self = inr self' ->
  args self' = args self
  ∧ recessive_filter self' = recessive_filter self
  ∧ dominant_filter self' = dominant_filter self
  ∧ control_filter self' = true
  ∧ (de_novo_filter self' = None ∧ use_cache self' = use_cache self
     ∨ exists c, de_novo_filter self' = Some c ∧ affected c ≠ []
                 ∧ (use_cache self' = true <->
                    use_cache self = true
                    ∨ (min_families (args self) > 1
                       ∧ get_header_fields c ≠ []))).
Proof.
  unfold _get_de_novo_filter.
  destruct (_get_family_filter self) as [e|[self1 ff]] eqn:Hff;
    [discriminate|].
  apply get_family_filter_keeps in Hff as (Ha1 & Hdn1 & Hdom1 & Hrc1 & Hc1).
  simpl.
  assert (args (_get_control_filter self1) = args self
          ∧ recessive_filter (_get_control_filter self1)
            = recessive_filter self
          ∧ dominant_filter (_get_control_filter self1)
            = dominant_filter self
          ∧ control_filter (_get_control_filter self1) = true
          ∧ use_cache (_get_control_filter self1) = use_cache self)
    as (Ha2 & Hrc2 & Hdom2 & Hcf2 & Hc2).
  { unfold _get_control_filter.
    destruct (control_filter self1) eqn:Hcf; simpl; by repeat split. }
  set (self2 := _get_control_filter self1) in *.
  destruct (affected (DeNovoFilter ff (args self2))) as [|s l] eqn:Haff.
  - destruct (_ && _); [discriminate|]. intros [= <-]. simpl.
    do 4 (split; [done|]). by left.
  - intros [= <-]. simpl. do 4 (split; [done|]). right.
    eexists. split; [done|]. split; [by rewrite Haff|].
    rewrite use_cache_from_header_spec. by rewrite Hc2, Ha2.
Qed.

Lemma get_dominant_filter_result (self self' : VaseRunner) :
  _get_dominant_filter self = inr self' ->
  args self' = args self
  ∧ recessive_filter self' = recessive_filter self
  ∧ de_novo_filter self' = de_novo_filter self
  ∧ control_filter self' = true
  ∧ (dominant_filter self' = None ∧ use_cache self' = use_cache self
     ∨ exists c, dominant_filter self' = Some c ∧ affected c ≠ []
                 ∧ (use_cache self' = true <->
                    use_cache self = true
                    ∨ (min_families (args self) > 1
                       ∧ get_header_fields c ≠ []))).
Proof.
  unfold _get_dominant_filter.
  destruct (_get_family_filter self) as [e|[self1 ff]] eqn:Hff;
    [discriminate|].
  apply get_family_filter_keeps in Hff as (Ha1 & Hdn1 & Hdom1 & Hrc1 & Hc1).
  simpl.
  assert (args (_get_control_filter self1) = args self
          ∧ recessive_filter (_get_control_filter self1)
            = recessive_filter self
          ∧ de_novo_filter (_get_control_filter self1)
            = de_novo_filter self
          ∧ control_filter (_get_control_filter self1) = true
          ∧ use_cache (_get_control_filter self1) = use_cache self)
    as (Ha2 & Hrc2 & Hdn2 & Hcf2 & Hc2).
  { unfold _get_control_filter.
    destruct (control_filter self1) eqn:Hcf; simpl; by repeat split. }
  set (self2 := _get_control_filter self1) in *.
  destruct (affected (DominantFilter ff (args self2))) as [|s l] eqn:Haff.
  - destruct (_ && _); [discriminate|]. intros [= <-]. simpl.
    do 4 (split; [done|]). by left.
  - intros [= <-]. simpl. do 4 (split; [done|]). right.
    eexists. split; [done|]. split; [by rewrite Haff|].
    rewrite use_cache_from_header_spec. by rewrite Hc2, Ha2.
Qed.

Lemma get_recessive_filter_result (self self' : VaseRunner) :
  _get_recessive_filter self = inr self' ->
  args self' = args self
  ∧ de_novo_filter self' = de_novo_filter self
  ∧ dominant_filter self' = dominant_filter self
  ∧ control_filter self' = control_filter self
  ∧ (recessive_filter self' = None ∧ use_cache self' = use_cache self
     ∨ exists c, recessive_filter self' = Some c ∧ affected c ≠ []
                 ∧ use_cache self' = true).
Proof.
  unfold _get_recessive_filter.
  destruct (_get_family_filter self) as [e|[self1 ff]] eqn:Hff;
    [discriminate|].
  assert (control_filter self1 = control_filter self) as Hcf.
  { unfold _get_family_filter in Hff.
    destruct (family_filter self); [by injection Hff as <- <-|].
    destruct (_ && _); [discriminate|].
    destruct (build_family_filter _ _) as [e|[p ff']]; [discriminate|].
    by injection Hff as <- <-. }
  apply get_family_filter_keeps in Hff as (Ha1 & Hdn1 & Hdom1 & Hrc1 & Hc1).
  simpl.
  destruct (affected (RecessiveFilter ff (args self1))) as [|s l] eqn:Haff.
  - destruct (_ && _); [discriminate|]. intros [= <-]. simpl.
    do 4 (split; [done|]). by left.
  - intros [= <-]. simpl. do 4 (split; [done|]). right.
    eexists. split; [done|]. split; [by rewrite Haff | done].
Qed.

Lemma get_family_filter_run_state (self self1 : VaseRunner) ff :
  _get_family_filter self = inr (self1, ff) ->
  run_state self1 = run_state self.
Proof.
  unfold _get_family_filter.
  destruct (family_filter self); [by intros [= <- <-]|].
  destruct (_ && _); [discriminate|].
  destruct (build_family_filter _ _) as [e|[p ff']]; [discriminate|].
  by intros [= <- <-].
Qed.

Lemma get_control_filter_run_state (self : VaseRunner) :
  run_state (_get_control_filter self) = run_state self.
Proof. unfold _get_control_filter. by destruct (control_filter self). Qed.

Lemma getters_keep_run_state (self self' : VaseRunner) :
  _get_de_novo_filter self = inr self'
  ∨ _get_recessive_filter self = inr self'
  ∨ _get_dominant_filter self = inr self' ->
  run_state self' = run_state self.
Proof.
  unfold _get_de_novo_filter, _get_recessive_filter, _get_dominant_filter.
  destruct (_get_family_filter self) as [e|[self1 ff]] eqn:Hff;
    [by intros [? | [? | ?]]|].
  apply get_family_filter_run_state in Hff as <-. simpl.
  intros [Hrun | [Hrun | Hrun]].
  - rewrite <- (get_control_filter_run_state self1).
    destruct (affected _); try destruct (_ && _);
      try discriminate; by injection Hrun as <-.
  - destruct (affected _); try destruct (_ && _);
      try discriminate; by injection Hrun as <-.
  - rewrite <- (get_control_filter_run_state self1).
    destruct (affected _); try destruct (_ && _);
      try discriminate; by injection Hrun as <-.
Qed.

Lemma well_set_up_de_novo a (self self' : VaseRunner) :
  well_set_up a self -> de_novo_filter self = None ->
  requested_de_novo a = true ->
  _get_de_novo_filter self = inr self' ->
  well_set_up a self'
  ∧ recessive_filter self' = recessive_filter self
  ∧ dominant_filter self' = dominant_filter self.
Proof.
  intros (Ha & Hdn & Hrc & Hdom & Hrc_cache & Hcache) Hnone Hreq Hrun.
  apply get_de_novo_filter_result in Hrun as (Ha1 & Hrc1 & Hdom1 & _ & Hnew).
  split; [|done]. unfold well_set_up. rewrite Hrc1, Hdom1, Ha1, Ha in *.
  split; [done|].
  destruct Hnew as [[Hn Hc] | (c & Hn & Haff & Hc)]; rewrite Hn, ?Hc.
  - split; [by intros c ?|]. do 3 (split; [done|]).
    intros Hu. destruct (Hcache Hu) as [Hr | [Hm [Hd | Hx]]].
    + by left.
    + right. split; [done|]. by left.
    + done.
  - split; [by intros c' [= <-]|]. do 2 (split; [done|]).
    split; [intros Hr; left; by apply Hrc_cache|].
    intros [Hu | [Hm _]].
    + destruct (Hcache Hu) as [? | [? [? | ?]]];
        [by left | right; split; [done | by left] | done].
    + right. split; [done | by right].
Qed.

Lemma well_set_up_recessive a (self self' : VaseRunner) :
  well_set_up a self -> recessive_filter self = None ->
  requested_recessive a = true ->
  _get_recessive_filter self = inr self' ->
  well_set_up a self'
  ∧ de_novo_filter self' = de_novo_filter self
  ∧ dominant_filter self' = dominant_filter self.
Proof.
  intros (Ha & Hdn & Hrc & Hdom & Hrc_cache & Hcache) Hnone Hreq Hrun.
  apply get_recessive_filter_result in Hrun
    as (Ha1 & Hdn1 & Hdom1 & _ & Hnew).
  split; [|done]. unfold well_set_up. rewrite Hdn1, Hdom1, Ha1 in *.
  split; [done|].
  destruct Hnew as [[Hn Hc] | (c & Hn & Haff & Hc)]; rewrite Hn, ?Hc.
  - split; [done|]. split; [by intros c ?|]. split; [done|].
    split; [done|].
    intros Hu. destruct (Hcache Hu) as [? | ?]; [done | by right].
  - split; [done|]. split; [by intros c' [= <-]|]. split; [done|].
    split; [done|]. intros _. by left.
Qed.

Lemma well_set_up_dominant a (self self' : VaseRunner) :
  well_set_up a self -> dominant_filter self = None ->
  requested_dominant a = true ->
  _get_dominant_filter self = inr self' ->
  well_set_up a self'.
Proof.
  intros (Ha & Hdn & Hrc & Hdom & Hrc_cache & Hcache) Hnone Hreq Hrun.
  apply get_dominant_filter_result in Hrun
    as (Ha1 & Hrc1 & Hdn1 & _ & Hnew).
  unfold well_set_up. rewrite Hrc1, Hdn1, Ha1, Ha in *.
  split; [done|].
  destruct Hnew as [[Hn Hc] | (c & Hn & Haff & Hc)]; rewrite Hn, ?Hc.
  - do 2 (split; [done|]). split; [by intros c ?|]. split; [done|].
    intros Hu. destruct (Hcache Hu) as [? | [? [? | ?]]];
      [by left | done | right; split; [done | by right]].
  - do 2 (split; [done|]). split; [by intros c' [= <-]|].
    split; [intros Hr; left; by apply Hrc_cache|].
    intros [Hu | [Hm _]].
    + destruct (Hcache Hu) as [? | [? [? | ?]]];
        [by left | done | right; split; [done | by right]].
    + right. split; [done | by left].
Qed.

End Setup.

(** X7.  The runner that [VaseRunner.__init__] returns.  Every
    inheritance filter it holds was asked for (by its flag or, for the
    recessive and the dominant model, by a singleton list) and has at least
    one sample that fits its model.  It uses the cache whenever it holds a
    recessive filter; and when it uses the cache, [output_cache] has a
    checker to resolve: a recessive filter is held, or [min_families] is
    above 1 and a dominant or a de novo filter is held.  When a flag
    [--de_novo], [--biallelic] or [--dominant] was given, at least one
    filter is held. *)
Theorem init_sets_up_well {collab : Vase.Collaborators} (a : Vase.Args)
    (p : option Vase.PedFileT) (sample burden : bool)
    (self : Vase.VaseRunner) :
  Vase.VaseRunner__init__ a p sample burden = inr self ->
  well_set_up a self
  ∧ (Vase.de_novo a || Vase.biallelic a || Vase.dominant a = true ->
     Vase.recessive_filter self ≠ None ∨ Vase.de_novo_filter self ≠ None
     ∨ Vase.dominant_filter self ≠ None)
  ∧ run_state self = (Vase.VariantCache__init__, [], 0, 0, [], []).
Proof.
  unfold Vase.VaseRunner__init__.
  set (self0 := {| Vase.args := a |}).
  assert (well_set_up a self0) as W0.
  { unfold well_set_up, held_for. simpl. by repeat split. }
  assert (run_state self0 = (Vase.VariantCache__init__, [], 0, 0, [], []))
    as Hrest by done.
  assert (Vase.de_novo_filter self0 = None
          ∧ Vase.recessive_filter self0 = None
          ∧ Vase.dominant_filter self0 = None) as (N0dn & N0rc & N0dom)
    by done.
  clearbody self0.
  (* de novo *)
  destruct (if Vase.de_novo a then _ else _) as [e|self1] eqn:H1;
    [discriminate|].
  assert (well_set_up a self1 ∧ run_state self1 = run_state self0
          ∧ Vase.recessive_filter self1 = None
          ∧ Vase.dominant_filter self1 = None) as (W1 & R1 & N1rc & N1dom).
  { destruct (Vase.de_novo a) eqn:Hreq; [|by injection H1 as <-].
    destruct (well_set_up_de_novo a self0 self1 W0 N0dn Hreq H1)
      as (? & ? & ?).
    split; [done|]. split; [apply getters_keep_run_state; by left|].
    split; congruence. }
  simpl.
  (* recessive *)
  destruct (if Vase.biallelic a || _ then _ else _) as [e|self2] eqn:H2;
    [discriminate|].
  assert (well_set_up a self2 ∧ run_state self2 = run_state self1
          ∧ Vase.dominant_filter self2 = None) as (W2 & R2 & N2dom).
  { destruct (Vase.biallelic a || _) eqn:Hreq; [|by injection H2 as <-].
    destruct (well_set_up_recessive a self1 self2 W1 N1rc Hreq H2)
      as (? & ? & ?).
    split; [done|]. split; [apply getters_keep_run_state; right; by left|].
    congruence. }
  simpl.
  (* dominant *)
  destruct (if Vase.dominant a || _ then _ else _) as [e|self3] eqn:H3;
    [discriminate|].
  assert (well_set_up a self3 ∧ run_state self3 = run_state self2)
    as (W3 & R3).
  { destruct (Vase.dominant a || _) eqn:Hreq; [|by injection H3 as <-].
    split; [by eapply well_set_up_dominant|].
    apply getters_keep_run_state; right; by right. }
  simpl. unfold Vase._check_got_inherit_filter.
  assert (Vase.args self3 = a) as Ha3 by apply W3. rewrite Ha3.
  destruct (Vase.de_novo a || Vase.biallelic a || Vase.dominant a) eqn:Hflag.
  - destruct (Vase.recessive_filter self3) eqn:E1,
      (Vase.de_novo_filter self3) eqn:E2,
      (Vase.dominant_filter self3) eqn:E3; try discriminate;
      intros [= <-]; (split; [done|]); (split; [|congruence]); intros _;
      rewrite ?E1, ?E2, ?E3.
    all: first [by left | right; by left | right; by right].
  - intros [= <-]. split; [done|]. split; [done | congruence].
Qed.

(** The runner of [--singleton_recessive S1]: it holds a recessive filter
    and uses the cache. *)
Lemma init_sets_up_well_witness :
  well_set_up (collab := Samples.toy) Samples.recessive_args
    (Samples.fresh_runner false)
  ∧ Vase.use_cache (Samples.fresh_runner false) = true.
Proof.
  split; [|reflexivity].
  apply (init_sets_up_well (collab := Samples.toy) Samples.recessive_args
           None false false (Samples.fresh_runner false)).
  reflexivity.
Defined.

(** X8.  Inheritance filtering needs samples to work on.  This is about
    the last part of [VaseRunner.__init__], the set-up of the inheritance
    models (from [if args.de_novo:] on), reached when the steps before it -
    the reader, the output, the filters made from the other options, the
    report files - have returned.  When a flag [--de_novo], [--biallelic]
    or [--dominant] is given without a pedigree and without singleton
    samples, that part raises the exception that asks for a PED file,
    whichever of the three flags are given and whether or not a sample
    filter and a burden counter were made; no runner is made. *)
Theorem init_needs_a_pedigree {collab : Vase.Collaborators} (a : Vase.Args)
    (sample burden : bool) :
  Vase.singleton_recessive a = [] -> Vase.singleton_dominant a = [] ->
  Vase.de_novo a || Vase.biallelic a || Vase.dominant a = true ->
  Vase.VaseRunner__init__ a None sample burden
  = inl (Exception Vase.no_ped_msg).
Proof.
  intros Hr Hd Hflag.
  assert (forall self : Vase.VaseRunner,
            Vase.args self = a -> Vase.ped self = None ->
            Vase.family_filter self = None ->
            Vase._get_family_filter self = inl (Exception Vase.no_ped_msg))
    as Hraise.
  { intros self Ha Hp Hff. unfold Vase._get_family_filter.
    rewrite Hff, Hp, Ha, Hr, Hd. by rewrite !bool_decide_eq_true_2. }
  unfold Vase.VaseRunner__init__.
  unfold Vase._get_de_novo_filter, Vase._get_recessive_filter,
    Vase._get_dominant_filter.
  rewrite Hr, Hd. simpl.
  destruct (Vase.de_novo a); [by rewrite Hraise|]. simpl.
  rewrite orb_false_r.
  destruct (Vase.biallelic a); [by rewrite Hraise|]. simpl.
  rewrite orb_false_r.
  destruct (Vase.dominant a); [by rewrite Hraise | done].
Qed.

Lemma init_needs_a_pedigree_witness :
  Vase.VaseRunner__init__ (H := Samples.toy) Samples.de_novo_only None
    false false
  = inl (Exception Vase.no_ped_msg).
Proof.
  apply (init_needs_a_pedigree (collab := Samples.toy)); reflexivity.
Defined.

(** ** The older runner: nothing is lost, and what [finish_up] leaves *)

Section VapeRuns.
Context {collab : Vape.Collaborators}.
Import Vape.

(** [dom_filter] with de novo filters, allele by allele. *)
Lemma dom_filter_allele_spec (fs : list DeNovo) r i (ignored : bool) :
  fs ≠ [] ->
  dom_filter_allele fs r i ignored
  = ignored || forallb (fun f => de_novo_filter f r (i + 1)) fs.
Proof.
  intros Hfs. unfold dom_filter_allele. destruct ignored; [done|]. simpl.
  set (p := fun f => de_novo_filter f r (i + 1)).
  assert (forall l, negb (existsb (fun f => negb (p f)) l) = forallb p l)
    as Hall.
  { induction l as [|f l IH]; [done|]. simpl. rewrite <- IH.
    by destruct (p f). }
  rewrite Hall.
  destruct fs as [|f fs]; [done|]. simpl.
  destruct (p f); [done|]. by rewrite andb_false_r.
Qed.

End VapeRuns.

(** X9.  [VapeRunner.process_record] loses no cached variant, although
    [add_record] of the older cache replaces [output_ready] instead of
    extending it: after any number of records, [output_ready] is empty, and
    the variants constructed so far are, without repetition and in order,
    those an output loop has decided on followed by those still in
    [cache]. *)
Theorem vape_loses_no_variant {collab : Vape.Collaborators}
    (self self' : Vape.VapeRunner) (rs : list VcfRecord) :
  Vape.variant_cache self = Vape.VariantCache__init__ ->
  Vape.objects self = [] -> Vape.disposed self = [] ->
  Vape.process_records self rs = inr self' ->
  Vape.output_ready (Vape.variant_cache self') = []
  ∧ Vape.objects self'
    = map fst (Vape.disposed self') ++ Vape.cache (Vape.variant_cache self')
  ∧ NoDup (Vape.objects self').
Proof.
  intros Hvc Hobj Hdis Hrun.
  assert (vape_invariant self) as Hinv.
  { unfold vape_invariant. rewrite Hvc, Hobj, Hdis. split; [done|].
    split; [done|]. intros i v Hi. by rewrite lookup_nil in Hi. }
  pose proof (vape_invariant_process_records rs self self' Hrun Hinv)
    as Hinv'.
  split; [apply Hinv'|]. split; [apply Hinv'|].
  by apply vape_invariant_NoDup.
Qed.

(** Two records of gene A and one of gene B: the first two are decided on
    when the third arrives, which stays cached. *)
Lemma vape_loses_no_variant_witness :
  exists self',
    Vape.process_records (H := VapeSamples.toy) VapeSamples.fresh_runner
      [Samples.gene_a_1; Samples.gene_a_2; Samples.gene_b_1] = inr self'
    ∧ Vape.output_ready (Vape.variant_cache self') = []
    ∧ NoDup (Vape.objects self').
Proof.
  assert (VapeSamples.observe
            (Vape.process_records (H := VapeSamples.toy)
               VapeSamples.fresh_runner
               [Samples.gene_a_1; Samples.gene_a_2; Samples.gene_b_1])
          = inr (["1:100-A/G
"], [], ["1:900-C/T"])) as Hobs by (vm_compute; reflexivity).
  destruct (Vape.process_records (H := VapeSamples.toy)
              VapeSamples.fresh_runner
              [Samples.gene_a_1; Samples.gene_a_2; Samples.gene_b_1])
    as [e|self'] eqn:Hrun; [discriminate|].
  exists self'. split; [reflexivity|].
  destruct (vape_loses_no_variant (collab := VapeSamples.toy)
              VapeSamples.fresh_runner self' _ eq_refl eq_refl eq_refl Hrun)
    as (Hready & _ & Hnd).
  by split.
Defined.

(** X10.  [VapeRunner.finish_up] with a recessive filter decides on every
    variant of [output_ready] and then of [cache], writes the lines of
    those that pass, and empties [output_ready] - but not [cache]: what
    was cached is still cached when it returns.  Without a recessive
    filter it does nothing. *)
Theorem vape_finish_up_keeps_the_cache {collab : Vape.Collaborators}
    (self : Vape.VapeRunner) :
  match Vape.recessive_filter self with
  | Some c =>
      let rec_ids := (Vape.process_potential_recessives c).1 in
      let held :=
        Vape.output_ready (Vape.variant_cache self)
        ++ Vape.cache (Vape.variant_cache self) in
      Vape.out (Vape.finish_up self)
      = Vape.out self
        ++ map vape_line_of (List.filter (vape_passes rec_ids) held)
      ∧ Vape.disposed (Vape.finish_up self)
        = Vape.disposed self
          ++ map (fun v => (v, vape_passes rec_ids v)) held
      ∧ Vape.output_ready (Vape.variant_cache (Vape.finish_up self)) = []
      ∧ Vape.cache (Vape.variant_cache (Vape.finish_up self))
        = Vape.cache (Vape.variant_cache self)
  | None => Vape.finish_up self = self
  end.
Proof.
  unfold Vape.finish_up.
  destruct (Vape.recessive_filter self) as [c|]; [|done].
  destruct (Vape.process_potential_recessives c) as [rec_ids c'].
  cbn zeta. rewrite vape_output_loop. simpl. by repeat split.
Qed.

(** X11.  [VapeRunner.dom_filter] never clears a flag and never changes
    the number of flags.  Without de novo filters it returns the list it
    was given.  With de novo filters, and a flag for each alternative
    allele, the flag of an alternative allele is set afterwards when it was
    set before or every de novo filter removes the allele; flags beyond the
    alternative alleles are as before.  With de novo filters and fewer
    flags than alternative alleles it raises [IndexError]. *)
Theorem dom_filter_only_sets_flags {collab : Vape.Collaborators}
    (self : Vape.VapeRunner) (r : VcfRecord) (ignore_alleles : list bool) :
  let n := (length (ALLELES r) - 1)%nat in
  match Vape.de_novo_filters self with
  | None | Some [] =>
      Vape.dom_filter self r ignore_alleles = inr ignore_alleles
  | Some fs =>
      if decide (n <= length ignore_alleles)%nat then
        exists flags,
          Vape.dom_filter self r ignore_alleles = inr flags
          ∧ length flags = length ignore_alleles
          ∧ (forall i b, ignore_alleles !! i = Some b ->
               flags !! i
               = Some (if decide (i < n)%nat
                       then b || forallb
                                   (fun f => Vape.de_novo_filter f r (i + 1))
                                   fs
                       else b))
          ∧ (forall i, ignore_alleles !! i = Some true ->
                       flags !! i = Some true)
      else Vape.dom_filter self r ignore_alleles = inl IndexError
  end.
Proof.
  intros n. unfold Vape.dom_filter. fold n.
  destruct (Vape.de_novo_filters self) as [[|f fs]|]; try done.
  destruct (decide (n <= length ignore_alleles)%nat) as [Hle|Hgt].
  - rewrite bool_decide_eq_true_2 by done.
    eexists. split; [reflexivity|].
    assert (forall i b, ignore_alleles !! i = Some b ->
              imap (fun i b =>
                      if bool_decide (i < n)%nat
                      then Vape.dom_filter_allele (f :: fs) r i b else b)
                ignore_alleles !! i
              = Some (if decide (i < n)%nat
                      then b || forallb
                                  (fun f => Vape.de_novo_filter f r (i + 1))
                                  (f :: fs)
                      else b)) as Hflag.
    { intros i b Hi. rewrite list_lookup_imap, Hi. simpl.
      destruct (decide (i < n)%nat) as [Hlt|Hge].
      - rewrite bool_decide_eq_true_2 by done.
        by rewrite dom_filter_allele_spec.
      - by rewrite bool_decide_eq_false_2. }
    split; [by rewrite length_imap|]. split; [exact Hflag|].
    intros i Hi. rewrite (Hflag i true Hi). by destruct (decide _).
  - by rewrite bool_decide_eq_false_2.
Qed.


(** ** The families of a parsed pedigree *)

Section Pedigree.
Import Ped.

Lemma dict_get_None {V} (d : dict V) k :
  dict_get d k = None <-> k ∉ keys d.
Proof.
  unfold keys. induction d as [|[k' v] d IH]; simpl.
  - split; [intros _ Hin; by apply elem_of_nil in Hin | done].
  - destruct (decide (k' = k)) as [->|Hne].
    + rewrite bool_decide_eq_true_2 by done. split; [done|].
      intros Hnot. destruct Hnot. apply list_elem_of_here.
    + rewrite bool_decide_eq_false_2 by done. rewrite IH.
      rewrite not_elem_of_cons. split; [by split|]. by intros [_ ?].
Qed.

Lemma dict_get_elem {V} (d : dict V) k v :
  NoDup (keys d) -> (k, v) ∈ d -> dict_get d k = Some v.
Proof.
  intros Hnd Hin. destruct (dict_get d k) as [v'|] eqn:Hget.
  - apply dict_get_Some in Hget. f_equal. by eapply dict_unique.
  - apply dict_get_None in Hget. destruct Hget. unfold keys.
    apply list_elem_of_fmap. by exists (k, v).
Qed.

Lemma keys_dict_set {V} (d : dict V) k v :
  keys (dict_set d k v) = if decide (k ∈ keys d) then keys d
                          else keys d ++ [k].
Proof.
  destruct (decide (k ∈ keys d)) as [Hin|Hnot];
    [|by apply dict_set_fresh_keys].
  unfold keys in *. induction d as [|[k' v'] d IH]; simpl.
  - by apply elem_of_nil in Hin.
  - destruct (decide (k' = k)) as [->|Hne].
    + by rewrite bool_decide_eq_true_2.
    + rewrite bool_decide_eq_false_2 by done. simpl. f_equal. apply IH.
      simpl in Hin. apply elem_of_cons in Hin as [?|?]; [congruence | done].
Qed.

Lemma NoDup_keys_dict_set {V} (d : dict V) k v :
  NoDup (keys d) -> NoDup (keys (dict_set d k v)).
Proof.
  intros Hnd. rewrite keys_dict_set. destruct (decide _); [done|].
  apply NoDup_app. split; [done|]. split; [|apply NoDup_singleton].
  intros x Hx Hin. apply list_elem_of_singleton in Hin as ->. done.
Qed.

Lemma elem_of_keys_dict_set {V} (d : dict V) k v k' :
  k' ∈ keys (dict_set d k v) <-> k' = k ∨ k' ∈ keys d.
Proof.
  rewrite keys_dict_set. destruct (decide (k ∈ keys d)) as [Hin|Hnot].
  - split; [by right|]. intros [-> | ?]; done.
  - rewrite elem_of_app, list_elem_of_singleton. tauto.
Qed.

(** With distinct keys, [d[k] = v] leaves the other entries and has one
    entry for [k]. *)
Lemma dict_set_entries {V} (d : dict V) k v k' v' :
  NoDup (keys d) ->
  (k', v') ∈ dict_set d k v ->
  (k' = k ∧ v' = v) ∨ (k' ≠ k ∧ (k', v') ∈ d).
Proof.
  unfold keys. induction d as [|[k0 v0] d IH]; simpl; intros Hnd Hin.
  - apply list_elem_of_singleton in Hin as [= -> ->]. by left.
  - apply NoDup_cons in Hnd as [Hk0 Hnd].
    destruct (decide (k0 = k)) as [->|Hne].
    + rewrite bool_decide_eq_true_2 in Hin by done.
      apply elem_of_cons in Hin as [[= -> ->] | Hin]; [by left|].
      right. split; [|by apply list_elem_of_further].
      intros ->. apply Hk0. apply list_elem_of_fmap. by exists (k, v').
    + rewrite bool_decide_eq_false_2 in Hin by done.
      apply elem_of_cons in Hin as [[= -> ->] | Hin].
      * right. split; [done | apply list_elem_of_here].
      * destruct (IH Hnd Hin) as [? | [? ?]]; [by left|].
        right. split; [done | by apply list_elem_of_further].
Qed.

Lemma elem_of_of_family (h : heap) f (d : dict loc) k l :
  (k, l) ∈ of_family h f d <-> (k, l) ∈ d ∧ fid (get_indiv h l) = f.
Proof.
  unfold of_family. rewrite !list_elem_of_In, filter_In.
  rewrite bool_decide_eq_true. simpl. reflexivity.
Qed.

Lemma of_family_ext (h h' : heap) f (d : dict loc) :
  (forall k l, (k, l) ∈ d -> fid (get_indiv h' l) = fid (get_indiv h l)) ->
  of_family h' f d = of_family h f d.
Proof.
  unfold of_family. induction d as [|[k l] d IH]; intros Hfid; [done|].
  simpl. rewrite (Hfid k l) by apply list_elem_of_here.
  rewrite IH; [done|]. intros k' l' Hin. apply (Hfid k').
  by apply list_elem_of_further.
Qed.

Lemma of_family_none (h : heap) f (d : dict loc) :
  (forall k l, (k, l) ∈ d -> fid (get_indiv h l) ≠ f) ->
  of_family h f d = [].
Proof.
  unfold of_family. induction d as [|[k l] d IH]; intros Hfid; [done|].
  simpl. rewrite bool_decide_eq_false_2 by (apply (Hfid k), list_elem_of_here).
  apply IH. intros k' l' Hin. apply (Hfid k'). by apply list_elem_of_further.
Qed.

Lemma extends_defaults (h h1 : heap) :
  extends h h1 -> defaults_empty h -> defaults_empty h1.
Proof.
  intros (_ & _ & Hlist) (H1 & H2 & H3). unfold defaults_empty.
  rewrite !Hlist; [done| | |]; apply elem_of_dom; by eexists.
Qed.

(** A family that is not disturbed keeps its shape, its consistency and
    its exact relationship lists. *)
Lemma undisturbed_keeps (h h' : heap) (fam : Family) :
  family_shape h fam -> undisturbed h h' fam ->
  family_shape h' fam
  ∧ (family_consistent h fam -> family_consistent h' fam)
  ∧ (family_related h fam -> family_related h' fam).
Proof.
  intros Hshape (Hdef & Hdi & Hdl & Hmem & Hlists).
  assert (relation_locs h' (members fam) = relation_locs h (members fam))
    as Hlocs.
  { apply relation_locs_ext. intros l Hl. by apply Hmem. }
  assert (forall l, l ∈ members fam -> id_of h' l = id_of h l) as Hid.
  { intros l Hl. unfold id_of. by destruct (Hmem l Hl) as [(-> & _) _]. }
  assert (forall l v, l ∈ members fam ->
            (v ∈ sibs h' l <-> v ∈ sibs h l)
            ∧ (v ∈ halfs h' l <-> v ∈ halfs h l)) as Hviews.
  { intros l v Hl. unfold sibs, halfs.
    destruct (Hmem l Hl) as [(_ & _ & _ & -> & ->) _].
    split; apply Hlists, elem_of_relation_locs; exists l; auto. }
  split; [|split].
  - constructor.
    + apply Hshape.
    + intros k l Hkl. destruct (shape_members _ _ Hshape k l Hkl) as [? ?].
      split; [by apply Hdi|].
      assert (l ∈ members fam) as Hl by (apply elem_of_members; by exists k).
      by destruct (Hmem l Hl) as [(-> & _) _].
    + rewrite Hlocs. apply Hshape.
    + intros t Ht. rewrite Hlocs in Ht.
      by apply Hdl, (shape_allocated _ _ Hshape).
    + intros k t Hkt. rewrite Hlocs.
      destruct (shape_parents _ _ Hshape k t Hkt) as (? & ? & ?).
      split; [by apply Hdl | done].
    + split; [done|]. rewrite Hlocs. apply Hshape.
    + intros l v Hl Hv. destruct (Hviews l v Hl) as [Hs Hh].
      rewrite Hs, Hh in Hv. by apply (shape_elements _ _ Hshape l).
  - intros (Hf & Hs & Hh). split; [|split].
    + intros a Ha. destruct (Hmem a Ha) as [_ ->]. by apply Hf.
    + intros a b Ha Hb. rewrite !Hid by done.
      destruct (Hviews b (id_of h a) Hb) as [-> _].
      destruct (Hviews a (id_of h b) Ha) as [-> _]. by apply Hs.
    + intros a b Ha Hb. rewrite !Hid by done.
      destruct (Hviews b (id_of h a) Hb) as [_ ->].
      destruct (Hviews a (id_of h b) Ha) as [_ ->]. by apply Hh.
  - intros Hrel a b Ha Hb. rewrite !Hid by done.
    destruct (Hviews a (id_of h b) Ha) as [-> ->].
    destruct (Hmem a Ha) as [La _]. destruct (Hmem b Hb) as [Lb _].
    rewrite (share_both_parents_ext _ _ _ _ La Lb).
    rewrite (share_a_parent_ext _ _ _ _ La Lb).
    by apply Hrel.
Qed.

End Pedigree.
Section Pedigree2.
Import Ped.

(** What the constructor gives a family to add. *)
Lemma constructed_fresh (h h1 : heap) (fam : Family) (r : row) (n : loc) :
  family_shape h fam -> family_consistent h fam ->
  Individual6 h (r_fid r) (r_iid r) (r_father r) (r_mother r) (r_sex r)
    (r_phenotype r) = inr (h1, n) ->
  extends h h1 ∧ made_from h h1 r n
  ∧ family_shape h1 fam ∧ family_consistent h1 fam
  ∧ fresh_individual h1 fam n.
Proof.
  intros Hshape Hcons Hnew.
  destruct (Individual6_indivs h h1 r n Hnew) as (Hn & Hdom & _).
  assert (n ∉ dom (indivs h)) as Hfresh.
  { intros Hin. apply (new_loc_fresh h). rewrite <- Hn.
    unfold allocated_locs. apply elem_of_union. by right. }
  assert (n ∈ dom (indivs h1)) as Hin1.
  { rewrite Hdom. apply elem_of_union. left. by apply elem_of_singleton. }
  destruct (add_row_cases h fam r Hshape Hcons)
    as [Hsame | (h1' & n' & Hnew' & Hrest)].
  - exfalso. unfold add_row in Hsame. rewrite Hnew in Hsame.
    destruct (add_individual h1 fam n) as [e|[h2 fam2]] eqn:Hadd.
    + injection Hsame as ->. done.
    + injection Hsame as -> ->.
      destruct (add_individual_codes _ _ _ _ _ Hadd) as (_ & Hsub & _).
      by apply Hfresh, Hsub.
  - rewrite Hnew in Hnew'. injection Hnew' as <- <-.
    destruct Hrest as (? & ? & ? & ? & ? & _). done.
Qed.

Lemma of_family_snoc (h : heap) f (d : dict loc) k l :
  of_family h f (d ++ [(k, l)])
  = of_family h f d
    ++ (if bool_decide (fid (get_indiv h l) = f) then [(k, l)] else []).
Proof. unfold of_family. by rewrite List.filter_app. Qed.

Lemma elem_of_all_members (ped : PedFile) (l : loc) :
  l ∈ all_members ped <-> exists k, (k, l) ∈ individuals ped.
Proof.
  unfold all_members. rewrite list_elem_of_fmap. split.
  - intros ([k l'] & -> & Hin). by exists k.
  - intros (k & Hin). by exists (k, l).
Qed.

Lemma extends_dom_lists (h h1 : heap) :
  extends h h1 -> dom (lists h) ⊆ dom (lists h1).
Proof.
  intros (_ & _ & Hlist) t Ht. apply elem_of_dom.
  rewrite (Hlist t Ht). by apply elem_of_dom.
Qed.

Lemma extends_get_list (h h1 : heap) t :
  extends h h1 -> t ∈ dom (lists h) -> get_list h1 t = get_list h t.
Proof.
  intros (_ & _ & Hlist) Ht. unfold get_list.
  apply elem_of_dom in Ht as Hsome. destruct Hsome as [items Hitems].
  rewrite (lookup_total_correct _ _ _ Hitems).
  apply lookup_total_correct. by rewrite (Hlist t Ht).
Qed.

(** One line keeps the pedigree organised. *)
Lemma organised_parse_line (h h' : heap) (self self' : PedFile) line :
  parse_line h self line = inr (h', self') ->
  organised h self -> organised h' self'.
Proof.
  intros Hrun Horg. apply parse_line_cases in Hrun.
  destruct (line_row line) as [r|]; [|by destruct Hrun as [-> ->]].
  destruct Hrun as (h1 & n & fam' & Hnew & Hnot & Hadd & ->).
  destruct Horg as (Hdef & Hnd & Hfam & Hidx & Hlocs & Halloc & Hpar).
  set (F := family_for self r) in *.
  (* the family the row goes to *)
  assert (f_fid F = r_fid r ∧ family_shape h F ∧ family_consistent h F
          ∧ family_related h F
          ∧ f_individuals F = of_family h (r_fid r) (individuals self)
          ∧ (forall k t, (k, t) ∈ f_parents F ->
               t ∉ relation_locs h (all_members self)))
    as (HfidF & HshapeF & HconsF & HrelF & HmemF & HparF).
  { unfold F, family_for.
    destruct (dict_get (families self) (r_fid r)) as [F0|] eqn:Hget.
    - apply dict_get_Some in Hget.
      destruct (Hfam _ _ Hget) as (? & ? & ? & ? & ?).
      do 5 (split; [done|]).
      intros k t. by apply (Hpar _ _ _ _ Hget).
    - apply dict_get_None in Hget.
      destruct (new_family_shape h (r_fid r) Hdef) as [? ?].
      split; [done|]. do 2 (split; [done|]). split.
      { intros a b Ha. by apply elem_of_nil in Ha. }
      split.
      { symmetry. apply of_family_none. intros k l Hin Heq.
        apply Hget. rewrite <- Heq. by apply (Hidx k l). }
      intros k t Hin. by apply elem_of_nil in Hin. }
  (* the new individual *)
  destruct (constructed_fresh h h1 F r n HshapeF HconsF Hnew)
    as (Hext & Hmade & Hshape1 & Hcons1 & Hfresh).
  pose proof (related_frame h h1 F HshapeF Hext HrelF) as Hrel1.
  pose proof (extends_dom_lists h h1 Hext) as Hdl1.
  destruct Hext as (Hdi1 & Hget1 & Hlist1).
  assert (extends h h1) as Hext by done.
  destruct Hmade as (Hn_fresh & Hy_fid & Hy_iid & _ & _ & _ & _ & Hy_nd
                     & Hy_lists).
  set (y := get_indiv h1 n) in *.
  assert (forall k t, (k, t) ∈ f_parents F -> t ∈ dom (lists h1)) as Hpalloc.
  { intros k t Hkt. by destruct (shape_parents _ _ Hshape1 k t Hkt). }
  destruct (add_individual_view h1 h' F fam' n Hpalloc Hadd)
    as (_ & Hfid' & Hmem' & Hlinks & Hfid_old & Hfid_new & Hdl' & Hdi'
        & Hview & Hparents').
  fold y in Hmem', Hview. rewrite Hy_iid in Hmem'.
  (* the individuals of before *)
  assert (forall k l, (k, l) ∈ individuals self ->
            l ≠ n ∧ get_indiv h1 l = get_indiv h l
            ∧ same_links (get_indiv h l) (get_indiv h' l)
            ∧ fid (get_indiv h' l) = fid (get_indiv h l)) as Hold.
  { intros k l Hin. destruct (Hidx k l Hin) as [Hl _].
    assert (l ≠ n) as Hne.
    { intros ->. apply Hn_fresh. unfold allocated_locs.
      apply elem_of_union. by right. }
    split; [done|]. split; [by apply Hget1|].
    split; [rewrite <- (Hget1 l Hl); apply Hlinks|].
    rewrite (Hfid_old l Hne). by rewrite Hget1. }
  assert (relation_locs h' (all_members self)
          = relation_locs h (all_members self)) as Hlocs_eq.
  { apply relation_locs_ext. intros l Hl.
    apply elem_of_all_members in Hl as (k & Hin).
    by destruct (Hold k l Hin) as (_ & _ & ? & _). }
  assert (siblings (get_indiv h' n) = siblings y
          ∧ half_siblings (get_indiv h' n) = half_siblings y)
    as [Hs' Hhs'].
  { by destruct (Hlinks n) as (_ & _ & _ & ? & ?). }
  assert (forall t, t = siblings y ∨ t = half_siblings y ->
            (t ∉ dom (lists h)) ∧ t ∈ dom (lists h1)
            ∧ forall k, (k, t) ∉ f_parents F) as Hnewlist.
  { intros t Ht. split; [|split].
    - intros Hin.
      assert (t ∈ [siblings y; half_siblings y; children y]) as Hmem.
      { destruct Ht as [-> | ->];
          [apply list_elem_of_here
          | apply list_elem_of_further, list_elem_of_here]. }
      destruct (Hy_lists t Hmem) as [Hfr _]. apply Hfr.
      unfold allocated_locs. apply elem_of_union. by left.
    - destruct Hfresh as (_ & _ & _ & Hl). by destruct (Hl t Ht) as (? & _).
    - destruct Hfresh as (_ & _ & _ & Hl).
      by destruct (Hl t Ht) as (_ & _ & _ & _ & ?). }
  assert (forall l, l ∈ members F ->
            exists k, (k, l) ∈ individuals self
                      ∧ fid (get_indiv h l) = r_fid r) as HmembersF.
  { intros l Hl. apply elem_of_members in Hl as (k & Hk).
    rewrite HmemF in Hk. apply elem_of_of_family in Hk. by exists k. }
  assert (defaults_empty h') as Hdef'.
  { unfold defaults_empty.
    rewrite !(default_untouched _ _ _ _ _ Hshape1 Hfresh Hadd); [done| | |];
      unfold default_locs.
    - do 2 apply list_elem_of_further. apply list_elem_of_here.
    - apply list_elem_of_further, list_elem_of_here.
    - apply list_elem_of_here. }
  assert (relation_locs h' (all_members self ++ [n])
          = relation_locs h (all_members self)
            ++ [siblings y; half_siblings y]) as Hlocs'.
  { rewrite relation_locs_app, Hlocs_eq. unfold relation_locs at 2. simpl.
    by rewrite Hs', Hhs'. }
  unfold organised. simpl.
  split; [done|]. split; [by apply NoDup_keys_dict_set|].
  split; [|split; [|split; [|split]]].
  - (* the families *)
    intros f fam Hin. apply dict_set_entries in Hin; [|done].
    destruct Hin as [[-> ->] | [Hne Hin]].
    + split; [congruence|].
      split; [by eapply step_shape|].
      split; [by eapply step_consistent|].
      split; [by eapply step_related|].
      rewrite Hmem', HmemF, of_family_snoc.
      rewrite bool_decide_eq_true_2 by congruence.
      f_equal. symmetry. apply of_family_ext.
      intros k l Hkl. by destruct (Hold k l Hkl) as (_ & _ & _ & ?).
    + destruct (Hfam f fam Hin) as (HfG & HshapeG & HconsG & HrelG & HmemG).
      assert (forall l, l ∈ members fam ->
                exists k, (k, l) ∈ individuals self
                          ∧ fid (get_indiv h l) = f) as HmembersG.
      { intros l Hl. apply elem_of_members in Hl as (k & Hk).
        rewrite HmemG in Hk. apply elem_of_of_family in Hk. by exists k. }
      assert (undisturbed h h' fam) as Hund.
      { split; [done|]. split; [by etrans|]. split; [by etrans|]. split.
        - intros l Hl. destruct (HmembersG l Hl) as (k & Hkl & _).
          by destruct (Hold k l Hkl) as (_ & _ & ? & ?).
        - intros t Ht v.
          assert (t ∈ dom (lists h)) as Hth
            by (by apply (shape_allocated _ _ HshapeG)).
          apply elem_of_relation_locs in Ht as (g & Hg & Htg).
          destruct (HmembersG g Hg) as (kg & Hkg & Hfg).
          assert (t ∈ relation_locs h (all_members self)) as Htall.
          { apply elem_of_relation_locs. exists g. split; [|done].
            apply elem_of_all_members. by exists kg. }
          rewrite (Hview t v (Hdl1 t Hth)).
          2: { intros k Hk. by apply (HparF k t). }
          rewrite (extends_get_list h h1 t Hext Hth).
          split; [|by left]. intros [Hv | (i & Hi & Hv)]; [done|].
          exfalso. destruct (HmembersF i Hi) as (ki & Hki & Hfi).
          destruct (Hold ki i Hki) as (_ & Hgi & _).
          apply elem_of_appended in Hv. rewrite Hgi in Hv.
          assert (t = siblings (get_indiv h i)
                  ∨ t = half_siblings (get_indiv h i)
                  ∨ t = siblings y ∨ t = half_siblings y) as Hcase.
          { destruct Hv as [(_ & [[? _] | [? _]])
                           | (_ & _ & [[? _] | [? _]])]; tauto. }
          destruct Hcase as [Hti | [Hti | [Hty | Hty]]].
          + assert (i = g) as ->; [|congruence].
            apply (flat_map_NoDup_inj _ _ i g t Hlocs).
            * apply elem_of_all_members. by exists ki.
            * apply elem_of_all_members. by exists kg.
            * rewrite Hti. apply list_elem_of_here.
            * destruct Htg as [-> | ->];
                [apply list_elem_of_here
                | apply list_elem_of_further, list_elem_of_here].
          + assert (i = g) as ->; [|congruence].
            apply (flat_map_NoDup_inj _ _ i g t Hlocs).
            * apply elem_of_all_members. by exists ki.
            * apply elem_of_all_members. by exists kg.
            * rewrite Hti. apply list_elem_of_further, list_elem_of_here.
            * destruct Htg as [-> | ->];
                [apply list_elem_of_here
                | apply list_elem_of_further, list_elem_of_here].
          + destruct (Hnewlist t) as [Hfr _]; [by left | done].
          + destruct (Hnewlist t) as [Hfr _]; [by right | done]. }
      destruct (undisturbed_keeps h h' fam HshapeG Hund)
        as (Hshape' & Hcons' & Hrel').
      split; [done|]. split; [done|]. split; [by apply Hcons'|].
      split; [by apply Hrel'|].
      rewrite HmemG, of_family_snoc.
      rewrite bool_decide_eq_false_2 by congruence.
      rewrite app_nil_r. symmetry. apply of_family_ext.
      intros k l Hkl. by destruct (Hold k l Hkl) as (_ & _ & _ & ?).
  - (* the index *)
    intros k l Hin. apply elem_of_app in Hin as [Hin | Hin].
    + destruct (Hidx k l Hin) as [Hl Hf].
      destruct (Hold k l Hin) as (_ & _ & _ & ->).
      split; [by apply Hdi', Hdi1|].
      apply elem_of_keys_dict_set. by right.
    + apply list_elem_of_singleton in Hin as [= -> ->].
      split; [apply Hdi'; by destruct Hfresh as (? & _)|].
      apply elem_of_keys_dict_set. left. congruence.
  - (* the relationship lists are different objects *)
    unfold all_members. simpl. rewrite map_app. simpl.
    fold (all_members self). rewrite Hlocs'.
    apply NoDup_app. split; [done|]. split.
    + intros t Ht Hin. apply Halloc in Ht.
      apply elem_of_cons in Hin as [-> | Hin].
      * destruct (Hnewlist (siblings y)) as [Hfr _]; [by left | done].
      * apply list_elem_of_singleton in Hin as ->.
        destruct (Hnewlist (half_siblings y)) as [Hfr _]; [by right | done].
    + apply NoDup_cons. split; [|apply NoDup_singleton].
      intros Hin. apply list_elem_of_singleton in Hin.
      by destruct Hfresh as (_ & _ & ? & _).
  - unfold all_members. simpl. rewrite map_app. simpl.
    fold (all_members self). rewrite Hlocs'.
    intros t Ht. apply elem_of_app in Ht as [Ht | Ht].
    + by apply Hdl', Hdl1, Halloc.
    + apply Hdl'. destruct (Hnewlist t) as (_ & ? & _); [|done].
      apply elem_of_cons in Ht as [-> | Ht]; [by left|].
      apply list_elem_of_singleton in Ht as ->. by right.
  - (* the lists of [self.parents] *)
    unfold all_members. simpl. rewrite map_app. simpl.
    fold (all_members self). rewrite Hlocs'.
    intros f fam k t Hin Hkt Ht.
    apply dict_set_entries in Hin; [|done].
    assert (t ∈ [siblings y; half_siblings y] ->
            t = siblings y ∨ t = half_siblings y) as Hsplit.
    { intros Hm. apply elem_of_cons in Hm as [-> | Hm]; [by left|].
      apply list_elem_of_singleton in Hm as ->. by right. }
    destruct Hin as [[-> ->] | [Hne Hin]].
    + destruct (Hparents' k t Hkt) as [_ [Hold_p | Hfr]].
      * apply elem_of_app in Ht as [Ht | Ht]; [by apply (HparF k t)|].
        destruct (Hnewlist t (Hsplit Ht)) as (_ & _ & Hnp).
        by apply (Hnp k).
      * apply Hfr. apply elem_of_app in Ht as [Ht | Ht].
        -- by apply Hdl1, Halloc.
        -- by destruct (Hnewlist t (Hsplit Ht)) as (_ & ? & _).
    + destruct (Hfam f fam Hin) as (_ & HshapeG & _).
      apply elem_of_app in Ht as [Ht | Ht];
        [by apply (Hpar f fam k t)|].
      destruct (shape_parents _ _ HshapeG k t Hkt) as (Hth & _).
      by destruct (Hnewlist t (Hsplit Ht)) as (? & _).
Qed.

Lemma organised_parse_ped (fh : list string) :
  forall (h h' : heap) (self self' : PedFile),
  _parse_ped h self fh = inr (h', self') ->
  organised h self -> organised h' self'.
Proof.
  induction fh as [|line fh IH]; intros h h' self self' Hrun Horg.
  - simpl in Hrun. by injection Hrun as <- <-.
  - simpl in Hrun.
    destruct (parse_line h self line) as [e|[h1 self1]] eqn:Hline;
      [discriminate|].
    simpl in Hrun. eapply IH; [exact Hrun|].
    by eapply organised_parse_line.
Qed.

Lemma family_for_fid (h : heap) (self : PedFile) (r : row) :
  organised h self -> f_fid (family_for self r) = r_fid r.
Proof.
  intros (_ & _ & Hfam & _). unfold family_for.
  destruct (dict_get _ _) as [F|] eqn:Hget; [|done].
  apply dict_get_Some in Hget. by destruct (Hfam _ _ Hget) as (? & _).
Qed.

Lemma filed_parse_line (h h' : heap) (self self' : PedFile) line rows :
  parse_line h self line = inr (h', self') ->
  organised h self -> filed h self rows ->
  filed h' self' (rows ++ option_list (line_row line)).
Proof.
  intros Hrun Horg [Hall Hkeys].
  apply parse_line_cases in Hrun.
  destruct (line_row line) as [r|]; simpl.
  2: { destruct Hrun as [-> ->]. rewrite app_nil_r. by split. }
  destruct Hrun as (h1 & n & fam' & Hnew & Hnot & Hadd & ->). simpl.
  pose proof (family_for_fid h self r Horg) as HfidF.
  destruct Horg as (_ & _ & _ & Hidx & _).
  destruct (Individual6_indivs h h1 r n Hnew) as (Hn & _ & Hold & _ & _).
  destruct (add_individual_codes h1 h' _ fam' n Hadd)
    as (_ & _ & Hfid_old & Hfid_new & _).
  split.
  - apply Forall2_app.
    + assert (forall k l, (k, l) ∈ individuals self -> l ≠ n) as Hne.
      { intros k l Hin Heq. subst l. destruct (Hidx k n Hin) as [Hl _].
        apply (new_loc_fresh h). rewrite <- Hn. unfold allocated_locs.
        apply elem_of_union. by right. }
      clear Hkeys Hidx Hnot.
      induction Hall as [|[k l] r0 d rows0 [Hk Hf] Hall IH];
        constructor.
      * simpl in *. split; [done|].
        rewrite Hfid_old, Hold; [done| |];
          apply (Hne k), list_elem_of_here.
      * apply IH. intros k' l' Hin. apply (Hne k').
        by apply list_elem_of_further.
    + constructor; [|constructor]. simpl. split; [done | congruence].
  - intros f Hf. apply elem_of_keys_dict_set in Hf.
    rewrite map_app, elem_of_app. simpl.
    destruct Hf as [-> | Hf]; [right; apply list_elem_of_here|].
    left. by apply Hkeys.
Qed.

Lemma filed_parse_ped (fh : list string) :
  forall (h h' : heap) (self self' : PedFile) rows,
  _parse_ped h self fh = inr (h', self') ->
  organised h self -> filed h self rows ->
  filed h' self' (rows ++ line_rows fh).
Proof.
  induction fh as [|line fh IH]; intros h h' self self' rows Hrun Horg Hf.
  - simpl in Hrun. injection Hrun as <- <-. by rewrite app_nil_r.
  - simpl in Hrun.
    destruct (parse_line h self line) as [e|[h1 self1]] eqn:Hline;
      [discriminate|].
    simpl in Hrun.
    pose proof (filed_parse_line _ _ _ _ _ _ Hline Horg Hf) as Hf1.
    pose proof (organised_parse_line _ _ _ _ _ Hline Horg) as Horg1.
    pose proof (IH _ _ _ _ _ Hrun Horg1 Hf1) as Hf2.
    unfold line_rows in *. simpl.
    destruct (line_row line); simpl in *; by rewrite <- app_assoc in Hf2.
Qed.

Lemma keys_of_family (h : heap) f (d : dict loc) (rows : list row) :
  Forall2 (fun (kv : scalar * loc) r =>
             kv.1 = r_iid r ∧ fid (get_indiv h kv.2) = r_fid r) d rows ->
  keys (of_family h f d) = map r_iid (rows_of f rows).
Proof.
  unfold keys, of_family, rows_of.
  induction 1 as [|[k l] r d rows [Hk Hf] Hall IH]; [done|].
  simpl in *. rewrite Hf.
  destruct (bool_decide (r_fid r = f)); simpl; rewrite IH; congruence.
Qed.

End Pedigree2.

(** X12.  The families of a pedigree parsed from a file, in a store whose
    default lists are empty.  There is one family for each family
    identifier that a line carries.  A family holds, in the order of the
    lines, the individuals of the lines with its identifier - the very
    objects of [self.individuals] - and every one of them carries the
    identifier of the family.  Every family is consistent, and its
    relationship lists are exact: an identifier is in the sibling list of a
    member when the two are different members of the family with the same
    known mother and father, in the half-sibling list when they share one
    known parent but not both.  Individuals of different families are not
    related, whatever their parents. *)
Theorem families_of_a_parsed_file (h h' : Ped.heap) (fname : string)
    (fh : list string) (ped : Ped.PedFile) :
  defaults_empty h ->
  Ped.PedFile__init__ h fname fh = inr (h', ped) ->
  NoDup (keys (Ped.families ped))
  ∧ (forall f, f ∈ keys (Ped.families ped) <-> f ∈ map r_fid (line_rows fh))
  ∧ forall f fam, (f, fam) ∈ Ped.families ped ->
      Ped.f_fid fam = f
      ∧ keys (Ped.f_individuals fam)
        = map r_iid (rows_of f (line_rows fh))
      ∧ (forall k l, (k, l) ∈ Ped.f_individuals fam <->
           (k, l) ∈ Ped.individuals ped
           ∧ Ped.fid (Ped.get_indiv h' l) = f)
      ∧ family_consistent h' fam
      ∧ family_related h' fam.
Proof.
  intros Hdef Hrun. unfold Ped.PedFile__init__ in Hrun.
  set (ped0 := {| Ped.filename := fname; Ped.families := [];
                  Ped.individuals := [] |}) in Hrun.
  assert (organised h ped0) as Horg0.
  { unfold organised, ped0, all_members. simpl.
    split; [done|]. split; [apply NoDup_nil_2|].
    split; [intros f fam Hin; by apply elem_of_nil in Hin|].
    split; [intros k l Hin; by apply elem_of_nil in Hin|].
    split; [apply NoDup_nil_2|].
    split; [intros t Hin; by apply elem_of_nil in Hin|].
    intros f fam k t Hin. by apply elem_of_nil in Hin. }
  assert (filed h ped0 []) as Hfiled0.
  { split; [constructor|]. intros f Hin. by apply elem_of_nil in Hin. }
  pose proof (organised_parse_ped fh h h' ped0 ped Hrun Horg0) as Horg.
  pose proof (filed_parse_ped fh h h' ped0 ped [] Hrun Horg0 Hfiled0)
    as [Hall Hkeys].
  simpl in Hall, Hkeys.
  destruct Horg as (_ & Hnd & Hfam & Hidx & _).
  split; [done|]. split.
  - intros f. split; [apply Hkeys|]. intros Hin.
    apply list_elem_of_fmap in Hin as (r & -> & Hr).
    assert (exists kv, kv ∈ Ped.individuals ped
                       ∧ Ped.fid (Ped.get_indiv h' kv.2) = r_fid r)
      as ([k l] & Hkl & <-).
    { clear Hkeys Hidx Hfam. induction Hall as [|kv r0 d rows [_ Hf] _ IH].
      - by apply elem_of_nil in Hr.
      - apply elem_of_cons in Hr as [-> | Hr].
        + exists kv. split; [apply list_elem_of_here | done].
        + destruct (IH Hr) as (kv' & ? & ?). exists kv'.
          split; [by apply list_elem_of_further | done]. }
    by apply (Hidx k l).
  - intros f fam Hin.
    destruct (Hfam f fam Hin) as (Hf & _ & Hcons & Hrel & Hmem).
    split; [done|]. split; [rewrite Hmem; by apply keys_of_family|].
    split; [|done]. intros k l. rewrite Hmem. apply elem_of_of_family.
Qed.

(** Two families in one file: the children C and D of F and M in family
    F1, and E, of the same parents, in family F2. *)
Lemma families_of_a_parsed_file_witness :
  exists h' ped,
    Ped.PedFile__init__ Ped.module_heap "f.ped"
      ["F1 C F M 1 2"; "F2 E F M 2 1"; "F1 D F M 2 2"] = inr (h', ped)
    ∧ keys (Ped.families ped) = [Ped.SStr "F1"; Ped.SStr "F2"]
    ∧ forall f fam, (f, fam) ∈ Ped.families ped ->
        family_consistent h' fam ∧ family_related h' fam.
Proof.
  assert (exists h' ped,
            Ped.PedFile__init__ Ped.module_heap "f.ped"
              ["F1 C F M 1 2"; "F2 E F M 2 1"; "F1 D F M 2 2"]
            = inr (h', ped)
            ∧ keys (Ped.families ped) = [Ped.SStr "F1"; Ped.SStr "F2"])
    as (h' & ped & Hrun & Hkeys)
    by (eexists _, _; split; vm_compute; reflexivity).
  exists h', ped. split; [exact Hrun|]. split; [exact Hkeys|].
  assert (defaults_empty Ped.module_heap) as Hdef
    by (repeat split; reflexivity).
  destruct (families_of_a_parsed_file _ _ _ _ _ Hdef Hrun)
    as (_ & _ & Hfam).
  intros f fam Hin. destruct (Hfam f fam Hin) as (_ & _ & _ & Hc & Hr).
  split; assumption.
Defined.
Section Children.
Import Ped.

Lemma dict_get_snoc {V} (d : dict V) k v q :
  dict_get (d ++ [(k, v)]) q
  = match dict_get d q with
    | Some x => Some x
    | None => if bool_decide (k = q) then Some v else None
    end.
Proof.
  induction d as [|[k' v'] d IH]; simpl; [done|].
  by destruct (bool_decide (k' = q)).
Qed.

Lemma dict_get_dict_set {V} (d : dict V) k v :
  dict_get (dict_set d k v) k = Some v.
Proof.
  induction d as [|[k' v'] d IH]; simpl.
  - by rewrite bool_decide_eq_true_2.
  - destruct (bool_decide (k' = k)) eqn:E; simpl.
    + by rewrite bool_decide_eq_true_2.
    + by rewrite E.
Qed.

Lemma dict_value_unique {V} (d : dict V) k k' v :
  NoDup (map snd d) -> (k, v) ∈ d -> (k', v) ∈ d -> k = k'.
Proof.
  induction d as [|[k0 v0] d IH]; simpl; intros Hnd H1 H2.
  - by apply elem_of_nil in H1.
  - apply NoDup_cons in Hnd as [Hnot Hnd].
    apply elem_of_cons in H1 as [H1 | H1];
      apply elem_of_cons in H2 as [H2 | H2].
    + congruence.
    + exfalso. apply Hnot. injection H1 as _ <-.
      apply list_elem_of_fmap. by exists (k', v).
    + exfalso. apply Hnot. injection H2 as _ <-.
      apply list_elem_of_fmap. by exists (k, v).
    + by apply IH.
Qed.

(** One turn of the loop over the parents, for a known parent. *)
Lemma link_parent_exact (mem : dict loc) (n : loc) (h : heap)
    (parents : dict loc) (p : scalar) :
  p ≠ unknown_parent ->
  let idy := of_scalar (iid (get_indiv h n)) in
  let t := match dict_get parents p with
           | Some t0 => t0
           | None => new_loc h
           end in
  let hmid :=
    set_list h t (match dict_get parents p with
                  | Some _ => get_list h t ++ [idy]
                  | None => [idy]
                  end) in
  link_parent mem n (h, parents) p
  = (match dict_get mem p with
     | Some m => set_children hmid m t
     | None => hmid
     end,
     match dict_get parents p with
     | Some _ => parents
     | None => parents ++ [(p, t)]
     end).
Proof.
  intros Hp. unfold link_parent. rewrite bool_decide_eq_true_2 by done.
  destruct (dict_get parents p) as [t0|] eqn:Hget; cbn zeta.
  - unfold append. rewrite Hget. by destruct (dict_get mem p).
  - unfold alloc_list. rewrite dict_get_dict_set.
    rewrite dict_set_fresh by by apply dict_get_None.
    by destruct (dict_get mem p).
Qed.

Lemma link_parent_unknown (mem : dict loc) (n : loc) (st : heap * dict loc) :
  link_parent mem n st unknown_parent = st.
Proof. by destruct st. Qed.

End Children.
Section LinkTurns.
Import Ped.

Lemma get_list_set_list (h : heap) t items t' :
  get_list (set_list h t items) t'
  = if decide (t' = t) then items else get_list h t'.
Proof.
  unfold get_list, set_list. simpl. destruct (decide (t' = t)) as [->|Hne].
  - by rewrite lookup_total_insert_eq.
  - by rewrite lookup_total_insert_ne.
Qed.

Lemma get_indiv_set_children (h : heap) (m c l : loc) :
  get_indiv (set_children h m c) l
  = if decide (l = m)
    then let x := get_indiv h m in
         {| fid := fid x; iid := iid x; father := father x;
            mother := mother x; sex := sex x; phenotype := phenotype x;
            siblings := siblings x; half_siblings := half_siblings x;
            children := c |}
    else get_indiv h l.
Proof.
  unfold get_indiv, set_children, set_indiv. simpl.
  destruct (decide (l = m)) as [->|Hne].
  - by rewrite lookup_total_insert_eq.
  - by rewrite lookup_total_insert_ne.
Qed.

(** What one turn for a known parent does to the store. *)
Lemma link_parent_turn (mem : dict loc) (n : loc) (h h' : heap)
    (parents parents' : dict loc) (p : scalar) :
  p ≠ unknown_parent ->
  link_parent mem n (h, parents) p = (h', parents') ->
  let idy := of_scalar (iid (get_indiv h n)) in
  let t := match dict_get parents p with
           | Some t0 => t0
           | None => new_loc h
           end in
  parents' = match dict_get parents p with
             | Some _ => parents
             | None => parents ++ [(p, t)]
             end
  ∧ (forall t', get_list h' t'
       = if decide (t' = t)
         then match dict_get parents p with
              | Some _ => get_list h t ++ [idy]
              | None => [idy]
              end
         else get_list h t')
  ∧ dom (lists h') = {[t]} ∪ dom (lists h)
  ∧ (forall l, same_person (get_indiv h l) (get_indiv h' l))
  ∧ (forall l, dict_get mem p ≠ Some l -> get_indiv h' l = get_indiv h l)
  ∧ (forall m, dict_get mem p = Some m -> children (get_indiv h' m) = t).
Proof.
  intros Hp Hrun idy t. rewrite link_parent_exact in Hrun by done.
  injection Hrun as <- <-. fold idy t.
  set (items := match dict_get parents p with
                | Some _ => get_list h t ++ [idy]
                | None => [idy]
                end).
  split; [done|].
  destruct (dict_get mem p) as [m|].
  - repeat split.
    + intros t'. rewrite <- get_list_set_list. done.
    + unfold set_children, set_indiv, set_list. simpl.
      by rewrite dom_insert_L.
    + apply (set_children_person (set_list h t items) m t l).
    + apply (set_children_person (set_list h t items) m t l).
    + apply (set_children_person (set_list h t items) m t l).
    + apply (set_children_person (set_list h t items) m t l).
    + apply (set_children_person (set_list h t items) m t l).
    + apply (set_children_person (set_list h t items) m t l).
    + intros l Hl. rewrite get_indiv_set_children.
      destruct (decide (l = m)) as [->|_]; [done|]. done.
    + intros m' [= <-]. rewrite get_indiv_set_children.
      by rewrite decide_True.
  - repeat split; try done.
    + intros t'. by rewrite get_list_set_list.
    + unfold set_list. simpl. by rewrite dom_insert_L.
Qed.

End LinkTurns.
Section LinkedTurns.
Import Ped.

Variables (h : heap) (fam : Family) (n : loc).
Hypothesis Hkeys : NoDup (keys (f_individuals fam)).
Hypothesis Hids :
  forall k l, (k, l) ∈ f_individuals fam -> iid (get_indiv h l) = k.
Hypothesis Hnew : n ∉ members fam.

Lemma member_by_id (l m : loc) (p : scalar) :
  l ∈ members fam -> dict_get (f_individuals fam) p = Some m ->
  iid (get_indiv h l) = p <-> l = m.
Proof.
  intros Hl Hget. apply dict_get_Some in Hget.
  apply elem_of_members in Hl as [k Hk]. split.
  - intros Hp. rewrite (Hids _ _ Hk) in Hp. subst k.
    by eapply dict_unique.
  - intros ->. by apply Hids.
Qed.

Lemma member_has_entry (l : loc) :
  l ∈ members fam ->
  dict_get (f_individuals fam) (iid (get_indiv h l)) = Some l.
Proof.
  intros Hl. apply elem_of_members in Hl as [k Hk].
  rewrite (Hids _ _ Hk). by apply dict_get_elem.
Qed.

Lemma linked_turn (hx hx' : heap) (px px' : dict loc)
    (e : scalar -> list pyval) (p : scalar) :
  linked h fam n hx px e -> p ≠ unknown_parent ->
  link_parent (f_individuals fam) n (hx, px) p = (hx', px') ->
  linked h fam n hx' px'
    (fun q => e q ++ if bool_decide (q = p)
                     then [of_scalar (iid (get_indiv h n))] else []).
Proof.
  intros (Hk & Hv & HB & HC & HD & HE & HF) Hp Hrun.
  apply link_parent_turn in Hrun; [|done].
  cbv zeta in Hrun.
  assert (Hidy : iid (get_indiv hx n) = iid (get_indiv h n))
    by apply (HD n).
  rewrite Hidy in Hrun.
  set (idy := of_scalar (iid (get_indiv h n))) in *.
  destruct Hrun as (Hpx & Hlist & Hdom & Hper & Hother & Hset).
  assert (Hlinks : forall l, same_links (get_indiv h l) (get_indiv hx' l)).
  { intros l. eapply same_links_trans; [apply HD|].
    apply same_person_links, Hper. }
  destruct (dict_get px p) as [t|] eqn:Hget.
  - (* the parent has a list already *)
    subst px'. pose proof (dict_get_Some _ _ _ Hget) as Hin.
    assert (Htv : t ∈ map snd px).
    { apply list_elem_of_fmap. by exists (p, t). }
    split; [done|]. split; [done|].
    split.
    { intros q t' Hq. destruct (HB _ _ Hq) as (Hqu & Hd & Hne & Heq).
      split; [done|]. split.
      { rewrite Hdom. by apply elem_of_union_r. }
      rewrite Hlist. destruct (decide (t' = t)) as [->|Hnt].
      - split; [by destruct (get_list hx t)|].
        assert (q = p) as -> by by eapply dict_value_unique.
        rewrite Heq. rewrite bool_decide_eq_true_2 by done.
        by rewrite app_assoc.
      - split; [done|].
        assert (q ≠ p).
        { intros ->. apply Hnt. by eapply dict_unique. }
        rewrite bool_decide_eq_false_2 by done. by rewrite app_nil_r. }
    split.
    { intros q Hq Hne. destruct (decide (q = p)) as [->|Hqp].
      - apply list_elem_of_fmap. by exists (p, t).
      - apply HC; [done|]. rewrite bool_decide_eq_false_2 in Hne by done.
        by rewrite app_nil_r in Hne. }
    split; [done|].
    split.
    { intros l Hl. specialize (HE l Hl).
      destruct (decide (iid (get_indiv h l) = p)) as [Hlp|Hlp].
      - rewrite Hlp, Hget. apply Hset. rewrite <- Hlp.
        by apply member_has_entry.
      - assert (Hsame : get_indiv hx' l = get_indiv hx l).
        { apply Hother. intros Hm. apply Hlp.
          by apply (member_by_id l l p). }
        destruct (dict_get px (iid (get_indiv h l))) as [t'|].
        { by rewrite Hsame. }
        destruct HE as (Hc & Hd & Hempty & Hnot & Hrel).
        unfold kept. rewrite Hsame. repeat split; try done.
        + rewrite Hdom. by apply elem_of_union_r.
        + rewrite Hlist. rewrite decide_False; [done|].
          intros Heq. apply Hnot. by rewrite Heq. }
    destruct HF as (Hc & Hd & Hempty & Hnot & Hrel).
    assert (Hsame : get_indiv hx' n = get_indiv hx n).
    { apply Hother. intros Hm. apply Hnew.
      apply elem_of_members. exists p. by apply dict_get_Some. }
    unfold kept. rewrite Hsame. repeat split; try done.
    + rewrite Hdom. by apply elem_of_union_r.
    + rewrite Hlist. rewrite decide_False; [done|].
      intros Heq. apply Hnot. by rewrite Heq.
  - (* the parent gets a new list *)
    subst px'. set (t := new_loc hx) in *.
    assert (Hfresh : forall t', t' ∈ dom (lists hx) -> t' ≠ t).
    { intros t' Hd ->. by apply (new_loc_not_list hx). }
    assert (Hpk : p ∉ keys px) by by apply dict_get_None.
    assert (Htv : t ∉ map snd px).
    { intros Hin. apply list_elem_of_fmap in Hin as [[q t'] [Heq Hin]].
      simpl in Heq. subst t'. destruct (HB _ _ Hin) as (_ & Hd & _).
      by apply (Hfresh t). }
    assert (Hnone : children_of h (members fam) p ++ e p = []).
    { destruct (children_of h (members fam) p ++ e p) eqn:E; [done|].
      exfalso. apply Hpk, HC; [done|]. by rewrite E. }
    split.
    { unfold keys. rewrite fmap_app. apply NoDup_app. split; [done|].
      split; [|apply NoDup_singleton].
      intros q Hq Hq'. apply list_elem_of_singleton in Hq'. simpl in Hq'.
      by subst q. }
    split.
    { rewrite fmap_app. apply NoDup_app. split; [done|].
      split; [|apply NoDup_singleton].
      intros q Hq Hq'. apply list_elem_of_singleton in Hq'. simpl in Hq'.
      by subst q. }
    split.
    { intros q t' Hin. apply elem_of_app in Hin as [Hin | Hin].
      - destruct (HB _ _ Hin) as (Hq & Hd & Hne & Heq).
        assert (q ≠ p).
        { intros ->. apply Hpk. apply list_elem_of_fmap. by exists (p, t'). }
        split; [done|]. split.
        { rewrite Hdom. by apply elem_of_union_r. }
        rewrite Hlist. rewrite decide_False by by apply Hfresh.
        split; [done|].
        rewrite bool_decide_eq_false_2 by done. by rewrite app_nil_r.
      - apply list_elem_of_singleton in Hin. injection Hin as -> ->.
        split; [done|]. split.
        { rewrite Hdom. apply elem_of_union_l. by apply elem_of_singleton. }
        rewrite Hlist. rewrite decide_True by done. split; [done|].
        rewrite bool_decide_eq_true_2 by done.
        by rewrite app_assoc, Hnone. }
    split.
    { intros q Hq Hne. unfold keys. rewrite fmap_app.
      apply elem_of_app. destruct (decide (q = p)) as [->|Hqp].
      - right. by apply list_elem_of_singleton.
      - left. apply HC; [done|].
        rewrite bool_decide_eq_false_2 in Hne by done.
        by rewrite app_nil_r in Hne. }
    split; [done|].
    split.
    { intros l Hl. specialize (HE l Hl). rewrite dict_get_snoc.
      destruct (decide (iid (get_indiv h l) = p)) as [Hlp|Hlp].
      - rewrite Hlp, Hget. rewrite bool_decide_eq_true_2 by done.
        apply Hset. rewrite <- Hlp. by apply member_has_entry.
      - assert (Hsame : get_indiv hx' l = get_indiv hx l).
        { apply Hother. intros Hm. apply Hlp.
          by apply (member_by_id l l p). }
        destruct (dict_get px (iid (get_indiv h l))) as [t'|].
        { by rewrite Hsame. }
        rewrite bool_decide_eq_false_2 by done.
        destruct HE as (Hc & Hd & Hempty & Hnot & Hrel).
        unfold kept. rewrite Hsame. repeat split; try done.
        + rewrite Hdom. by apply elem_of_union_r.
        + rewrite Hlist. by rewrite decide_False by by apply Hfresh.
        + rewrite fmap_app. intros Hin.
          apply elem_of_app in Hin as [Hin | Hin]; [done|].
          apply list_elem_of_singleton in Hin. simpl in Hin.
          by apply (Hfresh _ Hd). }
    destruct HF as (Hc & Hd & Hempty & Hnot & Hrel).
    assert (Hsame : get_indiv hx' n = get_indiv hx n).
    { apply Hother. intros Hm. apply Hnew.
      apply elem_of_members. exists p. by apply dict_get_Some. }
    unfold kept. rewrite Hsame. repeat split; try done.
    + rewrite Hdom. by apply elem_of_union_r.
    + rewrite Hlist. by rewrite decide_False by by apply Hfresh.
    + rewrite fmap_app. intros Hin.
      apply elem_of_app in Hin as [Hin | Hin]; [done|].
      apply list_elem_of_singleton in Hin. simpl in Hin.
      by apply (Hfresh _ Hd).
Qed.

End LinkedTurns.
Section ParentedSteps.
Import Ped.

Lemma appended_other (x y : Individual) (t : loc) :
  t ≠ siblings x -> t ≠ half_siblings x ->
  t ≠ siblings y -> t ≠ half_siblings y -> appended x y t = [].
Proof.
  intros. unfold appended.
  destruct (full_sibs x y); [|destruct (half_sibs x y)];
    by rewrite ?decide_False by done.
Qed.

Lemma relate_loop_other (n : loc) (ls : list loc) (h : heap) (t : loc) :
  t ∉ relation_locs h ls ->
  t ≠ siblings (get_indiv h n) -> t ≠ half_siblings (get_indiv h n) ->
  get_list (foldl (relate n) h ls) t = get_list h t.
Proof.
  intros Hrel Hs Hh. rewrite relate_loop_get_list.
  assert (Hall : forall i, i ∈ ls ->
            appended (get_indiv h i) (get_indiv h n) t = []).
  { intros i Hi. apply appended_other; [| |done|done].
    - intros ->. apply Hrel, elem_of_relation_locs. exists i. tauto.
    - intros ->. apply Hrel, elem_of_relation_locs. exists i. tauto. }
  clear Hrel. induction ls as [|i ls IH]; simpl; [by rewrite app_nil_r|].
  rewrite (Hall i) by apply list_elem_of_here. simpl. apply IH.
  intros i' Hi'. by apply Hall, list_elem_of_further.
Qed.

Lemma names_ext (x x' : Individual) (p : scalar) :
  same_links x x' -> names x' p = names x p.
Proof. intros (Hi & Hf & Hm & _). unfold names. by rewrite Hi, Hf, Hm. Qed.

Lemma children_of_ext (h h' : heap) (ls : list loc) (p : scalar) :
  (forall l, l ∈ ls -> same_links (get_indiv h l) (get_indiv h' l)) ->
  children_of h' ls p = children_of h ls p.
Proof.
  unfold children_of. induction ls as [|l ls IH]; intros Hs; [done|].
  simpl. rewrite (names_ext (get_indiv h l)) by (apply Hs, list_elem_of_here).
  rewrite IH; [done|]. intros l' Hl'. by apply Hs, list_elem_of_further.
Qed.

Lemma children_of_app (h : heap) (ls ls' : list loc) (p : scalar) :
  children_of h (ls ++ ls') p = children_of h ls p ++ children_of h ls' p.
Proof. unfold children_of. by rewrite flat_map_app. Qed.

Lemma linked_ext (h : heap) (fam : Family) (n : loc) (hx : heap)
    (px : dict loc) (e e' : scalar -> list pyval) :
  (forall q, q ≠ unknown_parent -> e' q = e q) ->
  linked h fam n hx px e -> linked h fam n hx px e'.
Proof.
  intros Hext (Hk & Hv & HB & HC & HD & HE & HF).
  split; [done|]. split; [done|]. split.
  { intros p t Hin. destruct (HB _ _ Hin) as (Hp & Hd & Hne & Heq).
    by rewrite Hext. }
  split; [|done].
  intros p Hp. rewrite Hext by done. by apply HC.
Qed.

(** One turn of the loop over the parents, for any parent. *)
Lemma linked_any_turn (h : heap) (fam : Family) (n : loc) (hx : heap)
    (px : dict loc) (e : scalar -> list pyval) (p : scalar) :
  NoDup (keys (f_individuals fam)) ->
  (forall k l, (k, l) ∈ f_individuals fam -> iid (get_indiv h l) = k) ->
  n ∉ members fam ->
  linked h fam n hx px e ->
  linked h fam n (link_parent (f_individuals fam) n (hx, px) p).1
    (link_parent (f_individuals fam) n (hx, px) p).2
    (fun q => e q ++ if bool_decide (q = p)
                     then [of_scalar (iid (get_indiv h n))] else []).
Proof.
  intros Hkeys Hids Hnew Hl.
  destruct (decide (p = unknown_parent)) as [->|Hp].
  - rewrite link_parent_unknown. simpl. eapply linked_ext; [|done].
    intros q Hq. rewrite bool_decide_eq_false_2 by done.
    by rewrite app_nil_r.
  - destruct (link_parent (f_individuals fam) n (hx, px) p)
      as [hx' px'] eqn:Hrun.
    simpl. by eapply linked_turn.
Qed.

(** The invariant survives the growth of the store. *)
Lemma parented_frame (h h1 : heap) (fam : Family) :
  family_shape h fam -> extends h h1 ->
  family_parented h fam -> family_parented h1 fam.
Proof.
  intros Hshape Hext (Hk & Hv & HB & HC & HE).
  pose proof (members_frame h h1 fam Hshape Hext) as Hmem.
  assert (Hsame : forall l, l ∈ members fam ->
                    same_links (get_indiv h l) (get_indiv h1 l)).
  { intros l Hl. destruct (Hmem l Hl) as (-> & _). by repeat split. }
  assert (Hch : forall p, children_of h1 (members fam) p
                          = children_of h (members fam) p).
  { intros p. by apply children_of_ext. }
  split; [done|]. split; [done|]. split.
  { intros p t Hin. destruct (HB _ _ Hin) as (Hp & Hne & Heq).
    destruct (shape_parents h fam Hshape _ _ Hin) as (Hd & _).
    rewrite (extends_get_list h h1 t Hext Hd), Hch. done. }
  split.
  { intros p Hp. rewrite Hch. by apply HC. }
  intros l Hl. destruct (Hmem l Hl) as (Hi & _). rewrite Hi.
  specialize (HE l Hl).
  destruct (dict_get (f_parents fam) (iid (get_indiv h l))); [done|].
  destruct HE as (Hd & Hempty & Hnot & Hrel).
  unfold own_children. rewrite Hi.
  split; [by apply (extends_dom_lists h h1 Hext)|].
  split; [by rewrite (extends_get_list h h1 _ Hext Hd)|].
  split; [done|].
  by rewrite (relation_locs_ext h h1 (members fam) Hsame).
Qed.

End ParentedSteps.
Section ParentedStep.
Import Ped.

Lemma names_turns (x : Individual) (idy : pyval) (q : scalar) :
  idy = of_scalar (iid x) ->
  (([] ++ if bool_decide (q = mother x) then [idy] else [])
   ++ if bool_decide (q = father x) then [idy] else [])
  = names x q.
Proof.
  intros ->. unfold names. simpl.
  rewrite (bool_decide_ext (q = mother x) (mother x = q))
    by (split; congruence).
  by rewrite (bool_decide_ext (q = father x) (father x = q))
    by (split; congruence).
Qed.

(** [add_individual] keeps the invariant. *)
Lemma step_parented (h0 h h' : heap) (fam fam' : Family) (r : row)
    (n : loc) :
  family_shape h0 fam -> family_parented h0 fam -> extends h0 h ->
  made_from h0 h r n -> family_shape h fam -> family_parented h fam ->
  fresh_individual h fam n ->
  add_individual h fam n = inr (h', fam') ->
  family_parented h' fam'.
Proof.
  intros Hshape0 HP0 Hext Hmade Hshape HP Hfresh Hrun.
  pose proof (shape_keys h fam Hshape) as Hkeys.
  assert (Hids : forall k l, (k, l) ∈ f_individuals fam ->
                             iid (get_indiv h l) = k).
  { intros k l Hin. by apply (shape_members h fam Hshape). }
  destruct Hfresh as (Hnd & Hnew & Hsh & Hfr).
  destruct Hmade as (Hn0 & _ & _ & _ & _ & _ & _ & Hnd3 & Hnew3).
  destruct HP as (Hk & Hv & HB & HC & HE).
  pose proof (members_frame h0 h fam Hshape0 Hext) as Hmem0.
  set (y := get_indiv h n) in *.
  (* the lists of the individual are new *)
  assert (Hold : forall t, t ∈ dom (lists h0) ->
            t ≠ siblings y ∧ t ≠ half_siblings y ∧ t ≠ children y).
  { intros t Ht.
    assert (Ha : t ∈ allocated_locs h0).
    { unfold allocated_locs. apply elem_of_union. by left. }
    repeat split; intros ->;
      [apply (Hnew3 (siblings y)) | apply (Hnew3 (half_siblings y))
       | apply (Hnew3 (children y))]; try done.
    - apply list_elem_of_here.
    - apply list_elem_of_further, list_elem_of_here.
    - do 2 apply list_elem_of_further. apply list_elem_of_here. }
  assert (Hrel0 : relation_locs h (members fam)
                  = relation_locs h0 (members fam)).
  { apply relation_locs_ext. intros l Hl.
    destruct (Hmem0 l Hl) as (-> & _). by repeat split. }
  assert (Hrel : forall t, t ∈ relation_locs h (members fam ++ [n]) <->
                   t ∈ relation_locs h0 (members fam)
                   ∨ t = siblings y ∨ t = half_siblings y).
  { intros t. rewrite relation_locs_app, elem_of_app, Hrel0.
    unfold relation_locs at 2. simpl. fold y.
    rewrite elem_of_cons, elem_of_cons, elem_of_nil. tauto. }
  assert (Hcy : children y ∈ dom (lists h) ∧ get_list h (children y) = []
                ∧ (children y ∉ map snd (f_parents fam))
                ∧ (children y ∉ relation_locs h (members fam ++ [n]))).
  { destruct (Hnew3 (children y)) as (Hna & Hget).
    { do 2 apply list_elem_of_further. apply list_elem_of_here. }
    split; [by apply elem_of_dom; exists []|].
    split; [unfold get_list; by rewrite (lookup_total_correct _ _ _ Hget)|].
    split.
    { intros Hin. apply list_elem_of_fmap in Hin as [[k t] [Heq Hin]].
      simpl in Heq. subst t.
      destruct (shape_parents h0 fam Hshape0 _ _ Hin) as (Hd & _).
      by destruct (Hold _ Hd) as (_ & _ & ?). }
    rewrite Hrel. intros [Hin | [Heq | Heq]].
    - apply (shape_allocated h0 fam Hshape0) in Hin.
      by destruct (Hold _ Hin) as (_ & _ & ?).
    - apply NoDup_cons in Hnd3 as [Hnot _]. apply Hnot. rewrite <- Heq.
      apply list_elem_of_further, list_elem_of_here.
    - apply NoDup_cons in Hnd3 as [_ Hnd3].
      apply NoDup_cons in Hnd3 as [Hnot _]. apply Hnot. rewrite <- Heq.
      apply list_elem_of_here. }
  unfold add_individual in Hrun.
  destruct (dict_mem (f_individuals fam) (iid (get_indiv h n))) eqn:Hdup;
    [discriminate|].
  apply bool_decide_eq_false in Hdup. fold (keys (f_individuals fam)) in Hdup.
  set (ha := set_fid h n (f_fid fam)) in Hrun.
  set (hb := foldl (relate n) ha (dict_values (f_individuals fam))) in Hrun.
  cbn [foldl] in Hrun.
  assert (Hab : forall l, get_indiv hb l = get_indiv ha l).
  { intros l. apply get_indiv_indivs. apply relate_loop_indivs. }
  assert (Hla : forall l, same_links (get_indiv h l) (get_indiv ha l)).
  { intros l. apply set_fid_links. }
  assert (Hca : forall l, children (get_indiv ha l)
                          = children (get_indiv h l)).
  { intros l. unfold ha. destruct (decide (l = n)) as [->|Hne].
    - by rewrite get_indiv_set_fid.
    - by rewrite get_indiv_set_fid_ne. }
  assert (Hquiet : forall t, t ∈ dom (lists h) ->
            t ∉ relation_locs h (members fam ++ [n]) ->
            t ∈ dom (lists hb) ∧ get_list hb t = get_list h t).
  { intros t Hd Hnot. split.
    { by apply (relate_loop_dom n (dict_values (f_individuals fam)) ha). }
    unfold hb. rewrite relate_loop_other.
    - done.
    - rewrite (relation_locs_ext h ha) by (intros; apply Hla).
      intros Hin. apply Hnot. rewrite relation_locs_app.
      apply elem_of_app. by left.
    - destruct (Hla n) as (_ & _ & _ & -> & _). fold y.
      intros ->. apply Hnot, Hrel. tauto.
    - destruct (Hla n) as (_ & _ & _ & _ & ->). fold y.
      intros ->. apply Hnot, Hrel. tauto. }
  assert (Hpar : forall k t, (k, t) ∈ f_parents fam ->
            t ∈ dom (lists h)
            ∧ t ∉ relation_locs h (members fam ++ [n])).
  { intros k t Hin.
    destruct (shape_parents h fam Hshape _ _ Hin) as (Hd & Hnr & _).
    split; [done|]. rewrite relation_locs_app, elem_of_app.
    intros [? | Hin']; [done|]. unfold relation_locs in Hin'.
    simpl in Hin'. fold y in Hin'.
    rewrite elem_of_cons, elem_of_cons, elem_of_nil in Hin'.
    destruct Hin' as [-> | [-> | []]].
    - destruct (Hfr (siblings y)) as (_ & _ & _ & _ & Hno); [by left|].
      by apply (Hno k).
    - destruct (Hfr (half_siblings y)) as (_ & _ & _ & _ & Hno);
        [by right|].
      by apply (Hno k). }
  assert (Hl0 : linked h fam n hb (f_parents fam) (fun _ => [])).
  { split; [done|]. split; [done|]. split.
    { intros p t Hin. destruct (HB _ _ Hin) as (Hp & Hne & Heq).
      destruct (Hpar _ _ Hin) as (Hd & Hnr).
      destruct (Hquiet t Hd Hnr) as (Hdb & ->).
      by rewrite app_nil_r. }
    split.
    { intros p Hp. rewrite app_nil_r. by apply HC. }
    split.
    { intros l. by rewrite Hab. }
    split.
    { intros l Hl. specialize (HE l Hl).
      destruct (dict_get (f_parents fam) (iid (get_indiv h l))) eqn:Hget.
      - by rewrite Hab, Hca.
      - destruct HE as (Hd & Hempty & Hnot & Hnr).
        assert (Hnr' : children (get_indiv h l)
                       ∉ relation_locs h (members fam ++ [n])).
        { rewrite Hrel. rewrite <- Hrel0.
          intros [? | Heq]; [done|].
          destruct HP0 as (_ & _ & _ & _ & HE0). specialize (HE0 l Hl).
          destruct (Hmem0 l Hl) as (Hi & _). rewrite <- Hi in HE0.
          rewrite Hget in HE0. destruct HE0 as (Hd0 & _).
          destruct (Hold _ Hd0) as (Hx1 & Hx2 & _). rewrite Hi in Heq.
          by destruct Heq. }
        destruct (Hquiet _ Hd Hnr') as (Hdb & Hgb).
        unfold kept. rewrite Hab, Hca, Hgb. done. }
    destruct Hcy as (Hd & Hempty & Hnot & Hnr).
    destruct (Hquiet _ Hd Hnr) as (Hdb & Hgb).
    unfold kept. fold y. rewrite Hab, Hca, Hgb. done. }
  assert (Hyb : same_links y (get_indiv hb n)).
  { rewrite Hab. apply Hla. }
  destruct Hyb as (Hyi & Hyf & Hym & _).
  rewrite Hyi, Hyf, Hym in Hrun.
  pose proof (linked_any_turn h fam n hb (f_parents fam) _ (mother y)
                Hkeys Hids Hnew Hl0) as Hl1.
  destruct (link_parent (f_individuals fam) n (hb, f_parents fam) (mother y))
    as [h1 p1].
  simpl in Hl1.
  pose proof (linked_any_turn h fam n h1 p1 _ (father y)
                Hkeys Hids Hnew Hl1) as Hl2.
  destruct (link_parent (f_individuals fam) n (h1, p1) (father y))
    as [h2 p2].
  simpl in Hl2.
  eapply linked_ext in Hl2;
    [|intros q _; symmetry; apply (names_turns y); reflexivity].
  destruct Hl2 as (Hk2 & Hv2 & HB2 & HC2 & HD2 & HE2 & HF2).
  set (hfin := match dict_get p2 (iid y) with
               | Some l => set_children h2 n l
               | None => h2
               end) in Hrun.
  injection Hrun as <- <-.
  assert (Hlists : lists hfin = lists h2).
  { unfold hfin. by destruct (dict_get p2 (iid y)). }
  assert (Hgl : forall t, get_list hfin t = get_list h2 t).
  { intros t. unfold get_list. by rewrite Hlists. }
  assert (Hlinks : forall l, same_links (get_indiv h l) (get_indiv hfin l)).
  { intros l. eapply same_links_trans; [apply HD2|].
    unfold hfin. destruct (dict_get p2 (iid y)).
    - apply same_person_links, set_children_person.
    - by repeat split. }
  assert (Hkeep : forall l, l ≠ n -> get_indiv hfin l = get_indiv h2 l).
  { intros l Hne. unfold hfin. destruct (dict_get p2 (iid y)); [|done].
    rewrite get_indiv_set_children. by rewrite decide_False. }
  assert (Hmembers : members
            {| f_fid := f_fid fam;
               f_individuals := dict_set (f_individuals fam) (iid y) n;
               f_parents := p2; f_founder := f_founder fam |}
          = members fam ++ [n]).
  { unfold members, dict_values. simpl.
    rewrite dict_set_fresh by done. by rewrite fmap_app. }
  assert (Hch : forall p,
            children_of hfin (members fam ++ [n]) p
            = children_of h (members fam) p ++ names y p).
  { intros p. rewrite (children_of_ext h hfin) by (intros; apply Hlinks).
    rewrite children_of_app. unfold children_of at 2. simpl.
    by rewrite app_nil_r. }
  assert (Hrl : relation_locs hfin (members fam ++ [n])
                = relation_locs h (members fam ++ [n])).
  { apply relation_locs_ext. intros; apply Hlinks. }
  unfold family_parented. rewrite Hmembers. simpl.
  split; [done|]. split; [done|]. split.
  { intros p t Hin. destruct (HB2 _ _ Hin) as (Hp & Hd & Hne & Heq).
    by rewrite Hgl, Hch. }
  split.
  { intros p Hp. rewrite Hch. by apply HC2. }
  intros l Hl. destruct (Hlinks l) as (Hi & _). rewrite Hi.
  apply elem_of_app in Hl as [Hl | Hl].
  - assert (l ≠ n) by (by intros ->).
    specialize (HE2 l Hl). rewrite Hkeep by done.
    destruct (dict_get p2 (iid (get_indiv h l))); [done|].
    destruct HE2 as (Hc & Hd & Hempty & Hnot & Hnr).
    unfold own_children. rewrite Hkeep by done. simpl.
    rewrite Hmembers, Hrl, Hc, Hgl, Hlists. done.
  - apply list_elem_of_singleton in Hl. subst l. fold y.
    destruct HF2 as (Hc & Hd & Hempty & Hnot & Hnr). fold y in Hc, Hd, Hempty, Hnot, Hnr.
    unfold own_children, hfin.
    destruct (dict_get p2 (iid y)) as [t|] eqn:Hget.
    + rewrite get_indiv_set_children. by rewrite decide_True.
    + simpl. rewrite Hmembers.
      assert (hfin = h2) as Hfin by done.
      rewrite Hfin in Hrl. rewrite Hrl, Hc. done.
Qed.

End ParentedStep.
Section ChildrenOfRows.
Import Ped.

Lemma names_nonempty (x : Individual) (p : scalar) :
  names x p ≠ [] <-> mother x = p ∨ father x = p.
Proof.
  unfold names.
  destruct (decide (mother x = p)) as [Hm|Hm];
    destruct (decide (father x = p)) as [Hf|Hf];
    rewrite ?(bool_decide_eq_true_2 _ Hm), ?(bool_decide_eq_false_2 _ Hm),
      ?(bool_decide_eq_true_2 _ Hf), ?(bool_decide_eq_false_2 _ Hf);
    simpl; split; try tauto; try done.
Qed.

Lemma children_of_nonempty (h : heap) (ls : list loc) (p : scalar) :
  children_of h ls p ≠ [] <->
  exists l, l ∈ ls ∧ (mother (get_indiv h l) = p ∨ father (get_indiv h l) = p).
Proof.
  unfold children_of. induction ls as [|l ls IH]; simpl.
  - split; [done|]. intros (l & Hl & _). by apply elem_of_nil in Hl.
  - split.
    + intros Hne.
      destruct (names (get_indiv h l) p) eqn:E.
      * simpl in Hne. apply IH in Hne as (l' & Hl' & Hp).
        exists l'. split; [by apply list_elem_of_further|done].
      * exists l. split; [apply list_elem_of_here|].
        apply names_nonempty. by rewrite E.
    + intros (l' & Hl' & Hp). apply elem_of_cons in Hl' as [-> | Hl'].
      * apply names_nonempty in Hp.
        by destruct (names (get_indiv h l) p).
      * intros Happ. apply app_eq_nil in Happ as [_ Happ].
        revert Happ. apply IH. by exists l'.
Qed.

Lemma new_family_parented (h : heap) (fid_ : scalar) :
  family_parented h (new_family fid_).
Proof.
  unfold family_parented, new_family, members, dict_values. simpl.
  split; [apply NoDup_nil_2|]. split; [apply NoDup_nil_2|].
  split; [intros p t Hin; by apply elem_of_nil in Hin|].
  split; [done|].
  intros l Hl. by apply elem_of_nil in Hl.
Qed.

(** X13.  The attribute [children] in a family that starts empty and is
    filled by [add_individual] with individuals built from six columns.
    [self.parents] has a key for each known parent that a member names and
    for nothing else, and its list holds the identifiers of the members
    that name the parent, in the order in which they were added - twice
    for a member that names it as mother and as father.  A member whose
    identifier is such a key has that very list object as its [children],
    whether it was added before or after those who name it; any other
    member has an empty [children]. *)
Theorem children_are_those_who_name (h : heap) (fid_ : scalar)
    (rows : list row) :
  defaults_empty h ->
  let h' := (add_rows (h, new_family fid_) rows).1 in
  let fam := (add_rows (h, new_family fid_) rows).2 in
  (forall p, p ∈ keys (f_parents fam) <->
     p ≠ unknown_parent
     ∧ exists l, l ∈ members fam
                 ∧ (mother (get_indiv h' l) = p
                    ∨ father (get_indiv h' l) = p))
  ∧ (forall p t, (p, t) ∈ f_parents fam ->
       get_list h' t = children_of h' (members fam) p)
  ∧ (forall m, m ∈ members fam ->
       kids h' m
       = (if bool_decide (iid (get_indiv h' m) = unknown_parent) then []
          else children_of h' (members fam) (iid (get_indiv h' m)))
       ∧ forall t,
           dict_get (f_parents fam) (iid (get_indiv h' m)) = Some t ->
           children (get_indiv h' m) = t).
Proof.
  intros Hdef h' fam.
  destruct (new_family_shape h fid_ Hdef) as [Hshape Hcons].
  destruct (add_rows_invariant family_parented parented_frame step_parented
              rows h (new_family fid_) Hshape Hcons
              (new_family_parented h fid_))
    as (_ & _ & HP).
  fold h' fam in HP. destruct HP as (Hk & Hv & HB & HC & HE).
  split.
  { intros p. rewrite <- children_of_nonempty. split.
    - intros Hin. apply list_elem_of_fmap in Hin as [[p' t] [Heq Hin]].
      simpl in Heq. subst p'.
      destruct (HB _ _ Hin) as (Hp & Hne & Heq). by rewrite <- Heq.
    - intros [Hp Hne]. by apply HC. }
  split.
  { intros p t Hin. by apply (HB _ _ Hin). }
  intros m Hm. specialize (HE m Hm).
  destruct (dict_get (f_parents fam) (iid (get_indiv h' m))) as [t|] eqn:Hget.
  - apply dict_get_Some in Hget. destruct (HB _ _ Hget) as (Hp & _ & Heq).
    rewrite bool_decide_eq_false_2 by done. unfold kids. rewrite HE.
    split; [done|]. by intros t' [= <-].
  - destruct HE as (_ & Hempty & _). unfold kids. rewrite Hempty.
    split; [|done].
    destruct (decide (iid (get_indiv h' m) = unknown_parent)) as [Hu|Hu].
    { by rewrite bool_decide_eq_true_2. }
    rewrite bool_decide_eq_false_2 by done.
    destruct (children_of h' (members fam) (iid (get_indiv h' m))) eqn:E;
      [done|].
    exfalso. apply dict_get_None in Hget. apply Hget, HC; [done|].
    by rewrite E.
Qed.

(** A child, then its father and its mother, then a second child: the
    parents, added after the first child, list both children. *)
Lemma children_are_those_who_name_witness :
  let st := add_rows (module_heap, new_family (SStr "F1")) child_first in
  map (id_of st.1) (members st.2)
  = [VStr "C"; VStr "F"; VStr "M"; VStr "D"]
  ∧ map (kids st.1) (members st.2)
    = [[]; [VStr "C"; VStr "D"]; [VStr "C"; VStr "D"]; []]
  ∧ forall m, m ∈ members st.2 ->
      kids st.1 m
      = if bool_decide (iid (get_indiv st.1 m) = unknown_parent) then []
        else children_of st.1 (members st.2) (iid (get_indiv st.1 m)).
Proof.
  split; [vm_compute; reflexivity|]. split; [vm_compute; reflexivity|].
  intros m Hm.
  apply (children_are_those_who_name module_heap (SStr "F1") child_first);
    [repeat split; reflexivity|done].
Defined.

End ChildrenOfRows.
Section PrefixText.
Import Prefixes.

Lemma list_ascii_app (a b : string) :
  list_ascii_of_string (a +:+ b)
  = list_ascii_of_string a ++ list_ascii_of_string b.
Proof. induction a as [|c a IH]; simpl; [done|]. by rewrite <- IH. Qed.

Lemma string_of_list_app (a b : list ascii) :
  string_of_list_ascii (a ++ b)
  = string_of_list_ascii a +:+ string_of_list_ascii b.
Proof. induction a as [|c a IH]; simpl; [done|]. by rewrite IH. Qed.

Lemma at_end_length (l : list ascii) : at_end l = true -> (length l <= 1)%nat.
Proof. destruct l as [|c [|c' l]]; simpl; intros; (lia || done). Qed.

Lemma at_end_cases (l : list ascii) :
  at_end l = true <-> l = [] ∨ l = [newline].
Proof.
  destruct l as [|c [|c' l]]; simpl.
  - tauto.
  - rewrite bool_decide_eq_true. split; [intros ->; tauto|].
    intros [|[= ->]]; done.
  - split; [done|]. intros [|]; done.
Qed.

Lemma span_digits_spec (l : list ascii) :
  l = (span_digits l).1 ++ (span_digits l).2
  ∧ all_digits (span_digits l).1
  ∧ match (span_digits l).2 with
    | c :: _ => is_digit c = false
    | [] => True
    end.
Proof.
  induction l as [|c l (IH1 & IH2 & IH3)]; simpl.
  - repeat split. constructor.
  - destruct (is_digit c) eqn:Hc.
    + destruct (span_digits l) as [d r]. simpl in *.
      split; [by rewrite <- IH1|]. split; [by constructor|done].
    + simpl. repeat split; [constructor|done].
Qed.

Lemma span_digits_app (d r : list ascii) :
  all_digits d ->
  match r with c :: _ => is_digit c = false | [] => True end ->
  span_digits (d ++ r) = (d, r).
Proof.
  intros Hd Hr. induction Hd as [|c d Hc Hd IH]; simpl.
  - destruct r as [|c r]; [done|]. simpl. by rewrite Hr.
  - by rewrite Hc, IH.
Qed.

Lemma span_digits_rest (a b : list ascii) (c : ascii) :
  is_digit c = false ->
  (S (length b) <= length (span_digits (a ++ c :: b)).2)%nat.
Proof.
  intros Hc. induction a as [|x a IH]; simpl.
  - rewrite Hc. simpl. lia.
  - destruct (is_digit x).
    + destruct (span_digits (a ++ c :: b)) as [d r]. simpl in *. lia.
    + simpl. rewrite length_app. simpl. lia.
Qed.

Lemma match_digits_end_here (d nl : list ascii) :
  d ≠ [] -> all_digits d -> at_end nl = true ->
  match_digits_end (d ++ nl) = Some d.
Proof.
  intros Hne Hd Hnl. unfold match_digits_end.
  rewrite span_digits_app; [|done|].
  - destruct d; [done|]. by rewrite Hnl.
  - apply at_end_cases in Hnl as [-> | ->]; done.
Qed.

Lemma match_digits_end_before (a d nl : list ascii) :
  d ≠ [] -> match_digits_end (a ++ "_"%char :: d ++ nl) = None.
Proof.
  intros Hne. unfold match_digits_end.
  pose proof (span_digits_rest a (d ++ nl) "_"%char eq_refl) as Hlen.
  destruct (span_digits (a ++ "_"%char :: d ++ nl)) as [ds r].
  simpl in Hlen. destruct ds; [done|].
  destruct (at_end r) eqn:E; [|done].
  apply at_end_length in E. rewrite length_app in Hlen.
  destruct d; [done|]. simpl in Hlen. lia.
Qed.

(** [re.search] finds the digits after the last underscore of a name that
    ends in them. *)
Lemma re_search_complete (stem d nl : list ascii) :
  d ≠ [] -> all_digits d -> at_end nl = true ->
  re_search (stem ++ "_"%char :: d ++ nl) = Some d.
Proof.
  intros Hne Hd Hnl. induction stem as [|c stem IH]; simpl.
  - by rewrite match_digits_end_here.
  - destruct (bool_decide (c = "_"%char)); [|done].
    by rewrite match_digits_end_before.
Qed.

Lemma match_digits_end_sound (l d : list ascii) :
  match_digits_end l = Some d ->
  exists nl, l = d ++ nl ∧ d ≠ [] ∧ all_digits d ∧ at_end nl = true.
Proof.
  unfold match_digits_end.
  destruct (span_digits_spec l) as (Hl & Hd & _).
  destruct (span_digits l) as [ds r]. simpl in *.
  destruct ds as [|c ds]; [done|].
  destruct (at_end r) eqn:E; [|done].
  intros [= <-]. by exists r.
Qed.

Lemma re_search_sound (l d : list ascii) :
  re_search l = Some d ->
  exists stem nl,
    l = stem ++ "_"%char :: d ++ nl
    ∧ d ≠ [] ∧ all_digits d ∧ at_end nl = true.
Proof.
  induction l as [|c l IH]; simpl; [done|].
  destruct (bool_decide (c = "_"%char)) eqn:Hc.
  - apply bool_decide_eq_true in Hc. subst c.
    destruct (match_digits_end l) as [d'|] eqn:Hm.
    + intros [= ->]. apply match_digits_end_sound in Hm
        as (nl & -> & ? & ? & ?).
      by exists [], nl.
    + intros Hs. destruct (IH Hs) as (stem & nl & -> & ? & ? & ?).
      by exists ("_"%char :: stem), nl.
  - intros Hs. destruct (IH Hs) as (stem & nl & -> & ? & ? & ?).
    by exists (c :: stem), nl.
Qed.

Lemma is_prefix_app (d l : list ascii) : is_prefix d (d ++ l) = true.
Proof.
  induction d as [|c d IH]; simpl; [done|].
  by rewrite bool_decide_eq_true_2.
Qed.

(** [re.sub] replaces the digits at the end and nothing else. *)
Lemma re_sub_spec (stem d repl nl : list ascii) :
  d ≠ [] -> all_digits d -> at_end nl = true ->
  re_sub d repl (stem ++ "_"%char :: d ++ nl)
  = stem ++ "_"%char :: repl ++ nl.
Proof.
  intros Hne Hd Hnl.
  assert (Hhere : re_sub d repl (d ++ nl) = repl ++ nl).
  { destruct d as [|c d]; [done|].
    change ((c :: d) ++ nl) with (c :: (d ++ nl)).
    cbn [re_sub].
    change (c :: (d ++ nl)) with ((c :: d) ++ nl).
    by rewrite is_prefix_app, drop_app_length, Hnl. }
  induction stem as [|c stem IH].
  - simpl app. cbn [re_sub].
    assert (is_prefix d ("_"%char :: d ++ nl) = false) as ->.
    { destruct d as [|c d]; [done|]. simpl.
      apply Forall_cons in Hd as [Hc _].
      rewrite bool_decide_eq_false_2; [done|]. by intros ->. }
    simpl. by rewrite Hhere.
  - change ((c :: stem) ++ "_"%char :: d ++ nl)
      with (c :: (stem ++ "_"%char :: d ++ nl)).
    cbn [re_sub].
    assert (at_end (drop (length d) (c :: stem ++ "_"%char :: d ++ nl))
            = false) as ->.
    { destruct (at_end (drop (length d)
                          (c :: stem ++ "_"%char :: d ++ nl))) eqn:E; [|done].
      apply at_end_length in E. rewrite length_drop in E. simpl in E.
      rewrite length_app in E. simpl in E. rewrite length_app in E. lia. }
    rewrite andb_false_r. by rewrite IH.
Qed.

End PrefixText.
Section PrefixNumbers.
Import Prefixes.

Lemma digit_range (c : ascii) (x : Z) :
  Ped.digit_of c = Some x ->
  0 <= x <= 9 ∧ (48 <= nat_of_ascii c <= 57)%nat.
Proof.
  unfold Ped.digit_of.
  destruct ((48 <=? nat_of_ascii c)%nat && (nat_of_ascii c <=? 57)%nat)
    eqn:E; [|done].
  apply andb_true_iff in E as [E1 E2].
  apply Nat.leb_le in E1, E2. intros [= <-]. lia.
Qed.

Lemma digit_not_space (c : ascii) :
  is_digit c = true -> Ped.is_int_space c = false.
Proof.
  unfold is_digit. destruct (Ped.digit_of c) as [x|] eqn:Hx; [|done].
  intros _. apply digit_range in Hx as [_ Hx]. unfold Ped.is_int_space.
  repeat (apply orb_false_iff; split).
  - apply andb_false_iff. right. apply Nat.leb_gt. lia.
  - apply Nat.eqb_neq. lia.
  - apply Nat.eqb_neq. lia.
  - apply Nat.eqb_neq. lia.
Qed.

Lemma lstrip_digits (d : list ascii) : all_digits d -> Ped.int_lstrip d = d.
Proof.
  intros Hd. destruct Hd as [|c d Hc Hd]; [done|].
  simpl. by rewrite (digit_not_space c Hc).
Qed.

Lemma strip_digits (d : list ascii) : all_digits d -> Ped.int_strip d = d.
Proof.
  intros Hd. unfold Ped.int_strip. rewrite (lstrip_digits d Hd).
  rewrite lstrip_digits; [by rewrite rev_involutive|].
  by apply Forall_rev.
Qed.

Lemma parse_digits_digits (d : list ascii) :
  all_digits d -> forall acc b,
  d ≠ [] ∨ b = true ->
  Ped.parse_digits d acc b = Some (digits_value d acc).
Proof.
  induction 1 as [|c d Hc Hd IH]; intros acc b Hb.
  - destruct Hb as [? | ->]; done.
  - simpl. unfold is_digit in Hc.
    destruct (Ped.digit_of c) as [x|] eqn:Hx; [|done].
    simpl. apply IH. by right.
Qed.

Lemma digits_value_nonneg (d : list ascii) :
  forall acc, 0 <= acc -> 0 <= digits_value d acc.
Proof.
  induction d as [|c d IH]; intros acc Hacc; simpl; [done|].
  apply IH. destruct (Ped.digit_of c) as [x|] eqn:Hx; simpl; [|lia].
  apply digit_range in Hx. lia.
Qed.

Lemma digits_value_app (a b : list ascii) (acc : Z) :
  digits_value (a ++ b) acc = digits_value b (digits_value a acc).
Proof. revert acc. induction a as [|c a IH]; intros acc; simpl; [done|]. apply IH. Qed.

(** [int] of a string of digits. *)
Lemma int_of_digits (d : list ascii) :
  d ≠ [] -> all_digits d ->
  Ped.int_of_string (string_of_list_ascii d) = Some (digits_value d 0).
Proof.
  intros Hne Hd. unfold Ped.int_of_string.
  rewrite list_ascii_of_string_of_list_ascii, (strip_digits d Hd).
  destruct d as [|c d]; [done|].
  apply Forall_cons in Hd as Hd'. destruct Hd' as [Hc _].
  transitivity (Ped.parse_digits (c :: d) 0 false).
  - destruct c as [[] [] [] [] [] [] [] []]; try reflexivity;
      by vm_compute in Hc.
  - apply parse_digits_digits; [done|by left].
Qed.

Lemma pretty_char_digit (m : N) :
  (m < 10)%N -> Ped.digit_of (pretty_N_char m) = Some (Z.of_N m).
Proof.
  intros Hm.
  assert (m = 0 ∨ m = 1 ∨ m = 2 ∨ m = 3 ∨ m = 4 ∨ m = 5 ∨ m = 6 ∨ m = 7
          ∨ m = 8 ∨ m = 9)%N as Hcases by lia.
  repeat (destruct Hcases as [-> | Hcases]; [reflexivity|]).
  by subst m.
Qed.

(** What [pretty_N_go] puts before its accumulator: the digits of the
    number. *)
Lemma pretty_N_go_digits (x : N) :
  forall s, exists d,
    list_ascii_of_string (pretty_N_go x s) = d ++ list_ascii_of_string s
    ∧ all_digits d ∧ ((0 < x)%N -> d ≠ [])
    ∧ forall acc,
        digits_value d acc = acc * 10 ^ Z.of_nat (length d) + Z.of_N x.
Proof.
  induction (N.lt_wf_0 x) as [x _ IH]. intros s.
  destruct (decide (x = 0)%N) as [->|Hx].
  - exists []. rewrite pretty_N_go_0.
    split; [done|]. split; [constructor|]. split; [lia|].
    intros acc. simpl. lia.
  - rewrite pretty_N_go_step by lia.
    destruct (IH (x `div` 10)%N
                (N.div_lt x 10 ltac:(lia) ltac:(lia))
                (String (pretty_N_char (x `mod` 10)) s))
      as (d & Hd & Hall & _ & Hval).
    exists (d ++ [pretty_N_char (x `mod` 10)]).
    split; [by rewrite Hd, <- app_assoc|].
    assert (Hm : (x `mod` 10 < 10)%N) by (apply N.mod_lt; lia).
    split.
    { apply Forall_app. split; [done|]. constructor; [|constructor].
      unfold is_digit. by rewrite (pretty_char_digit _ Hm). }
    split.
    { intros _. by destruct d. }
    intros acc. rewrite digits_value_app, Hval. simpl.
    rewrite (pretty_char_digit _ Hm). simpl.
    rewrite length_app. simpl.
    replace (Z.of_nat (length d + 1)) with (Z.succ (Z.of_nat (length d)))
      by lia.
    rewrite Z.pow_succ_r by lia.
    rewrite N2Z.inj_div, N2Z.inj_mod. simpl Z.of_N.
    pose proof (Z.div_mod (Z.of_N x) 10 ltac:(lia)). lia.
Qed.

(** [str] of a number that is not negative is a string of digits, and
    [int] reads the number back from it. *)
Lemma str_of_number (z : Z) :
  0 <= z ->
  let d := list_ascii_of_string (pretty z) in
  d ≠ [] ∧ all_digits d ∧ digits_value d 0 = z.
Proof.
  intros Hz. destruct z as [|p|p]; [| |lia].
  - repeat split; [done|by repeat constructor].
  - cbv zeta.
    change (pretty (Z.pos p)) with (pretty_N_go (N.pos p) "").
    destruct (pretty_N_go_digits (N.pos p) "") as (d & Hd & Hall & Hne & Hval).
    simpl in Hd. rewrite app_nil_r in Hd. rewrite Hd.
    split; [by apply Hne|]. split; [done|].
    rewrite Hval. simpl. lia.
Qed.

End PrefixNumbers.
Section PrefixCalls.
Import Prefixes.

Lemma next_name_numbered (name : string) (stem d nl : list ascii) :
  list_ascii_of_string name = stem ++ "_"%char :: d ++ nl ->
  d ≠ [] -> all_digits d -> at_end nl = true ->
  next_name name
  = inr (string_of_list_ascii
           (stem ++ "_"%char
              :: list_ascii_of_string (pretty (digits_value d 0 + 1)) ++ nl))
  ∧ suffix_number name = digits_value d 0.
Proof.
  intros Hname Hne Hd Hnl. unfold next_name, suffix_number.
  rewrite Hname, (re_search_complete stem d nl Hne Hd Hnl).
  rewrite (int_of_digits d Hne Hd).
  by rewrite (re_sub_spec stem d _ nl Hne Hd Hnl).
Qed.

(** The method always has a next name to try, and its number is the next
    number. *)
Lemma next_name_steps (name : string) :
  exists name',
    next_name name = inr name'
    ∧ suffix_number name' = suffix_number name + 1
    ∧ 0 <= suffix_number name.
Proof.
  destruct (re_search (list_ascii_of_string name)) as [d|] eqn:Hs.
  - destruct (re_search_sound _ _ Hs) as (stem & nl & Hname & Hne & Hd & Hnl).
    destruct (next_name_numbered name stem d nl Hname Hne Hd Hnl)
      as [Hnext Hnum].
    pose proof (digits_value_nonneg d 0 ltac:(lia)) as Hpos.
    destruct (str_of_number (digits_value d 0 + 1) ltac:(lia))
      as (Hne' & Hd' & Hval).
    eexists. split; [exact Hnext|]. rewrite Hnum. split; [|done].
    unfold suffix_number.
    rewrite list_ascii_of_string_of_list_ascii.
    rewrite (re_search_complete stem _ nl Hne' Hd' Hnl).
    by rewrite (int_of_digits _ Hne' Hd'), Hval.
  - exists (name +:+ "_1"). unfold next_name, suffix_number. rewrite Hs.
    split; [done|]. split; [|done].
    rewrite list_ascii_app.
    change (list_ascii_of_string "_1") with ("_"%char :: ["1"%char] ++ []).
    rewrite (re_search_complete (list_ascii_of_string name) ["1"%char] []);
      [done|done|by repeat constructor|done].
Qed.

Lemma not_below_next (name name' : string) (info_prefixes : gset string) :
  name ∈ info_prefixes ->
  suffix_number name' = suffix_number name + 1 ->
  (size (not_below name' info_prefixes)
   < size (not_below name info_prefixes))%nat.
Proof.
  intros Hin Hnum. apply subset_size. unfold not_below. split.
  - intros s. rewrite !elem_of_filter. rewrite Hnum. intros [? ?].
    split; [lia|done].
  - intros Hsub. specialize (Hsub name).
    rewrite !elem_of_filter in Hsub. rewrite Hnum in Hsub.
    destruct Hsub; [split; [lia|done]|]. lia.
Qed.

(** A call that is allowed more nested calls than there are names in use
    returns the first candidate that is not in use. *)
Lemma check_info_prefix_returns (depth : nat) :
  forall (info_prefixes : gset string) (name : string),
  (size (not_below name info_prefixes) < depth)%nat ->
  exists j,
    check_info_prefix depth info_prefixes name
    = inr ({[candidate name j]} ∪ info_prefixes, candidate name j)
    ∧ (candidate name j ∉ info_prefixes)
    ∧ (forall i, (i < j)%nat -> candidate name i ∈ info_prefixes)
    ∧ (j <= size (not_below name info_prefixes))%nat.
Proof.
  induction depth as [|depth IH]; intros info_prefixes name Hsize; [lia|].
  simpl. destruct (decide (name ∈ info_prefixes)) as [Hin|Hin].
  - rewrite bool_decide_eq_true_2 by done.
    destruct (next_name_steps name) as (name' & Hnext & Hnum & _).
    rewrite Hnext.
    pose proof (not_below_next name name' info_prefixes Hin Hnum) as Hlt.
    destruct (IH info_prefixes name' ltac:(lia)) as (j & Hrun & Hfree & Hused & Hj).
    exists (S j). simpl. rewrite Hnext.
    split; [done|]. split; [done|]. split; [|lia].
    intros [|i] Hi; simpl; [done|]. rewrite Hnext. apply Hused. lia.
  - rewrite bool_decide_eq_false_2 by done.
    exists 0%nat. simpl. split; [done|]. split; [done|].
    split; [|lia]. intros i Hi. lia.
Qed.

(** A call that returns has handed out a name that was not in use, and
    has registered it. *)
Lemma check_info_prefix_sound (depth : nat) :
  forall (info_prefixes info_prefixes' : gset string) (name prefix : string),
  check_info_prefix depth info_prefixes name = inr (info_prefixes', prefix) ->
  (prefix ∉ info_prefixes) ∧ info_prefixes' = {[prefix]} ∪ info_prefixes.
Proof.
  induction depth as [|depth IH]; intros S0 S1 name prefix; simpl; [done|].
  destruct (decide (name ∈ S0)) as [Hin|Hin].
  - rewrite bool_decide_eq_true_2 by done.
    destruct (next_name name) as [e|name']; [done|]. apply IH.
  - rewrite bool_decide_eq_false_2 by done. by intros [= <- <-].
Qed.

Lemma numbered_text (stem : string) (k : Z) :
  list_ascii_of_string (numbered stem k)
  = list_ascii_of_string stem
    ++ "_"%char :: list_ascii_of_string (pretty k) ++ [].
Proof.
  unfold numbered. rewrite !list_ascii_app. simpl. by rewrite app_nil_r.
Qed.

Lemma next_name_of_numbered (stem : string) (k : Z) :
  0 <= k -> next_name (numbered stem k) = inr (numbered stem (k + 1)).
Proof.
  intros Hk. destruct (str_of_number k Hk) as (Hne & Hd & Hval).
  destruct (next_name_numbered (numbered stem k)
              (list_ascii_of_string stem)
              (list_ascii_of_string (pretty k)) []
              (numbered_text stem k) Hne Hd eq_refl) as [-> _].
  rewrite Hval. f_equal. rewrite <- numbered_text.
  apply string_of_list_ascii_of_string.
Qed.

Lemma candidate_numbered (stem : string) (j : nat) :
  forall k, 0 <= k ->
  candidate (numbered stem k) j = numbered stem (k + Z.of_nat j).
Proof.
  induction j as [|j IH]; intros k Hk.
  - simpl. by rewrite Z.add_0_r.
  - cbn [candidate]. rewrite next_name_of_numbered by done.
    rewrite IH by lia. f_equal. lia.
Qed.

Lemma candidate_plain (name : string) (j : nat) :
  re_search (list_ascii_of_string name) = None ->
  candidate name (S j) = numbered name (Z.of_nat (S j)).
Proof.
  intros Hs. cbn [candidate]. unfold next_name. rewrite Hs.
  change (name +:+ "_1") with (numbered name 1).
  rewrite candidate_numbered by lia. f_equal. lia.
Qed.

End PrefixCalls.
Section PrefixTheorems.
Import Prefixes.

Lemma not_below_size (name : string) (info_prefixes : gset string) :
  (size (not_below name info_prefixes) <= size info_prefixes)%nat.
Proof.
  apply subseteq_size. unfold not_below. intros s.
  rewrite elem_of_filter. tauto.
Qed.

(** X14.  [check_info_prefix], when the interpreter allows more nested
    calls than there are names in use, returns the first of the names it
    tries that is not in use, and adds it to [self.info_prefixes]; it
    tries at most as many names in use as there are, so it never runs
    away.  A free name is returned as it is.  For a name that does not end
    in an underscore and digits the names tried are [name], [name_1],
    [name_2], ...; for a name [stem_k] they are [stem_k], [stem_k+1],
    ... *)
Theorem check_info_prefix_finds_a_free_name (depth : nat)
    (info_prefixes : gset string) (name : string) :
  (size info_prefixes < depth)%nat ->
  (exists j,
     check_info_prefix depth info_prefixes name
     = inr ({[candidate name j]} ∪ info_prefixes, candidate name j)
     ∧ (candidate name j ∉ info_prefixes)
     ∧ (forall i, (i < j)%nat -> candidate name i ∈ info_prefixes)
     ∧ (j <= size info_prefixes)%nat
     ∧ (name ∉ info_prefixes -> j = 0%nat))
  ∧ candidate name 0 = name
  ∧ (re_search (list_ascii_of_string name) = None ->
     forall i, candidate name (S i) = numbered name (Z.of_nat (S i)))
  ∧ (forall stem k i, 0 <= k -> name = numbered stem k ->
       candidate name i = numbered stem (k + Z.of_nat i)).
Proof.
  intros Hdepth.
  pose proof (not_below_size name info_prefixes) as Hle.
  destruct (check_info_prefix_returns depth info_prefixes name ltac:(lia))
    as (j & Hrun & Hfree & Hused & Hj).
  split.
  { exists j. split; [done|]. split; [done|]. split; [done|].
    split; [lia|].
    intros Hname. destruct j as [|j]; [done|].
    exfalso. apply Hname. apply (Hused 0%nat). lia. }
  split; [done|]. split.
  { intros Hs i. by apply candidate_plain. }
  intros stem k i Hk ->. by apply candidate_numbered.
Qed.

Lemma check_info_prefix_finds_a_free_name_witness :
  (size two_in_use < 3)%nat
  ∧ exists j,
      check_info_prefix 3 two_in_use "VASE_dbSNP"
      = inr ({[candidate "VASE_dbSNP" j]} ∪ two_in_use,
             candidate "VASE_dbSNP" j)
      ∧ (j <= size two_in_use)%nat.
Proof.
  assert (Hsize : (size two_in_use < 3)%nat).
  { unfold two_in_use. rewrite size_union, !size_singleton; [lia|].
    apply disjoint_singleton_l. by rewrite elem_of_singleton. }
  split; [done|].
  destruct (check_info_prefix_finds_a_free_name 3 two_in_use "VASE_dbSNP"
              Hsize) as [(j & Hrun & _ & _ & Hj & _) _].
  by exists j.
Defined.

(** X15.  The prefixes that calls of [check_info_prefix] one after the
    other hand out are different from each other and from every name that
    was in use before; they are the names added to [self.info_prefixes],
    one for each call. *)
Theorem prefixes_handed_out_differ (depth : nat)
    (names prefixes : list string) :
  forall (info_prefixes info_prefixes' : gset string),
  check_info_prefixes depth info_prefixes names
  = inr (info_prefixes', prefixes) ->
  NoDup prefixes
  ∧ (forall p, p ∈ prefixes -> p ∉ info_prefixes)
  ∧ info_prefixes' = list_to_set prefixes ∪ info_prefixes
  ∧ length prefixes = length names.
Proof.
  revert prefixes.
  induction names as [|name names IH]; intros prefixes S0 S2; simpl.
  - intros [= <- <-]. split; [constructor|].
    split; [by intros p Hp; apply elem_of_nil in Hp|].
    split; [|done]. simpl. by rewrite (left_id_L ∅ (∪)).
  - destruct (check_info_prefix depth S0 name) as [e|[S1 p]] eqn:Hone;
      [done|].
    destruct (check_info_prefixes depth S1 names) as [e|[S2' ps]] eqn:Hrest;
      [done|].
    intros [= <- <-].
    apply check_info_prefix_sound in Hone as [Hp ->].
    destruct (IH ps _ _ Hrest) as (Hnd & Hfree & -> & Hlen).
    split.
    { constructor; [|done]. intros Hin. apply (Hfree p Hin).
      apply elem_of_union_l. by apply elem_of_singleton. }
    split.
    { intros q Hq. apply elem_of_cons in Hq as [-> | Hq]; [done|].
      intros Hin. apply (Hfree q Hq). by apply elem_of_union_r. }
    split; [|simpl; by rewrite Hlen].
    simpl. apply set_eq. intros q.
    rewrite !elem_of_union, elem_of_singleton. tauto.
Qed.

Lemma prefixes_handed_out_differ_witness :
  exists info_prefixes',
    check_info_prefixes 5 two_in_use ["VASE_dbSNP"; "VASE_dbSNP"]
    = inr (info_prefixes', ["VASE_dbSNP_2"; "VASE_dbSNP_3"])
    ∧ NoDup ["VASE_dbSNP_2"; "VASE_dbSNP_3"]
    ∧ forall p, p ∈ ["VASE_dbSNP_2"; "VASE_dbSNP_3"] -> p ∉ two_in_use.
Proof.
  assert (exists info_prefixes',
            check_info_prefixes 5 two_in_use ["VASE_dbSNP"; "VASE_dbSNP"]
            = inr (info_prefixes', ["VASE_dbSNP_2"; "VASE_dbSNP_3"]))
    as [S' Hrun] by (eexists; vm_compute; reflexivity).
  exists S'. split; [exact Hrun|].
  destruct (prefixes_handed_out_differ _ _ _ _ _ Hrun) as (Hnd & Hfree & _).
  split; assumption.
Defined.

End PrefixTheorems.
Section Loops.
Import Filters.

Lemma for_each_app {A S} (l1 l2 : list A) (body : A -> S -> outcome S)
    (s : S) :
  for_each (l1 ++ l2) body s
  = do! s1 <- for_each l1 body s; for_each l2 body s1.
Proof.
  revert s. induction l1 as [|x l1 IH]; intros s; simpl; [done|].
  destruct (body x s) as [e|s1]; simpl; [done|]. apply IH.
Qed.

(** A loop that returns has made the turn of each element. *)
Lemma for_each_turn {A S} (l : list A) (body : A -> S -> outcome S)
    (x : A) :
  x ∈ l -> forall s s', for_each l body s = inr s' ->
  exists l1 l2 s1 s2,
    l = l1 ++ x :: l2
    ∧ for_each l1 body s = inr s1 ∧ body x s1 = inr s2
    ∧ for_each l2 body s2 = inr s'.
Proof.
  intros Hx. apply list_elem_of_split in Hx as (l1 & l2 & ->).
  intros s s'. rewrite for_each_app.
  destruct (for_each l1 body s) as [e|s1] eqn:H1; simpl; [done|].
  destruct (body x s1) as [e|s2] eqn:H2; simpl; [done|].
  intros H3. by exists l1, l2, s1, s2.
Qed.

End Loops.

Section SetToTrue.
Import Filters.

Lemma item_inr {A} (l : list A) (i : nat) (x : A) :
  item l i = inr x <-> l !! i = Some x.
Proof.
  unfold item. destruct (l !! i); split; intros Heq; by simplify_eq.
Qed.

Lemma sets_flags_keeps (body : nat -> list bool -> outcome (list bool))
    (idx : list nat) (l l' : list bool) :
  sets_flags body -> for_each idx body l = inr l' ->
  length l' = length l
  ∧ (forall i, l !! i = Some true -> l' !! i = Some true)
  ∧ (forall i, l' !! i = Some true -> l !! i = Some true ∨ i ∈ idx).
Proof.
  intros Hbody. revert l. induction idx as [|x idx IH]; intros l; simpl.
  - intros [= <-]. split; [done|]. split; [done|]. auto.
  - destruct (body x l) as [e|l1] eqn:Hx; simpl; [done|].
    intros Hrest. destruct (IH l1 Hrest) as (Hlen & Hmono & Horigin).
    assert (Hl1 : length l1 = length l
                  ∧ (forall i, l !! i = Some true -> l1 !! i = Some true)
                  ∧ (forall i, l1 !! i = Some true ->
                               l !! i = Some true ∨ i = x)).
    { destruct (Hbody x l l1 Hx) as [-> | ->]; [by auto|].
      split; [by rewrite length_insert|]. split.
      - intros i Hi. destruct (decide (i = x)) as [->|Hne].
        + rewrite list_lookup_insert_eq; [done|].
          by apply lookup_lt_Some in Hi.
        + by rewrite list_lookup_insert_ne.
      - intros i Hi. destruct (decide (i = x)) as [->|Hne]; [by right|].
        left. by rewrite list_lookup_insert_ne in Hi. }
    destruct Hl1 as (Hlen1 & Hmono1 & Horigin1).
    split; [congruence|]. split; [by auto|].
    intros i Hi. destruct (Horigin i Hi) as [Hi1 | Hin].
    + destruct (Horigin1 i Hi1) as [? | ->]; [by left|].
      right. apply list_elem_of_here.
    + right. by apply list_elem_of_further.
Qed.

Lemma set_to_true_body (values : list bool) :
  sets_flags (fun i alist =>
                do! v <- item values i;
                inr (if v : bool then <[i:=true]> alist else alist)).
Proof.
  intros i l l'. destruct (item values i) as [e|[|]]; simpl; [done|..];
    intros [= <-]; auto.
Qed.

(** [_set_to_true_if_true] when it returns: the list has its length, the
    flags that were set and those that [values] sets, and no other; and
    [values] is not shorter than the list. *)
Lemma set_to_true_spec (alist values l' : list bool) :
  _set_to_true_if_true alist values = inr l' ->
  length l' = length alist
  ∧ (length alist <= length values)%nat
  ∧ forall i, l' !! i = Some true <->
              alist !! i = Some true
              ∨ ((i < length alist)%nat ∧ values !! i = Some true).
Proof.
  unfold _set_to_true_if_true. intros Hrun.
  destruct (sets_flags_keeps _ _ _ _ (set_to_true_body values) Hrun)
    as (Hlen & Hmono & Horigin).
  assert (Hturn : forall i, (i < length alist)%nat ->
            exists v, values !! i = Some v
                      ∧ (v = true -> l' !! i = Some true)).
  { intros i Hi.
    assert (Hin : i ∈ seq 0 (length alist)) by (apply elem_of_seq; lia).
    destruct (for_each_turn _ _ i Hin _ _ Hrun)
      as (l1 & l2 & s1 & s2 & _ & H1 & H2 & H3).
    destruct (item values i) as [e|v] eqn:Hv; simpl in H2; [done|].
    apply item_inr in Hv. exists v. split; [done|]. intros ->.
    injection H2 as <-.
    destruct (sets_flags_keeps _ _ _ _ (set_to_true_body values) H1)
      as (Hlen1 & _).
    destruct (sets_flags_keeps _ _ _ _ (set_to_true_body values) H3)
      as (_ & Hmono3 & _).
    apply Hmono3. rewrite list_lookup_insert_eq; [done|lia]. }
  split; [done|]. split.
  { destruct (decide (length alist = 0)%nat) as [->|Hne]; [lia|].
    destruct (Hturn (length alist - 1)%nat ltac:(lia)) as (v & Hv & _).
    apply lookup_lt_Some in Hv. lia. }
  intros i. split.
  - intros Hi. destruct (Horigin i Hi) as [? | Hin]; [by left|].
    apply elem_of_seq in Hin.
    destruct (alist !! i) as [[|]|] eqn:Ha; [by left| |].
    + right. split; [lia|].
      assert (Hin' : i ∈ seq 0 (length alist)) by (apply elem_of_seq; lia).
      destruct (for_each_turn _ _ i Hin' _ _ Hrun)
        as (l1 & l2 & s1 & s2 & Hsplit & H1 & H2 & H3).
      destruct (values !! i) as [[|]|] eqn:Hv; [done|exfalso|exfalso].
      * (* the value is false: no turn sets the flag *)
        clear Hturn Horigin Hmono.
        assert (Hfalse : forall idx (s s' : list bool),
                  for_each idx
                    (fun i alist =>
                       do! v <- item values i;
                       inr (if v : bool then <[i:=true]> alist else alist))
                    s = inr s' ->
                  s !! i = Some false -> s' !! i = Some false).
        { induction idx as [|x idx IH]; intros s s'; simpl.
          - by intros [= <-].
          - destruct (item values x) as [e|v] eqn:Hx; simpl; [done|].
            intros Hrest Hs. apply (IH _ _ Hrest).
            destruct v; [|done].
            destruct (decide (i = x)) as [->|Hne].
            + apply item_inr in Hx. congruence.
            + by rewrite list_lookup_insert_ne. }
        rewrite (Hfalse _ _ _ Hrun Ha) in Hi. done.
      * destruct (item values i) as [e|v] eqn:Hv'; simpl in H2; [done|].
        apply item_inr in Hv'. congruence.
    + apply lookup_ge_None in Ha. lia.
  - intros [Hi | [Hi Hv]]; [by apply Hmono|].
    destruct (Hturn i Hi) as (v & Hv' & Hset). apply Hset. congruence.
Qed.

End SetToTrue.
Section ExternalSteps.
Import Filters.
Context `{Externals}.

Lemma all_filtered_true (l : list bool) :
  all_filtered l = true -> l = replicate (length l) true.
Proof.
  unfold all_filtered. rewrite bool_decide_eq_true.
  induction l as [|b l IH]; simpl; [done|].
  intros Hlen. pose proof (length_filter (fun b => b = true) l) as Hle.
  rewrite filter_cons in Hlen. destruct (decide (b = true)) as [->|Hb].
  - simpl in Hlen. f_equal. apply IH. lia.
  - lia.
Qed.

Lemma for_each_fmap {A B S} (f : A -> B) (l : list A)
    (body : B -> S -> outcome S) (s : S) :
  for_each (f <$> l) body s = for_each l (fun x => body (f x)) s.
Proof.
  revert s. induction l as [|x l IH]; intros s; simpl; [done|].
  destruct (body (f x) s); simpl; [done|]. apply IH.
Qed.

(** The first loop: the alleles that are [*]. *)
Lemma star_loop (r : VcfRecord) (remove_alleles : list bool) :
  for_each (seq 1 (length (ALLELES r) - 1))
    (fun i remove_alleles =>
       do! a <- item (ALLELES r) i;
       if bool_decide (a = "*") then assign_true remove_alleles (i - 1)
       else inr remove_alleles)
    (replicate (n_alts r) false)
  = inr remove_alleles ->
  stars_removed r remove_alleles.
Proof.
  rewrite <- fmap_S_seq, for_each_fmap. intros Hrun.
  set (body := fun (x : nat) (l : list bool) =>
         do! a <- item (ALLELES r) (S x);
         if bool_decide (a = "*") then assign_true l (S x - 1)
         else inr l) in Hrun.
  assert (Hbody : sets_flags body).
  { intros i l l'. unfold body.
    destruct (item (ALLELES r) (S i)) as [e|a]; simpl; [done|].
    destruct (bool_decide (a = "*")); [|by intros [= <-]; left].
    unfold assign_true. rewrite !Nat.sub_0_r.
    destruct (bool_decide (i < length l)%nat); [|intros [=]].
    intros [= <-]. by right. }
  destruct (sets_flags_keeps _ _ _ _ Hbody Hrun) as (Hlen & _ & _).
  rewrite length_replicate in Hlen. split; [done|].
  intros i Hi.
  assert (Hin : i ∈ seq 0 (length (ALLELES r) - 1)).
  { apply lookup_lt_Some in Hi. apply elem_of_seq. lia. }
  destruct (for_each_turn _ _ i Hin _ _ Hrun)
    as (l1 & l2 & s1 & s2 & _ & H1 & H2 & H3).
  destruct (sets_flags_keeps _ _ _ _ Hbody H1) as (Hlen1 & _ & _).
  destruct (sets_flags_keeps _ _ _ _ Hbody H3) as (_ & Hmono & _).
  apply Hmono. unfold body in H2.
  apply item_inr in Hi. rewrite Hi in H2. simpl in H2.
  rewrite ?bool_decide_eq_true_2 in H2 by done.
  unfold assign_true in H2. simpl in H2. rewrite !Nat.sub_0_r in H2.
  destruct (bool_decide (i < length s1)%nat) eqn:Hlt; [|done].
  apply bool_decide_eq_true in Hlt. injection H2 as <-.
  by rewrite list_lookup_insert_eq.
Qed.

Lemma stars_removed_set (r : VcfRecord) (remove_alleles values l' : list bool) :
  stars_removed r remove_alleles ->
  _set_to_true_if_true remove_alleles values = inr l' ->
  stars_removed r l'.
Proof.
  intros [Hlen Hstar] Hrun.
  destruct (set_to_true_spec _ _ _ Hrun) as (Hlen' & _ & Hset).
  split; [congruence|]. intros i Hi. apply Hset. left. by apply Hstar.
Qed.

Lemma bail_out_spec (self : Runner) (r : VcfRecord)
    (remove_alleles : list bool) :
  stars_removed r remove_alleles ->
  bail_out self remove_alleles = true ->
  clinvar_path (args self) = false
  ∧ remove_alleles = replicate (n_alts r) true.
Proof.
  intros [Hlen _]. unfold bail_out, all_removed.
  rewrite andb_true_iff, negb_true_iff. intros [Hc Hall].
  split; [done|]. rewrite <- Hlen. by apply all_filtered_true.
Qed.

Lemma obind_inr {A B} (m : outcome A) (k : A -> outcome B) (y : B) :
  obind m k = inr y -> exists x, m = inr x ∧ k x = inr y.
Proof. destruct m as [e|x]; simpl; [done|]. intros Hk. by exists x. Qed.

(** The ways in which [VaseRunner.filter_alleles_external] returns: from
    one of the three exits in the middle, with every allele removed, or
    with the verdict on what the steps before the filters of
    [self.vcf_filters] have removed. *)
Lemma vase_external_cases (self : Runner) (r : VcfRecord)
    (verdict : list bool) (remove_csq : option RemoveCsq) :
  vase_filter_alleles_external self r = inr (verdict, remove_csq) ->
  (clinvar_path (args self) = false
   ∧ verdict = replicate (n_alts r) true)
  ∨ exists remove_alleles,
      stars_removed r remove_alleles
      ∧ vase_databases self r remove_alleles
          (replicate (n_alts r) false) (replicate (n_alts r) false)
        = inr verdict.
Proof.
  unfold vase_filter_alleles_external. intros Hrun.
  apply obind_inr in Hrun as (remove0 & Hstar & Hrun).
  apply star_loop in Hstar.
  (* the allele frequency of the record *)
  apply obind_inr in Hrun as ([remove1 bail1] & Hstep & Hrun).
  assert (stars_removed r remove1
          ∧ (bail1 = true ->
             clinvar_path (args self) = false
             ∧ remove1 = replicate (n_alts r) true)) as [Hstar1 Hbail1].
  { destruct (given (af (args self)) || given (min_af (args self))).
    - apply obind_inr in Hstep as (r_alts & _ & Hstep).
      apply obind_inr in Hstep as (rm & Hset & Hstep).
      injection Hstep as <- <-.
      pose proof (stars_removed_set _ _ _ _ Hstar Hset) as Hrm.
      split; [done|]. by apply bail_out_spec.
    - injection Hstep as <- <-. by split. }
  clear Hstep Hstar remove0. cbn beta iota in Hrun.
  destruct bail1.
  { injection Hrun as <- <-. left. by apply Hbail1. }
  clear Hbail1.
  (* the consequences *)
  apply obind_inr in Hrun as ([[remove2 csq2] bail2] & Hstep & Hrun).
  assert (stars_removed r remove2
          ∧ (bail2 = true ->
             clinvar_path (args self) = false
             ∧ remove2 = replicate (n_alts r) true)) as [Hstar2 Hbail2].
  { destruct (csq_filter self) as [f|].
    - destruct (csq_filter_filter f r) as [r_alts csq].
      apply obind_inr in Hstep as (rm & Hset & Hstep).
      injection Hstep as <- <- <-.
      pose proof (stars_removed_set _ _ _ _ Hstar1 Hset) as Hrm.
      split; [done|]. by apply bail_out_spec.
    - injection Hstep as <- <- <-. by split. }
  clear Hstep Hstar1 remove1. cbn beta iota in Hrun.
  destruct bail2.
  { injection Hrun as <- <-. left. by apply Hbail2. }
  clear Hbail2.
  (* the CADD scores *)
  apply obind_inr in Hrun as (remove3 & Hstep & Hrun).
  assert (Hstar3 : stars_removed r remove3).
  { destruct (prev_cadd_phred self && given (cadd_phred (args self))).
    - apply obind_inr in Hstep as (r_alts & _ & Hset).
      by eapply stars_removed_set.
    - by injection Hstep as <-. }
  clear Hstep Hstar2 remove2.
  apply obind_inr in Hrun as (remove4 & Hstep & Hrun).
  assert (Hstar4 : stars_removed r remove4).
  { destruct (prev_cadd_raw self && given (cadd_raw (args self))).
    - apply obind_inr in Hstep as (r_alts & _ & Hset).
      by eapply stars_removed_set.
    - by injection Hstep as <-. }
  clear Hstep Hstar3 remove3.
  apply obind_inr in Hrun as ([remove5 bail5] & Hstep & Hrun).
  assert (stars_removed r remove5
          ∧ (bail5 = true ->
             clinvar_path (args self) = false
             ∧ remove5 = replicate (n_alts r) true)) as [Hstar5 Hbail5].
  { destruct (cadd_filter self) as [f|].
    - apply obind_inr in Hstep as (rm & Hset & Hstep).
      injection Hstep as <- <-.
      pose proof (stars_removed_set _ _ _ _ Hstar4 Hset) as Hrm.
      split; [done|]. by apply bail_out_spec.
    - injection Hstep as <- <-. by split. }
  clear Hstep Hstar4 remove4. cbn beta iota in Hrun.
  destruct bail5.
  { injection Hrun as <- <-. left. by apply Hbail5. }
  apply obind_inr in Hrun as (v & Hdb & Hrun). injection Hrun as <- <-.
  right. by exists remove5.
Qed.

End ExternalSteps.
Section Databases.
Import Filters.
Context `{Externals}.

Lemma clnsig_spec (self : Runner) (r : VcfRecord) :
  filter_on_existing_clnsig self r
  = if has_value r (prev_clinvar self)
    then inl (NameError "remove")
    else inr (replicate (n_alts r) false, replicate (n_alts r) false).
Proof.
  unfold filter_on_existing_clnsig, has_value.
  generalize (replicate (n_alts r) false, replicate (n_alts r) false).
  induction (parsed_info_fields r (prev_clinvar self)) as [|[annot [l|]] d IH];
    intros st; simpl; try done.
Qed.

(** The verdict has a flag for each allele. *)
Lemma vase_verdict_spec (self : Runner) (rm kp mt : list bool) :
  length kp = length rm -> length mt = length rm ->
  exists verdict,
    vase_verdict self rm kp mt = inr verdict
    ∧ length verdict = length rm
    ∧ forall i a b c,
        rm !! i = Some a -> kp !! i = Some b -> mt !! i = Some c ->
        verdict !! i = Some (vase_decision self a b c).
Proof.
  intros Hkp Hmt. unfold vase_verdict.
  set (body := fun (i : nat) (verdict : list bool) => _).
  assert (Hbody : forall i v a b c,
            rm !! i = Some a -> kp !! i = Some b -> mt !! i = Some c ->
            body i v = inr (v ++ [vase_decision self a b c])).
  { intros i v a b c Ha Hb Hc. unfold body, vase_decision.
    apply item_inr in Ha, Hb, Hc. rewrite Ha, Hb, Hc. simpl.
    destruct b; [done|]. destruct a; [done|].
    destruct (filter_known (args self)); simpl.
    - destruct c; simpl; [done|].
      by destruct (filter_novel (args self)).
    - destruct (filter_novel (args self)); simpl; [|done].
      by destruct c. }
  assert (Hgen : forall n, (n <= length rm)%nat ->
            exists verdict,
              for_each (seq 0 n) body [] = inr verdict
              ∧ length verdict = n
              ∧ forall i a b c,
                  (i < n)%nat ->
                  rm !! i = Some a -> kp !! i = Some b ->
                  mt !! i = Some c ->
                  verdict !! i = Some (vase_decision self a b c)).
  { induction n as [|n IH]; intros Hn.
    - exists []. split; [done|]. split; [done|]. intros; lia.
    - destruct IH as (v & Hv & Hlen & Hlook); [lia|].
      destruct (lookup_lt_is_Some_2 rm n ltac:(lia)) as [a Ha].
      destruct (lookup_lt_is_Some_2 kp n ltac:(lia)) as [b Hb].
      destruct (lookup_lt_is_Some_2 mt n ltac:(lia)) as [c Hc].
      exists (v ++ [vase_decision self a b c]).
      rewrite seq_S, for_each_app, Hv. simpl.
      rewrite (Hbody n v a b c Ha Hb Hc). simpl.
      split; [done|]. split; [rewrite length_app; simpl; lia|].
      intros i a' b' c' Hi Ha' Hb' Hc'.
      destruct (decide (i = n)) as [->|Hne].
      + rewrite lookup_app_r by lia. rewrite Hlen, Nat.sub_diag. simpl.
        congruence.
      + rewrite lookup_app_l by lia. apply Hlook; [lia|done..]. }
  destruct (Hgen (length rm) ltac:(lia)) as (v & Hv & Hlen & Hlook).
  exists v. split; [done|]. split; [done|].
  intros i a b c Ha Hb Hc. apply Hlook; [|done..].
  by apply lookup_lt_Some in Ha.
Qed.

End Databases.
Section DatabaseSteps.
Import Filters.
Context `{Externals}.

(** The loop over [self.vcf_filters] in [VaseRunner]. *)
Lemma vcf_loop_spec (r : VcfRecord) (fs : list VcfFilter) :
  forall rm kp mt rm' kp' mt',
  for_each fs
    (fun f '(remove_alleles, keep_alleles, matched_alleles) =>
       let '(r_, k, m) := annotate_and_filter_record f r in
       do! remove_alleles <- _set_to_true_if_true remove_alleles r_;
       do! matched_alleles <- _set_to_true_if_true matched_alleles m;
       do! keep_alleles <- _set_to_true_if_true keep_alleles k;
       inr (remove_alleles, keep_alleles, matched_alleles))
    (rm, kp, mt)
  = inr (rm', kp', mt') ->
  length rm' = length rm ∧ length kp' = length kp
  ∧ length mt' = length mt
  ∧ (forall i, rm !! i = Some true -> rm' !! i = Some true)
  ∧ (forall i, kp' !! i = Some true <->
       kp !! i = Some true
       ∨ ((i < length kp)%nat
          ∧ exists f, f ∈ fs
              ∧ (annotate_and_filter_record f r).1.2 !! i = Some true))
  ∧ (forall f, f ∈ fs ->
       (length rm <= length (annotate_and_filter_record f r).1.1)%nat
       ∧ (length kp <= length (annotate_and_filter_record f r).1.2)%nat
       ∧ (length mt <= length (annotate_and_filter_record f r).2)%nat).
Proof.
  induction fs as [|f fs IH]; intros rm kp mt rm' kp' mt'; simpl.
  - intros [= <- <- <-]. do 4 (split; [done|]). split.
    + intros i. split; [by left|]. intros [? | (_ & f & Hf & _)]; [done|].
      by apply elem_of_nil in Hf.
    + intros f Hf. by apply elem_of_nil in Hf.
  - destruct (annotate_and_filter_record f r) as [[r_ k] m] eqn:Hf.
    intros Hrun.
    apply obind_inr in Hrun as ([[rm1 kp1] mt1] & Hstep & Hrun).
    apply obind_inr in Hstep as (rm1' & Hrm & Hstep).
    apply obind_inr in Hstep as (mt1' & Hmt & Hstep).
    apply obind_inr in Hstep as (kp1' & Hkp & Hstep).
    injection Hstep as <- <- <-.
    destruct (set_to_true_spec _ _ _ Hrm) as (Hlrm & Hbrm & Hsrm).
    destruct (set_to_true_spec _ _ _ Hmt) as (Hlmt & Hbmt & Hsmt).
    destruct (set_to_true_spec _ _ _ Hkp) as (Hlkp & Hbkp & Hskp).
    destruct (IH _ _ _ _ _ _ Hrun)
      as (Hlen1 & Hlen2 & Hlen3 & Hmono & Hkeep & Hbound).
    split; [congruence|]. split; [congruence|]. split; [congruence|].
    split.
    { intros i Hi. apply Hmono, Hsrm. by left. }
    split.
    { intros i. rewrite Hkeep, Hskp, Hlkp. split.
      - intros [[? | [Hi Hk]] | (Hi & g & Hg & Hk)].
        + by left.
        + right. split; [done|]. exists f. split; [apply list_elem_of_here|].
          by rewrite Hf.
        + right. split; [done|]. exists g.
          split; [by apply list_elem_of_further|done].
      - intros [? | (Hi & g & Hg & Hk)]; [by left; left|].
        apply elem_of_cons in Hg as [-> | Hg].
        + left. right. split; [done|]. by rewrite Hf in Hk.
        + right. split; [done|]. by exists g. }
    intros g Hg. apply elem_of_cons in Hg as [-> | Hg].
    + rewrite Hf. simpl. done.
    + destruct (Hbound g Hg) as (? & ? & ?). lia.
Qed.

(** The steps that add to [remove_alleles] and [matched_alleles] what
    the annotations of the input say. *)
Lemma existing_step (rm mt rm' mt' : list bool)
    (m : outcome (list bool * list bool)) :
  (do! (r_, m_) <- m;
   do! remove_alleles <- _set_to_true_if_true rm r_;
   do! matched_alleles <- _set_to_true_if_true mt m_;
   inr (remove_alleles, matched_alleles)) = inr (rm', mt') ->
  length rm' = length rm ∧ length mt' = length mt
  ∧ forall i, rm !! i = Some true -> rm' !! i = Some true.
Proof.
  intros Hrun. apply obind_inr in Hrun as ([r_ m_] & _ & Hrun).
  apply obind_inr in Hrun as (rm1 & Hrm & Hrun).
  apply obind_inr in Hrun as (mt1 & Hmt & Hrun).
  injection Hrun as <- <-.
  destruct (set_to_true_spec _ _ _ Hrm) as (Hlrm & _ & Hsrm).
  destruct (set_to_true_spec _ _ _ Hmt) as (Hlmt & _ & _).
  split; [done|]. split; [done|]. intros i Hi. apply Hsrm. by left.
Qed.

(** What [VaseRunner.filter_alleles_external] does after the exits in the
    middle, when it returns. *)
Lemma vase_databases_spec (self : Runner) (r : VcfRecord)
    (remove_alleles verdict : list bool) :
  length remove_alleles = n_alts r ->
  vase_databases self r remove_alleles
    (replicate (n_alts r) false) (replicate (n_alts r) false)
  = inr verdict ->
  (prev_clinvar self = [] ∨ has_value r (prev_clinvar self) = false)
  ∧ (forall f, f ∈ vcf_filters self ->
       (n_alts r <= length (annotate_and_filter_record f r).1.1)%nat
       ∧ (n_alts r <= length (annotate_and_filter_record f r).1.2)%nat
       ∧ (n_alts r <= length (annotate_and_filter_record f r).2)%nat)
  ∧ exists rm kp mt,
      length rm = n_alts r ∧ length kp = n_alts r ∧ length mt = n_alts r
      ∧ (forall i, remove_alleles !! i = Some true -> rm !! i = Some true)
      ∧ (forall i, kp !! i = Some true <->
           (i < n_alts r)%nat
           ∧ exists f, f ∈ vcf_filters self
               ∧ (annotate_and_filter_record f r).1.2 !! i = Some true)
      ∧ vase_verdict self rm kp mt = inr verdict.
Proof.
  intros Hlen Hrun. unfold vase_databases in Hrun.
  apply obind_inr in Hrun as ([[rm1 kp1] mt1] & Hvcf & Hrun).
  apply vcf_loop_spec in Hvcf
    as (Hl1 & Hl2 & Hl3 & Hmono1 & Hkeep1 & Hbound).
  rewrite length_replicate in Hl2, Hl3.
  apply obind_inr in Hrun as ([rm2 mt2] & Hfreq & Hrun).
  assert (length rm2 = length rm1 ∧ length mt2 = length mt1
          ∧ forall i, rm1 !! i = Some true -> rm2 !! i = Some true)
    as (Hl4 & Hl5 & Hmono2).
  { destruct (prev_freqs self); [by injection Hfreq as <- <-|].
    by eapply existing_step. }
  clear Hfreq.
  apply obind_inr in Hrun as ([rm3 mt3] & Hbuild & Hrun).
  assert (length rm3 = length rm2 ∧ length mt3 = length mt2
          ∧ forall i, rm2 !! i = Some true -> rm3 !! i = Some true)
    as (Hl6 & Hl7 & Hmono3).
  { destruct (prev_builds self); [by injection Hbuild as <- <-|].
    by eapply existing_step. }
  clear Hbuild.
  apply obind_inr in Hrun as ([kp4 mt4] & Hcln & Hrun).
  assert ((prev_clinvar self = [] ∨ has_value r (prev_clinvar self) = false)
          ∧ length kp4 = length kp1 ∧ length mt4 = length mt3
          ∧ forall i, kp4 !! i = Some true <-> kp1 !! i = Some true)
    as (Hclin & Hl8 & Hl9 & Hkeep4).
  { destruct (prev_clinvar self) as [|c cs] eqn:Hprev.
    - injection Hcln as <- <-. split; [by left|]. done.
    - rewrite <- Hprev in *. rewrite clnsig_spec in Hcln.
      destruct (has_value r (prev_clinvar self)); [done|].
      simpl in Hcln.
      apply obind_inr in Hcln as (mt' & Hmt & Hcln).
      apply obind_inr in Hcln as (kp' & Hkp & Hcln).
      injection Hcln as <- <-.
      destruct (set_to_true_spec _ _ _ Hmt) as (Hlmt & _ & _).
      destruct (set_to_true_spec _ _ _ Hkp) as (Hlkp & _ & Hskp).
      split; [by right|]. split; [done|]. split; [done|].
      intros i. rewrite Hskp. split; [|by left].
      intros [? | [_ Hrep]]; [done|].
      apply lookup_replicate in Hrep as [? _]. done. }
  clear Hcln.
  split; [done|]. split.
  { intros f Hf. destruct (Hbound f Hf) as (? & ? & ?).
    rewrite length_replicate in *. lia. }
  exists rm3, kp4, mt4.
  split; [congruence|]. split; [congruence|]. split; [congruence|].
  split; [by auto|]. split; [|done].
  intros i. rewrite Hkeep4, Hkeep1, length_replicate. split.
  - intros [Hrep | ?]; [|done].
    apply lookup_replicate in Hrep as [? _]. done.
  - by right.
Qed.

End DatabaseSteps.
Section ExternalTheorems.
Import Filters.
Context `{Externals}.

(** X16.  [VaseRunner.filter_on_existing_clnsig] cannot look at a ClinVar
    annotation: when the record has a value for one of the fields of
    [self.prev_clinvar], the method raises [NameError] for the name
    [remove]; when it has none, it keeps and matches nothing.  So for such
    a record [filter_alleles_external] of a runner with such fields
    returns only through one of the exits in the middle, where
    [--clinvar_path] is not set and every allele is removed. *)
Theorem clinvar_annotations_are_never_read (self : Runner) (r : VcfRecord) :
  filter_on_existing_clnsig self r
  = (if has_value r (prev_clinvar self)
     then inl (NameError "remove")
     else inr (replicate (n_alts r) false, replicate (n_alts r) false))
  ∧ (prev_clinvar self ≠ [] -> has_value r (prev_clinvar self) = true ->
     forall verdict remove_csq,
       vase_filter_alleles_external self r = inr (verdict, remove_csq) ->
       verdict = replicate (n_alts r) true
       ∧ clinvar_path (args self) = false).
Proof.
  split; [apply clnsig_spec|].
  intros Hprev Hvalue verdict remove_csq Hrun.
  apply vase_external_cases in Hrun
    as [[Hc Hv] | (rm & [Hlen _] & Hdb)]; [done|].
  apply vase_databases_spec in Hdb as ([? | Hno] & _); [done| |done].
  congruence.
Qed.

(** X17.  [VaseRunner.filter_on_existing_build] reads [--max_build] only
    under [if self.args.min_freq:].  Without [--min_freq] the option has no
    effect on what the method returns.  With [--min_freq] and without
    [--max_build] the method compares with [None]: it returns only when
    the record has no build number for any alternative allele, and then it
    removes and matches nothing. *)
Theorem max_build_depends_on_min_freq (self : Runner) (r : VcfRecord) :
  (given (min_freq (args self)) = false ->
   forall x,
     filter_on_existing_build (with_max_build self x) r
     = filter_on_existing_build self r)
  ∧ (given (min_freq (args self)) = true ->
     max_build (args self) = None ->
     forall remove matched,
       filter_on_existing_build self r = inr (remove, matched) ->
       remove = replicate (n_alts r) false
       ∧ matched = replicate (n_alts r) false
       ∧ forall annot l i,
           (annot, Some l) ∈ parsed_info_fields r (prev_builds self) ->
           (i < n_alts r)%nat -> l !! i = Some None).
Proof.
  split.
  - intros Hgiven x. unfold filter_on_existing_build. simpl.
    by rewrite Hgiven.
  - intros Hgiven Hmax remove matched. unfold filter_on_existing_build.
    set (st0 := (replicate (n_alts r) false, replicate (n_alts r) false)).
    set (inner := fun (l : list (option value)) (i : nat)
                      '((remove, matched) : list bool * list bool) =>
           do! x <- item l i;
           match x with
           | Some v =>
               let matched := <[i:=true]> matched in
               do! remove <-
                 (if given (build (args self)) then
                    do! c <- compare le v (build (args self));
                    inr (if c : bool then <[i:=true]> remove else remove)
                  else inr remove);
               do! remove <-
                 (if given (min_freq (args self)) then
                    do! c <- compare gt v (max_build (args self));
                    inr (if c : bool then <[i:=true]> remove else remove)
                  else inr remove);
               inr (remove, matched)
           | None => inr (remove, matched)
           end).
    assert (Hinner : forall l idx st st',
              for_each idx (inner l) st = inr st' ->
              st' = st ∧ forall i, i ∈ idx -> l !! i = Some None).
    { intros l. induction idx as [|i idx IH]; intros st st'; simpl.
      - intros [= <-]. split; [done|]. intros i Hi.
        by apply elem_of_nil in Hi.
      - intros Hrun. apply obind_inr in Hrun as (st1 & Hturn & Hrun).
        assert (st1 = st ∧ l !! i = Some None) as [-> Hi].
        { unfold inner in Hturn. destruct st as [rm mt].
          apply obind_inr in Hturn as (x & Hx & Hturn).
          apply item_inr in Hx. destruct x as [v|].
          - apply obind_inr in Hturn as (rm1 & _ & Hturn).
            rewrite Hgiven, Hmax in Hturn.
            by apply obind_inr in Hturn as (rm2 & Hcmp & _).
          - by injection Hturn as <-. }
        destruct (IH _ _ Hrun) as [-> Hrest]. split; [done|].
        intros j Hj. apply elem_of_cons in Hj as [-> | Hj]; auto. }
    generalize (parsed_info_fields r (prev_builds self)).
    intros parsed.
    assert (Houter : forall st',
              for_each parsed
                (fun '(annot, entry) st =>
                   match entry with
                   | Some l => for_each (seq 0 (length st.1)) (inner l) st
                   | None => inr st
                   end) st0 = inr st' ->
              st' = st0
              ∧ forall annot l i,
                  (annot, Some l) ∈ parsed -> (i < n_alts r)%nat ->
                  l !! i = Some None).
    { induction parsed as [|[annot [l|]] parsed IH]; intros st'; simpl.
      - intros [= <-]. split; [done|]. intros ? ? ? Hin.
        by apply elem_of_nil in Hin.
      - intros Hrun. apply obind_inr in Hrun as (st1 & Hturn & Hrun).
        rewrite length_replicate in Hturn.
        apply Hinner in Hturn as [-> Hl].
        destruct (IH _ Hrun) as [-> Hrest]. split; [done|].
        intros annot' l' i Hin Hi.
        apply elem_of_cons in Hin as [[= -> ->] | Hin].
        + apply Hl, elem_of_seq. lia.
        + by eapply Hrest.
      - intros Hrun. destruct (IH _ Hrun) as [-> Hrest]. split; [done|].
        intros annot' l' i Hin Hi.
        apply elem_of_cons in Hin as [[=] | Hin]. by eapply Hrest. }
    intros Hrun. destruct (Houter _ Hrun) as [[= -> ->] Hnone].
    by split.
Qed.

(** X18.  The verdict of [VaseRunner.filter_alleles_external], when the
    method returns.  There is a flag for each alternative allele.  An
    allele [*] is filtered unless a filter of [self.vcf_filters] keeps
    it.  With [--clinvar_path], an allele that a filter of
    [self.vcf_filters] keeps is not filtered, whatever removes it and
    whatever [--filter_known] and [--filter_novel] say; and every filter
    has answered with at least one flag for each allele - a shorter answer
    raises [IndexError]. *)
Theorem vase_verdict_on_alleles (self : Runner) (r : VcfRecord)
    (verdict : list bool) (remove_csq : option RemoveCsq) :
  vase_filter_alleles_external self r = inr (verdict, remove_csq) ->
  length verdict = n_alts r
  ∧ (forall i, ALLELES r !! S i = Some "*" ->
       (forall f, f ∈ vcf_filters self ->
          (annotate_and_filter_record f r).1.2 !! i ≠ Some true) ->
       verdict !! i = Some true)
  ∧ (clinvar_path (args self) = true ->
     (forall i f, f ∈ vcf_filters self -> (i < n_alts r)%nat ->
        (annotate_and_filter_record f r).1.2 !! i = Some true ->
        verdict !! i = Some false)
     ∧ forall f, f ∈ vcf_filters self ->
         (n_alts r <= length (annotate_and_filter_record f r).1.1)%nat
         ∧ (n_alts r <= length (annotate_and_filter_record f r).1.2)%nat
         ∧ (n_alts r <= length (annotate_and_filter_record f r).2)%nat).
Proof.
  intros Hrun.
  apply vase_external_cases in Hrun
    as [[Hc ->] | (rm0 & [Hlen Hstar] & Hdb)].
  { split; [by rewrite length_replicate|]. split; [|congruence].
    intros i Hi _. apply lookup_replicate. split; [done|].
    apply lookup_lt_Some in Hi. unfold n_alts. lia. }
  apply vase_databases_spec in Hdb
    as (_ & Hbound & rm & kp & mt & Hl1 & Hl2 & Hl3 & Hmono & Hkeep & Hv);
    [|done].
  destruct (vase_verdict_spec self rm kp mt ltac:(congruence)
              ltac:(congruence)) as (v & Hv' & Hlv & Hlook).
  rewrite Hv in Hv'. injection Hv' as <-.
  assert (Hflags : forall i, (i < n_alts r)%nat ->
            exists a b c, rm !! i = Some a ∧ kp !! i = Some b
                          ∧ mt !! i = Some c).
  { intros i Hi.
    destruct (lookup_lt_is_Some_2 rm i ltac:(lia)) as [a Ha].
    destruct (lookup_lt_is_Some_2 kp i ltac:(lia)) as [b Hb].
    destruct (lookup_lt_is_Some_2 mt i ltac:(lia)) as [c Hc].
    by exists a, b, c. }
  split; [congruence|]. split.
  - intros i Hi Hnone.
    assert (Hin : (i < n_alts r)%nat).
    { apply lookup_lt_Some in Hi. unfold n_alts. lia. }
    destruct (Hflags i Hin) as (a & b & c & Ha & Hb & Hc).
    rewrite (Hlook i a b c Ha Hb Hc). f_equal.
    rewrite (Hmono i (Hstar i Hi)) in Ha. injection Ha as <-.
    destruct b; [|done].
    apply Hkeep in Hb as (_ & f & Hf & Hk). by destruct (Hnone f Hf).
  - intros _. split; [|done].
    intros i f Hf Hi Hk.
    destruct (Hflags i Hi) as (a & b & c & Ha & Hb & Hc).
    rewrite (Hlook i a b c Ha Hb Hc). f_equal.
    assert (kp !! i = Some true) as Hb'.
    { apply Hkeep. split; [done|]. by exists f. }
    rewrite Hb' in Hb. by injection Hb as <-.
Qed.

End ExternalTheorems.
Section ExternalWitnesses.
Import Filters FilterSamples.

Lemma clinvar_annotations_are_never_read_witness :
  filter_on_existing_clnsig with_clinvar_field snv_and_star
  = inl (NameError "remove")
  ∧ vase_filter_alleles_external with_clinvar_field snv_and_star
    = inr ([true; true], Some [])
  ∧ clinvar_path (args with_clinvar_field) = false.
Proof.
  destruct (clinvar_annotations_are_never_read with_clinvar_field
              snv_and_star) as [Hraise Hexit].
  split; [exact Hraise|].
  assert (Hrun : vase_filter_alleles_external with_clinvar_field snv_and_star
                 = inr ([true; true], Some []))
    by (vm_compute; reflexivity).
  split; [exact Hrun|].
  destruct (Hexit ltac:(discriminate) eq_refl _ _ Hrun) as [_ Hc].
  exact Hc.
Defined.

Lemma max_build_depends_on_min_freq_witness :
  filter_on_existing_build
    (with_max_build with_clinvar_field (Some 100)) snv_and_star
  = filter_on_existing_build with_clinvar_field snv_and_star
  ∧ filter_on_existing_build with_build_field no_alternative = inr ([], [])
  ∧ [] = replicate (n_alts no_alternative) false
  ∧ filter_on_existing_build with_build_field snv_and_star
    = inl (Raised TypeError).
Proof.
  destruct (max_build_depends_on_min_freq with_clinvar_field snv_and_star)
    as [Hsame _].
  split; [apply Hsame; reflexivity|].
  assert (Hrun : filter_on_existing_build with_build_field no_alternative
                 = inr ([], []))
    by (vm_compute; reflexivity).
  split; [exact Hrun|].
  destruct (max_build_depends_on_min_freq with_build_field no_alternative)
    as [_ Hnone].
  destruct (Hnone eq_refl eq_refl _ _ Hrun) as (Hremove & _).
  split; [exact Hremove|].
  vm_compute; reflexivity.
Defined.

Lemma vase_verdict_on_alleles_witness :
  vase_filter_alleles_external with_keeper snv_and_star
  = inr ([false; false], None)
  ∧ length [false; false] = n_alts snv_and_star.
Proof.
  assert (Hrun : vase_filter_alleles_external with_keeper snv_and_star
                 = inr ([false; false], None))
    by (vm_compute; reflexivity).
  split; [exact Hrun|].
  destruct (vase_verdict_on_alleles _ _ _ _ Hrun) as [Hlen _].
  exact Hlen.
Defined.

End ExternalWitnesses.
Section VapeExternal.
Import Filters.
Context `{Externals}.

(** A loop that sets the flag of each index for which [g] answers true. *)
Lemma flag_loop (g : nat -> outcome bool) (idx : list nat) :
  forall l l',
  for_each idx
    (fun i l => do! v <- g i; if v : bool then assign_true l i else inr l) l
  = inr l' ->
  length l' = length l
  ∧ (forall i, i ∈ idx ->
       exists v, g i = inr v ∧ (v = true -> (i < length l)%nat))
  ∧ forall i, l' !! i = Some true <->
              l !! i = Some true ∨ (i ∈ idx ∧ g i = inr true).
Proof.
  induction idx as [|x idx IH]; intros l l'; simpl.
  - intros [= <-]. split; [done|]. split.
    + intros i Hi. by apply elem_of_nil in Hi.
    + intros i. split; [by left|]. intros [? | [Hi _]]; [done|].
      by apply elem_of_nil in Hi.
  - intros Hrun. apply obind_inr in Hrun as (l1 & Hturn & Hrun).
    apply obind_inr in Hturn as (v & Hv & Hturn).
    destruct (IH _ _ Hrun) as (Hlen & Hidx & Hflags).
    assert (length l1 = length l
            ∧ (v = true -> (x < length l)%nat)
            ∧ forall i, l1 !! i = Some true <->
                        l !! i = Some true ∨ (i = x ∧ v = true))
      as (Hlen1 & Hx & Hflags1).
    { destruct v.
      - unfold assign_true in Hturn.
        destruct (bool_decide (x < length l)%nat) eqn:Hlt; [|done].
        apply bool_decide_eq_true in Hlt. injection Hturn as <-.
        split; [by rewrite length_insert|]. split; [done|].
        intros i. destruct (decide (i = x)) as [->|Hne].
        + rewrite list_lookup_insert_eq by done. split; auto.
        + rewrite list_lookup_insert_ne by done. split; [by left|].
          intros [? | [? _]]; done.
      - injection Hturn as <-. split; [done|]. split; [done|].
        intros i. split; [by left|]. intros [? | [_ ?]]; done. }
    split; [congruence|]. split.
    + intros i Hi. apply elem_of_cons in Hi as [-> | Hi].
      * by exists v.
      * destruct (Hidx i Hi) as (v' & Hv' & Hlt). exists v'.
        split; [done|]. intros Ht. specialize (Hlt Ht). lia.
    + intros i. rewrite Hflags, Hflags1. split.
      * intros [[? | [-> ->]] | [Hi Hg]].
        -- by left.
        -- right. split; [apply list_elem_of_here|done].
        -- right. split; [by apply list_elem_of_further|done].
      * intros [? | [Hi Hg]]; [by left; left|].
        apply elem_of_cons in Hi as [-> | Hi].
        -- left. right. split; [done|]. congruence.
        -- by right.
Qed.

(** The loop over the answer of a filter in [VapeRunner] is three loops,
    one for each list. *)
Lemma three_loops (r_ k m : list bool) (idx : list nat) :
  forall rm kp mt rm' kp' mt',
  for_each idx
    (fun i '(remove_alleles, keep_alleles, matched_alleles) =>
       do! v <- item r_ i;
       do! remove_alleles <-
         (if v : bool then assign_true remove_alleles i
          else inr remove_alleles);
       do! v <- item k i;
       do! keep_alleles <-
         (if v : bool then assign_true keep_alleles i
          else inr keep_alleles);
       do! v <- item m i;
       do! matched_alleles <-
         (if v : bool then assign_true matched_alleles i
          else inr matched_alleles);
       inr (remove_alleles, keep_alleles, matched_alleles))
    (rm, kp, mt)
  = inr (rm', kp', mt') ->
  for_each idx
    (fun i l => do! v <- item r_ i;
                if v : bool then assign_true l i else inr l) rm = inr rm'
  ∧ for_each idx
      (fun i l => do! v <- item k i;
                  if v : bool then assign_true l i else inr l) kp = inr kp'
  ∧ for_each idx
      (fun i l => do! v <- item m i;
                  if v : bool then assign_true l i else inr l) mt = inr mt'.
Proof.
  induction idx as [|x idx IH]; intros rm kp mt rm' kp' mt'; simpl.
  - by intros [= <- <- <-].
  - intros Hrun. apply obind_inr in Hrun as ([[rm1 kp1] mt1] & Hturn & Hrun).
    apply obind_inr in Hturn as (v1 & -> & Hturn). simpl.
    apply obind_inr in Hturn as (rm1' & -> & Hturn). simpl.
    apply obind_inr in Hturn as (v2 & -> & Hturn). simpl.
    apply obind_inr in Hturn as (kp1' & -> & Hturn). simpl.
    apply obind_inr in Hturn as (v3 & -> & Hturn). simpl.
    apply obind_inr in Hturn as (mt1' & -> & Hturn). simpl.
    injection Hturn as <- <- <-. by apply IH.
Qed.

End VapeExternal.
Section VapeVerdict.
Import Filters.
Context `{Externals}.

Lemma item_flag (l : list bool) (i : nat) :
  item l i = inr true <-> l !! i = Some true.
Proof. apply item_inr. Qed.

(** The loop over the answer of one filter. *)
Lemma vape_answer_spec (r_ k m rm kp mt rm' kp' mt' : list bool) :
  length kp = length rm -> length mt = length rm ->
  for_each (seq 0 (length r_))
    (fun i '(remove_alleles, keep_alleles, matched_alleles) =>
       do! v <- item r_ i;
       do! remove_alleles <-
         (if v : bool then assign_true remove_alleles i
          else inr remove_alleles);
       do! v <- item k i;
       do! keep_alleles <-
         (if v : bool then assign_true keep_alleles i
          else inr keep_alleles);
       do! v <- item m i;
       do! matched_alleles <-
         (if v : bool then assign_true matched_alleles i
          else inr matched_alleles);
       inr (remove_alleles, keep_alleles, matched_alleles))
    (rm, kp, mt)
  = inr (rm', kp', mt') ->
  length rm' = length rm ∧ length kp' = length kp ∧ length mt' = length mt
  ∧ answer_in_range (length rm) (r_, k, m)
  ∧ (forall i, rm' !! i = Some true <->
       rm !! i = Some true ∨ r_ !! i = Some true)
  ∧ (forall i, kp' !! i = Some true <->
       kp !! i = Some true ∨ ((i < length r_)%nat ∧ k !! i = Some true))
  ∧ (forall i, mt' !! i = Some true <->
       mt !! i = Some true ∨ ((i < length r_)%nat ∧ m !! i = Some true)).
Proof.
  intros Hkp Hmt Hrun.
  apply three_loops in Hrun as (Hrm & Hk & Hm).
  apply flag_loop in Hrm as (Hl1 & Hi1 & Hf1).
  apply flag_loop in Hk as (Hl2 & Hi2 & Hf2).
  apply flag_loop in Hm as (Hl3 & Hi3 & Hf3).
  assert (Hseq : forall i, i ∈ seq 0 (length r_) <-> (i < length r_)%nat).
  { intros i. rewrite elem_of_seq. lia. }
  do 3 (split; [done|]). split.
  { assert (Hlong : forall (l : list bool),
              (forall i, i ∈ seq 0 (length r_) ->
                 exists v, item l i = inr v ∧ (v = true -> (i < length rm)%nat)) ->
              (length r_ <= length l)%nat).
    { intros l Hl. destruct (decide (length r_ = 0)%nat) as [->|Hne]; [lia|].
      destruct (Hl (length r_ - 1)%nat) as (v & Hv & _).
      { apply Hseq. lia. }
      apply item_inr, lookup_lt_Some in Hv. lia. }
    split; [apply Hlong; by rewrite <- Hkp|].
    split; [apply Hlong; by rewrite <- Hmt|].
    intros i Hi [Hv | [Hv | Hv]].
    - destruct (Hi1 i) as (v & Hv' & Hlt); [by apply Hseq|].
      apply item_inr in Hv'. apply Hlt. congruence.
    - destruct (Hi2 i) as (v & Hv' & Hlt); [by apply Hseq|].
      apply item_inr in Hv'. rewrite <- Hkp. apply Hlt. congruence.
    - destruct (Hi3 i) as (v & Hv' & Hlt); [by apply Hseq|].
      apply item_inr in Hv'. rewrite <- Hmt. apply Hlt. congruence. }
  split.
  { intros i. rewrite Hf1, Hseq, item_flag. split; [|intros [?|Hv]].
    - intros [? | [_ ?]]; auto.
    - by left.
    - right. split; [|done]. by apply lookup_lt_Some in Hv. }
  split.
  - intros i. by rewrite Hf2, Hseq, item_flag.
  - intros i. by rewrite Hf3, Hseq, item_flag.
Qed.

(** The loop over [self.vcf_filters] in [VapeRunner]. *)
Lemma vape_vcf_loop_spec (r : VcfRecord) (fs : list VcfFilter) :
  forall rm kp mt rm' kp' mt',
  length kp = length rm -> length mt = length rm ->
  for_each fs
    (fun f st =>
       let '(r_, k, m) := annotate_and_filter_record f r in
       for_each (seq 0 (length r_))
         (fun i '(remove_alleles, keep_alleles, matched_alleles) =>
            do! v <- item r_ i;
            do! remove_alleles <-
              (if v : bool then assign_true remove_alleles i
               else inr remove_alleles);
            do! v <- item k i;
            do! keep_alleles <-
              (if v : bool then assign_true keep_alleles i
               else inr keep_alleles);
            do! v <- item m i;
            do! matched_alleles <-
              (if v : bool then assign_true matched_alleles i
               else inr matched_alleles);
            inr (remove_alleles, keep_alleles, matched_alleles))
         st)
    (rm, kp, mt)
  = inr (rm', kp', mt') ->
  length rm' = length rm ∧ length kp' = length rm ∧ length mt' = length rm
  ∧ (forall f, f ∈ fs ->
       answer_in_range (length rm) (annotate_and_filter_record f r))
  ∧ (forall i, rm' !! i = Some true <->
       rm !! i = Some true
       ∨ exists f, f ∈ fs
           ∧ (annotate_and_filter_record f r).1.1 !! i = Some true)
  ∧ (forall i, kp' !! i = Some true <->
       kp !! i = Some true
       ∨ exists f, f ∈ fs
           ∧ (i < length (annotate_and_filter_record f r).1.1)%nat
           ∧ (annotate_and_filter_record f r).1.2 !! i = Some true)
  ∧ (forall i, mt' !! i = Some true <->
       mt !! i = Some true
       ∨ exists f, f ∈ fs
           ∧ (i < length (annotate_and_filter_record f r).1.1)%nat
           ∧ (annotate_and_filter_record f r).2 !! i = Some true).
Proof.
  induction fs as [|f fs IH]; intros rm kp mt rm' kp' mt' Hkp Hmt; simpl.
  - intros [= <- <- <-]. do 3 (split; [done|]). split.
    { intros f Hf. by apply elem_of_nil in Hf. }
    repeat split; try (by left);
      intros [? | (f & Hf & _)]; try done; by apply elem_of_nil in Hf.
  - intros Hrun. apply obind_inr in Hrun as ([[rm1 kp1] mt1] & Hturn & Hrun).
    destruct (annotate_and_filter_record f r) as [[r_ k] m] eqn:Hf.
    apply vape_answer_spec in Hturn
      as (Hl1 & Hl2 & Hl3 & Hrange & Hf1 & Hf2 & Hf3); [|done..].
    assert (Hkp1 : length kp1 = length rm1) by congruence.
    assert (Hmt1 : length mt1 = length rm1) by congruence.
    destruct (IH _ _ _ _ _ _ Hkp1 Hmt1 Hrun)
      as (Hl4 & Hl5 & Hl6 & Hranges & Hg1 & Hg2 & Hg3).
    split; [congruence|]. split; [congruence|]. split; [congruence|].
    split.
    { intros g Hg. apply elem_of_cons in Hg as [-> | Hg].
      - by rewrite Hf.
      - rewrite <- Hl1. by apply Hranges. }
    split; [|split].
    + intros i. rewrite Hg1, Hf1. split.
      * intros [[? | Hv] | (g & Hg & Hv)].
        -- by left.
        -- right. exists f. split; [apply list_elem_of_here|].
           by rewrite Hf.
        -- right. exists g. split; [by apply list_elem_of_further|done].
      * intros [? | (g & Hg & Hv)]; [by left; left|].
        apply elem_of_cons in Hg as [-> | Hg].
        -- left. right. by rewrite Hf in Hv.
        -- right. by exists g.
    + intros i. rewrite Hg2, Hf2. split.
      * intros [[? | Hv] | (g & Hg & Hv)].
        -- by left.
        -- right. exists f. split; [apply list_elem_of_here|].
           by rewrite Hf.
        -- right. exists g. split; [by apply list_elem_of_further|done].
      * intros [? | (g & Hg & Hv)]; [by left; left|].
        apply elem_of_cons in Hg as [-> | Hg].
        -- left. right. by rewrite Hf in Hv.
        -- right. by exists g.
    + intros i. rewrite Hg3, Hf3. split.
      * intros [[? | Hv] | (g & Hg & Hv)].
        -- by left.
        -- right. exists f. split; [apply list_elem_of_here|].
           by rewrite Hf.
        -- right. exists g. split; [by apply list_elem_of_further|done].
      * intros [? | (g & Hg & Hv)]; [by left; left|].
        apply elem_of_cons in Hg as [-> | Hg].
        -- left. right. by rewrite Hf in Hv.
        -- right. by exists g.
Qed.

(** The verdict loop of [VapeRunner]. *)
Lemma vape_verdict_spec (self : Runner) (rm kp mt : list bool) :
  length kp = length rm -> length mt = length rm ->
  exists verdict,
    for_each (seq 0 (length rm))
      (fun i verdict =>
         do! rm_ <- item rm i;
         do! removed <-
           (if rm_ : bool then do! k <- item kp i; inr (negb k)
            else inr false);
         if removed : bool then inr (verdict ++ [true])
         else
           do! novel <-
             (if filter_novel (args self)
              then do! m <- item mt i; inr (negb m)
              else inr false);
           if novel : bool then inr (verdict ++ [true])
           else inr (verdict ++ [false]))
      []
    = inr verdict
    ∧ length verdict = length rm
    ∧ forall i a b c,
        rm !! i = Some a -> kp !! i = Some b -> mt !! i = Some c ->
        verdict !! i = Some (vape_decision self a b c).
Proof.
  intros Hkp Hmt.
  set (body := fun (i : nat) (verdict : list bool) =>
         do! rm_ <- item rm i;
         do! removed <-
           (if rm_ : bool then do! k <- item kp i; inr (negb k)
            else inr false);
         if removed : bool then inr (verdict ++ [true])
         else
           do! novel <-
             (if filter_novel (args self)
              then do! m <- item mt i; inr (negb m)
              else inr false);
           if novel : bool then inr (verdict ++ [true])
           else inr (verdict ++ [false])).
  assert (Hbody : forall i v a b c,
            rm !! i = Some a -> kp !! i = Some b -> mt !! i = Some c ->
            body i v = inr (v ++ [vape_decision self a b c])).
  { intros i v a b c Ha Hb Hc. unfold body, vape_decision.
    apply item_inr in Ha, Hb, Hc. rewrite Ha. simpl.
    destruct a; simpl.
    - rewrite Hb. simpl. destruct b; simpl; [|done].
      destruct (filter_novel (args self)); simpl; [|done].
      rewrite Hc. simpl. by destruct c.
    - destruct (filter_novel (args self)); simpl; [|done].
      rewrite Hc. simpl. by destruct c. }
  assert (Hgen : forall n, (n <= length rm)%nat ->
            exists verdict,
              for_each (seq 0 n) body [] = inr verdict
              ∧ length verdict = n
              ∧ forall i a b c,
                  (i < n)%nat ->
                  rm !! i = Some a -> kp !! i = Some b ->
                  mt !! i = Some c ->
                  verdict !! i = Some (vape_decision self a b c)).
  { induction n as [|n IH]; intros Hn.
    - exists []. split; [done|]. split; [done|]. intros; lia.
    - destruct IH as (v & Hv & Hlen & Hlook); [lia|].
      destruct (lookup_lt_is_Some_2 rm n ltac:(lia)) as [a Ha].
      destruct (lookup_lt_is_Some_2 kp n ltac:(lia)) as [b Hb].
      destruct (lookup_lt_is_Some_2 mt n ltac:(lia)) as [c Hc].
      exists (v ++ [vape_decision self a b c]).
      rewrite seq_S, for_each_app, Hv. simpl.
      rewrite (Hbody n v a b c Ha Hb Hc). simpl.
      split; [done|]. split; [rewrite length_app; simpl; lia|].
      intros i a' b' c' Hi Ha' Hb' Hc'.
      destruct (decide (i = n)) as [->|Hne].
      + rewrite lookup_app_r by lia. rewrite Hlen, Nat.sub_diag. simpl.
        congruence.
      + rewrite lookup_app_l by lia. apply Hlook; [lia|done..]. }
  destruct (Hgen (length rm) ltac:(lia)) as (v & Hv & Hlen & Hlook).
  exists v. split; [done|]. split; [done|].
  intros i a b c Ha Hb Hc. apply Hlook; [|done..].
  by apply lookup_lt_Some in Ha.
Qed.

End VapeVerdict.
Section VapeTheorem.
Import Filters.
Context `{Externals}.

(** X19.  The verdict of [VapeRunner.filter_alleles_external], when the
    method returns.  There is a flag for each alternative allele.  With
    [--clinvar_path], or without a consequence filter, the method has
    asked every filter of [self.vcf_filters]: each answer [(r, k, m)] has
    [k] and [m] at least as long as [r] and sets no flag beyond the
    alleles of the record - otherwise [IndexError] is raised -, and an
    allele is filtered when something removes it and no filter keeps it,
    or when [--filter_novel] is set and no filter has matched it; so an
    allele that a filter keeps is still filtered under [--filter_novel]
    when none has matched it. *)
Theorem vape_verdict_on_alleles (self : Runner) (r : VcfRecord)
    (verdict : list bool) (remove_csq : option RemoveCsq) :
  vape_filter_alleles_external self r = inr (verdict, remove_csq) ->
  length verdict = n_alts r
  ∧ (clinvar_path (args self) = true ∨ csq_filter self = None ->
     (forall f, f ∈ vcf_filters self ->
        answer_in_range (n_alts r) (annotate_and_filter_record f r))
     ∧ forall i, (i < n_alts r)%nat ->
         exists rm kp mt : bool,
           verdict !! i = Some (vape_decision self rm kp mt)
           ∧ (rm = true <->
              (exists f, csq_filter self = Some f
                         ∧ (csq_filter_filter f r).1 !! i = Some true)
              ∨ exists f, f ∈ vcf_filters self
                  ∧ (annotate_and_filter_record f r).1.1 !! i = Some true)
           ∧ (kp = true <->
              exists f, f ∈ vcf_filters self
                ∧ (i < length (annotate_and_filter_record f r).1.1)%nat
                ∧ (annotate_and_filter_record f r).1.2 !! i = Some true)
           ∧ (mt = true <->
              exists f, f ∈ vcf_filters self
                ∧ (i < length (annotate_and_filter_record f r).1.1)%nat
                ∧ (annotate_and_filter_record f r).2 !! i = Some true)).
Proof.
  unfold vape_filter_alleles_external. intros Hrun.
  apply obind_inr in Hrun as ([[rm1 csq1] bail] & Hcsq & Hrun).
  assert (length rm1 = n_alts r
          ∧ (forall i, rm1 !! i = Some true <->
               exists f, csq_filter self = Some f
                         ∧ (csq_filter_filter f r).1 !! i = Some true)
          ∧ (bail = true ->
             clinvar_path (args self) = false ∧ csq_filter self ≠ None
             ∧ rm1 = replicate (n_alts r) true)) as (Hl1 & Hf1 & Hbail).
  { destruct (csq_filter self) as [f|].
    - destruct (csq_filter_filter f r) as [r_alts csq] eqn:Hf.
      apply obind_inr in Hcsq as (rm & Hloop & Hcsq).
      injection Hcsq as <- <- <-.
      apply flag_loop in Hloop as (Hlen & _ & Hflags).
      rewrite length_replicate in Hlen. split; [done|]. split.
      + intros i. rewrite Hflags, item_flag. split.
        * intros [Hrep | [_ Hv]].
          -- apply lookup_replicate in Hrep as [? _]. done.
          -- exists f. by rewrite Hf.
        * intros (g & [= <-] & Hv). rewrite Hf in Hv. simpl in Hv. right.
          split; [|done]. apply elem_of_seq.
          apply lookup_lt_Some in Hv. lia.
      + unfold bail_out, all_removed.
        rewrite andb_true_iff, negb_true_iff. intros [Hc Hall].
        split; [done|]. split; [done|]. rewrite <- Hlen.
        by apply all_filtered_true.
    - injection Hcsq as <- <- <-. rewrite length_replicate.
      split; [done|]. split; [|done].
      intros i. split.
      + intros Hrep. apply lookup_replicate in Hrep as [? _]. done.
      + by intros (g & ? & _). }
  clear Hcsq. cbn beta iota in Hrun. destruct bail.
  { injection Hrun as <- <-. destruct (Hbail eq_refl) as (Hc & Hf & ->).
    split; [by rewrite length_replicate|].
    intros [? | ?]; congruence. }
  clear Hbail.
  apply obind_inr in Hrun as ([[rm2 kp2] mt2] & Hvcf & Hrun).
  apply vape_vcf_loop_spec in Hvcf
    as (Hl2 & Hl3 & Hl4 & Hrange & Hf2 & Hf3 & Hf4);
    [|by rewrite length_replicate..].
  apply obind_inr in Hrun as (v & Hv & Hrun). injection Hrun as <- <-.
  destruct (vape_verdict_spec self rm2 kp2 mt2 ltac:(congruence)
              ltac:(congruence)) as (v' & Hv' & Hlv & Hlook).
  rewrite Hv in Hv'. injection Hv' as <-.
  split; [congruence|]. intros _. split.
  { intros f Hf. rewrite <- Hl1. by apply Hrange. }
  intros i Hi.
  destruct (lookup_lt_is_Some_2 rm2 i ltac:(lia)) as [a Ha].
  destruct (lookup_lt_is_Some_2 kp2 i ltac:(lia)) as [b Hb].
  destruct (lookup_lt_is_Some_2 mt2 i ltac:(lia)) as [c Hc].
  exists a, b, c. split; [by apply Hlook|].
  assert (Hrep : forall i, replicate (n_alts r) false !! i ≠ Some true).
  { intros j Hj. apply lookup_replicate in Hj as [? _]. done. }
  split; [|split].
  - rewrite <- Hf1. split.
    + intros ->. by apply Hf2.
    + intros Hx. apply Hf2 in Hx. congruence.
  - split.
    + intros ->. apply Hf3 in Hb as [Hb | ?]; [by destruct (Hrep i)|done].
    + intros Hx. assert (kp2 !! i = Some true) by (apply Hf3; by right).
      congruence.
  - split.
    + intros ->. apply Hf4 in Hc as [Hc | ?]; [by destruct (Hrep i)|done].
    + intros Hx. assert (mt2 !! i = Some true) by (apply Hf4; by right).
      congruence.
Qed.

End VapeTheorem.

Section VapeTheoremWitness.
Import Filters FilterSamples.

(** The filter of [with_keeper] keeps and matches both alleles and
    removes none: nothing is filtered. *)
Lemma vape_verdict_on_alleles_witness :
  vape_filter_alleles_external with_keeper snv_and_star
  = inr ([false; false], None)
  ∧ length [false; false] = n_alts snv_and_star
  ∧ forall f, f ∈ vcf_filters with_keeper ->
      answer_in_range (n_alts snv_and_star)
        (annotate_and_filter_record f snv_and_star).
Proof.
  assert (Hrun : vape_filter_alleles_external with_keeper snv_and_star
                 = inr ([false; false], None))
    by (vm_compute; reflexivity).
  split; [exact Hrun|].
  destruct (vape_verdict_on_alleles _ _ _ _ Hrun) as [Hlen Hrest].
  split; [exact Hlen|].
  destruct (Hrest (or_introl eq_refl)) as [Hrange _]. exact Hrange.
Defined.

End VapeTheoremWitness.
Section Trios.
Import Ped PedQueries Filters VapeSetup.

(** The words that [split] yields are not empty. *)
Lemma split_ws_nonempty (l : list ascii) :
  forall cur w, w ∈ split_ws l cur -> w ≠ [].
Proof.
  induction l as [|c l IH]; intros cur w; simpl.
  - destruct cur as [|c' cur]; [by intros Hin; apply elem_of_nil in Hin|].
    intros Hin. apply list_elem_of_singleton in Hin as ->.
    simpl. by destruct (rev cur).
  - destruct (is_space c).
    + destruct cur as [|c' cur]; [apply IH|].
      intros Hin. apply elem_of_cons in Hin as [-> | Hin]; [|by eapply IH].
      simpl. by destruct (rev cur).
    + apply IH.
Qed.

Lemma split_truthy (line c : string) :
  c ∈ split line -> scalar_truthy (SStr c) = true.
Proof.
  unfold split. intros Hin.
  apply list_elem_of_fmap in Hin as (w & -> & Hw).
  apply split_ws_nonempty in Hw. simpl.
  rewrite bool_decide_eq_false_2; [done|]. by destruct w.
Qed.

(** The parents of a row are true as values, ["0"] included. *)
Lemma line_row_truthy (line : string) (r : row) :
  line_row line = Some r ->
  scalar_truthy (r_mother r) && scalar_truthy (r_father r) = true.
Proof.
  unfold line_row, data_columns.
  destruct (is_comment _); [done|].
  destruct (rstrip (list_ascii_of_string line)) as [|a l] eqn:Hl; [done|].
  set (s := string_of_list_ascii (a :: l)).
  destruct (split s) as [|c0 [|c1 [|c2 [|c3 [|c4 [|c5 cols]]]]]] eqn:Hs;
    try done.
  intros [= <-]. cbn [r_mother r_father].
  rewrite (split_truthy s c3), (split_truthy s c2); [done|..];
    rewrite Hs; repeat first [apply list_elem_of_here
                             | apply list_elem_of_further].
Qed.

Lemma line_rows_truthy (fh : list string) (r : row) :
  r ∈ line_rows fh ->
  scalar_truthy (r_mother r) && scalar_truthy (r_father r) = true.
Proof.
  unfold line_rows. intros Hin.
  apply list_elem_of_omap in Hin as (line & _ & Hr).
  by eapply line_row_truthy.
Qed.

(** The index has the object of each row under the identifier of the
    row. *)
Lemma indexed_lookup (h : heap) (self : PedFile) (rows : list row) (r : row) :
  indexed h self rows -> r ∈ rows ->
  exists l, dict_get (individuals self) (r_iid r) = Some l
            ∧ carries (get_indiv h l) r.
Proof.
  intros [Hnd Hall] Hr.
  assert (exists kv, kv ∈ individuals self
                     ∧ kv.1 = r_iid r ∧ carries (get_indiv h kv.2) r)
    as ([k l] & Hin & Hk & Hc).
  { clear Hnd. induction Hall as [|kv r' d rows' (Hk & _ & Hc) Hall IH].
    - by apply elem_of_nil in Hr.
    - apply elem_of_cons in Hr as [-> | Hr].
      + exists kv. split; [apply list_elem_of_here|done].
      + destruct (IH Hr) as (kv' & Hin & ?). exists kv'.
        split; [by apply list_elem_of_further|done]. }
  simpl in *. subst k. exists l. split; [|done].
  by apply dict_get_elem.
Qed.

(** The loop over the affected individuals, for rows of the index. *)
Lemma trio_loop (h : heap) (self : PedFile) (samples : list string)
    (rows : list row) :
  (forall r, r ∈ rows ->
     scalar_truthy (r_mother r) && scalar_truthy (r_father r) = true
     ∧ exists l, dict_get (individuals self) (r_iid r) = Some l
                 ∧ carries (get_indiv h l) r) ->
  forall filters,
  for_each (map r_iid (List.filter row_affected rows))
    (trio_turn h self samples) filters
  = inr (filters ++ map trio_of_row (List.filter (row_trio samples) rows)).
Proof.
  induction rows as [|r rows IH]; intros Hrows filters; simpl.
  - by rewrite app_nil_r.
  - assert (Hrest : forall r', r' ∈ rows ->
              scalar_truthy (r_mother r') && scalar_truthy (r_father r') = true
              ∧ exists l, dict_get (individuals self) (r_iid r') = Some l
                          ∧ carries (get_indiv h l) r').
    { intros r' Hr'. by apply Hrows, list_elem_of_further. }
    destruct (Hrows r (list_elem_of_here _ _))
      as (Htruthy & l & Hget & (Hi & Hf & Hm & _)).
    unfold row_trio at 1. destruct (row_affected r); simpl; [|by apply IH].
    unfold trio_turn at 1.
    destruct (in_samples samples (r_iid r)); simpl; [|by apply IH].
    rewrite Hget, Hm, Hf, Htruthy.
    destruct (in_samples samples (r_mother r)
              && in_samples samples (r_father r)); simpl.
    + rewrite IH by done. by rewrite <- app_assoc.
    + by apply IH.
Qed.

End Trios.

(** X20.  The de novo filters of [VapeRunner] for a pedigree parsed from
    a file.  [_get_de_novo_filters] makes one filter for each line whose
    phenotype column denotes 2 and whose individual, mother and father are
    all names of samples of the VCF, in the order of the lines, with the
    identifiers of the line; a parent ["0"] counts as any other name.  When
    there is no such line it raises the exception about trios, and without
    a pedigree the exception that asks for one. *)
Theorem de_novo_trios_of_a_parsed_file (h h' : Ped.heap) (fname : string)
    (fh : list string) (ped : Ped.PedFile) (samples : list string) :
  Ped.PedFile__init__ h fname fh = inr (h', ped) ->
  let trios :=
    map trio_of_row (List.filter (row_trio samples) (line_rows fh)) in
  VapeSetup._get_de_novo_filters h' (Some ped) samples
  = (if bool_decide (trios = [])
     then inl (Raised (Exception VapeSetup.no_trios_msg))
     else inr trios)
  ∧ VapeSetup._get_de_novo_filters h' None samples
    = inl (Raised (Exception VapeSetup.no_ped_for_de_novo_msg)).
Proof.
  intros Hrun trios. split; [|done].
  unfold Ped.PedFile__init__ in Hrun.
  assert (indexed h' ped ([] ++ line_rows fh)) as Hidx.
  { eapply indexed_parse_ped; [exact Hrun|].
    split; [apply NoDup_nil_2 | constructor]. }
  simpl in Hidx.
  unfold VapeSetup._get_de_novo_filters, PedQueries.get_affected.
  rewrite (yielded_indexed Ped.is_affected row_affected h' ped
             (line_rows fh)); [|
    intros x r (_ & _ & _ & Hp & _);
    unfold Ped.is_affected, row_affected, denotes; by rewrite Hp | done].
  rewrite (trio_loop h' ped samples (line_rows fh)).
  - simpl. fold trios. destruct trios; done.
  - intros r Hr. split; [by eapply line_rows_truthy|].
    by eapply indexed_lookup.
Qed.

(** A child and its parents, all affected and all in the VCF, make one
    trio; the affected parents and the child without a father make
    none. *)
Lemma de_novo_trios_of_a_parsed_file_witness :
  exists h' ped,
    Ped.PedFile__init__ Ped.module_heap "f.ped" trio_lines = inr (h', ped)
    ∧ VapeSetup._get_de_novo_filters h' (Some ped) ["C"; "F"; "M"; "D"; "N"]
      = inr [ {| VapeSetup.child := Ped.SStr "C";
                 VapeSetup.trio_mother := Ped.SStr "M";
                 VapeSetup.trio_father := Ped.SStr "F" |} ].
Proof.
  destruct (Ped.PedFile__init__ Ped.module_heap "f.ped" trio_lines)
    as [e|[h' ped]] eqn:Hrun; [vm_compute in Hrun; discriminate|].
  exists h', ped. split; [reflexivity|].
  destruct (de_novo_trios_of_a_parsed_file _ _ _ _ _
              ["C"; "F"; "M"; "D"; "N"] Hrun) as [-> _].
  vm_compute. reflexivity.
Defined.
Section ExistingFrequencies.
Import Filters.
Context `{Externals}.

Lemma for_each_ext {A S} (l : list A) (body body' : A -> S -> outcome S) :
  (forall x s, body x s = body' x s) ->
  forall s, for_each l body s = for_each l body' s.
Proof.
  intros Hext. induction l as [|x l IH]; intros s; simpl; [done|].
  rewrite Hext. destruct (body' x s); simpl; [done|]. apply IH.
Qed.

Lemma insert_flag (l : list bool) (x i : nat) :
  <[x:=true]> l !! i = Some true <->
  l !! i = Some true ∨ (i = x ∧ (x < length l)%nat).
Proof.
  destruct (decide (i = x)) as [->|Hne].
  - destruct (decide (x < length l)%nat) as [Hlt|Hge].
    + rewrite list_lookup_insert_eq by done. split; auto.
    + rewrite list_insert_ge by lia. split; [by left|].
      intros [? | [_ ?]]; [done|lia].
  - rewrite list_lookup_insert_ne by done. split; [by left|].
    intros [? | [? _]]; done.
Qed.

(** The loop over the alleles for one annotation, in
    [filter_on_existing_freq] and [filter_on_existing_build]: [update]
    is what the two tests do to [remove] for a value, and [hit] says when
    they set the flag. *)
Lemma annotation_loop (l : list (option value)) (hit : value -> Prop)
    (update : value -> nat -> list bool -> outcome (list bool)) :
  (forall v i rm rm', update v i rm = inr rm' ->
     exists b : bool,
       rm' = (if b then <[i:=true]> rm else rm) ∧ (b = true <-> hit v)) ->
  forall idx rm mt rm' mt',
  length mt = length rm ->
  for_each idx
    (fun i '(remove, matched) =>
       do! x <- item l i;
       match x with
       | Some v =>
           do! remove <- update v i remove;
           inr (remove, <[i:=true]> matched)
       | None => inr (remove, matched)
       end)
    (rm, mt)
  = inr (rm', mt') ->
  length rm' = length rm ∧ length mt' = length rm
  ∧ (forall i, i ∈ idx -> (i < length l)%nat)
  ∧ (forall i, mt' !! i = Some true <->
       mt !! i = Some true
       ∨ ((i < length rm)%nat ∧ i ∈ idx
          ∧ exists v, l !! i = Some (Some v)))
  ∧ (forall i, rm' !! i = Some true <->
       rm !! i = Some true
       ∨ ((i < length rm)%nat ∧ i ∈ idx
          ∧ exists v, l !! i = Some (Some v) ∧ hit v)).
Proof.
  intros Hupdate.
  induction idx as [|x idx IH]; intros rm mt rm' mt' Hlen; simpl.
  - intros [= <- <-]. split; [done|]. split; [done|]. split.
    { intros i Hi. by apply elem_of_nil in Hi. }
    split; intros i; (split; [by left|]);
      intros [? | (_ & Hi & _)]; try done; by apply elem_of_nil in Hi.
  - intros Hrun. apply obind_inr in Hrun as ([rm1 mt1] & Hturn & Hrun).
    apply obind_inr in Hturn as (xv & Hx & Hturn).
    apply item_inr in Hx.
    assert (length rm1 = length rm ∧ length mt1 = length rm
            ∧ (forall i, mt1 !! i = Some true <->
                 mt !! i = Some true
                 ∨ (i = x ∧ (x < length rm)%nat
                    ∧ exists v, l !! x = Some (Some v)))
            ∧ (forall i, rm1 !! i = Some true <->
                 rm !! i = Some true
                 ∨ (i = x ∧ (x < length rm)%nat
                    ∧ exists v, l !! x = Some (Some v) ∧ hit v)))
      as (Hl1 & Hl2 & Hm1 & Hr1).
    { destruct xv as [v|].
      - apply obind_inr in Hturn as (rm2 & Hup & Hturn).
        injection Hturn as <- <-.
        destruct (Hupdate _ _ _ _ Hup) as (b & -> & Hb).
        split; [destruct b; by rewrite ?length_insert|].
        split; [by rewrite length_insert|]. split.
        + intros i. rewrite insert_flag, Hlen. split.
          * intros [? | [? ?]]; [by left|]. right. by eauto.
          * intros [? | (? & ? & _)]; [by left|]. by right.
        + intros i. destruct b.
          * rewrite insert_flag. split.
            -- intros [? | [? ?]]; [by left|]. right.
               split; [done|]. split; [done|]. exists v.
               split; [done|]. by apply Hb.
            -- intros [? | (? & ? & _)]; [by left|]. by right.
          * split; [by left|]. intros [? | (_ & _ & v' & Hv' & Hhit)];
              [done|].
            assert (v' = v) as -> by congruence.
            apply Hb in Hhit. done.
      - injection Hturn as <- <-. split; [done|]. split; [done|].
        split; intros i; (split; [by left|]).
        + intros [? | (_ & _ & v & Hv)]; [done|]. congruence.
        + intros [? | (_ & _ & v & Hv & _)]; [done|]. congruence. }
    assert (Hlen1 : length mt1 = length rm1) by lia.
    destruct (IH _ _ _ _ Hlen1 Hrun) as (Hl3 & Hl4 & Hidx & Hm & Hr).
    split; [lia|]. split; [lia|]. split.
    { intros i Hi. apply elem_of_cons in Hi as [-> | Hi]; [|by auto].
      by apply lookup_lt_Some in Hx. }
    split.
    + intros i. rewrite Hm, Hm1, Hl1. split.
      * intros [[? | (-> & ? & ?)] | (? & ? & ?)].
        -- by left.
        -- right. split; [done|]. split; [apply list_elem_of_here|done].
        -- right. split; [done|].
           split; [by apply list_elem_of_further|done].
      * intros [? | (? & Hi & ?)]; [by left; left|].
        apply elem_of_cons in Hi as [-> | Hi].
        -- left. right. done.
        -- right. done.
    + intros i. rewrite Hr, Hr1, Hl1. split.
      * intros [[? | (-> & ? & ?)] | (? & ? & ?)].
        -- by left.
        -- right. split; [done|]. split; [apply list_elem_of_here|done].
        -- right. split; [done|].
           split; [by apply list_elem_of_further|done].
      * intros [? | (? & Hi & ?)]; [by left; left|].
        apply elem_of_cons in Hi as [-> | Hi].
        -- left. right. done.
        -- right. done.
Qed.

(** The loop over the annotations. *)
Lemma annotations_loop (hit : value -> Prop)
    (update : value -> nat -> list bool -> outcome (list bool))
    (parsed : info_dict value) :
  (forall v i rm rm', update v i rm = inr rm' ->
     exists b : bool,
       rm' = (if b then <[i:=true]> rm else rm) ∧ (b = true <-> hit v)) ->
  forall rm mt rm' mt',
  length mt = length rm ->
  for_each parsed
    (fun '(annot, entry) st =>
       match entry with
       | None => inr st
       | Some l =>
           for_each (seq 0 (length st.1))
             (fun i '(remove, matched) =>
                do! x <- item l i;
                match x with
                | Some v =>
                    do! remove <- update v i remove;
                    inr (remove, <[i:=true]> matched)
                | None => inr (remove, matched)
                end)
             st
       end)
    (rm, mt)
  = inr (rm', mt') ->
  length rm' = length rm ∧ length mt' = length rm
  ∧ (forall annot l, (annot, Some l) ∈ parsed ->
       (length rm <= length l)%nat)
  ∧ (forall i, mt' !! i = Some true <->
       mt !! i = Some true
       ∨ ((i < length rm)%nat
          ∧ exists annot l v,
              (annot, Some l) ∈ parsed ∧ l !! i = Some (Some v)))
  ∧ (forall i, rm' !! i = Some true <->
       rm !! i = Some true
       ∨ ((i < length rm)%nat
          ∧ exists annot l v,
              (annot, Some l) ∈ parsed ∧ l !! i = Some (Some v) ∧ hit v)).
Proof.
  intros Hupdate.
  induction parsed as [|[annot [l|]] parsed IH]; intros rm mt rm' mt' Hlen;
    simpl.
  - intros [= <- <-]. split; [done|]. split; [done|]. split.
    { intros ? ? Hin. by apply elem_of_nil in Hin. }
    split; intros i; (split; [by left|]);
      intros [? | (_ & ? & ? & ? & Hin & _)]; try done;
      by apply elem_of_nil in Hin.
  - intros Hrun. apply obind_inr in Hrun as ([rm1 mt1] & Hturn & Hrun).
    apply (annotation_loop l hit update Hupdate) in Hturn
      as (Hl1 & Hl2 & Hidx & Hm1 & Hr1); [|done].
    assert (Hlen1 : length mt1 = length rm1) by lia.
    destruct (IH _ _ _ _ Hlen1 Hrun) as (Hl3 & Hl4 & Hlong & Hm & Hr).
    assert (Hseq : forall i, (i < length rm)%nat ->
                             i ∈ seq 0 (length rm)).
    { intros i Hi. apply elem_of_seq. lia. }
    split; [lia|]. split; [lia|]. split.
    { intros annot' l' Hin. apply elem_of_cons in Hin as [[= -> ->] | Hin].
      - destruct (decide (length rm = 0)%nat) as [->|Hne]; [lia|].
        assert (Hlast : (length rm - 1 < length rm)%nat) by lia.
        pose proof (Hidx _ (Hseq _ Hlast)). lia.
      - rewrite <- Hl1. by eapply Hlong. }
    split.
    + intros i. rewrite Hm, Hm1, Hl1. split.
      * intros [[? | (? & _ & v & ?)] | (? & a & l' & v & Hin & ?)].
        -- by left.
        -- right. split; [done|]. exists annot, l, v.
           split; [apply list_elem_of_here|done].
        -- right. split; [done|]. exists a, l', v.
           split; [by apply list_elem_of_further|done].
      * intros [? | (Hi & a & l' & v & Hin & Hv)]; [by left; left|].
        apply elem_of_cons in Hin as [[= -> ->] | Hin].
        -- left. right. split; [done|]. split; [by apply Hseq|].
           by exists v.
        -- right. split; [done|]. by exists a, l', v.
    + intros i. rewrite Hr, Hr1, Hl1. split.
      * intros [[? | (? & _ & v & ?)] | (? & a & l' & v & Hin & ?)].
        -- by left.
        -- right. split; [done|]. exists annot, l, v.
           split; [apply list_elem_of_here|done].
        -- right. split; [done|]. exists a, l', v.
           split; [by apply list_elem_of_further|done].
      * intros [? | (Hi & a & l' & v & Hin & Hv)]; [by left; left|].
        apply elem_of_cons in Hin as [[= -> ->] | Hin].
        -- left. right. split; [done|]. split; [by apply Hseq|].
           by exists v.
        -- right. split; [done|]. by exists a, l', v.
  - intros Hrun. destruct (IH _ _ _ _ Hlen Hrun)
      as (Hl3 & Hl4 & Hlong & Hm & Hr).
    split; [done|]. split; [done|]. split.
    { intros annot' l' Hin. apply elem_of_cons in Hin as [[=] | Hin].
      by eapply Hlong. }
    split.
    + intros i. rewrite Hm. split.
      * intros [? | (? & a & l' & v & Hin & ?)]; [by left|].
        right. split; [done|]. exists a, l', v.
        split; [by apply list_elem_of_further|done].
      * intros [? | (? & a & l' & v & Hin & ?)]; [by left|].
        apply elem_of_cons in Hin as [[=] | Hin].
        right. split; [done|]. by exists a, l', v.
    + intros i. rewrite Hr. split.
      * intros [? | (? & a & l' & v & Hin & ?)]; [by left|].
        right. split; [done|]. exists a, l', v.
        split; [by apply list_elem_of_further|done].
      * intros [? | (? & a & l' & v & Hin & ?)]; [by left|].
        apply elem_of_cons in Hin as [[=] | Hin].
        right. split; [done|]. by exists a, l', v.
Qed.

(** Two tests one after the other set the flag when one of them does. *)
Lemma two_tests (t1 t2 : outcome bool) (i : nat) (rm rm' : list bool) :
  (do! remove <-
     (do! remove <-
        (do! c <- t1; inr (if c : bool then <[i:=true]> rm else rm));
      do! c <- t2; inr (if c : bool then <[i:=true]> remove else remove));
   inr remove) = inr rm' ->
  exists c1 c2 : bool,
    t1 = inr c1 ∧ t2 = inr c2
    ∧ rm' = (if c1 || c2 then <[i:=true]> rm else rm).
Proof.
  destruct t1 as [e|c1]; simpl; [done|].
  destruct t2 as [e|c2]; simpl; [done|].
  intros [= <-]. exists c1, c2. split; [done|]. split; [done|].
  destruct c1, c2; simpl; try done. by rewrite list_insert_insert_eq.
Qed.

End ExistingFrequencies.
Section ExistingTheorem.
Import Filters.
Context `{Externals}.

(** A test under [if self.args.option:]. *)
Lemma guarded_test (x : option number) (op : value -> number -> outcome bool)
    (v : value) (i : nat) (rm : list bool) :
  (if given x
   then do! c <- compare op v x;
        inr (if c : bool then <[i:=true]> rm else rm)
   else inr rm)
  = do! c <- (if given x then compare op v x else inr false);
    inr (if c : bool then <[i:=true]> rm else rm).
Proof. by destruct (given x). Qed.

Lemma guarded_hit (x : option number) (op : value -> number -> outcome bool)
    (v : value) (c : bool) :
  (if given x then compare op v x else inr false) = inr c ->
  c = true <-> given x = true ∧ compare op v x = inr true.
Proof.
  destruct (given x).
  - intros ->. split; [by intros ->|]. by intros [_ [= ->]].
  - intros [= <-]. split; [done|]. by intros [? _].
Qed.

(** X21.  What [VaseRunner.filter_on_existing_freq] and
    [filter_on_existing_build] return, when they return.  An allele is
    matched when some annotation of the input has a value for it.  It is
    removed by the first method when such a value is at or above [--freq]
    or below [--min_freq], and by the second when such a value is at or
    below [--build], or above [--max_build] if [--min_freq] is given; an
    option that is zero or not given tests nothing.  Every annotation that
    is not [None] has an entry for each allele: a shorter one raises
    [IndexError]. *)
Theorem existing_annotations_filter (self : Runner) (r : VcfRecord) :
  (forall result,
     filter_on_existing_freq self r = inr result ->
     annotations_say r (prev_freqs self)
       (fun v =>
          (given (freq (args self)) = true
           ∧ compare ge v (freq (args self)) = inr true)
          ∨ (given (min_freq (args self)) = true
             ∧ compare lt v (min_freq (args self)) = inr true))
       result)
  ∧ (forall result,
       filter_on_existing_build self r = inr result ->
       annotations_say r (prev_builds self)
         (fun v =>
            (given (build (args self)) = true
             ∧ compare le v (build (args self)) = inr true)
            ∨ (given (min_freq (args self)) = true
               ∧ compare gt v (max_build (args self)) = inr true))
         result).
Proof.
  assert (Hgen : forall (x1 x2 y2 : option number)
                   (op1 op2 : value -> number -> outcome bool)
                   (parsed : info_dict value) (result : list bool * list bool),
    for_each parsed
      (fun '(annot, entry) st =>
         match entry with
         | None => inr st
         | Some l =>
             for_each (seq 0 (length st.1))
               (fun i '(remove, matched) =>
                  do! x <- item l i;
                  match x with
                  | Some v =>
                      let matched := <[i:=true]> matched in
                      do! remove <-
                        (if given x1 then
                           do! c <- compare op1 v x1;
                           inr (if c : bool then <[i:=true]> remove
                                else remove)
                         else inr remove);
                      do! remove <-
                        (if given x2 then
                           do! c <- compare op2 v y2;
                           inr (if c : bool then <[i:=true]> remove
                                else remove)
                         else inr remove);
                      inr (remove, matched)
                  | None => inr (remove, matched)
                  end)
               st
         end)
      (replicate (n_alts r) false, replicate (n_alts r) false)
    = inr result ->
    length result.1 = n_alts r ∧ length result.2 = n_alts r
    ∧ (forall annot l, (annot, Some l) ∈ parsed ->
         (n_alts r <= length l)%nat)
    ∧ (forall i, result.2 !! i = Some true <->
         (i < n_alts r)%nat
         ∧ exists annot l v,
             (annot, Some l) ∈ parsed ∧ l !! i = Some (Some v))
    ∧ (forall i, result.1 !! i = Some true <->
         (i < n_alts r)%nat
         ∧ exists annot l v,
             (annot, Some l) ∈ parsed ∧ l !! i = Some (Some v)
             ∧ ((given x1 = true ∧ compare op1 v x1 = inr true)
                ∨ (given x2 = true ∧ compare op2 v y2 = inr true)))).
  { intros x1 x2 y2 op1 op2 parsed [rm mt] Hrun.
    set (update := fun (v : value) (i : nat) (remove : list bool) =>
           do! remove <-
             (do! remove <-
                (do! c <- (if given x1 then compare op1 v x1 else inr false);
                 inr (if c : bool then <[i:=true]> remove else remove));
              do! c <- (if given x2 then compare op2 v y2 else inr false);
              inr (if c : bool then <[i:=true]> remove else remove));
           inr remove).
    assert (Hupdate : forall v i rm0 rm',
              update v i rm0 = inr rm' ->
              exists b : bool,
                rm' = (if b then <[i:=true]> rm0 else rm0)
                ∧ (b = true <->
                   (given x1 = true ∧ compare op1 v x1 = inr true)
                   ∨ (given x2 = true ∧ compare op2 v y2 = inr true))).
    { intros v i rm0 rm' Hup. unfold update in Hup.
      apply two_tests in Hup as (c1 & c2 & H1 & H2 & ->).
      exists (c1 || c2). split; [done|].
      rewrite orb_true_iff.
      assert (Hc2 : c2 = true <->
                    given x2 = true ∧ compare op2 v y2 = inr true).
      { destruct (given x2).
        - rewrite H2. split; [by intros ->|]. by intros [_ [= ->]].
        - injection H2 as <-. split; [done|]. by intros [? _]. }
      by rewrite (guarded_hit x1 op1 v c1 H1), Hc2. }
    rewrite (for_each_ext parsed _
               (fun '(annot, entry) st =>
                  match entry with
                  | None => inr st
                  | Some l =>
                      for_each (seq 0 (length st.1))
                        (fun i '(remove, matched) =>
                           do! x <- item l i;
                           match x with
                           | Some v =>
                               do! remove <- update v i remove;
                               inr (remove, <[i:=true]> matched)
                           | None => inr (remove, matched)
                           end)
                        st
                  end)) in Hrun.
    2: { intros [annot [l|]] st; [|done].
         apply for_each_ext. intros i [remove matched].
         destruct (item l i) as [e|[v|]]; simpl; [done| |done].
         unfold update. rewrite !guarded_test.
         destruct (given x1); [destruct (compare op1 v x1) as [e|c1]|];
           simpl; try done;
           (destruct (given x2); [destruct (compare op2 v y2) as [e|c2]|];
            simpl; done). }
    apply (annotations_loop _ update parsed Hupdate) in Hrun
      as (Hl1 & Hl2 & Hlong & Hm & Hr); [|done].
    rewrite length_replicate in *. simpl.
    split; [done|]. split; [done|]. split; [done|]. split.
    - intros i. rewrite Hm. split; [|by right].
      intros [Hrep | ?]; [|done].
      apply lookup_replicate in Hrep as [? _]. done.
    - intros i. rewrite Hr. split; [|by right].
      intros [Hrep | ?]; [|done].
      apply lookup_replicate in Hrep as [? _]. done. }
  split.
  - intros result Hrun. by apply (Hgen _ _ _ _ _ _ _ Hrun).
  - intros result Hrun. by apply (Hgen _ _ _ _ _ _ _ Hrun).
Qed.

End ExistingTheorem.

Section ExistingTheoremWitness.
Import Filters FilterSamples.

(** The value 150 of both alleles is above [--freq 100]: both are matched
    and removed. *)
Lemma existing_annotations_filter_witness :
  filter_on_existing_freq with_freq_field snv_and_star
  = inr ([true; true], [true; true])
  ∧ annotations_say snv_and_star (prev_freqs with_freq_field)
      (fun v =>
         (given (freq (args with_freq_field)) = true
          ∧ compare ge v (freq (args with_freq_field)) = inr true)
         ∨ (given (min_freq (args with_freq_field)) = true
            ∧ compare lt v (min_freq (args with_freq_field)) = inr true))
      ([true; true], [true; true]).
Proof.
  assert (Hrun : filter_on_existing_freq with_freq_field snv_and_star
                 = inr ([true; true], [true; true]))
    by (vm_compute; reflexivity).
  split; [exact Hrun|].
  destruct (existing_annotations_filter with_freq_field snv_and_star)
    as [Hfreq _].
  exact (Hfreq _ Hrun).
Defined.

End ExistingTheoremWitness.
Section RecordValues.
Import Filters.
Context `{Externals}.

(** A loop that sets the flag of each index for which [g] answers
    true, by [alist[i] = True] for an index of the list. *)
Lemma insert_loop (g : nat -> outcome bool) (idx : list nat) :
  forall l l',
  for_each idx
    (fun i l => do! c <- g i; inr (if c : bool then <[i:=true]> l else l)) l
  = inr l' ->
  length l' = length l
  ∧ (forall i, i ∈ idx -> exists c, g i = inr c)
  ∧ forall i, l' !! i = Some true <->
              l !! i = Some true
              ∨ ((i < length l)%nat ∧ i ∈ idx ∧ g i = inr true).
Proof.
  induction idx as [|x idx IH]; intros l l'; simpl.
  - intros [= <-]. split; [done|]. split.
    + intros i Hi. by apply elem_of_nil in Hi.
    + intros i. split; [by left|]. intros [? | (_ & Hi & _)]; [done|].
      by apply elem_of_nil in Hi.
  - intros Hrun. apply obind_inr in Hrun as (l1 & Hturn & Hrun).
    apply obind_inr in Hturn as (c & Hc & Hturn). injection Hturn as <-.
    destruct (IH _ _ Hrun) as (Hlen & Hidx & Hflags).
    assert (Hlen1 : length (if c then <[x:=true]> l else l) = length l).
    { destruct c; by rewrite ?length_insert. }
    split; [congruence|]. split.
    + intros i Hi. apply elem_of_cons in Hi as [-> | Hi]; [by exists c|].
      by apply Hidx.
    + intros i. rewrite Hflags, Hlen1. split.
      * intros [Hi | (? & ? & ?)].
        -- destruct c; [|by left]. apply insert_flag in Hi as [? | [-> ?]];
             [by left|].
           right. split; [done|]. split; [apply list_elem_of_here|done].
        -- right. split; [done|].
           split; [by apply list_elem_of_further|done].
      * intros [Hi | (? & Hi & Hg)].
        -- left. destruct c; [|done]. apply insert_flag. by left.
        -- apply elem_of_cons in Hi as [-> | Hi].
           ++ left. assert (c = true) as -> by congruence.
              apply insert_flag. by right.
           ++ right. done.
Qed.

End RecordValues.

Section RecordValuesTheorem.
Import Filters.
Context `{Externals}.

Lemma cadd_spec (field : string) (cutoff : option number) (r : VcfRecord)
    (remove : list bool) :
  filter_on_existing_cadd field cutoff r = inr remove ->
  scores_say r field cutoff remove.
Proof.
  unfold filter_on_existing_cadd, scores_say.
  destruct (dict_has (parsed_info_fields r [field]) field) eqn:Hhas.
  2: { intros [= <-]. rewrite length_replicate. by repeat split. }
  rewrite length_replicate. intros Hrun.
  destruct (dict_item (parsed_info_fields r [field]) field) as [e|entry]
    eqn:Hentry.
  { exfalso. clear Hrun. unfold dict_has in Hhas.
    apply bool_decide_eq_true in Hhas.
    induction (parsed_info_fields r [field]) as [|[k v] d IH];
      simpl in *; [by apply elem_of_nil in Hhas|].
    destruct (decide (k = field)) as [->|Hne].
    - by rewrite bool_decide_eq_true_2 in Hentry.
    - rewrite bool_decide_eq_false_2 in Hentry by done.
      apply elem_of_cons in Hhas as [-> | Hhas]; [done|]. by apply IH. }
  set (g := fun i : nat =>
         do! x <- subscript entry i;
         match x with
         | Some v => compare lt v cutoff
         | None => inr false
         end).
  rewrite (for_each_ext _ _
             (fun i l => do! c <- g i;
                         inr (if c : bool then <[i:=true]> l else l)))
    in Hrun.
  2: { intros i rm. simpl. unfold g.
       destruct (subscript entry i) as [e|[v|]]; simpl; try done;
         try (by destruct (compare lt v cutoff)). }
  apply insert_loop in Hrun as (Hlen & Hidx & Hflags).
  rewrite length_replicate in *.
  split; [done|]. split; [done|]. intros _. exists entry.
  split; [done|]. intros i Hi.
  destruct (Hidx i) as (c & Hc); [apply elem_of_seq; lia|].
  unfold g in Hc. destruct entry as [l|]; [|done]. simpl in Hc.
  destruct (item l i) as [e|x] eqn:Hx; [done|]. simpl in Hc.
  apply item_inr in Hx. exists l, x. split; [done|]. split; [done|].
  rewrite Hflags. split.
  - intros [Hrep | (_ & _ & Hg)].
    { apply lookup_replicate in Hrep as [? _]. done. }
    unfold g in Hg. simpl in Hg. apply item_inr in Hx. rewrite Hx in Hg.
    simpl in Hg. destruct x as [v|]; [|done]. by exists v.
  - intros (v & -> & Hv). right. split; [done|].
    split; [apply elem_of_seq; lia|]. unfold g. simpl.
    apply item_inr in Hx. by rewrite Hx.
Qed.

(** X22.  The filters on the values that the record itself carries, when
    they return.  [VaseRunner.filter_on_af] needs the field [AF] (without
    it [KeyError]) and, when [--af] or [--min_af] is given, a value or
    [None] for each allele; an allele without a value is removed exactly
    when [--min_af] is given, an allele with a value when the value is
    above [--af] or below [--min_af]; an option that is zero or not given
    tests nothing.  [filter_on_existing_cadd_phred] and
    [filter_on_existing_cadd_raw] remove an allele exactly when its score
    is below the cutoff; an allele without a score, or a record without
    the field, is never removed. *)
Theorem record_values_filter (self : Runner) (r : VcfRecord) :
  (forall remove,
     filter_on_af self r = inr remove ->
     length remove = n_alts r
     ∧ exists af_,
         dict_item (parsed_info_fields r ["AF"]) "AF" = inr af_
         ∧ forall i, (i < n_alts r)%nat ->
             given (af (args self)) || given (min_af (args self)) = true ->
             exists l x,
               af_ = Some l ∧ l !! i = Some x
               ∧ (remove !! i = Some true <->
                  match x with
                  | None => given (min_af (args self)) = true
                  | Some v =>
                      (given (af (args self)) = true
                       ∧ compare gt v (af (args self)) = inr true)
                      ∨ (given (min_af (args self)) = true
                         ∧ compare lt v (min_af (args self)) = inr true)
                  end))
  ∧ (forall remove,
       filter_on_existing_cadd_phred self r = inr remove ->
       scores_say r "CADD_PHRED_score" (cadd_phred (args self)) remove)
  ∧ (forall remove,
       filter_on_existing_cadd_raw self r = inr remove ->
       scores_say r "CADD_raw_score" (cadd_raw (args self)) remove).
Proof.
  split; [|split; intros remove; apply cadd_spec].
  intros remove Hrun. unfold filter_on_af in Hrun.
  apply obind_inr in Hrun as (af_ & Haf & Hrun).
  rewrite length_replicate in Hrun.
  set (g := fun i : nat =>
         do! c1 <-
           (if given (af (args self)) then
              do! x <- subscript af_ i;
              match x with
              | Some v => compare gt v (af (args self))
              | None => inr false
              end
            else inr false);
         do! c2 <-
           (if given (min_af (args self)) then
              do! x <- subscript af_ i;
              match x with
              | Some v => compare lt v (min_af (args self))
              | None => inr true
              end
            else inr false);
         inr (c1 || c2)).
  rewrite (for_each_ext _ _
             (fun i l => do! c <- g i;
                         inr (if c : bool then <[i:=true]> l else l)))
    in Hrun.
  2: { intros i rm. unfold g.
       destruct (given (af (args self))), (given (min_af (args self)));
         simpl; try done.
       - destruct (subscript af_ i) as [e|[v|]]; simpl; try done.
         destruct (compare gt v (af (args self))) as [e|[|]]; simpl;
           try done;
           destruct (compare lt v (min_af (args self))) as [e|[|]];
           simpl; try done.
         by rewrite list_insert_insert_eq.
       - destruct (subscript af_ i) as [e|[v|]]; simpl; try done.
         destruct (compare gt v (af (args self))) as [e|[|]]; by simpl.
       - destruct (subscript af_ i) as [e|[v|]]; simpl; try done.
         destruct (compare lt v (min_af (args self))) as [e|[|]]; by simpl. }
  apply insert_loop in Hrun as (Hlen & Hidx & Hflags).
  rewrite length_replicate in *. split; [done|].
  exists af_. split; [done|]. intros i Hi Hgiven.
  destruct (Hidx i) as (c & Hc); [apply elem_of_seq; lia|].
  assert (Hflag : remove !! i = Some true <-> g i = inr true).
  { rewrite Hflags. split.
    - intros [Hrep | (_ & _ & ?)]; [|done].
      apply lookup_replicate in Hrep as [? _]. done.
    - intros Hg. right. split; [done|]. split; [|done].
      apply elem_of_seq. lia. }
  assert (exists l x, af_ = Some l ∧ l !! i = Some x) as (l & x & -> & Hx).
  { unfold g in Hc.
    destruct (given (af (args self))); simpl in *.
    - destruct af_ as [l|]; [|done]. simpl in Hc.
      destruct (item l i) as [e|x] eqn:Hx; [done|]. apply item_inr in Hx.
      by exists l, x.
    - rewrite Hgiven in Hc. destruct af_ as [l|]; [|done]. simpl in Hc.
      destruct (item l i) as [e|x] eqn:Hx; [done|]. apply item_inr in Hx.
      by exists l, x. }
  exists l, x. split; [done|]. split; [done|].
  rewrite Hflag. unfold g in *. simpl in *. apply item_inr in Hx.
  rewrite Hx in *. simpl in *. clear Hflag Hflags Hidx Hgiven.
  apply obind_inr in Hc as (c1 & H1 & Hc).
  apply obind_inr in Hc as (c2 & H2 & Hc). injection Hc as <-.
  rewrite H1, H2. simpl.
  assert (inr (c1 || c2) = (inr true : outcome bool)
          <-> c1 = true ∨ c2 = true) as ->.
  { rewrite <- orb_true_iff. split; [by intros [= ->]|by intros ->]. }
  destruct x as [v|].
  - rewrite (guarded_hit _ gt v c1 H1), (guarded_hit _ lt v c2 H2). done.
  - destruct (given (af (args self))); injection H1 as <-;
      destruct (given (min_af (args self))); injection H2 as <-;
      intuition congruence.
Qed.

End RecordValuesTheorem.

Section RecordValuesWitness.
Import Filters FilterSamples.

(** The value 150 of both alleles is below [--min_af 200]. *)
Lemma record_values_filter_witness :
  filter_on_af with_min_af snv_and_star = inr [true; true]
  ∧ length [true; true] = n_alts snv_and_star.
Proof.
  assert (Hrun : filter_on_af with_min_af snv_and_star = inr [true; true])
    by (vm_compute; reflexivity).
  split; [exact Hrun|].
  destruct (record_values_filter with_min_af snv_and_star) as [Haf _].
  destruct (Haf _ Hrun) as [Hlen _]. exact Hlen.
Defined.

End RecordValuesWitness.
